(** * The go-redis connection pool (package [pool]), embedded in Rocq

    The embedding follows [pool.go]: the [ConnPool] struct is a record, every
    method is a function in a small state monad over a [World] (the pool, the
    heap of [Conn] objects, the clock and the goroutines that were spawned
    and have not run yet).  A nil [list.List] pointer is [None]; calling a method of
    [container/list] on it dereferences nil and panics, which the monad
    records.  Receiving from an empty channel, or sending to a full one,
    blocks the calling goroutine.

    The 64-bit [int] counters [poolSize] and [idleConnsLen] are kept as
    mathematical integers: they only move by one per connection or goroutine,
    so their wrap-around is out of reach.  The [uint32] counters touched with
    [atomic.AddUint32] wrap modulo 2^32 as in Go. *)

From Stdlib Require Import ZArith.
From stdpp Require Import base gmap list.

Open Scope Z_scope.

(** ** Errors and integers *)

Inductive error :=
| ErrClosed
| ErrPoolTimeout
| ContextCanceled
| ContextDeadlineExceeded
| BadConnError
| DialError (code : nat)
| NetError (code : nat).

#[global] Instance error_eq_dec : EqDecision error.
Proof. solve_decision. Defined.

Definition uint32 (z : Z) : Z := z mod 2 ^ 32.
Definition int32 (z : Z) : Z := (z + 2 ^ 31) mod 2 ^ 32 - 2 ^ 31.

Definition AddUint32 (x delta : Z) : Z := uint32 (x + delta).
Definition AddInt32 (x delta : Z) : Z := int32 (x + delta).

(** ** Data *)

(** A pointer to a [Conn]; [0] is the nil pointer, and only allocated pointers are in the heap. *)
Definition ptr := nat.
Definition nil_ptr : ptr := 0%nat.

(** Modelled from the spec: the [Conn] type of conn.go (not part of the
    sources at hand), with the attributes the pool observes: the socket,
    the pooled flag, the two timestamps and the number of unread buffered
    bytes of its reader. *)
Record Conn := mkConn {
  netConn : nat;
  pooled : bool;
  createdAt : Z;
  usedAt : Z;
  rdBuffered : Z
}.

Definition Conn_set_pooled (b : bool) (c : Conn) : Conn :=
  mkConn (netConn c) b (createdAt c) (usedAt c) (rdBuffered c).
Definition Conn_SetUsedAt (t : Z) (c : Conn) : Conn :=
  mkConn (netConn c) (pooled c) (createdAt c) t (rdBuffered c).
Definition Conn_set_rdBuffered (n : Z) (c : Conn) : Conn :=
  mkConn (netConn c) (pooled c) (createdAt c) (usedAt c) n.

Record Stats := mkStats {
  Hits : Z;
  Misses : Z;
  Timeouts : Z;
  TotalConns : Z;
  IdleConns : Z;
  StaleConns : Z
}.

(** [Dialer k] is the outcome of the [k]-th call of the user's dialer
    ([None]: a socket, whose identity is [k]). *)
Record Options := mkOptions {
  Dialer : nat -> option error;
  PoolFIFO : bool;
  PoolSize : Z;
  PoolTimeout : Z;
  MinIdleConns : Z;
  MaxIdleConns : Z;
  ConnMaxIdleTime : Z;
  ConnMaxLifetime : Z
}.

Record ConnPool := mkConnPool {
  cfg : Options;
  dialErrorsNum : Z;
  lastDialError : option error;
  queue : Z;
  conns : option (list ptr);
  idleConns : option (list ptr);
  poolSize : Z;
  idleConnsLen : Z;
  stats : Stats;
  _closed : Z
}.

(** Goroutines started with [go] that have not run yet. *)
Inductive goroutine :=
| GoFiller
| GoFillerAttach (cn : ptr)
| GoCloseConn (cn : ptr)
| GoTryDial.

#[global] Instance goroutine_eq_dec : EqDecision goroutine.
Proof. solve_decision. Defined.

(** What the pool cannot decide by itself: the socket probe of conn_check.go
    and the result of closing a socket ([netClose s k]: closing socket [s]
    when it has been closed [k] times before). *)
Record Env := mkEnv {
  connCheck : nat -> Z -> option error;
  netClose : nat -> nat -> option error
}.

(** The pool and its surroundings.  [dials], [netClosed] and [popCalls] are
    ghost: the number of dialer calls, the sockets closed so far (one entry
    per call of Close) and the number of calls of [popIdle]. *)
Record World := mkWorld {
  pool : ConnPool;
  heap : gmap nat Conn;
  nextPtr : ptr;
  clock : Z;
  env : Env;
  goroutines : list goroutine;
  dials : nat;
  netClosed : list nat;
  popCalls : nat
}.

(** *** Field updates *)

Definition set_dialErrorsNum (v : Z) (p : ConnPool) : ConnPool :=
  mkConnPool (cfg p) v (lastDialError p) (queue p) (conns p) (idleConns p)
             (poolSize p) (idleConnsLen p) (stats p) (_closed p).
Definition set_lastDialError (v : option error) (p : ConnPool) : ConnPool :=
  mkConnPool (cfg p) (dialErrorsNum p) v (queue p) (conns p) (idleConns p)
             (poolSize p) (idleConnsLen p) (stats p) (_closed p).
Definition set_queue (v : Z) (p : ConnPool) : ConnPool :=
  mkConnPool (cfg p) (dialErrorsNum p) (lastDialError p) v (conns p) (idleConns p)
             (poolSize p) (idleConnsLen p) (stats p) (_closed p).
Definition set_conns (v : option (list ptr)) (p : ConnPool) : ConnPool :=
  mkConnPool (cfg p) (dialErrorsNum p) (lastDialError p) (queue p) v (idleConns p)
             (poolSize p) (idleConnsLen p) (stats p) (_closed p).
Definition set_idleConns (v : option (list ptr)) (p : ConnPool) : ConnPool :=
  mkConnPool (cfg p) (dialErrorsNum p) (lastDialError p) (queue p) (conns p) v
             (poolSize p) (idleConnsLen p) (stats p) (_closed p).
Definition set_poolSize (v : Z) (p : ConnPool) : ConnPool :=
  mkConnPool (cfg p) (dialErrorsNum p) (lastDialError p) (queue p) (conns p) (idleConns p)
             v (idleConnsLen p) (stats p) (_closed p).
Definition set_idleConnsLen (v : Z) (p : ConnPool) : ConnPool :=
  mkConnPool (cfg p) (dialErrorsNum p) (lastDialError p) (queue p) (conns p) (idleConns p)
             (poolSize p) v (stats p) (_closed p).
Definition set_stats (v : Stats) (p : ConnPool) : ConnPool :=
  mkConnPool (cfg p) (dialErrorsNum p) (lastDialError p) (queue p) (conns p) (idleConns p)
             (poolSize p) (idleConnsLen p) v (_closed p).
Definition set_closed (v : Z) (p : ConnPool) : ConnPool :=
  mkConnPool (cfg p) (dialErrorsNum p) (lastDialError p) (queue p) (conns p) (idleConns p)
             (poolSize p) (idleConnsLen p) (stats p) v.

Definition set_Hits (v : Z) (s : Stats) : Stats :=
  mkStats v (Misses s) (Timeouts s) (TotalConns s) (IdleConns s) (StaleConns s).
Definition set_Misses (v : Z) (s : Stats) : Stats :=
  mkStats (Hits s) v (Timeouts s) (TotalConns s) (IdleConns s) (StaleConns s).
Definition set_Timeouts (v : Z) (s : Stats) : Stats :=
  mkStats (Hits s) (Misses s) v (TotalConns s) (IdleConns s) (StaleConns s).
Definition set_StaleConns (v : Z) (s : Stats) : Stats :=
  mkStats (Hits s) (Misses s) (Timeouts s) (TotalConns s) (IdleConns s) v.

Definition with_pool (f : ConnPool -> ConnPool) (w : World) : World :=
  mkWorld (f (pool w)) (heap w) (nextPtr w) (clock w) (env w) (goroutines w)
          (dials w) (netClosed w) (popCalls w).
Definition set_heap (h : gmap nat Conn) (w : World) : World :=
  mkWorld (pool w) h (nextPtr w) (clock w) (env w) (goroutines w)
          (dials w) (netClosed w) (popCalls w).
Definition set_nextPtr (n : ptr) (w : World) : World :=
  mkWorld (pool w) (heap w) n (clock w) (env w) (goroutines w)
          (dials w) (netClosed w) (popCalls w).
Definition set_clock (t : Z) (w : World) : World :=
  mkWorld (pool w) (heap w) (nextPtr w) t (env w) (goroutines w)
          (dials w) (netClosed w) (popCalls w).
Definition set_goroutines (g : list goroutine) (w : World) : World :=
  mkWorld (pool w) (heap w) (nextPtr w) (clock w) (env w) g
          (dials w) (netClosed w) (popCalls w).
Definition set_dials (n : nat) (w : World) : World :=
  mkWorld (pool w) (heap w) (nextPtr w) (clock w) (env w) (goroutines w)
          n (netClosed w) (popCalls w).
Definition set_netClosed (l : list nat) (w : World) : World :=
  mkWorld (pool w) (heap w) (nextPtr w) (clock w) (env w) (goroutines w)
          (dials w) l (popCalls w).
Definition set_popCalls (n : nat) (w : World) : World :=
  mkWorld (pool w) (heap w) (nextPtr w) (clock w) (env w) (goroutines w)
          (dials w) (netClosed w) n.

(** [go f]: the goroutine is recorded and runs later. *)
Definition go (g : goroutine) (w : World) : World :=
  set_goroutines (goroutines w ++ [g]) w.

(** ** The monad of pool methods *)

Inductive Res (A : Type) :=
| Returns (a : A) (w : World)
| Panics
| Blocks (w : World)
| OutOfFuel.
Arguments Returns {A} a w.
Arguments Panics {A}.
Arguments Blocks {A} w.
Arguments OutOfFuel {A}.

Definition M (A : Type) : Type := World -> Res A.

Definition ret {A} (a : A) : M A := fun w => Returns a w.
Definition bind {A B} (m : M A) (k : A -> M B) : M B :=
  fun w => match m w with
           | Returns a w' => k a w'
           | Panics => Panics
           | Blocks w' => Blocks w'
           | OutOfFuel => OutOfFuel
           end.
Definition panic {A} : M A := fun _ => Panics.
Definition block {A} : M A := fun w => Blocks w.
Definition modify (f : World -> World) : M unit := fun w => Returns tt (f w).
Definition gets {A} (f : World -> A) : M A := fun w => Returns (f w) w.

#[global] Instance M_ret : MRet M := @ret.
#[global] Instance M_bind : MBind M := fun A B k m => bind m k.

(** A [for { ... }] loop: the body either goes round again with a new
    value of the loop variables ([inl]) or leaves the loop ([inr]). *)
Fixpoint loop {S A : Type} (fuel : nat) (body : S -> M (S + A)) (s : S) : M A :=
  match fuel with
  | O => fun _ => OutOfFuel
  | Datatypes.S fuel' =>
      r ← body s;
      match r with
      | inl s' => loop fuel' body s'
      | inr a => ret a
      end
  end.

(** ** Primitives: heap, sockets, channel, container/list *)

(** Dereferencing a pointer that is not allocated (nil) panics. *)
Definition deref (cn : ptr) : M Conn :=
  fun w => match heap w !! cn with
           | Some c => Returns c w
           | None => Panics
           end.

Definition update_conn (cn : ptr) (f : Conn -> Conn) : M unit :=
  fun w => match heap w !! cn with
           | Some c => Returns tt (set_heap (<[cn := f c]> (heap w)) w)
           | None => Panics
           end.

Definition alloc (c : Conn) : M ptr :=
  fun w => Returns (nextPtr w)
             (set_nextPtr (S (nextPtr w)) (set_heap (<[nextPtr w := c]> (heap w)) w)).

(** [p.cfg.Dialer(ctx)]: the next outcome of the dialer; a socket is named
    after the call that opened it. *)
Definition call_Dialer : M (error + nat) :=
  fun w => Returns (match Dialer (cfg (pool w)) (dials w) with
                    | Some e => inl e
                    | None => inr (dials w)
                    end)
                   (set_dials (S (dials w)) w).

(** [netConn.Close()]. *)
Definition net_Close (s : nat) : M (option error) :=
  fun w => Returns (netClose (env w) s (count_occ Nat.eq_dec (netClosed w) s))
                   (set_netClosed (netClosed w ++ [s]) w).

(** Modelled from the spec: [NewConn(netConn)] of conn.go, which wraps a
    fresh socket with [createdAt = usedAt = now]. *)
Definition pool_NewConn (s : nat) : M ptr :=
  now ← gets clock;
  alloc (mkConn s false now now 0).

(** Modelled from the spec: the method [Close] of [Conn] of conn.go closes the socket. *)
Definition Conn_Close (cn : ptr) : M (option error) :=
  c ← deref cn;
  net_Close (netConn c).

(** [l.Len()], [l.PushBack(v)] on a [list.List] pointer: a nil list panics. *)
Definition List_Len (l : option (list ptr)) : M Z :=
  match l with
  | Some xs => ret (Z.of_nat (length xs))
  | None => panic
  end.

Definition List_PushBack (v : ptr) (l : option (list ptr)) : M (list ptr) :=
  match l with
  | Some xs => ret (xs ++ [v])
  | None => panic
  end.

Definition List_elements (l : option (list ptr)) : M (list ptr) :=
  match l with
  | Some xs => ret xs
  | None => panic
  end.

(** The first element equal to [cn] is unlinked; [None] when there is none. *)
Fixpoint remove_first (cn : ptr) (xs : list ptr) : option (list ptr) :=
  match xs with
  | [] => None
  | x :: xs' =>
      if decide (x = cn) then Some xs'
      else match remove_first cn xs' with
           | Some r => Some (x :: r)
           | None => None
           end
  end.

Definition closed (p : ConnPool) : bool := _closed p =? 1.

(** ** Turns *)

(** [p.queue <- struct{}{}] *)
Definition getTurn : M unit :=
  fun w => if queue (pool w) <? PoolSize (cfg (pool w))
           then Returns tt (with_pool (set_queue (queue (pool w) + 1)) w)
           else Blocks w.

(** [<-p.queue] *)
Definition freeTurn : M unit :=
  fun w => if 0 <? queue (pool w)
           then Returns tt (with_pool (set_queue (queue (pool w) - 1)) w)
           else Blocks w.

(** The caller's context on entry: [Some e] when [ctx.Done()] is closed,
    [ctx.Err()] being [e]. *)
Definition Context := option error.

(** The case that the blocking [select] of [waitTurn] takes. *)
Inductive wake :=
| WakeCtxDone (e : error)
| WakeTurn
| WakeTimer.

Definition add_Timeouts : M unit :=
  modify (with_pool (fun p => set_stats (set_Timeouts (AddUint32 (Timeouts (stats p)) 1) (stats p)) p)).

(** The third [select] of [waitTurn], entered when no turn was free. *)
Definition waitTurn_select (wk : wake) : M (option error) :=
  match wk with
  | WakeCtxDone e => ret (Some e)
  | WakeTurn => getTurn;; ret None
  | WakeTimer => add_Timeouts;; ret (Some ErrPoolTimeout)
  end.

Definition waitTurn (ctx : Context) (wk : wake) : M (option error) :=
  match ctx with
  | Some e => ret (Some e)
  | None =>
      free ← gets (fun w => queue (pool w) <? PoolSize (cfg (pool w)));
      if free : bool then getTurn;; ret None
      else waitTurn_select wk
  end.

(** ** The min-idle filler *)

Definition reserve_idle (p : ConnPool) : ConnPool :=
  set_idleConnsLen (idleConnsLen p + 1) (set_poolSize (poolSize p + 1) p).

Definition release_idle (p : ConnPool) : ConnPool :=
  set_idleConnsLen (idleConnsLen p - 1) (set_poolSize (poolSize p - 1) p).

Fixpoint checkMinIdleConns_loop (fuel : nat) (w : World) : World :=
  match fuel with
  | O => w
  | S fuel' =>
      if (poolSize (pool w) <? PoolSize (cfg (pool w)))
         && (idleConnsLen (pool w) <? MinIdleConns (cfg (pool w)))
      then checkMinIdleConns_loop fuel' (go GoFiller (with_pool reserve_idle w))
      else w
  end.

(** The loop runs at most [PoolSize - poolSize] times. *)
Definition checkMinIdleConns : M unit :=
  fun w =>
    if MinIdleConns (cfg (pool w)) =? 0 then Returns tt w
    else Returns tt
           (checkMinIdleConns_loop
              (Z.to_nat (PoolSize (cfg (pool w)) - poolSize (pool w))) w).

(** ** Dialing *)

Definition setLastDialError (e : error) : M unit :=
  modify (with_pool (set_lastDialError (Some e))).

Definition getLastDialError : M (option error) :=
  gets (fun w => lastDialError (pool w)).

Definition dialConn (pooled : bool) : M (ptr * option error) :=
  c ← gets (fun w => closed (pool w));
  if c : bool then ret (nil_ptr, Some ErrClosed)
  else
    n ← gets (fun w => dialErrorsNum (pool w));
    size ← gets (fun w => uint32 (PoolSize (cfg (pool w))));
    if size <=? n then
      e ← getLastDialError;
      ret (nil_ptr, e)
    else
      r ← call_Dialer;
      match r with
      | inl err =>
          setLastDialError err;;
          n' ← gets (fun w => AddUint32 (dialErrorsNum (pool w)) 1);
          modify (with_pool (set_dialErrorsNum n'));;
          (if n' =? size then modify (go GoTryDial) else ret tt);;
          ret (nil_ptr, Some err)
      | inr s =>
          cn ← pool_NewConn s;
          update_conn cn (Conn_set_pooled pooled);;
          ret (cn, None)
      end.

(** One turn of the loop of [tryDial]; [true] when the goroutine returns,
    [false] when it sleeps a second and goes round again. *)
Definition tryDial_iter : M bool :=
  c ← gets (fun w => closed (pool w));
  if c : bool then ret true
  else
    r ← call_Dialer;
    match r with
    | inl err => setLastDialError err;; ret false
    | inr s =>
        modify (with_pool (set_dialErrorsNum 0));;
        net_Close s;;
        ret true
    end.

Definition tryDial (fuel : nat) : M unit :=
  loop fuel (fun _ : unit =>
               stop ← tryDial_iter;
               if stop : bool then ret (inr tt) else ret (inl tt)) tt.

(** The part of [addIdleConn] under the lock. *)
Definition addIdleConn_attach (cn : ptr) : M (option error) :=
  c ← gets (fun w => closed (pool w));
  if c : bool then Conn_Close cn;; ret (Some ErrClosed)
  else
    cs ← gets (fun w => conns (pool w));
    cs' ← List_PushBack cn cs;
    modify (with_pool (set_conns (Some cs')));;
    ids ← gets (fun w => idleConns (pool w));
    ids' ← List_PushBack cn ids;
    modify (with_pool (set_idleConns (Some ids')));;
    ret None.

Definition addIdleConn : M (option error) :=
  '(cn, err) ← dialConn true;
  match err with
  | Some e => ret (Some e)
  | None => addIdleConn_attach cn
  end.

(** What the goroutine of [checkMinIdleConns] does with the result of
    [addIdleConn]. *)
Definition filler_done (err : option error) : M unit :=
  match err with
  | Some e => if decide (e = ErrClosed) then ret tt
              else modify (with_pool release_idle)
  | None => ret tt
  end.

Definition filler : M unit :=
  err ← addIdleConn;
  filler_done err.

Definition newConn (pooled : bool) : M (ptr * option error) :=
  '(cn, err) ← dialConn pooled;
  match err with
  | Some e => ret (nil_ptr, Some e)
  | None =>
      c ← gets (fun w => closed (pool w));
      if c : bool then Conn_Close cn;; ret (nil_ptr, Some ErrClosed)
      else
        cs ← gets (fun w => conns (pool w));
        cs' ← List_PushBack cn cs;
        modify (with_pool (set_conns (Some cs')));;
        (if pooled then
           full ← gets (fun w => PoolSize (cfg (pool w)) <=? poolSize (pool w));
           if full : bool then update_conn cn (Conn_set_pooled false)
           else modify (with_pool (fun p => set_poolSize (poolSize p + 1) p))
         else ret tt);;
        ret (cn, None)
  end.

Definition NewConn (ctx : Context) : M (ptr * option error) :=
  newConn false.

(** ** The registry *)

Definition closeConn (cn : ptr) : M (option error) := Conn_Close cn.

Definition removeConn (cn : ptr) : M unit :=
  cs ← gets (fun w => conns (pool w));
  xs ← List_elements cs;
  match remove_first cn xs with
  | None => ret tt
  | Some xs' =>
      modify (with_pool (set_conns (Some xs')));;
      c ← deref cn;
      if pooled c then
        modify (with_pool (fun p => set_poolSize (poolSize p - 1) p));;
        checkMinIdleConns
      else ret tt
  end.

Definition removeConnWithLock (cn : ptr) : M unit := removeConn cn.

Definition popIdle : M (ptr * option error) :=
  modify (fun w => set_popCalls (S (popCalls w)) w);;
  c ← gets (fun w => closed (pool w));
  if c : bool then ret (nil_ptr, Some ErrClosed)
  else
    ids ← gets (fun w => idleConns (pool w));
    n ← List_Len ids;
    if n =? 0 then ret (nil_ptr, None)
    else
      xs ← List_elements ids;
      fifo ← gets (fun w => PoolFIFO (cfg (pool w)));
      match (if fifo : bool then (head xs, tail xs) else (last xs, removelast xs)) with
      | (Some cn, rest) =>
          modify (with_pool (fun p =>
                    set_idleConnsLen (idleConnsLen p - 1) (set_idleConns (Some rest) p)));;
          checkMinIdleConns;;
          ret (cn, None)
      | (None, _) =>
          checkMinIdleConns;;
          ret (nil_ptr, None)
      end.

Definition add_StaleConns (n : Z) : M unit :=
  modify (with_pool (fun p =>
            set_stats (set_StaleConns (AddUint32 (StaleConns (stats p)) n) (stats p)) p)).
Definition add_Hits : M unit :=
  modify (with_pool (fun p =>
            set_stats (set_Hits (AddUint32 (Hits (stats p)) 1) (stats p)) p)).
Definition add_Misses : M unit :=
  modify (with_pool (fun p =>
            set_stats (set_Misses (AddUint32 (Misses (stats p)) 1) (stats p)) p)).

Definition Remove (ctx : Context) (cn : ptr) (reason : option error) : M unit :=
  removeConnWithLock cn;;
  freeTurn;;
  closeConn cn;;
  ret tt.

Definition AsyncRemove (ctx : Context) (cn : ptr) (reason : option error) : M unit :=
  removeConnWithLock cn;;
  freeTurn;;
  modify (go (GoCloseConn cn)).

Definition CloseConn (cn : ptr) : M (option error) :=
  removeConnWithLock cn;;
  add_StaleConns 1;;
  closeConn cn.

Definition AsyncCloseConn (cn : ptr) : M unit :=
  removeConnWithLock cn;;
  add_StaleConns 1;;
  modify (go (GoCloseConn cn)).

(** ** Health *)

Definition isHealthyConn (cn : ptr) : M bool :=
  now ← gets clock;
  c ← deref cn;
  o ← gets (fun w => cfg (pool w));
  if (0 <? ConnMaxLifetime o) && (ConnMaxLifetime o <=? now - createdAt c) then ret false
  else if (0 <? ConnMaxIdleTime o) && (ConnMaxIdleTime o <=? now - usedAt c) then ret false
  else
    probe ← gets (fun w => connCheck (env w) (netConn c) now);
    match probe with
    | Some _ => ret false
    | None => update_conn cn (Conn_SetUsedAt now);; ret true
    end.

Definition isStaleConn (cn : ptr) : M bool :=
  now ← gets clock;
  c ← deref cn;
  o ← gets (fun w => cfg (pool w));
  if (0 <? ConnMaxLifetime o) && (ConnMaxLifetime o <=? now - createdAt c) then ret true
  else if (0 <? ConnMaxIdleTime o) && (ConnMaxIdleTime o <=? now - usedAt c) then ret true
  else
    probe ← gets (fun w => connCheck (env w) (netConn c) now);
    match probe with
    | Some _ => ret true
    | None => ret false
    end.

(** ** Get and Put *)

(** The body of the [for] loop of [Get]; [i] is the loop's counter.  The
    loop is left with [Some r] when [Get] returns [r] from inside it and with
    [None] at [break]. *)
Definition Get_body (i : Z) : M (Z + option (ptr * option error)) :=
  '(cn, err) ← popIdle;
  match err with
  | Some e => ret (inr (Some (nil_ptr, Some e)))
  | None =>
      if decide (cn = nil_ptr) then
        if 3 <=? AddInt32 i 1 then ret (inr None)
        else ret (inl (AddInt32 i 1))
      else
        healthy ← isHealthyConn cn;
        if healthy : bool then add_Hits;; ret (inr (Some (cn, None)))
        else AsyncCloseConn cn;; ret (inl i)
  end.

Definition Get_loop (fuel : nat) (i : Z) : M (option (ptr * option error)) :=
  loop fuel Get_body i.

(** The [return] statement of [Get] that was taken (ghost). *)
Inductive Get_site :=
| AtClosed
| AtWaitTurn
| AtPopIdle
| AtHit
| AtNewConnErr
| AtNewConn.

Definition Get (fuel : nat) (ctx : Context) (wk : wake) : M (ptr * option error * Get_site) :=
  c ← gets (fun w => closed (pool w));
  if c : bool then ret (nil_ptr, Some ErrClosed, AtClosed)
  else
    err ← waitTurn ctx wk;
    match err with
    | Some e => ret (nil_ptr, Some e, AtWaitTurn)
    | None =>
        r ← Get_loop fuel 0;
        match r with
        | Some (cn, Some e) => ret (nil_ptr, Some e, AtPopIdle)
        | Some (cn, None) => ret (cn, None, AtHit)
        | None =>
            add_Misses;;
            '(newcn, err) ← newConn true;
            match err with
            | Some e => freeTurn;; ret (nil_ptr, Some e, AtNewConnErr)
            | None => ret (newcn, None, AtNewConn)
            end
        end
    end.

Definition Put (ctx : Context) (cn : ptr) : M unit :=
  c ← deref cn;
  if 0 <? rdBuffered c then AsyncRemove ctx cn (Some BadConnError)
  else if negb (pooled c) then AsyncRemove ctx cn None
  else
    o ← gets (fun w => cfg (pool w));
    n ← gets (fun w => idleConnsLen (pool w));
    shouldCloseConn ←
      (if (MaxIdleConns o =? 0) || (n <? MaxIdleConns o) then
         ids ← gets (fun w => idleConns (pool w));
         ids' ← List_PushBack cn ids;
         modify (with_pool (fun p =>
                   set_idleConnsLen (idleConnsLen p + 1) (set_idleConns (Some ids') p)));;
         ret false
       else removeConn cn;; ret true);
    freeTurn;;
    if shouldCloseConn : bool then modify (go (GoCloseConn cn)) else ret tt.

(** ** Len, IdleLen, Stats, Filter, Close *)

Definition Len : M Z :=
  cs ← gets (fun w => conns (pool w));
  List_Len cs.

Definition IdleLen : M Z :=
  gets (fun w => idleConnsLen (pool w)).

Definition ConnPool_Stats : M Stats :=
  s ← gets (fun w => stats (pool w));
  total ← Len;
  idle ← IdleLen;
  ret (mkStats (Hits s) (Misses s) (Timeouts s) (uint32 total) (uint32 idle) (StaleConns s)).

Definition first_error (firstErr err : option error) : option error :=
  match firstErr with
  | Some _ => firstErr
  | None => err
  end.

Fixpoint Filter_loop (fn : ptr -> bool) (xs : list ptr) (firstErr : option error)
  : M (option error) :=
  match xs with
  | [] => ret firstErr
  | cn :: xs' =>
      if fn cn then
        err ← closeConn cn;
        Filter_loop fn xs' (first_error firstErr err)
      else Filter_loop fn xs' firstErr
  end.

Definition Filter (fn : ptr -> bool) : M (option error) :=
  cs ← gets (fun w => conns (pool w));
  xs ← List_elements cs;
  Filter_loop fn xs None.

Definition Close : M (option error) :=
  c ← gets (fun w => _closed (pool w));
  if c =? 0 then
    modify (with_pool (set_closed 1));;
    cs ← gets (fun w => conns (pool w));
    xs ← List_elements cs;
    firstErr ← Filter_loop (fun _ => true) xs None;
    modify (with_pool (fun p =>
              set_idleConnsLen 0 (set_idleConns None (set_poolSize 0 (set_conns None p)))));;
    ret firstErr
  else ret (Some ErrClosed).

(** ** The reaper *)

Definition reapStaleConn : M ptr :=
  ids ← gets (fun w => idleConns (pool w));
  n ← List_Len ids;
  if n =? 0 then ret nil_ptr
  else
    xs ← List_elements ids;
    match xs with
    | [] => ret nil_ptr
    | cn :: rest =>
        stale ← isStaleConn cn;
        if stale : bool then
          modify (with_pool (fun p =>
                    set_idleConnsLen (idleConnsLen p - 1) (set_idleConns (Some rest) p)));;
          removeConn cn;;
          ret cn
        else ret nil_ptr
    end.

Definition ReapStaleConns_body (n : Z) : M (Z + Z) :=
  getTurn;;
  cn ← reapStaleConn;
  freeTurn;;
  if decide (cn = nil_ptr) then ret (inr n)
  else closeConn cn;; ret (inl (n + 1)).

Definition ReapStaleConns_loop (fuel : nat) (n : Z) : M Z :=
  loop fuel ReapStaleConns_body n.

Definition ReapStaleConns (fuel : nat) : M (Z * option error) :=
  n ← ReapStaleConns_loop fuel 0;
  add_StaleConns (uint32 n);;
  ret (n, None).

(** One tick of [reaper]. *)
Definition reaper_tick (fuel : nat) : M unit :=
  c ← gets (fun w => closed (pool w));
  if c : bool then ret tt
  else ReapStaleConns fuel;; ret tt.

(** ** Construction *)

Definition zero_Stats : Stats := mkStats 0 0 0 0 0 0.

Definition new_pool (opt : Options) : ConnPool :=
  mkConnPool opt 0 None 0 (Some []) (Some []) 0 0 zero_Stats 0.

Definition new_world (opt : Options) (e : Env) : World :=
  mkWorld (new_pool opt) ∅ 1%nat 0 e [] 0%nat [] 0%nat.

(** [make(chan struct{}, n)] panics for a negative [n]. *)
Definition NewConnPool (opt : Options) (e : Env) : Res unit :=
  if PoolSize opt <? 0 then Panics
  else checkMinIdleConns (new_world opt e).

(** ** The pool under a schedule

    Callers and goroutines take turns: an event is one call of a method by
    some caller, one turn of a goroutine that was started with [go], the
    passing of time, or a caller using a connection.  A call that blocks
    leaves the world as it was at the blocking point and its goroutine does
    not come back; a panic ends the schedule. *)

Inductive event :=
| EGet (ctx : Context) (wk : wake)
| EPut (ctx : Context) (cn : ptr)
| ERemove (ctx : Context) (cn : ptr) (reason : option error)
| ECloseConn (cn : ptr)
| ENewConn (ctx : Context)
| ELen
| EIdleLen
| EStats
| EFilter (fn : ptr -> bool)
| EClose
| EReapStaleConns
| EReaperTick
| EGo (k : nat)
| ETick (d : Z)
| EUse (cn : ptr) (unread : Z).

(** The goroutine of [checkMinIdleConns] takes two turns: the dial, then
    the part of [addIdleConn] under the lock. *)
Definition run_goroutine (g : goroutine) : M unit :=
  match g with
  | GoFiller =>
      '(cn, err) ← dialConn true;
      match err with
      | Some e => filler_done (Some e)
      | None => modify (go (GoFillerAttach cn))
      end
  | GoFillerAttach cn =>
      err ← addIdleConn_attach cn;
      filler_done err
  | GoCloseConn cn => closeConn cn;; ret tt
  | GoTryDial =>
      stop ← tryDial_iter;
      if stop : bool then ret tt else modify (go GoTryDial)
  end.

(** A caller reads and writes on a connection: it stamps [usedAt] and may
    leave unread bytes in the reader. *)
Definition use_conn (cn : ptr) (unread : Z) (w : World) : World :=
  match heap w !! cn with
  | Some c => set_heap (<[cn := Conn_set_rdBuffered unread (Conn_SetUsedAt (clock w) c)]> (heap w)) w
  | None => w
  end.

(** The pool with what its callers hold (ghost): the connections handed out
    by [Get] and by [NewConn] and not given back yet, and the error and
    the [return] statement of every [Get] that returned. *)
Record Sys := mkSys {
  world : World;
  heldGet : list ptr;
  heldNew : list ptr;
  getLog : list (option error * Get_site)
}.

Definition set_world (w : World) (s : Sys) : Sys :=
  mkSys w (heldGet s) (heldNew s) (getLog s).

Definition give_back (cn : ptr) (w : World) (s : Sys) : Sys :=
  mkSys w (filter (fun x => x <> cn) (heldGet s)) (filter (fun x => x <> cn) (heldNew s))
        (getLog s).

Definition settle {A} (r : Res A) (s : Sys) (k : A -> World -> Sys) : option Sys :=
  match r with
  | Returns a w => Some (k a w)
  | Blocks w => Some (set_world w s)
  | Panics | OutOfFuel => None
  end.

(** Fuel for the loops that walk the idle list. *)
Definition idle_fuel (w : World) : nat :=
  match idleConns (pool w) with
  | Some ids => length ids + 3
  | None => 3
  end.

Definition exec (e : event) (s : Sys) : option Sys :=
  let w := world s in
  match e with
  | EGet ctx wk =>
      settle (Get (idle_fuel w) ctx wk w) s
        (fun '(cn, err, site) w' =>
           mkSys w' (match err with
                     | None => cn :: heldGet s
                     | Some _ => heldGet s
                     end) (heldNew s) ((err, site) :: getLog s))
  | EPut ctx cn => settle (Put ctx cn w) s (fun _ w' => give_back cn w' s)
  | ERemove ctx cn reason =>
      settle (Remove ctx cn reason w) s (fun _ w' => give_back cn w' s)
  | ECloseConn cn => settle (CloseConn cn w) s (fun _ w' => give_back cn w' s)
  | ENewConn ctx =>
      settle (NewConn ctx w) s
        (fun '(cn, err) w' =>
           mkSys w' (heldGet s) (match err with
                                 | None => cn :: heldNew s
                                 | Some _ => heldNew s
                                 end) (getLog s))
  | ELen => settle (Len w) s (fun _ w' => set_world w' s)
  | EIdleLen => settle (IdleLen w) s (fun _ w' => set_world w' s)
  | EStats => settle (ConnPool_Stats w) s (fun _ w' => set_world w' s)
  | EFilter fn => settle (Filter fn w) s (fun _ w' => set_world w' s)
  | EClose => settle (Close w) s (fun _ w' => set_world w' s)
  | EReapStaleConns =>
      settle (ReapStaleConns (idle_fuel w) w) s (fun _ w' => set_world w' s)
  | EReaperTick =>
      settle (reaper_tick (idle_fuel w) w) s (fun _ w' => set_world w' s)
  | EGo k =>
      match goroutines w !! k with
      | Some g =>
          settle (run_goroutine g (set_goroutines (delete k (goroutines w)) w)) s
            (fun _ w' => set_world w' s)
      | None => Some s
      end
  | ETick d => Some (set_world (set_clock (clock w + d) w) s)
  | EUse cn unread => Some (set_world (use_conn cn unread w) s)
  end.

Fixpoint run (es : list event) (s : Sys) : option Sys :=
  match es with
  | [] => Some s
  | e :: es' =>
      match exec e s with
      | Some s' => run es' s'
      | None => None
      end
  end.

(** The system after [NewConnPool]. *)
Definition start (opt : Options) (e : Env) : option Sys :=
  match NewConnPool opt e with
  | Returns _ w => Some (mkSys w [] [] [])
  | _ => None
  end.

(** * Vocabulary of the properties *)

Definition Timeouts_of (w : World) : Z := Timeouts (stats (pool w)).
Definition StaleConns_of (w : World) : Z := StaleConns (stats (pool w)).
Definition Hits_of (w : World) : Z := Hits (stats (pool w)).
Definition Misses_of (w : World) : Z := Misses (stats (pool w)).
Definition queue_of (w : World) : Z := queue (pool w).
Definition PoolSize_of (w : World) : Z := PoolSize (cfg (pool w)).

(** The world a call leaves behind, when it returns or blocks. *)
Definition world_after {A} (r : Res A) : option World :=
  match r with
  | Returns _ w => Some w
  | Blocks w => Some w
  | Panics | OutOfFuel => None
  end.

(** [post m w Q B]: if [m] returns from [w], [Q] holds of the result and the
    world; if it blocks, [B] holds of the world it blocks in. *)
Definition post {A} (m : M A) (w : World) (Q : A -> World -> Prop) (B : World -> Prop)
  : Prop :=
  match m w with
  | Returns a w' => Q a w'
  | Blocks w' => B w'
  | Panics | OutOfFuel => True
  end.

Definition is_context_error (e : error) : Prop :=
  e = ContextCanceled \/ e = ContextDeadlineExceeded.

(** The errors that the caller's context may report. *)
Definition context_errors (ctx : Context) (wk : wake) : Prop :=
  (forall e, ctx = Some e -> is_context_error e)
  /\ (forall e, wk = WakeCtxDone e -> is_context_error e).

Definition charge_timeout (w : World) : World :=
  with_pool (fun p => set_stats (set_Timeouts (AddUint32 (Timeouts (stats p)) 1) (stats p)) p) w.

(** [k] slots reserved and [k] fillers started. *)
Definition reserve_n (k : nat) (w : World) : World :=
  set_goroutines (goroutines w ++ replicate k GoFiller)
    (with_pool (fun p => set_idleConnsLen (idleConnsLen p + Z.of_nat k)
                           (set_poolSize (poolSize p + Z.of_nat k) p)) w).

Definition refill_room (w : World) : Z :=
  Z.min (PoolSize (cfg (pool w)) - poolSize (pool w))
        (MinIdleConns (cfg (pool w)) - idleConnsLen (pool w)).

Definition refill_count (w : World) : nat :=
  if MinIdleConns (cfg (pool w)) =? 0 then 0%nat else Z.to_nat (refill_room w).

Definition remove_one (cn : ptr) (xs : list ptr) : list ptr :=
  match remove_first cn xs with
  | Some xs' => xs'
  | None => xs
  end.

(** The world after the lock-protected part of [removeConn] when [cn] is
    found in [conns] and is pooled. *)
Definition unlink_pooled (xs' : list ptr) (w : World) : World :=
  with_pool (fun p => set_poolSize (poolSize p - 1) p)
    (with_pool (set_conns (Some xs')) w).

Definition pop_choice (fifo : bool) (xs : list ptr) : option ptr * list ptr :=
  if fifo then (head xs, tail xs) else (last xs, removelast xs).

Definition count_pop (w : World) : World := set_popCalls (S (popCalls w)) w.

(** The world after [popIdle] unlinked an idle element, before the refill. *)
Definition unlink_idle (rest : list ptr) (w : World) : World :=
  with_pool (fun p => set_idleConnsLen (idleConnsLen p - 1) (set_idleConns (Some rest) p))
    (count_pop w).

Definition touch (cn : ptr) (c : Conn) (w : World) : World :=
  set_heap (<[cn := Conn_SetUsedAt (clock w) c]> (heap w)) w.

Definition healthy (c : Conn) (w : World) : bool :=
  negb ((0 <? ConnMaxLifetime (cfg (pool w)))
        && (ConnMaxLifetime (cfg (pool w)) <=? clock w - createdAt c))
  && negb ((0 <? ConnMaxIdleTime (cfg (pool w)))
           && (ConnMaxIdleTime (cfg (pool w)) <=? clock w - usedAt c))
  && match connCheck (env w) (netConn c) (clock w) with
     | Some _ => false
     | None => true
     end.

Definition count_stale (n : Z) (w : World) : World :=
  with_pool (fun p =>
    set_stats (set_StaleConns (AddUint32 (StaleConns (stats p)) n) (stats p)) p) w.

Definition is_closer (g : goroutine) : bool :=
  match g with
  | GoCloseConn _ => true
  | _ => false
  end.

(** The number of pending goroutines that close a connection. *)
Definition closers (w : World) : Z :=
  Z.of_nat (length (filter is_closer (goroutines w))).

Definition count_hit (w : World) : World :=
  with_pool (fun p => set_stats (set_Hits (AddUint32 (Hits (stats p)) 1) (stats p)) p) w.

Definition count_miss (w : World) : World :=
  with_pool (fun p => set_stats (set_Misses (AddUint32 (Misses (stats p)) 1) (stats p)) p) w.

Definition take_turn_back (w : World) : World :=
  with_pool (set_queue (queue (pool w) - 1)) w.

Definition push_idle (cn : ptr) (ids : list ptr) (w : World) : World :=
  with_pool (fun p => set_idleConnsLen (idleConnsLen p + 1)
                        (set_idleConns (Some (ids ++ [cn])) p)) w.

(** [Put] has room for one more idle connection. *)
Definition idle_room (w : World) : bool :=
  (MaxIdleConns (cfg (pool w)) =? 0)
  || (idleConnsLen (pool w) <? MaxIdleConns (cfg (pool w))).

Definition is_filler (g : goroutine) : bool :=
  match g with
  | GoFiller => true
  | _ => false
  end.

(** The number of fillers that were started and have not run yet. *)
Definition fillers (w : World) : Z :=
  Z.of_nat (length (filter is_filler (goroutines w))).

Definition and_then {A C} (r : Res A) (m : M C) : Res C :=
  match r with
  | Returns _ w => m w
  | Panics => Panics
  | Blocks w => Blocks w
  | OutOfFuel => OutOfFuel
  end.

Definition world_or {A} (r : Res A) (d : World) : World :=
  match r with
  | Returns _ w => w
  | Blocks w => w
  | Panics | OutOfFuel => d
  end.

(** Sockets that stay sound, and sockets that the probe finds broken. *)
Definition sound_env : Env := mkEnv (fun _ _ => None) (fun _ _ => None).
Definition broken_env : Env := mkEnv (fun _ _ => Some (NetError 0)) (fun _ _ => None).

Definition good_dialer : nat -> option error := fun _ => None.
Definition bad_dialer : nat -> option error := fun _ => Some (DialError 7).

(** PoolSize 1, MinIdleConns 1: the constructor reserves the only slot for a
    filler, and a [Get] that comes before the filler has run dials a
    connection that is attached with [pooled = false]. *)
Definition opt_reserved : Options := mkOptions good_dialer false 1 100 1 0 0 0.

Definition w_reserved : World :=
  world_or (NewConnPool opt_reserved sound_env) (new_world opt_reserved sound_env).

Definition w_overflow : World :=
  world_or (Get 3 None WakeTimer w_reserved) w_reserved.

(** PoolSize 2, no idle bounds: one pooled connection checked out. *)
Definition opt_plain : Options := mkOptions good_dialer false 2 100 0 0 0 0.

Definition w_plain : World :=
  world_or (NewConnPool opt_plain sound_env) (new_world opt_plain sound_env).

Definition w_one_out : World :=
  world_or (Get 3 None WakeTimer w_plain) w_plain.

(** The three cases of the claim: buffered input; else pooled with room;
    else "removed from conns, poolSize decremented, closed asynchronously". *)
Definition Put_as_claimed (ctx : Context) (cn : ptr) (w : World) : Prop :=
  forall c xs ids w',
    heap w !! cn = Some c -> conns (pool w) = Some xs ->
    idleConns (pool w) = Some ids ->
    Put ctx cn w = Returns tt w' ->
    queue_of w' = queue_of w - 1
    /\ if 0 <? rdBuffered c then
         conns (pool w') = Some (remove_one cn xs) /\ closers w' = closers w + 1
       else if pooled c && idle_room w then
         idleConns (pool w') = Some (ids ++ [cn])
         /\ idleConnsLen (pool w') = idleConnsLen (pool w) + 1
       else
         conns (pool w') = Some (remove_one cn xs)
         /\ poolSize (pool w') = poolSize (pool w) - 1
         /\ closers w' = closers w + 1.

(** The world after a failed call of the dialer in [dialConn]. *)
Definition dial_failed (err : error) (w : World) : World :=
  let n' := AddUint32 (dialErrorsNum (pool w)) 1 in
  let w1 := with_pool (fun p => set_dialErrorsNum n' (set_lastDialError (Some err) p))
              (set_dials (S (dials w)) w) in
  if n' =? uint32 (PoolSize (cfg (pool w))) then go GoTryDial w1 else w1.

(** The world after a successful call: a new [Conn] around socket [dials w]. *)
Definition dial_ok (pooled : bool) (w : World) : World :=
  set_nextPtr (S (nextPtr w))
    (set_heap (<[nextPtr w := mkConn (dials w) pooled (clock w) (clock w) 0]> (heap w))
       (set_dials (S (dials w)) w)).

(** The circuit of [dialConn] is open: dials are short-circuited. *)
Definition circuit_open (w : World) : bool :=
  uint32 (PoolSize (cfg (pool w))) <=? dialErrorsNum (pool w).

Definition push_conn (cn : ptr) (xs : list ptr) (w : World) : World :=
  with_pool (set_conns (Some (xs ++ [cn]))) w.

(** [preserves R m]: [R] relates the world [m] starts in to the world it
    returns or blocks in. *)
Definition preserves {A} (R : World -> World -> Prop) (m : M A) : Prop :=
  forall w, post m w (fun _ w' => R w w') (fun w' => R w w').

(** Neither [stats.Hits] nor [stats.Misses] moves, and the number of turns
    taken does not become negative. *)
Definition quiet (w w' : World) : Prop :=
  Hits_of w' = Hits_of w /\ Misses_of w' = Misses_of w
  /\ (0 <= queue_of w -> 0 <= queue_of w').

(** The configuration is kept, [poolSize] does not grow beyond [PoolSize]
    and [idleConnsLen] does not grow beyond [MinIdleConns]. *)
Definition steady (w w' : World) : Prop :=
  cfg (pool w') = cfg (pool w)
  /\ poolSize (pool w') <= Z.max (poolSize (pool w)) (PoolSize (cfg (pool w)))
  /\ idleConnsLen (pool w') <= Z.max (idleConnsLen (pool w)) (MinIdleConns (cfg (pool w))).

(** The worlds after one turn of the prober's loop. *)
Definition probe_failed (err : error) (w : World) : World :=
  with_pool (set_lastDialError (Some err)) (set_dials (S (dials w)) w).

Definition probe_ok (w : World) : World :=
  set_netClosed (netClosed w ++ [dials w])
    (with_pool (set_dialErrorsNum 0) (set_dials (S (dials w)) w)).

(** Everything of the registry: the two lists, the two counters, the heap. *)
Definition registry (w : World) :=
  (conns (pool w), idleConns (pool w), poolSize (pool w), idleConnsLen (pool w), heap w).

(** C6 as it is worded, first sentence: every failed dial, the prober's
    too, adds one to [dialErrorsNum]. *)
Definition counts_every_dial_failure (w : World) : Prop :=
  forall err b w',
    closed (pool w) = false ->
    Dialer (cfg (pool w)) (dials w) = Some err ->
    tryDial_iter w = Returns b w' ->
    dialErrorsNum (pool w') = AddUint32 (dialErrorsNum (pool w)) 1.

(** C6 as it is worded, second sentence: whenever the counter has reached
    [PoolSize], [dialConn] returns the last dial error. *)
Definition short_circuits_whenever_open (w : World) : Prop :=
  circuit_open w = true ->
  forall pooled, exists w',
    dialConn pooled w = Returns (nil_ptr, lastDialError (pool w)) w'
    /\ dials w' = dials w.

(** PoolSize 1 and a dialer that fails: the first [NewConn] trips the
    circuit and starts the prober; then the pool is closed. *)
Definition opt_outage : Options := mkOptions bad_dialer false 1 100 0 0 0 0.

Definition w_outage : World :=
  world_or (NewConnPool opt_outage sound_env) (new_world opt_outage sound_env).

Definition w_tripped : World := world_or (NewConn None w_outage) w_outage.

Definition w_tripped_shut : World := world_or (Close w_tripped) w_tripped.

(** C2 as it is worded: at most three pops in one [Get], and no further pop
    once the idle list was found empty. *)
Definition at_most_three_pops (w : World) : Prop :=
  forall fuel ctx wk r w',
    Get fuel ctx wk w = Returns r w' -> (popCalls w' <= popCalls w + 3)%nat.

Definition leaves_at_first_empty_pop (w : World) : Prop :=
  idleConns (pool w) = Some [] ->
  forall fuel ctx wk r w',
    Get fuel ctx wk w = Returns r w' -> (popCalls w' <= popCalls w + 1)%nat.

(** PoolSize 5 and sockets that the probe finds broken: four connections
    are checked out and put back, so that four unhealthy connections idle. *)
Definition opt_broken : Options := mkOptions good_dialer false 5 100 0 0 0 0.

Definition w_broken : World :=
  world_or (NewConnPool opt_broken broken_env) (new_world opt_broken broken_env).

Definition get_then (w : World) : World := world_or (Get 3 None WakeTimer w) w.
Definition put_then (cn : ptr) (w : World) : World := world_or (Put None cn w) w.

Definition w_four_idle : World :=
  put_then 4%nat (put_then 3%nat (put_then 2%nat (put_then 1%nat
    (get_then (get_then (get_then (get_then w_broken))))))).

(** The invariant of the loop of [Get], started with counter [i0] in world
    [w0] whose idle list is [ids0]: [i] counts the empty pops, and every
    other pop took one connection off the idle list and evicted it. *)
Definition Get_loop_inv (w0 : World) (ids0 : list ptr) (i0 : Z) (i : Z) (w : World) : Prop :=
  exists ids,
    idleConns (pool w) = Some ids
    /\ (nil_ptr ∉ ids)
    /\ 0 <= i0
    /\ i0 <= i < 3
    /\ (length ids <= length ids0)%nat
    /\ (i0 < i -> ids = [])
    /\ Z.of_nat (popCalls w) =
       Z.of_nat (popCalls w0) + (Z.of_nat (length ids0) - Z.of_nat (length ids)) + (i - i0)
    /\ closers w = closers w0 + (Z.of_nat (length ids0) - Z.of_nat (length ids)).

(** What holds when the loop is left. *)
Definition Get_loop_exit (w0 : World) (ids0 : list ptr) (i0 : Z)
    (r : option (ptr * option error)) (w : World) : Prop :=
  exists ids,
    idleConns (pool w) = Some ids
    /\ (length ids <= length ids0)%nat
    /\ match r with
       | None =>
           ids = []
           /\ Z.of_nat (popCalls w) =
              Z.of_nat (popCalls w0) + Z.of_nat (length ids0) + (3 - i0)
           /\ closers w = closers w0 + Z.of_nat (length ids0)
       | Some (cn, None) =>
           cn <> nil_ptr
           /\ (length ids < length ids0)%nat
           /\ Z.of_nat (popCalls w) =
              Z.of_nat (popCalls w0) + (Z.of_nat (length ids0) - Z.of_nat (length ids))
           /\ closers w =
              closers w0 + (Z.of_nat (length ids0) - Z.of_nat (length ids) - 1)
       | Some (_, Some e) => e = ErrClosed
       end.

(** C1 as it is worded, for a world [w] in which [Close] has returned:
    every entry point returns at once, with [ErrClosed] where it has an
    error result, and [Len] is 0. *)
Definition refuses_everything (w : World) : Prop :=
  (forall fuel ctx wk, Get fuel ctx wk w = Returns (nil_ptr, Some ErrClosed, AtClosed) w)
  /\ (forall ctx cn, Put ctx cn w = Returns tt w)
  /\ (forall ctx cn reason, Remove ctx cn reason w = Returns tt w)
  /\ (forall ctx, NewConn ctx w = Returns (nil_ptr, Some ErrClosed) w)
  /\ Len w = Returns 0 w
  /\ IdleLen w = Returns 0 w
  /\ (forall fn, Filter fn w = Returns (Some ErrClosed) w)
  /\ Close w = Returns (Some ErrClosed) w.

(** The pool of [w_one_out], closed while its connection is checked out. *)
Definition w_shut : World := world_or (Close w_one_out) w_one_out.

(** The sockets of the connections [xs], in order. *)
Definition sockets_of (h : gmap nat Conn) (xs : list ptr) : list nat :=
  omap (fun cn => netConn <$> h !! cn) xs.

(** The world after the first [Close]. *)
Definition shut (w : World) (xs : list ptr) : World :=
  with_pool (fun p => set_idleConnsLen 0 (set_idleConns None (set_poolSize 0
                        (set_conns None (set_closed 1 p)))))
    (set_netClosed (netClosed w ++ sockets_of (heap w) xs) w).

(** A pool on which [Close] has returned: the flag is set and both lists
    are nil. *)
Definition closed_nil (w : World) : Prop :=
  closed (pool w) = true /\ conns (pool w) = None /\ idleConns (pool w) = None.

(** C5 as it is worded: whenever [MaxIdleConns > 0], [idleConnsLen] stays
    within it, after the constructor and after every event. *)
Definition idle_bound_as_claimed (opt : Options) (e : Env) : Prop :=
  0 < MaxIdleConns opt ->
  forall es s0 s,
    start opt e = Some s0 -> run es s0 = Some s ->
    idleConnsLen (pool (world s)) <= MaxIdleConns opt.

(** PoolSize 5, MinIdleConns 3, MaxIdleConns 1. *)
Definition opt_greedy : Options := mkOptions good_dialer false 5 100 3 1 0 0.

(** The three fillers dial, then attach. *)
Definition fillers_finish : list event :=
  [EGo 0; EGo 0; EGo 0; EGo 0; EGo 0; EGo 0].

(** The invariant behind C5. *)
Definition idle_bounded (opt : Options) (w : World) : Prop :=
  cfg (pool w) = opt /\ idleConnsLen (pool w) <= MaxIdleConns opt.

(** The [return] statements of [Get] that count in [stats]: a hit, or a
    miss followed by a dial, successful or not. *)
Definition counted (site : Get_site) : bool :=
  match site with
  | AtHit | AtNewConn | AtNewConnErr => true
  | AtClosed | AtWaitTurn | AtPopIdle => false
  end.

(** The [return] statements of [Get] that hand out a connection. *)
Definition succeeded (site : Get_site) : bool :=
  match site with
  | AtHit | AtNewConn => true
  | _ => false
  end.

Definition failed_dial (site : Get_site) : bool :=
  match site with
  | AtNewConnErr => true
  | _ => false
  end.

(** A [Get] that returned a connection and a nil error. *)
Definition returned_ok (r : option error * Get_site) : bool :=
  match fst r with
  | None => true
  | Some _ => false
  end.

Definition count_gets (f : option error * Get_site -> bool)
    (log : list (option error * Get_site)) : Z :=
  Z.of_nat (length (List.filter f log)).

(** C4 as it is worded. *)
Definition hits_misses_as_claimed (opt : Options) (e : Env) : Prop :=
  forall es s0 s,
    start opt e = Some s0 -> run es s0 = Some s ->
    Hits_of (world s) + Misses_of (world s) = count_gets returned_ok (getLog s).

(** The invariant behind C4. *)
Definition accounted (s : Sys) : Prop :=
  0 <= queue_of (world s)
  /\ uint32 (Hits_of (world s) + Misses_of (world s)) =
     uint32 (count_gets (fun r => counted (snd r)) (getLog s))
  /\ Forall (fun r => fst r = None <-> succeeded (snd r) = true) (getLog s).

(** What one call of [Get] does to the counters, by [return] statement. *)
Definition Get_effect (w : World) (site : Get_site) (w' : World) : Prop :=
  match site with
  | AtHit =>
      Hits_of w' = uint32 (Hits_of w + 1) /\ Misses_of w' = Misses_of w
  | AtNewConn | AtNewConnErr =>
      Hits_of w' = Hits_of w /\ Misses_of w' = uint32 (Misses_of w + 1)
  | AtClosed | AtWaitTurn | AtPopIdle =>
      Hits_of w' = Hits_of w /\ Misses_of w' = Misses_of w
  end.

(** ** Who owns a connection

    A connection in the heap is in [conns], or about to be closed by a
    goroutine, or about to be attached by a filler, or closed. *)

Definition closing_of (gs : list goroutine) : list ptr :=
  omap (fun g => match g with
                 | GoCloseConn cn => Some cn
                 | _ => None
                 end) gs.

Definition attaching_of (gs : list goroutine) : list ptr :=
  omap (fun g => match g with
                 | GoFillerAttach cn => Some cn
                 | _ => None
                 end) gs.

Definition live_of (lv : option (list ptr)) : list ptr :=
  match lv with
  | Some xs => xs
  | None => []
  end.

(** The socket of a connection. *)
Definition sock (w : World) (cn : ptr) : option nat := netConn <$> heap w !! cn.

(** The invariant of the registry, on the data it depends on: the sockets
    [sk] of the allocated connections, the next pointer [np], the number of
    dials [d], the sockets closed so far [cl], the lists [conns] ([lv]) and
    [idleConns] ([idl]), the connections that goroutines are about to close
    ([cg]) or to attach ([att]), the number [q] of turns taken, and the
    connections that callers hold from [Get] ([hg]) and [NewConn] ([hn]). *)
Record SafeK (sk : ptr -> option nat) (np d : nat) (cl : list nat)
    (lv idl : option (list ptr)) (cg att : list ptr) (q : Z) (hg hn : list ptr)
  : Prop := mkSafeK {
  np_pos : (0 < np)%nat;
  sk_range : forall cn s, sk cn = Some s -> cn <> nil_ptr /\ (cn < np)%nat /\ (s < d)%nat;
  sk_inj : forall cn1 cn2 s, sk cn1 = Some s -> sk cn2 = Some s -> cn1 = cn2;
  cl_nodup : NoDup cl;
  cl_range : forall s, s ∈ cl -> (s < d)%nat;
  own_nodup : NoDup (live_of lv ++ cg ++ att);
  own_open : forall cn, cn ∈ live_of lv ++ cg ++ att ->
                        exists s, sk cn = Some s /\ s ∉ cl;
  all_done : forall cn s, sk cn = Some s -> cn ∈ live_of lv ++ cg ++ att \/ s ∈ cl;
  idle_ok : forall xs, lv = Some xs ->
                       exists ids, idl = Some ids /\ NoDup ids
                                   /\ forall cn, cn ∈ ids ->
                                                 (cn ∈ xs) /\ (cn ∉ hg) /\ (cn ∉ hn);
  held_ok : forall xs, lv = Some xs -> forall cn, cn ∈ hg \/ cn ∈ hn -> cn ∈ xs;
  idle_none : lv = None -> idl = None;
  tickets : NoDup hg /\ Z.of_nat (length hg) <= q
}.

(** The circuit never answers [nil, nil]: [PoolSize] is not a multiple of
    2^32, and a positive [dialErrorsNum] comes with a recorded error. *)
Definition dial_sane (w : World) : Prop :=
  0 < uint32 (PoolSize (cfg (pool w)))
  /\ (0 < dialErrorsNum (pool w) -> lastDialError (pool w) <> None).

Definition Safe (hg hn : list ptr) (w : World) : Prop :=
  SafeK (sock w) (nextPtr w) (dials w) (netClosed w)
        (conns (pool w)) (idleConns (pool w))
        (closing_of (goroutines w)) (attaching_of (goroutines w))
        (queue (pool w)) hg hn
  /\ dial_sane w.

Definition Safe_sys (s : Sys) : Prop := Safe (heldGet s) (heldNew s) (world s).

(** The discipline of callers: a connection is given back with [Put] or
    [Remove] by the caller that holds it from [Get], and with [CloseConn] by
    a caller that holds it; [Filter] is not used. *)
Definition client_ok (e : event) (s : Sys) : Prop :=
  match e with
  | EPut _ cn | ERemove _ cn _ => cn ∈ heldGet s
  | ECloseConn cn => cn ∈ heldGet s \/ cn ∈ heldNew s
  | EFilter _ => False
  | _ => True
  end.

Fixpoint disciplined (es : list event) (s : Sys) : Prop :=
  match es with
  | [] => True
  | e :: es' =>
      client_ok e s /\ forall s', exec e s = Some s' -> disciplined es' s'
  end.

(** The sockets after the allocation of connection [np] around socket [d]. *)
Definition sk_alloc (sk : ptr -> option nat) (np d : nat) : ptr -> option nat :=
  fun cn => if decide (cn = np) then Some d else sk cn.

(** What the registry operations never touch. *)
Definition same_base (w w' : World) : Prop :=
  heap w' = heap w /\ nextPtr w' = nextPtr w /\ dials w' = dials w
  /\ netClosed w' = netClosed w /\ cfg (pool w') = cfg (pool w)
  /\ dialErrorsNum (pool w') = dialErrorsNum (pool w)
  /\ lastDialError (pool w') = lastDialError (pool w)
  /\ _closed (pool w') = _closed (pool w)
  /\ closing_of (goroutines w') = closing_of (goroutines w)
  /\ attaching_of (goroutines w') = attaching_of (goroutines w).

(** * Vocabulary of the properties of the other methods *)

Definition sys_or (o : option Sys) (d : Sys) : Sys :=
  match o with
  | Some s => s
  | None => d
  end.

(** [keeps Inv m]: [m] takes a world in [Inv] to a world in [Inv], whether
    it returns or blocks. *)
Definition keeps {A} (Inv : World -> Prop) (m : M A) : Prop :=
  forall w, Inv w -> post m w (fun _ w' => Inv w') Inv.

(** What the pool's methods and goroutines must keep for [Inv] to hold
    along every schedule. *)
Record pool_invariant (Inv : World -> Prop) : Prop := mkPoolInvariant {
  inv_Get : forall fuel ctx wk, keeps Inv (Get fuel ctx wk);
  inv_Put : forall ctx cn, keeps Inv (Put ctx cn);
  inv_Remove : forall ctx cn reason, keeps Inv (Remove ctx cn reason);
  inv_CloseConn : forall cn, keeps Inv (CloseConn cn);
  inv_NewConn : forall ctx, keeps Inv (NewConn ctx);
  inv_Len : keeps Inv Len;
  inv_IdleLen : keeps Inv IdleLen;
  inv_Stats : keeps Inv ConnPool_Stats;
  inv_Filter : forall fn, keeps Inv (Filter fn);
  inv_Close : keeps Inv Close;
  inv_ReapStaleConns : forall fuel, keeps Inv (ReapStaleConns fuel);
  inv_reaper_tick : forall fuel, keeps Inv (reaper_tick fuel);
  inv_go : forall g k w,
      Inv w -> goroutines w !! k = Some g ->
      post (run_goroutine g) (set_goroutines (delete k (goroutines w)) w)
           (fun _ w' => Inv w') Inv;
  inv_clock : forall t w, Inv w -> Inv (set_clock t w);
  inv_use : forall cn unread w, Inv w -> Inv (use_conn cn unread w)
}.

(** PoolSize 3, MinIdleConns 1, MaxIdleConns 2. *)
Definition opt_small : Options := mkOptions good_dialer false 3 100 1 2 0 0.

Definition s_small : Sys :=
  sys_or (start opt_small sound_env) (mkSys (new_world opt_small sound_env) [] [] []).

(** The filler dials and attaches its connection; a caller takes it, uses
    it and puts it back; a second caller dials through [NewConn]. *)
Definition busy_day : list event :=
  [EGo 0; EGo 0; EGet None WakeTimer; EUse 1%nat 0; EPut None 1%nat;
   EGet None WakeTimer; ENewConn None; EReapStaleConns].

(** The configuration is the constructor's, [PoolSize] is not negative and
    [poolSize] is within it. *)
Definition sized (opt : Options) (w : World) : Prop :=
  cfg (pool w) = opt /\ 0 <= PoolSize opt /\ poolSize (pool w) <= PoolSize opt.

(** The pool of [s_small] once its filler has attached connection 1, and
    the same pool with connection 1 checked out. *)
Definition w_warm : World := world (sys_or (run [EGo 0; EGo 0] s_small) s_small).
Definition w_lent : World := get_then w_warm.

(** The sockets closed by [Filter fn] on the connections [xs]. *)
Definition filtered (fn : ptr -> bool) (h : gmap nat Conn) (xs : list ptr) : list nat :=
  sockets_of h (List.filter fn xs).

(** One more socket closed. *)
Definition close_socket (s : nat) (w : World) : World :=
  set_netClosed (netClosed w ++ [s]) w.



(** The verdict of [isStaleConn] on the connection [cn]. *)
Definition stale_at (w : World) (cn : ptr) : bool :=
  match heap w !! cn with
  | Some c => negb (healthy c w)
  | None => false
  end.

(** The connections at the head of the idle list that the reaper takes:
    it stops at the first one that is not stale. *)
Fixpoint reaped (w : World) (ids : list ptr) : list ptr :=
  match ids with
  | [] => []
  | cn :: rest => if stale_at w cn then cn :: reaped w rest else []
  end.

Fixpoint unlink_all (cns xs : list ptr) : list ptr :=
  match cns with
  | [] => xs
  | cn :: r => unlink_all r (remove_one cn xs)
  end.

(** What the verdict of the health checks depends on. *)
Definition same_times (w w' : World) : Prop :=
  heap w' = heap w /\ cfg (pool w') = cfg (pool w) /\ clock w' = clock w
  /\ env w' = env w.

(** The order in which [popIdle] takes the idle connections: from the back
    of the list, or from its front with [PoolFIFO]. *)
Definition pop_order (fifo : bool) (ids : list ptr) : list ptr :=
  if fifo then ids else rev ids.

(** The verdict of [isHealthyConn] on the connection [cn]. *)
Definition healthy_at (w : World) (cn : ptr) : bool :=
  match heap w !! cn with
  | Some c => healthy c w
  | None => false
  end.

(** [w'] is [w] after the loop of [Get] has evicted the candidates [gone]:
    each of them failed the health check, was unlinked from [conns] and was
    handed to a closing goroutine of its own, in this order. *)
Definition Get_evicted (gone : list ptr) (w w' : World) : Prop :=
  Forall (fun cn => stale_at w cn = true) gone
  /\ closing_of (goroutines w') = closing_of (goroutines w) ++ gone
  /\ (forall xs, conns (pool w) = Some xs ->
                 conns (pool w') = Some (unlink_all gone xs)).

(** The invariant of the loop of [Get], candidate by candidate: the loop
    was started in world [w0] with idle list [ids0]; so far it has popped
    and evicted the candidates [gone]. *)
Definition Get_loop_trace (w0 : World) (ids0 : list ptr) (w : World) : Prop :=
  exists gone ids,
    idleConns (pool w) = Some ids
    /\ (nil_ptr ∉ ids)
    /\ pop_order (PoolFIFO (cfg (pool w0))) ids0 =
       gone ++ pop_order (PoolFIFO (cfg (pool w0))) ids
    /\ same_times w0 w
    /\ Get_evicted gone w0 w.

(** What the loop of [Get] has done when it is left: with a connection, the
    first healthy candidate in the order of [popIdle], the candidates before
    it evicted; at [break], every idle connection evicted. *)
Definition Get_loop_outcome (w0 : World) (ids0 : list ptr)
    (r : option (ptr * option error)) (w : World) : Prop :=
  match r with
  | Some (_, Some e) => e = ErrClosed
  | Some (cn, None) =>
      exists gone ids,
        idleConns (pool w) = Some ids
        /\ pop_order (PoolFIFO (cfg (pool w0))) ids0 =
           gone ++ cn :: pop_order (PoolFIFO (cfg (pool w0))) ids
        /\ healthy_at w0 cn = true
        /\ Get_evicted gone w0 w
  | None =>
      idleConns (pool w) = Some []
      /\ Get_evicted (pop_order (PoolFIFO (cfg (pool w0))) ids0) w0 w
  end.

(** [w'] is [w] after the reaper has taken the connections [cns] off the
    head of the idle list. *)
Definition reaped_to (cns : list ptr) (w w' : World) : Prop :=
  same_times w w'
  /\ stats (pool w') = stats (pool w)
  /\ queue_of w' = queue_of w
  /\ netClosed w' = netClosed w ++ sockets_of (heap w) cns
  /\ (forall ids, idleConns (pool w) = Some ids ->
                  idleConns (pool w') = Some (drop (length cns) ids))
  /\ (forall xs, conns (pool w) = Some xs ->
                 conns (pool w') = Some (unlink_all cns xs))
  /\ exists k : nat,
       goroutines w' = goroutines w ++ replicate k GoFiller
       /\ idleConnsLen (pool w') =
          idleConnsLen (pool w) - Z.of_nat (length cns) + Z.of_nat k.

(** The pool of [w_warm] an hour later, with [ConnMaxIdleTime] of a minute
    in force from the start. *)
Definition opt_aging : Options := mkOptions good_dialer false 3 100 2 0 60 0.

Definition s_aging : Sys :=
  sys_or (start opt_aging sound_env) (mkSys (new_world opt_aging sound_env) [] [] []).

Definition w_aged : World :=
  world (sys_or (run [EGo 0; EGo 0; EGo 0; EGo 0; ETick 3600] s_aging) s_aging).

(** The connection [cn] is registered, not idle, and held by no caller. *)
Definition unheld (hg hn : list ptr) (w : World) (cn : ptr) : Prop :=
  exists xs, conns (pool w) = Some xs /\ (cn ∈ xs)
             /\ (forall ids, idleConns (pool w) = Some ids -> cn ∉ ids)
             /\ (cn ∉ hg) /\ (cn ∉ hn).

(** The discipline of callers, as a check along the schedule. *)
Definition client_okb (e : event) (s : Sys) : bool :=
  match e with
  | EPut _ cn | ERemove _ cn _ => bool_decide (cn ∈ heldGet s)
  | ECloseConn cn => bool_decide (cn ∈ heldGet s) || bool_decide (cn ∈ heldNew s)
  | EFilter _ => false
  | _ => true
  end.

Fixpoint disciplinedb (es : list event) (s : Sys) : bool :=
  match es with
  | [] => true
  | e :: es' =>
      client_okb e s
      && match exec e s with
         | Some s' => disciplinedb es' s'
         | None => true
         end
  end.

(** Every connection that was ever allocated is accounted for: it is
    registered in [conns], or a goroutine is about to close it or to attach
    it, or its socket has been closed. *)
Definition all_accounted (w : World) : Prop :=
  forall cn c, heap w !! cn = Some c ->
    cn ∈ live_of (conns (pool w)) ++ closing_of (goroutines w)
         ++ attaching_of (goroutines w)
    \/ netConn c ∈ netClosed w.

(** The sockets of the registered and of the pending connections are open. *)
Definition owned_open (w : World) : Prop :=
  forall cn c, heap w !! cn = Some c ->
    cn ∈ live_of (conns (pool w)) ++ closing_of (goroutines w)
         ++ attaching_of (goroutines w) ->
    netConn c ∉ netClosed w.

(** A caller takes a connection, a second caller takes another; the first
    gives its connection back, the second removes its own; the pool is
    closed and the pending goroutines run. *)
Definition two_callers : list event :=
  [EGo 0; EGo 0; EGet None WakeTimer; EGet None WakeTimer; EUse 1%nat 0;
   EPut None 1%nat; ERemove None 2%nat None; EGet None WakeTimer; ENewConn None;
   ECloseConn 3%nat; EClose; EGo 0; EGo 0].

(** The goroutines of [checkMinIdleConns] that have not finished: those
    that have not dialled yet and those that hold a connection to attach. *)
Definition is_pending (g : goroutine) : bool :=
  match g with
  | GoFiller | GoFillerAttach _ => true
  | GoCloseConn _ | GoTryDial => false
  end.

Definition pending (w : World) : Z :=
  Z.of_nat (length (List.filter is_pending (goroutines w))).

(** The length of the idle list. *)
Definition idle_len (w : World) : Z :=
  match idleConns (pool w) with
  | Some ids => Z.of_nat (length ids)
  | None => 0
  end.

(** On an open pool [idleConnsLen] counts the idle connections and the
    slots reserved for fillers that are still at work.  The dialer's errors
    are recorded as they come, and none of them is [ErrClosed]. *)
Definition counted_idle (opt : Options) (w : World) : Prop :=
  cfg (pool w) = opt
  /\ lastDialError (pool w) <> Some ErrClosed
  /\ (closed (pool w) = false ->
      idleConnsLen (pool w) = idle_len w + pending w).

(** [keepR Inv] relates a world in [Inv] to worlds in [Inv] only. *)
Definition keepR (Inv : World -> Prop) (w w' : World) : Prop := Inv w -> Inv w'.

(** PoolSize 2, MinIdleConns 2, and a dialer that fails every other time. *)
Definition flaky_dialer : nat -> option error :=
  fun k => if Nat.even k then Some (DialError 7) else None.

Definition opt_flaky : Options := mkOptions flaky_dialer false 4 100 2 0 0 0.

Definition s_flaky : Sys :=
  sys_or (start opt_flaky sound_env) (mkSys (new_world opt_flaky sound_env) [] [] []).

Definition flaky_day : list event :=
  [EGo 0; EGo 0; EGo 0; EGet None WakeTimer; EGo 0; EPut None 1%nat;
   EGet None WakeTimer; EGet None WakeTimer; EReapStaleConns].

(** The number of connections the constructor warms up. *)
Definition warm_count (opt : Options) : nat :=
  if MinIdleConns opt =? 0 then 0%nat
  else Z.to_nat (Z.min (PoolSize opt) (MinIdleConns opt)).

(** Every pending goroutine takes its turn, in the order they were
    started: [n] fillers dial, then attach. *)
Definition warm_up (n : nat) : list event := replicate (n + n) (EGo 0).

(** The configuration is the constructor's and no more than [PoolSize]
    turns are taken. *)
Definition turns_bounded (opt : Options) (w : World) : Prop :=
  cfg (pool w) = opt /\ queue (pool w) <= PoolSize opt.

(** Nothing was dialled, no connection was allocated and the hit and miss
    counters stand still. *)
Definition no_dial (w w' : World) : Prop :=
  dials w' = dials w /\ nextPtr w' = nextPtr w
  /\ Hits_of w' = Hits_of w /\ Misses_of w' = Misses_of w
  /\ dialErrorsNum (pool w') = dialErrorsNum (pool w)
  /\ lastDialError (pool w') = lastDialError (pool w).

(** A [Get] that gave up waiting for a turn. *)
Definition timed_out (r : option error * Get_site) : bool :=
  match r with
  | (Some ErrPoolTimeout, AtWaitTurn) => true
  | _ => false
  end.

(** The contexts that callers pass to [Get] report context errors only. *)
Definition patient (es : list event) : Prop :=
  Forall (fun e => match e with
                   | EGet ctx wk => context_errors ctx wk
                   | _ => True
                   end) es.

Definition same_Timeouts (w w' : World) : Prop := Timeouts_of w' = Timeouts_of w.

(** The invariant behind the count of timeouts. *)
Definition timeouts_logged (s : Sys) : Prop :=
  uint32 (Timeouts_of (world s)) = uint32 (count_gets timed_out (getLog s)).

(** A pool with a single turn: the second caller waits until the timer
    fires, the third until its context is cancelled. *)
Definition crowded : list event :=
  [EGet None WakeTimer; EGet None WakeTimer; EGet None (WakeCtxDone ContextCanceled);
   EGet None WakeTimer].

(** The connection [cn] is allocated and marked pooled. *)
Definition is_pooled (h : gmap nat Conn) (cn : ptr) : bool :=
  match h !! cn with
  | Some c => pooled c
  | None => false
  end.

(** The number of registered connections that are marked pooled. *)
Definition pooled_count (w : World) : Z :=
  Z.of_nat (length (List.filter (is_pooled (heap w)) (live_of (conns (pool w))))).

(** The connections that fillers are about to attach are marked pooled. *)
Definition attaching_pooled (w : World) : Prop :=
  forall cn, cn ∈ attaching_of (goroutines w) ->
             is_pooled (heap w) cn = true /\ (cn < nextPtr w)%nat.

(** On an open pool [poolSize] counts the registered pooled connections
    and the slots reserved for fillers that are still at work, and [d] more
    while a filler is in the middle of its turn. *)
Definition counted_pool_off (d : Z) (opt : Options) (w : World) : Prop :=
  cfg (pool w) = opt
  /\ lastDialError (pool w) <> Some ErrClosed
  /\ dial_sane w
  /\ (forall cn, cn ∈ live_of (conns (pool w)) -> (cn < nextPtr w)%nat)
  /\ attaching_pooled w
  /\ (closed (pool w) = false ->
      poolSize (pool w) = pooled_count w + pending w + d).

Definition counted_pool (opt : Options) (w : World) : Prop :=
  counted_pool_off 0 opt w.

(** * Properties *)

(** ** Proof support *)

Lemma post_bind {A C} (m : M A) (k : A -> M C) w Q B :
  post m w (fun a w' => post (k a) w' Q B) B -> post (m ≫= k) w Q B.
Proof.
  unfold post, mbind, M_bind, bind. destruct (m w); auto.
Qed.

Lemma post_mono {A} (m : M A) w (Q Q' : A -> World -> Prop) (B B' : World -> Prop) :
  post m w Q B ->
  (forall a w', Q a w' -> Q' a w') -> (forall w', B w' -> B' w') ->
  post m w Q' B'.
Proof.
  unfold post. destruct (m w); auto.
Qed.

Lemma post_returns {A} (m : M A) w Q B a w' :
  post m w Q B -> m w = Returns a w' -> Q a w'.
Proof. unfold post. intros H E. rewrite E in H. exact H. Qed.

Lemma post_blocks {A} (m : M A) w Q B w' :
  post m w Q B -> m w = Blocks w' -> B w'.
Proof. unfold post. intros H E. rewrite E in H. exact H. Qed.

(** The rule of loop invariants. *)
Lemma loop_post {S A} (body : S -> M (S + A)) (Inv : S -> World -> Prop)
    (Q : A -> World -> Prop) (B : World -> Prop) :
  (forall s w, Inv s w ->
     post (body s) w (fun r w' => match r with
                                  | inl s' => Inv s' w'
                                  | inr a => Q a w'
                                  end) B) ->
  forall fuel s w, Inv s w -> post (loop fuel body s) w Q B.
Proof.
  intros Hbody fuel. induction fuel as [|fuel IH]; intros s w HI.
  - exact I.
  - simpl. apply post_bind.
    eapply post_mono; [apply (Hbody s w HI) | | auto].
    intros [s'|a] w' H; [apply IH; exact H | exact H].
Qed.

Ltac unfold_monad :=
  unfold mbind, mret, M_bind, M_ret, bind, ret, gets, modify, panic, block in *.

(** Projections of updated worlds are computed; the updates themselves are
    not unfolded, which would copy the world they apply to. *)
Ltac simpl_world :=
  cbn [go with_pool reserve_idle release_idle
       set_dialErrorsNum set_lastDialError set_queue set_conns set_idleConns
       set_poolSize set_idleConnsLen set_stats set_closed
       set_Hits set_Misses set_Timeouts set_StaleConns
       set_heap set_nextPtr set_clock set_goroutines set_dials set_netClosed
       set_popCalls
       pool heap nextPtr clock env goroutines dials netClosed popCalls
       cfg dialErrorsNum lastDialError queue conns idleConns poolSize idleConnsLen
       stats _closed Hits Misses Timeouts TotalConns IdleConns StaleConns
       Dialer PoolFIFO PoolSize PoolTimeout MinIdleConns MaxIdleConns
       ConnMaxIdleTime ConnMaxLifetime
       netConn pooled createdAt usedAt rdBuffered connCheck netClose
       Conn_set_pooled Conn_SetUsedAt Conn_set_rdBuffered] in *.

(** The same by value, for worlds whose fields are all explicit. *)
Ltac compute_world :=
  cbv beta iota delta
    [go with_pool reserve_idle release_idle
     set_dialErrorsNum set_lastDialError set_queue set_conns set_idleConns
     set_poolSize set_idleConnsLen set_stats set_closed
     set_Hits set_Misses set_Timeouts set_StaleConns
     set_heap set_nextPtr set_clock set_goroutines set_dials set_netClosed
     set_popCalls
     pool heap nextPtr clock env goroutines dials netClosed popCalls
     cfg dialErrorsNum lastDialError queue conns idleConns poolSize idleConnsLen
     stats _closed Hits Misses Timeouts TotalConns IdleConns StaleConns].

Ltac unfold_setters := simpl_world.

(** ** C7: waitTurn *)

(** C7.  [waitTurn] fails with the caller's context error, and leaves
    [stats.Timeouts], the admission channel and everything else as they
    were, when the context is done on entry or becomes done while the call
    waits; it fails with [ErrPoolTimeout] exactly when no turn was free and
    the blocking select takes the timer's case, and then [stats.Timeouts]
    grows by one (as a uint32) and nothing else changes. *)
Theorem waitTurn_errors (ctx : Context) (wk : wake) (w : World)
    (Hctx : context_errors ctx wk) :
  (forall e, ctx = Some e -> waitTurn ctx wk w = Returns (Some e) w)
  /\ (forall e, ctx = None -> PoolSize_of w <= queue_of w -> wk = WakeCtxDone e ->
        waitTurn ctx wk w = Returns (Some e) w)
  /\ (ctx = None -> PoolSize_of w <= queue_of w -> wk = WakeTimer ->
        waitTurn ctx wk w = Returns (Some ErrPoolTimeout) (charge_timeout w)
        /\ Timeouts_of (charge_timeout w) = uint32 (Timeouts_of w + 1)
        /\ queue_of (charge_timeout w) = queue_of w)
  /\ (forall r w', waitTurn ctx wk w = Returns r w' ->
        (r = Some ErrPoolTimeout
         <-> ctx = None /\ PoolSize_of w <= queue_of w /\ wk = WakeTimer)
        /\ (r <> Some ErrPoolTimeout -> Timeouts_of w' = Timeouts_of w)).
Proof.
  destruct Hctx as [Hc Hw].
  assert (Hfull : PoolSize_of w <= queue_of w ->
                  (queue (pool w) <? PoolSize (cfg (pool w))) = false).
  { unfold PoolSize_of, queue_of. intros. apply Z.ltb_ge. lia. }
  split; [| split; [| split]].
  - intros e ->. reflexivity.
  - intros e -> Hq ->. unfold waitTurn. unfold_monad.
    rewrite (Hfull Hq). reflexivity.
  - intros -> Hq ->. split; [| split; reflexivity].
    unfold waitTurn. unfold_monad. rewrite (Hfull Hq). reflexivity.
  - intros r w' Hrun. unfold waitTurn in Hrun. destruct ctx as [e|].
    + unfold_monad. inversion Hrun; subst.
      split; [split |].
      * intros [= ->]. destruct (Hc _ eq_refl); discriminate.
      * intros (? & _); discriminate.
      * reflexivity.
    + unfold_monad.
      destruct (queue (pool w) <? PoolSize (cfg (pool w))) eqn:Hlt.
      * unfold getTurn in Hrun. rewrite Hlt in Hrun. inversion Hrun; subst.
        split; [split |].
        -- discriminate.
        -- intros (_ & Hq & _). discriminate (Hfull Hq).
        -- reflexivity.
      * assert (Hq : PoolSize_of w <= queue_of w).
        { unfold PoolSize_of, queue_of. apply Z.ltb_ge in Hlt. lia. }
        destruct wk as [e| |]; simpl in Hrun; unfold_monad.
        -- inversion Hrun; subst. split; [split |].
           ++ intros [= ->]. destruct (Hw _ eq_refl); discriminate.
           ++ intros (_ & _ & ?); discriminate.
           ++ reflexivity.
        -- unfold getTurn in Hrun. rewrite Hlt in Hrun. discriminate.
        -- unfold add_Timeouts in Hrun. unfold_monad. inversion Hrun; subst.
           split; [split |]; [auto | auto | congruence].
Qed.

(** ** The min-idle filler in closed form *)

Lemma reserve_n_0 w : reserve_n 0 w = w.
Proof.
  destruct w as [[] ? ? ? ? ? ? ? ?]. unfold reserve_n. compute_world.
  cbn [replicate Z.of_nat]. rewrite app_nil_r, !Z.add_0_r. reflexivity.
Qed.

Lemma reserve_n_S k w :
  reserve_n k (go GoFiller (with_pool reserve_idle w)) = reserve_n (S k) w.
Proof.
  destruct w as [[] ? ? ? ? ? ? ? ?]. unfold reserve_n. compute_world.
  cbn [replicate]. rewrite <- app_assoc, Nat2Z.inj_succ.
  f_equal. f_equal; lia.
Qed.

Lemma checkMinIdleConns_loop_eq fuel w :
  checkMinIdleConns_loop fuel w = reserve_n (Nat.min fuel (Z.to_nat (refill_room w))) w.
Proof.
  revert w. induction fuel as [|fuel IH]; intros w.
  - simpl. symmetry. apply reserve_n_0.
  - simpl checkMinIdleConns_loop.
    destruct (Z.ltb_spec (poolSize (pool w)) (PoolSize (cfg (pool w)))) as [Hp|Hp];
      destruct (Z.ltb_spec (idleConnsLen (pool w)) (MinIdleConns (cfg (pool w)))) as [Hi|Hi];
      cbn [andb].
    + rewrite IH, reserve_n_S. f_equal.
      unfold refill_room. simpl_world. lia.
    + replace (Z.to_nat (refill_room w)) with 0%nat by (unfold refill_room; lia).
      rewrite Nat.min_0_r. symmetry. apply reserve_n_0.
    + replace (Z.to_nat (refill_room w)) with 0%nat by (unfold refill_room; lia).
      rewrite Nat.min_0_r. symmetry. apply reserve_n_0.
    + replace (Z.to_nat (refill_room w)) with 0%nat by (unfold refill_room; lia).
      rewrite Nat.min_0_r. symmetry. apply reserve_n_0.
Qed.

Lemma checkMinIdleConns_eq w :
  checkMinIdleConns w = Returns tt (reserve_n (refill_count w) w).
Proof.
  unfold checkMinIdleConns, refill_count.
  destruct (MinIdleConns (cfg (pool w)) =? 0).
  - rewrite reserve_n_0. reflexivity.
  - rewrite checkMinIdleConns_loop_eq. do 2 f_equal.
    unfold refill_room. lia.
Qed.

(** When [checkMinIdleConns] returns, the guard of its loop is false: the
    loop was not cut short. *)
Lemma checkMinIdleConns_done w :
  MinIdleConns (cfg (pool w)) <> 0 ->
  let w' := reserve_n (refill_count w) w in
  (poolSize (pool w') <? PoolSize (cfg (pool w')))
  && (idleConnsLen (pool w') <? MinIdleConns (cfg (pool w'))) = false.
Proof.
  intros Hmin. unfold refill_count.
  destruct (Z.eqb_spec (MinIdleConns (cfg (pool w))) 0) as [|_]; [contradiction |].
  simpl. unfold refill_room.
  apply andb_false_iff.
  destruct (Z.le_gt_cases (PoolSize (cfg (pool w)) - poolSize (pool w))
              (MinIdleConns (cfg (pool w)) - idleConnsLen (pool w))).
  - left. apply Z.ltb_ge. lia.
  - right. apply Z.ltb_ge. lia.
Qed.

(** ** Stepping through the methods *)

Lemma removeConn_eq cn w :
  removeConn cn w =
  match conns (pool w) with
  | None => Panics
  | Some xs =>
      match remove_first cn xs with
      | None => Returns tt w
      | Some xs' =>
          match heap w !! cn with
          | None => Panics
          | Some c =>
              if pooled c then
                Returns tt (reserve_n (refill_count (unlink_pooled xs' w)) (unlink_pooled xs' w))
              else Returns tt (with_pool (set_conns (Some xs')) w)
          end
      end
  end.
Proof.
  unfold removeConn, List_elements, deref. unfold_monad.
  destruct (conns (pool w)) as [xs|]; [| reflexivity].
  destruct (remove_first cn xs) as [xs'|]; [| reflexivity].
  simpl_world.
  destruct (heap w !! cn) as [c|]; [| reflexivity].
  destruct (pooled c); [| reflexivity].
  rewrite checkMinIdleConns_eq. reflexivity.
Qed.

Lemma remove_first_elem cn xs :
  cn ∈ xs -> exists xs', remove_first cn xs = Some xs'.
Proof.
  induction xs as [|x xs IH]; intros Hin.
  - inversion Hin.
  - simpl. destruct (decide (x = cn)); [eauto |].
    destruct IH as [xs' ->]; [| eauto].
    apply elem_of_cons in Hin as [->|]; [congruence | assumption].
Qed.

Lemma remove_first_not_elem cn xs :
  cn ∉ xs -> remove_first cn xs = None.
Proof.
  induction xs as [|x xs IH]; intros Hin; [reflexivity |].
  simpl. apply not_elem_of_cons in Hin as [Hne Hin].
  destruct (decide (x = cn)); [congruence |].
  rewrite IH by assumption. reflexivity.
Qed.

Lemma remove_first_length cn xs xs' :
  remove_first cn xs = Some xs' -> length xs = S (length xs').
Proof.
  revert xs'. induction xs as [|x xs IH]; intros xs' H; [discriminate |].
  simpl in H. destruct (decide (x = cn)).
  - inversion H; subst. reflexivity.
  - destruct (remove_first cn xs) as [r|]; [| discriminate].
    inversion H; subst. simpl. rewrite (IH r); reflexivity.
Qed.

Lemma popIdle_eq w :
  popIdle w =
  if closed (pool w) then Returns (nil_ptr, Some ErrClosed) (count_pop w)
  else match idleConns (pool w) with
       | None => Panics
       | Some xs =>
           if Z.of_nat (length xs) =? 0 then Returns (nil_ptr, None) (count_pop w)
           else match pop_choice (PoolFIFO (cfg (pool w))) xs with
                | (Some cn, rest) =>
                    Returns (cn, None)
                      (reserve_n (refill_count (unlink_idle rest w)) (unlink_idle rest w))
                | (None, _) =>
                    Returns (nil_ptr, None)
                      (reserve_n (refill_count (count_pop w)) (count_pop w))
                end
       end.
Proof.
  unfold popIdle, List_Len, List_elements, pop_choice. unfold_monad.
  change (closed (pool (set_popCalls (S (popCalls w)) w))) with (closed (pool w)).
  destruct (closed (pool w)); [reflexivity |].
  change (idleConns (pool (set_popCalls (S (popCalls w)) w))) with (idleConns (pool w)).
  destruct (idleConns (pool w)) as [xs|]; [| reflexivity].
  destruct (Z.of_nat (length xs) =? 0); [reflexivity |].
  change (PoolFIFO (cfg (pool (set_popCalls (S (popCalls w)) w))))
    with (PoolFIFO (cfg (pool w))).
  destruct (PoolFIFO (cfg (pool w))).
  - destruct (head xs); rewrite checkMinIdleConns_eq; reflexivity.
  - destruct (last xs); rewrite checkMinIdleConns_eq; reflexivity.
Qed.

Lemma pop_choice_nonempty fifo xs :
  xs <> [] -> exists cn rest, pop_choice fifo xs = (Some cn, rest)
                              /\ length xs = S (length rest) /\ cn ∈ xs
                              /\ (forall x, x ∈ rest -> x ∈ xs).
Proof.
  intros Hne. unfold pop_choice. destruct fifo.
  - destruct xs as [|x xs]; [contradiction |].
    exists x, xs. simpl. repeat split; [left | intros; right; assumption].
  - destruct (exists_last Hne) as (ys & y & ->).
    exists y, ys. rewrite last_snoc, removelast_last, length_app. simpl.
    repeat split; [lia | apply elem_of_app; right; left |].
    intros x Hx. apply elem_of_app. left. assumption.
Qed.

Lemma isHealthyConn_eq cn w :
  isHealthyConn cn w =
  match heap w !! cn with
  | None => Panics
  | Some c => if healthy c w then Returns true (touch cn c w) else Returns false w
  end.
Proof.
  unfold isHealthyConn, healthy, deref, update_conn, touch. unfold_monad.
  destruct (heap w !! cn) as [c|] eqn:Hc; [| reflexivity].
  destruct ((0 <? ConnMaxLifetime (cfg (pool w)))
            && (ConnMaxLifetime (cfg (pool w)) <=? clock w - createdAt c)); [reflexivity |].
  destruct ((0 <? ConnMaxIdleTime (cfg (pool w)))
            && (ConnMaxIdleTime (cfg (pool w)) <=? clock w - usedAt c)); [reflexivity |].
  destruct (connCheck (env w) (netConn c) (clock w)); [reflexivity |].
  rewrite Hc. reflexivity.
Qed.

Lemma isStaleConn_eq cn w :
  isStaleConn cn w =
  match heap w !! cn with
  | None => Panics
  | Some c => Returns (negb (healthy c w)) w
  end.
Proof.
  unfold isStaleConn, healthy, deref. unfold_monad.
  destruct (heap w !! cn) as [c|] eqn:Hc; [| reflexivity].
  destruct ((0 <? ConnMaxLifetime (cfg (pool w)))
            && (ConnMaxLifetime (cfg (pool w)) <=? clock w - createdAt c)); [reflexivity |].
  destruct ((0 <? ConnMaxIdleTime (cfg (pool w)))
            && (ConnMaxIdleTime (cfg (pool w)) <=? clock w - usedAt c)); [reflexivity |].
  destruct (connCheck (env w) (netConn c) (clock w)); reflexivity.
Qed.

Lemma AsyncCloseConn_eq cn w :
  AsyncCloseConn cn w =
  match removeConn cn w with
  | Returns _ w1 => Returns tt (go (GoCloseConn cn) (count_stale 1 w1))
  | Panics => Panics
  | Blocks w1 => Blocks w1
  | OutOfFuel => OutOfFuel
  end.
Proof.
  unfold AsyncCloseConn, removeConnWithLock, add_StaleConns. unfold_monad.
  destruct (removeConn cn w); reflexivity.
Qed.

Lemma filter_is_closer_fillers k :
  filter is_closer (replicate k GoFiller) = [].
Proof. induction k as [|k IH]; [reflexivity | simpl; assumption]. Qed.

Lemma closers_reserve_n k w : closers (reserve_n k w) = closers w.
Proof.
  unfold closers, reserve_n. simpl_world.
  rewrite filter_app, filter_is_closer_fillers, app_nil_r. reflexivity.
Qed.

Lemma closers_go_close cn w : closers (go (GoCloseConn cn) w) = closers w + 1.
Proof.
  unfold closers. simpl_world. rewrite filter_app, length_app. simpl. lia.
Qed.

Lemma uint32_add_l a b : uint32 (uint32 a + b) = uint32 (a + b).
Proof. unfold uint32. apply Zplus_mod_idemp_l. Qed.

Lemma uint32_add_r a b : uint32 (a + uint32 b) = uint32 (a + b).
Proof. unfold uint32. apply Zplus_mod_idemp_r. Qed.

Lemma uint32_idem a : uint32 (uint32 a) = uint32 a.
Proof. unfold uint32. apply Zmod_mod. Qed.

Ltac simpl_steps :=
  cbn [reserve_n unlink_pooled unlink_idle count_pop count_stale count_hit
       count_miss touch charge_timeout
       go with_pool reserve_idle release_idle
       set_dialErrorsNum set_lastDialError set_queue set_conns set_idleConns
       set_poolSize set_idleConnsLen set_stats set_closed
       set_Hits set_Misses set_Timeouts set_StaleConns
       set_heap set_nextPtr set_clock set_goroutines set_dials set_netClosed
       set_popCalls
       pool heap nextPtr clock env goroutines dials netClosed popCalls
       cfg dialErrorsNum lastDialError queue conns idleConns poolSize idleConnsLen
       stats _closed Hits Misses Timeouts TotalConns IdleConns StaleConns
       Dialer PoolFIFO PoolSize PoolTimeout MinIdleConns MaxIdleConns
       ConnMaxIdleTime ConnMaxLifetime
       netConn pooled createdAt usedAt rdBuffered connCheck netClose
       Conn_set_pooled Conn_SetUsedAt Conn_set_rdBuffered] in *.

Lemma Get_body_eq i w :
  Get_body i w =
  match popIdle w with
  | Returns (cn, Some e) w1 => Returns (inr (Some (nil_ptr, Some e))) w1
  | Returns (cn, None) w1 =>
      if decide (cn = nil_ptr) then
        if 3 <=? AddInt32 i 1 then Returns (inr None) w1
        else Returns (inl (AddInt32 i 1)) w1
      else
        match heap w1 !! cn with
        | None => Panics
        | Some c =>
            if healthy c w1 then Returns (inr (Some (cn, None))) (count_hit (touch cn c w1))
            else match removeConn cn w1 with
                 | Returns _ w2 => Returns (inl i) (go (GoCloseConn cn) (count_stale 1 w2))
                 | Panics => Panics
                 | Blocks w2 => Blocks w2
                 | OutOfFuel => OutOfFuel
                 end
        end
  | Panics => Panics
  | Blocks w1 => Blocks w1
  | OutOfFuel => OutOfFuel
  end.
Proof.
  unfold Get_body. unfold mbind at 1. unfold M_bind, bind.
  destruct (popIdle w) as [[cn [e|]] w1| | |]; try reflexivity.
  destruct (decide (cn = nil_ptr)).
  - destruct (3 <=? AddInt32 i 1); reflexivity.
  - unfold mbind at 1. unfold M_bind, bind. rewrite isHealthyConn_eq.
    destruct (heap w1 !! cn) as [c|]; [| reflexivity].
    destruct (healthy c w1).
    + reflexivity.
    + unfold mbind, M_bind, bind. rewrite AsyncCloseConn_eq.
      destruct (removeConn cn w1); reflexivity.
Qed.

(** What [removeConn] leaves alone. *)
Lemma removeConn_frame cn w :
  post (removeConn cn) w
    (fun _ w' => stats (pool w') = stats (pool w) /\ queue_of w' = queue_of w
                 /\ closers w' = closers w /\ netClosed w' = netClosed w
                 /\ idleConns (pool w') = idleConns (pool w)
                 /\ heap w' = heap w /\ cfg (pool w') = cfg (pool w)
                 /\ _closed (pool w') = _closed (pool w) /\ dials w' = dials w
                 /\ popCalls w' = popCalls w)
    (fun _ => False).
Proof.
  unfold post. rewrite removeConn_eq.
  destruct (conns (pool w)) as [xs|]; [| exact I].
  destruct (remove_first cn xs) as [xs'|].
  - destruct (heap w !! cn) as [c|]; [| exact I].
    destruct (pooled c).
    + rewrite closers_reserve_n. simpl_steps. unfold queue_of. tauto.
    + unfold closers, queue_of. simpl_world. tauto.
  - tauto.
Qed.

Lemma popIdle_frame w :
  post popIdle w
    (fun _ w' => stats (pool w') = stats (pool w) /\ queue_of w' = queue_of w
                 /\ closers w' = closers w /\ netClosed w' = netClosed w
                 /\ conns (pool w') = conns (pool w)
                 /\ heap w' = heap w /\ cfg (pool w') = cfg (pool w)
                 /\ _closed (pool w') = _closed (pool w) /\ dials w' = dials w
                 /\ popCalls w' = S (popCalls w))
    (fun _ => False).
Proof.
  unfold post. rewrite popIdle_eq.
  destruct (closed (pool w)).
  { unfold closers, queue_of. simpl_steps. tauto. }
  destruct (idleConns (pool w)) as [xs|]; [| exact I].
  destruct (Z.of_nat (length xs) =? 0).
  { unfold closers, queue_of. simpl_steps. tauto. }
  destruct (pop_choice (PoolFIFO (cfg (pool w))) xs) as [[cn|] rest];
    rewrite closers_reserve_n; unfold closers, queue_of; simpl_steps; tauto.
Qed.

Lemma closeConn_eq cn w :
  closeConn cn w =
  match heap w !! cn with
  | None => Panics
  | Some c => Returns (netClose (env w) (netConn c)
                         (count_occ Nat.eq_dec (netClosed w) (netConn c)))
                      (set_netClosed (netClosed w ++ [netConn c]) w)
  end.
Proof.
  unfold closeConn, Conn_Close, deref, net_Close. unfold_monad.
  destruct (heap w !! cn); reflexivity.
Qed.

Lemma reapStaleConn_eq w :
  reapStaleConn w =
  match idleConns (pool w) with
  | None => Panics
  | Some [] => Returns nil_ptr w
  | Some (cn :: rest) =>
      match heap w !! cn with
      | None => Panics
      | Some c =>
          if healthy c w then Returns nil_ptr w
          else match removeConn cn
                       (with_pool (fun p => set_idleConnsLen (idleConnsLen p - 1)
                                              (set_idleConns (Some rest) p)) w) with
               | Returns _ w2 => Returns cn w2
               | Panics => Panics
               | Blocks w2 => Blocks w2
               | OutOfFuel => OutOfFuel
               end
      end
  end.
Proof.
  unfold reapStaleConn, List_Len, List_elements. unfold_monad.
  destruct (idleConns (pool w)) as [[|cn rest]|]; try reflexivity.
  change (Z.of_nat (length (cn :: rest)) =? 0) with false. cbv beta iota.
  rewrite isStaleConn_eq.
  destruct (heap w !! cn) as [c|]; [| reflexivity].
  destruct (healthy c w); simpl; [reflexivity |].
  match goal with |- context [removeConn cn ?w1] => destruct (removeConn cn w1) end;
    reflexivity.
Qed.

Lemma reapStaleConn_frame w :
  post reapStaleConn w
    (fun _ w' => stats (pool w') = stats (pool w) /\ queue_of w' = queue_of w
                 /\ netClosed w' = netClosed w /\ heap w' = heap w
                 /\ cfg (pool w') = cfg (pool w))
    (fun _ => False).
Proof.
  unfold post. rewrite reapStaleConn_eq.
  destruct (idleConns (pool w)) as [[|cn rest]|]; [tauto | | exact I].
  destruct (heap w !! cn) as [c|]; [| exact I].
  destruct (healthy c w); [tauto |].
  match goal with |- context [removeConn cn ?w1] =>
    pose proof (removeConn_frame cn w1) as H; unfold post in H;
    destruct (removeConn cn w1) end; try exact I; [| contradiction].
  unfold queue_of in *. simpl_world. tauto.
Qed.

Lemma ReapStaleConns_loop_frame fuel n0 w0 :
  post (ReapStaleConns_loop fuel n0) w0
    (fun n w' => stats (pool w') = stats (pool w0)
                 /\ Z.of_nat (length (netClosed w')) =
                    Z.of_nat (length (netClosed w0)) + (n - n0))
    (fun _ => True).
Proof.
  unfold ReapStaleConns_loop.
  apply loop_post with
    (Inv := fun n w' => stats (pool w') = stats (pool w0)
                        /\ Z.of_nat (length (netClosed w')) =
                           Z.of_nat (length (netClosed w0)) + (n - n0)).
  2: { split; [reflexivity | lia]. }
  intros n w [Hs Hn]. unfold ReapStaleConns_body, getTurn, freeTurn.
  unfold post. unfold_monad.
  destruct (queue (pool w) <? PoolSize (cfg (pool w))); [| exact I].
  match goal with |- context [reapStaleConn ?w1] =>
    pose proof (reapStaleConn_frame w1) as H; unfold post in H;
    destruct (reapStaleConn w1) as [cn w2| | |] end; try exact I.
  destruct H as (Hs2 & Hq2 & Hc2 & Hh2 & Hcfg2). unfold queue_of in *.
  simpl_world.
  destruct (0 <? queue (pool w2)); [| exact I].
  destruct (decide (cn = nil_ptr)).
  - simpl_world. rewrite Hs2, Hc2. split; [assumption | lia].
  - rewrite closeConn_eq. simpl_world.
    destruct (heap w2 !! cn); [| exact I]. simpl_world.
    rewrite Hs2, Hc2, length_app. simpl. split; [assumption | lia].
Qed.

(** C10.  The eviction path of [Get] for an idle connection that fails the
    health check is [AsyncCloseConn]: it adds one to [stats.StaleConns] (as a
    uint32), starts one closing goroutine and leaves the admission channel as
    it was, so over the whole loop of [Get] the growth of [StaleConns] is the
    number of connections it evicted and no turn is released.  [CloseConn]
    adds one as well, and [ReapStaleConns] adds the number of connections it
    closed. *)
Theorem StaleConns_counts_health_evictions :
  (forall cn w xs c,
      conns (pool w) = Some xs -> heap w !! cn = Some c ->
      exists w', AsyncCloseConn cn w = Returns tt w'
                 /\ StaleConns_of w' = uint32 (StaleConns_of w + 1)
                 /\ queue_of w' = queue_of w
                 /\ closers w' = closers w + 1)
  /\ (forall i w cn w1 c xs,
         popIdle w = Returns (cn, None) w1 -> cn <> nil_ptr ->
         heap w1 !! cn = Some c -> healthy c w1 = false ->
         conns (pool w1) = Some xs ->
         exists w2, AsyncCloseConn cn w1 = Returns tt w2
                    /\ Get_body i w = Returns (inl i) w2
                    /\ StaleConns_of w2 = uint32 (StaleConns_of w + 1)
                    /\ queue_of w2 = queue_of w)
  /\ (forall fuel i w r w',
         Get_loop fuel i w = Returns r w' ->
         queue_of w' = queue_of w
         /\ uint32 (StaleConns_of w') = uint32 (StaleConns_of w + (closers w' - closers w)))
  /\ (forall cn w r w',
         CloseConn cn w = Returns r w' ->
         StaleConns_of w' = uint32 (StaleConns_of w + 1))
  /\ (forall fuel w n e w',
         ReapStaleConns fuel w = Returns (n, e) w' ->
         StaleConns_of w' = uint32 (StaleConns_of w + n)
         /\ Z.of_nat (length (netClosed w')) = Z.of_nat (length (netClosed w)) + n).
Proof.
  assert (Hevict : forall cn w xs c,
      conns (pool w) = Some xs -> heap w !! cn = Some c ->
      exists w', AsyncCloseConn cn w = Returns tt w'
                 /\ StaleConns_of w' = uint32 (StaleConns_of w + 1)
                 /\ queue_of w' = queue_of w
                 /\ closers w' = closers w + 1).
  { intros cn w xs c Hxs Hc. rewrite AsyncCloseConn_eq.
    pose proof (removeConn_frame cn w) as H. unfold post in H.
    assert (Hret : exists w1, removeConn cn w = Returns tt w1).
    { rewrite removeConn_eq, Hxs.
      destruct (remove_first cn xs); [rewrite Hc; destruct (pooled c) |]; eauto. }
    destruct Hret as [w1 Hw1]. rewrite Hw1 in *.
    destruct H as (Hs & Hq & Hcl & _).
    eexists. split; [reflexivity |].
    rewrite closers_go_close. unfold StaleConns_of, queue_of, closers, AddUint32 in *.
    simpl_steps. rewrite Hs, Hq, Hcl. repeat split. }
  split; [exact Hevict |].
  split.
  { intros i w cn w1 c xs Hpop Hnil Hc Hh Hxs.
    destruct (Hevict cn w1 xs c Hxs Hc) as (w2 & Hrun & Hst & Hq & _).
    exists w2. split; [exact Hrun |].
    pose proof (popIdle_frame w) as Hf. unfold post in Hf. rewrite Hpop in Hf.
    destruct Hf as (Hs & Hq1 & _).
    rewrite Get_body_eq, Hpop.
    destruct (decide (cn = nil_ptr)); [contradiction |].
    rewrite Hc, Hh.
    rewrite AsyncCloseConn_eq in Hrun.
    destruct (removeConn cn w1); try discriminate.
    inversion Hrun; subst. split; [reflexivity |].
    unfold StaleConns_of in *. rewrite Hst, Hs, Hq, Hq1. split; reflexivity. }
  split.
  { intros fuel i w r w' Hrun.
    assert (Hp : post (Get_loop fuel i) w
      (fun _ w' => queue_of w' = queue_of w
         /\ uint32 (StaleConns_of w') = uint32 (StaleConns_of w + (closers w' - closers w)))
      (fun _ => True)).
    { unfold Get_loop.
      apply loop_post with (Inv := fun (_ : Z) w' => queue_of w' = queue_of w
         /\ uint32 (StaleConns_of w') = uint32 (StaleConns_of w + (closers w' - closers w))).
      2: { split; [reflexivity |]. f_equal. lia. }
      clear. intros i w1 [Hq Hst]. unfold post. rewrite Get_body_eq.
      pose proof (popIdle_frame w1) as Hf. unfold post in Hf.
      destruct (popIdle w1) as [[cn [e|]] w2| | |]; try exact I; try contradiction.
      { destruct Hf as (Hs & Hq2 & Hc2 & _). unfold StaleConns_of in *.
        rewrite Hs, Hq2, Hc2. auto. }
      destruct Hf as (Hs & Hq2 & Hc2 & _).
      assert (Hkeep : queue_of w2 = queue_of w /\
                uint32 (StaleConns_of w2) =
                uint32 (StaleConns_of w + (closers w2 - closers w))).
      { unfold StaleConns_of in *. rewrite Hs, Hq2, Hc2. auto. }
      destruct (decide (cn = nil_ptr)).
      { destruct (3 <=? AddInt32 i 1); exact Hkeep. }
      destruct (heap w2 !! cn) as [c|]; [| exact I].
      destruct (healthy c w2).
      { destruct Hkeep as [Hk1 Hk2].
        unfold closers, StaleConns_of, queue_of in *. simpl_steps. auto. }
      pose proof (removeConn_frame cn w2) as Hr. unfold post in Hr.
      destruct (removeConn cn w2) as [[] w3| | |]; try exact I; try contradiction.
      destruct Hr as (Hs3 & Hq3 & Hc3 & _). destruct Hkeep as [Hk1 Hk2].
      split.
      - unfold queue_of in *. simpl_steps. congruence.
      - assert (Hcl : closers (go (GoCloseConn cn) (count_stale 1 w3)) = closers w3 + 1).
        { unfold closers. simpl_steps. rewrite filter_app, length_app. simpl. lia. }
        rewrite Hcl, Hc3. unfold StaleConns_of, AddUint32 in *. simpl_steps.
        unfold AddUint32. rewrite Hs3, uint32_idem, <- uint32_add_l, Hk2, uint32_add_l.
        f_equal. lia. }
    exact (post_returns _ _ _ _ _ _ Hp Hrun). }
  split.
  { intros cn w r w' Hrun. unfold CloseConn, removeConnWithLock, add_StaleConns in Hrun.
    unfold_monad.
    pose proof (removeConn_frame cn w) as Hr. unfold post in Hr.
    destruct (removeConn cn w) as [[] w1| | |]; try discriminate.
    destruct Hr as (Hs & _). rewrite closeConn_eq in Hrun. simpl_world.
    destruct (heap w1 !! cn); [| discriminate].
    inversion Hrun; subst. unfold StaleConns_of, AddUint32. simpl_world.
    rewrite Hs. reflexivity. }
  { intros fuel w n e w' Hrun. unfold ReapStaleConns, add_StaleConns in Hrun.
    unfold_monad.
    pose proof (ReapStaleConns_loop_frame fuel 0 w) as Hr. unfold post in Hr.
    destruct (ReapStaleConns_loop fuel 0 w) as [n1 w1| | |]; try discriminate.
    inversion Hrun; subst. destruct Hr as [Hs Hn].
    unfold StaleConns_of, AddUint32. simpl_world. rewrite Hs, uint32_add_r.
    split; [reflexivity | lia]. }
Qed.

(** ** C8: Put *)

Lemma AsyncRemove_eq ctx cn reason w :
  AsyncRemove ctx cn reason w =
  match removeConn cn w with
  | Returns _ w1 =>
      if 0 <? queue (pool w1) then Returns tt (go (GoCloseConn cn) (take_turn_back w1))
      else Blocks w1
  | Panics => Panics
  | Blocks w1 => Blocks w1
  | OutOfFuel => OutOfFuel
  end.
Proof.
  unfold AsyncRemove, removeConnWithLock, freeTurn. unfold_monad.
  destruct (removeConn cn w) as [[] w1| | |]; try reflexivity.
  destruct (0 <? queue (pool w1)); reflexivity.
Qed.

Lemma Put_eq ctx cn w :
  Put ctx cn w =
  match heap w !! cn with
  | None => Panics
  | Some c =>
      if 0 <? rdBuffered c then AsyncRemove ctx cn (Some BadConnError) w
      else if negb (pooled c) then AsyncRemove ctx cn None w
      else if idle_room w then
        match idleConns (pool w) with
        | None => Panics
        | Some ids =>
            if 0 <? queue (pool w) then Returns tt (take_turn_back (push_idle cn ids w))
            else Blocks (push_idle cn ids w)
        end
      else
        match removeConn cn w with
        | Returns _ w1 =>
            if 0 <? queue (pool w1) then Returns tt (go (GoCloseConn cn) (take_turn_back w1))
            else Blocks w1
        | Panics => Panics
        | Blocks w1 => Blocks w1
        | OutOfFuel => OutOfFuel
        end
  end.
Proof.
  unfold Put, deref, idle_room. unfold mbind at 1. unfold M_bind, bind.
  destruct (heap w !! cn) as [c|]; [| reflexivity].
  destruct (0 <? rdBuffered c); [reflexivity |].
  destruct (negb (pooled c)); [reflexivity |].
  unfold List_PushBack, freeTurn. unfold_monad.
  destruct ((MaxIdleConns (cfg (pool w)) =? 0)
            || (idleConnsLen (pool w) <? MaxIdleConns (cfg (pool w)))).
  - destruct (idleConns (pool w)) as [ids|]; [| reflexivity].
    simpl_world. destruct (0 <? queue (pool w)); reflexivity.
  - destruct (removeConn cn w) as [[] w1| | |]; try reflexivity.
    destruct (0 <? queue (pool w1)); reflexivity.
Qed.

Lemma filter_is_filler_replicate k :
  filter is_filler (replicate k GoFiller) = replicate k GoFiller.
Proof. induction k as [|k IH]; [reflexivity |]. simpl. rewrite filter_cons. simpl.
  destruct (decide (Is_true true)) as [|n]; [rewrite IH; reflexivity | exfalso; apply n; exact I].
Qed.

Lemma fillers_reserve_n k w : fillers (reserve_n k w) = fillers w + Z.of_nat k.
Proof.
  unfold fillers, reserve_n. simpl_world.
  rewrite filter_app, length_app, filter_is_filler_replicate, length_replicate. lia.
Qed.

(** How [removeConn] acts on an open pool: the connection is unlinked from
    [conns]; if it was there and is pooled, [poolSize] goes down by one and
    [checkMinIdleConns] reserves [k] slots and starts [k] fillers. *)
Lemma removeConn_open cn w xs c :
  conns (pool w) = Some xs -> heap w !! cn = Some c ->
  exists w1 k, removeConn cn w = Returns tt w1
    /\ conns (pool w1) = Some (remove_one cn xs)
    /\ idleConns (pool w1) = idleConns (pool w)
    /\ queue_of w1 = queue_of w
    /\ heap w1 = heap w
    /\ goroutines w1 = goroutines w ++ replicate k GoFiller
    /\ idleConnsLen (pool w1) = idleConnsLen (pool w) + Z.of_nat k
    /\ (if pooled c && bool_decide (cn ∈ xs) then
          poolSize (pool w1) = poolSize (pool w) - 1 + Z.of_nat k
          /\ k = refill_count (unlink_pooled (remove_one cn xs) w)
        else poolSize (pool w1) = poolSize (pool w) /\ k = 0%nat).
Proof.
  intros Hxs Hc. rewrite removeConn_eq, Hxs. unfold remove_one, queue_of.
  destruct (decide (cn ∈ xs)) as [Hin|Hin].
  - rewrite (bool_decide_eq_true_2 _ Hin).
    destruct (remove_first_elem _ _ Hin) as [xs' ->]. rewrite Hc.
    destruct (pooled c); cbn [andb].
    + eexists. exists (refill_count (unlink_pooled xs' w)).
      split; [reflexivity |]. simpl_steps. repeat split.
    + eexists. exists 0%nat. split; [reflexivity |]. simpl_world.
      rewrite app_nil_r, Z.add_0_r. repeat split.
  - rewrite (bool_decide_eq_false_2 _ Hin), andb_false_r.
    rewrite (remove_first_not_elem _ _ Hin). exists w, 0%nat.
    rewrite app_nil_r, Z.add_0_r. repeat split. assumption.
Qed.

(** Eviction by [AsyncRemove] on an open pool with a turn in the channel. *)
Lemma AsyncRemove_open ctx cn reason w c xs ids :
  heap w !! cn = Some c -> conns (pool w) = Some xs ->
  idleConns (pool w) = Some ids -> 0 < queue_of w ->
  exists w', AsyncRemove ctx cn reason w = Returns tt w'
    /\ queue_of w' = queue_of w - 1
    /\ conns (pool w') = Some (remove_one cn xs)
    /\ idleConns (pool w') = Some ids
    /\ exists k,
         goroutines w' = goroutines w ++ replicate k GoFiller ++ [GoCloseConn cn]
         /\ idleConnsLen (pool w') = idleConnsLen (pool w) + Z.of_nat k
         /\ (if pooled c && bool_decide (cn ∈ xs) then
               poolSize (pool w') = poolSize (pool w) - 1 + Z.of_nat k
               /\ k = refill_count (unlink_pooled (remove_one cn xs) w)
             else poolSize (pool w') = poolSize (pool w) /\ k = 0%nat).
Proof.
  intros Hc Hxs Hids Hq. rewrite AsyncRemove_eq.
  destruct (removeConn_open cn w xs c Hxs Hc)
    as (w1 & k & -> & Hcs & Hi & Hq1 & Hh & Hg & Hil & Hps).
  unfold queue_of in *.
  rewrite (proj2 (Z.ltb_lt 0 (queue (pool w1)))) by lia.
  eexists. split; [reflexivity |]. unfold take_turn_back. simpl_world.
  rewrite Hq1, Hcs, Hi, Hids. repeat split.
  exists k. rewrite Hg, <- app_assoc. repeat split; assumption.
Qed.

(** C8 (as amended).  On a pool that is not closed, with a turn in the
    admission channel, [Put] returns and releases exactly one turn.  A
    connection with unread buffered input is evicted through [AsyncRemove]
    with a [BadConnError] reason, and one that is not pooled is evicted too;
    a pooled one is appended at the tail of [idleConns], [idleConnsLen]
    growing by one, when [MaxIdleConns] is 0 or [idleConnsLen] is below it,
    and is evicted otherwise.  An evicted connection is unlinked from
    [conns] and closed by a goroutine; [poolSize] goes down by one only when
    the connection is pooled and was in [conns] (after which
    [checkMinIdleConns] may reserve [k] slots again), and stays as it was
    otherwise. *)
Theorem Put_cases (ctx : Context) (cn : ptr) (w : World) (c : Conn) (xs ids : list ptr)
    (Hc : heap w !! cn = Some c)
    (Hxs : conns (pool w) = Some xs)
    (Hids : idleConns (pool w) = Some ids)
    (Hq : 0 < queue_of w) :
  exists w', Put ctx cn w = Returns tt w'
    /\ queue_of w' = queue_of w - 1
    /\ (0 < rdBuffered c -> Put ctx cn w = AsyncRemove ctx cn (Some BadConnError) w)
    /\ (if (0 <? rdBuffered c) || negb (pooled c) || negb (idle_room w) then
          conns (pool w') = Some (remove_one cn xs)
          /\ idleConns (pool w') = Some ids
          /\ exists k,
               goroutines w' = goroutines w ++ replicate k GoFiller ++ [GoCloseConn cn]
               /\ idleConnsLen (pool w') = idleConnsLen (pool w) + Z.of_nat k
               /\ (if pooled c && bool_decide (cn ∈ xs) then
                     poolSize (pool w') = poolSize (pool w) - 1 + Z.of_nat k
                     /\ k = refill_count (unlink_pooled (remove_one cn xs) w)
                   else poolSize (pool w') = poolSize (pool w) /\ k = 0%nat)
        else
          idleConns (pool w') = Some (ids ++ [cn])
          /\ idleConnsLen (pool w') = idleConnsLen (pool w) + 1
          /\ conns (pool w') = Some xs
          /\ poolSize (pool w') = poolSize (pool w)
          /\ goroutines w' = goroutines w).
Proof.
  pose proof (fun reason => AsyncRemove_open ctx cn reason w c xs ids Hc Hxs Hids Hq)
    as Hevict.
  rewrite Put_eq, Hc.
  destruct (0 <? rdBuffered c) eqn:Hb; cbn [orb].
  { destruct (Hevict (Some BadConnError)) as (w' & Hrun & Hrest).
    exists w'. split; [exact Hrun |]. split; [apply Hrest |]. split; [reflexivity |].
    apply Hrest. }
  destruct (negb (pooled c)) eqn:Hp; cbn [orb].
  { destruct (Hevict None) as (w' & Hrun & Hrest).
    exists w'. split; [exact Hrun |]. split; [apply Hrest |].
    split; [intros; apply Z.ltb_ge in Hb; lia |]. apply Hrest. }
  destruct (idle_room w) eqn:Hroom; cbn [negb].
  - rewrite Hids. unfold queue_of in *.
    rewrite (proj2 (Z.ltb_lt 0 (queue (pool w)))) by lia.
    eexists. split; [reflexivity |]. unfold take_turn_back, push_idle. simpl_world.
    rewrite Hxs. repeat split. intros; apply Z.ltb_ge in Hb; lia.
  - destruct (Hevict None) as (w' & Hrun & Hrest).
    rewrite AsyncRemove_eq in Hrun.
    exists w'. split; [exact Hrun |]. split; [apply Hrest |].
    split; [intros; apply Z.ltb_ge in Hb; lia |]. apply Hrest.
Qed.

(** ** Scenarios *)

(** ** C8: the claim as it is worded *)

(** C8, counterexample.  The connection that [Get] dialled while the only
    slot was reserved is not pooled; [Put] evicts it and [poolSize] stays 1. *)
Lemma Put_not_as_claimed : ~ Put_as_claimed None 1%nat w_overflow.
Proof.
  intros H.
  specialize (H (mkConn 0 false 0 0 0) [1%nat] []
                (world_or (Put None 1%nat w_overflow) w_overflow)).
  destruct H as (_ & H); [vm_compute; reflexivity .. |].
  vm_compute in H. destruct H as (_ & H & _). discriminate H.
Qed.

Lemma Put_cases_witness :
  exists w', Put None 1%nat w_one_out = Returns tt w'
             /\ queue_of w' = 0
             /\ idleConns (pool w') = Some [1%nat].
Proof.
  destruct (Put_cases None 1%nat w_one_out (mkConn 0 true 0 0 0) [1%nat] [])
    as (w' & Hrun & Hq & _ & Hcase); [vm_compute; reflexivity .. |].
  exists w'. split; [exact Hrun |]. split.
  - rewrite Hq. vm_compute. reflexivity.
  - replace ((0 <? rdBuffered (mkConn 0 true 0 0 0)) || negb (pooled (mkConn 0 true 0 0 0))
             || negb (idle_room w_one_out)) with false in Hcase
      by (vm_compute; reflexivity).
    apply Hcase.
Defined.

(** ** Dialing, step by step *)

Lemma dialConn_eq pooled w :
  dialConn pooled w =
  if closed (pool w) then Returns (nil_ptr, Some ErrClosed) w
  else if circuit_open w then Returns (nil_ptr, lastDialError (pool w)) w
  else match Dialer (cfg (pool w)) (dials w) with
       | Some err => Returns (nil_ptr, Some err) (dial_failed err w)
       | None => Returns (nextPtr w, None) (dial_ok pooled w)
       end.
Proof.
  unfold dialConn, circuit_open, getLastDialError, setLastDialError, call_Dialer,
    pool_NewConn, alloc, update_conn, dial_failed, dial_ok.
  unfold_monad.
  destruct (closed (pool w)); [reflexivity |].
  destruct (uint32 (PoolSize (cfg (pool w))) <=? dialErrorsNum (pool w)); [reflexivity |].
  destruct (Dialer (cfg (pool w)) (dials w)) as [err|].
  - simpl_world.
    destruct (AddUint32 (dialErrorsNum (pool w)) 1 =? uint32 (PoolSize (cfg (pool w))));
      reflexivity.
  - simpl_world. rewrite lookup_insert_eq. simpl_world.
    rewrite insert_insert_eq. reflexivity.
Qed.

Lemma newConn_eq pooled w :
  newConn pooled w =
  match dialConn pooled w with
  | Returns (cn, Some e) w1 => Returns (nil_ptr, Some e) w1
  | Returns (cn, None) w1 =>
      if closed (pool w1) then
        match closeConn cn w1 with
        | Returns _ w2 => Returns (nil_ptr, Some ErrClosed) w2
        | Panics => Panics
        | Blocks w2 => Blocks w2
        | OutOfFuel => OutOfFuel
        end
      else
        match conns (pool w1) with
        | None => Panics
        | Some xs =>
            if pooled then
              if PoolSize (cfg (pool w1)) <=? poolSize (pool w1) then
                match heap w1 !! cn with
                | None => Panics
                | Some c =>
                    Returns (cn, None)
                      (set_heap (<[cn := Conn_set_pooled false c]> (heap w1))
                         (push_conn cn xs w1))
                end
              else
                Returns (cn, None)
                  (with_pool (fun p => set_poolSize (poolSize p + 1) p) (push_conn cn xs w1))
            else Returns (cn, None) (push_conn cn xs w1)
        end
  | Panics => Panics
  | Blocks w1 => Blocks w1
  | OutOfFuel => OutOfFuel
  end.
Proof.
  unfold newConn. unfold mbind at 1. unfold M_bind, bind.
  destruct (dialConn pooled w) as [[cn [e|]] w1| | |]; try reflexivity.
  unfold List_PushBack, update_conn, push_conn, closeConn. unfold_monad.
  destruct (closed (pool w1)).
  { destruct (Conn_Close cn w1); reflexivity. }
  destruct (conns (pool w1)) as [xs|]; [| reflexivity].
  destruct pooled; [| reflexivity].
  simpl_world.
  destruct (PoolSize (cfg (pool w1)) <=? poolSize (pool w1)); [| reflexivity].
  simpl_world. destruct (heap w1 !! cn); reflexivity.
Qed.

(** ** Relations kept by every step *)

Section Preserves.
Variable R : World -> World -> Prop.
Hypothesis R_refl : forall w, R w w.
Hypothesis R_trans : forall w1 w2 w3, R w1 w2 -> R w2 w3 -> R w1 w3.

Lemma preserves_ret {A} (a : A) : preserves R (mret a).
Proof. intros w. apply R_refl. Qed.

Lemma preserves_ret' {A} (a : A) : preserves R (ret a).
Proof. intros w. apply R_refl. Qed.

Lemma preserves_gets {A} (f : World -> A) : preserves R (gets f).
Proof. intros w. apply R_refl. Qed.

Lemma preserves_panic {A} : preserves R (@panic A).
Proof. intros w. exact I. Qed.

Lemma preserves_modify (f : World -> World) :
  (forall w, R w (f w)) -> preserves R (modify f).
Proof. intros H w. apply H. Qed.

Lemma preserves_bind {A C} (m : M A) (k : A -> M C) :
  preserves R m -> (forall a, preserves R (k a)) -> preserves R (m ≫= k).
Proof.
  intros Hm Hk w. apply post_bind.
  eapply post_mono; [apply Hm | | auto].
  intros a w' H1.
  eapply post_mono; [apply Hk | |]; cbv beta in *;
    intros; eapply R_trans; eassumption.
Qed.

Lemma preserves_loop {S A} (body : S -> M (S + A)) fuel s :
  (forall s, preserves R (body s)) -> preserves R (loop fuel body s).
Proof.
  intros Hb w.
  apply loop_post with (Inv := fun (_ : S) w' => R w w'); [| apply R_refl].
  intros s' w' HR. eapply post_mono; [apply Hb | |]; cbv beta in *.
  - intros [?|?] w'' H; eapply R_trans; eassumption.
  - intros; eapply R_trans; eassumption.
Qed.

Lemma preserves_getTurn :
  (forall w, R w (with_pool (set_queue (queue (pool w) + 1)) w)) ->
  preserves R getTurn.
Proof.
  intros H w. unfold post, getTurn.
  destruct (queue (pool w) <? PoolSize (cfg (pool w))); [apply H | apply R_refl].
Qed.

Lemma preserves_freeTurn :
  (forall w, R w (with_pool (set_queue (queue (pool w) - 1)) w)) ->
  preserves R freeTurn.
Proof.
  intros H w. unfold post, freeTurn.
  destruct (0 <? queue (pool w)); [apply H | apply R_refl].
Qed.

Lemma preserves_deref cn : preserves R (deref cn).
Proof. intros w. unfold post, deref. destruct (heap w !! cn); [apply R_refl | exact I]. Qed.

Lemma preserves_update_conn cn f :
  (forall w h, R w (set_heap h w)) -> preserves R (update_conn cn f).
Proof.
  intros H w. unfold post, update_conn. destruct (heap w !! cn); [apply H | exact I].
Qed.

Lemma preserves_alloc c :
  (forall w h n, R w (set_nextPtr n (set_heap h w))) -> preserves R (alloc c).
Proof. intros H w. apply H. Qed.

Lemma preserves_call_Dialer :
  (forall w n, R w (set_dials n w)) -> preserves R call_Dialer.
Proof. intros H w. apply H. Qed.

Lemma preserves_net_Close s :
  (forall w l, R w (set_netClosed l w)) -> preserves R (net_Close s).
Proof. intros H w. apply H. Qed.

Lemma preserves_checkMinIdleConns :
  (forall w, R w (reserve_n (refill_count w) w)) -> preserves R checkMinIdleConns.
Proof. intros H w. unfold post. rewrite checkMinIdleConns_eq. apply H. Qed.

Lemma preserves_List_Len l : preserves R (List_Len l).
Proof. destruct l; [apply preserves_ret' | apply preserves_panic]. Qed.

Lemma preserves_List_PushBack v l : preserves R (List_PushBack v l).
Proof. destruct l; [apply preserves_ret' | apply preserves_panic]. Qed.

Lemma preserves_List_elements l : preserves R (List_elements l).
Proof. destruct l; [apply preserves_ret' | apply preserves_panic]. Qed.
End Preserves.

(** One step of a proof that a method keeps a relation: the structure of
    the method is followed down to the updates of the world. *)
Ltac preserves_step :=
  match goal with
  | |- preserves _ (mbind _ _) => apply preserves_bind; [assumption | |]
  | |- preserves _ (_ ≫= _) => apply preserves_bind; [assumption | |]
  | |- preserves _ (mret _) => apply preserves_ret; assumption
  | |- preserves _ (ret _) => apply preserves_ret'; assumption
  | |- preserves _ (gets _) => apply preserves_gets; assumption
  | |- preserves _ panic => apply preserves_panic
  | |- preserves _ (modify _) => apply preserves_modify
  | |- preserves _ (loop _ _ _) => apply preserves_loop; [assumption | assumption |]
  | |- preserves _ getTurn => apply preserves_getTurn; [assumption |]
  | |- preserves _ freeTurn => apply preserves_freeTurn; [assumption |]
  | |- preserves _ (deref _) => apply preserves_deref; assumption
  | |- preserves _ (update_conn _ _) => apply preserves_update_conn
  | |- preserves _ (alloc _) => apply preserves_alloc
  | |- preserves _ call_Dialer => apply preserves_call_Dialer
  | |- preserves _ (net_Close _) => apply preserves_net_Close
  | |- preserves _ checkMinIdleConns => apply preserves_checkMinIdleConns
  | |- preserves _ (List_Len _) => apply preserves_List_Len; assumption
  | |- preserves _ (List_PushBack _ _) => apply preserves_List_PushBack; assumption
  | |- preserves _ (List_elements _) => apply preserves_List_elements; assumption
  | |- preserves _ (match ?x with _ => _ end) => destruct x
  | |- preserves _ (if ?b then _ else _) => destruct b
  | |- forall _, _ => intro
  end.

Ltac head_of t :=
  match t with
  | ?f _ => head_of f
  | _ => t
  end.

Ltac unfold_head :=
  match goal with
  | |- preserves _ ?m => let h := head_of m in progress unfold h
  end.

Create HintDb pres discriminated.

(** Lemmas of the hint database are tried first, then the structure of the
    method, and a method that is neither is unfolded. *)
Ltac preserves_auto leaf :=
  repeat first [ solve [auto 1 with pres nocore] | preserves_step | unfold_head ];
  try leaf.

Lemma quiet_refl w : quiet w w.
Proof. repeat split. auto. Qed.

Lemma quiet_trans w1 w2 w3 : quiet w1 w2 -> quiet w2 w3 -> quiet w1 w3.
Proof. unfold quiet. intros (? & ? & ?) (? & ? & ?). repeat split; [congruence .. | auto]. Qed.

Ltac quiet_leaf :=
  intros; unfold quiet, Hits_of, Misses_of, queue_of; simpl_steps;
  repeat split; first [reflexivity | lia].

Lemma quiet_freeTurn : preserves quiet freeTurn.
Proof.
  intros w. unfold post, freeTurn.
  destruct (Z.ltb_spec 0 (queue (pool w))); [| apply quiet_refl].
  unfold quiet, Hits_of, Misses_of, queue_of. simpl_world. repeat split. lia.
Qed.

#[local] Hint Resolve quiet_freeTurn : pres.

Ltac quiet_auto :=
  pose proof quiet_refl as Hrefl; pose proof quiet_trans as Htrans;
  preserves_auto quiet_leaf.

Lemma quiet_Filter_loop fn xs firstErr : preserves quiet (Filter_loop fn xs firstErr).
Proof.
  revert firstErr. induction xs as [|cn xs IH]; intros firstErr; simpl.
  - apply preserves_ret. apply quiet_refl.
  - destruct (fn cn); [| apply IH].
    apply preserves_bind; [apply quiet_trans | | intros; apply IH].
    quiet_auto.
Qed.

Lemma quiet_Put ctx cn : preserves quiet (Put ctx cn).
Proof. quiet_auto. Qed.

Lemma quiet_Remove ctx cn reason : preserves quiet (Remove ctx cn reason).
Proof. quiet_auto. Qed.

Lemma quiet_CloseConn cn : preserves quiet (CloseConn cn).
Proof. quiet_auto. Qed.

Lemma quiet_NewConn ctx : preserves quiet (NewConn ctx).
Proof. quiet_auto. Qed.

Lemma quiet_Len : preserves quiet Len.
Proof. quiet_auto. Qed.

Lemma quiet_IdleLen : preserves quiet IdleLen.
Proof. quiet_auto. Qed.

Lemma quiet_Stats : preserves quiet ConnPool_Stats.
Proof. quiet_auto. Qed.

#[local] Hint Resolve quiet_Filter_loop : pres.

Lemma quiet_Filter fn : preserves quiet (Filter fn).
Proof. quiet_auto. Qed.

Lemma quiet_Close : preserves quiet Close.
Proof. quiet_auto. Qed.

Lemma quiet_ReapStaleConns fuel : preserves quiet (ReapStaleConns fuel).
Proof. quiet_auto. Qed.

Lemma quiet_reaper_tick fuel : preserves quiet (reaper_tick fuel).
Proof. quiet_auto. Qed.

Lemma quiet_waitTurn ctx wk : preserves quiet (waitTurn ctx wk).
Proof. quiet_auto. Qed.

Lemma quiet_popIdle : preserves quiet popIdle.
Proof. quiet_auto. Qed.

Lemma quiet_AsyncCloseConn cn : preserves quiet (AsyncCloseConn cn).
Proof. quiet_auto. Qed.

Lemma quiet_isHealthyConn cn : preserves quiet (isHealthyConn cn).
Proof. quiet_auto. Qed.

Lemma quiet_newConn pooled : preserves quiet (newConn pooled).
Proof. quiet_auto. Qed.

Lemma quiet_dialConn pooled : preserves quiet (dialConn pooled).
Proof. quiet_auto. Qed.

Lemma quiet_tryDial_iter : preserves quiet tryDial_iter.
Proof. quiet_auto. Qed.

Lemma quiet_addIdleConn_attach cn : preserves quiet (addIdleConn_attach cn).
Proof. quiet_auto. Qed.

Lemma quiet_filler_done err : preserves quiet (filler_done err).
Proof. quiet_auto. Qed.

Lemma quiet_closeConn cn : preserves quiet (closeConn cn).
Proof. quiet_auto. Qed.

Lemma steady_refl w : steady w w.
Proof. unfold steady. repeat split; lia. Qed.

Lemma steady_trans w1 w2 w3 : steady w1 w2 -> steady w2 w3 -> steady w1 w3.
Proof.
  unfold steady. intros (Hc1 & Hp1 & Hi1) (Hc2 & Hp2 & Hi2).
  rewrite Hc1 in *. repeat split; [congruence | lia | lia].
Qed.

Ltac steady_leaf :=
  intros; unfold steady; simpl_steps; repeat split; lia.

Lemma steady_reserve w : steady w (reserve_n (refill_count w) w).
Proof.
  unfold steady, refill_count, refill_room.
  destruct (MinIdleConns (cfg (pool w)) =? 0); simpl_steps; repeat split; lia.
Qed.

Lemma steady_checkMinIdleConns : preserves steady checkMinIdleConns.
Proof. apply preserves_checkMinIdleConns, steady_reserve. Qed.

Lemma steady_dialConn pooled : preserves steady (dialConn pooled).
Proof.
  intros w. unfold post. rewrite dialConn_eq.
  destruct (closed (pool w)); [apply steady_refl |].
  destruct (circuit_open w); [apply steady_refl |].
  destruct (Dialer (cfg (pool w)) (dials w)).
  - unfold dial_failed.
    destruct (AddUint32 (dialErrorsNum (pool w)) 1 =? uint32 (PoolSize (cfg (pool w))));
      steady_leaf.
  - unfold dial_ok. steady_leaf.
Qed.

#[local] Hint Resolve steady_checkMinIdleConns steady_dialConn : pres.

Lemma steady_closeConn cn : preserves steady (closeConn cn).
Proof.
  pose proof steady_refl as Hrefl; pose proof steady_trans as Htrans.
  preserves_auto steady_leaf.
Qed.

Lemma steady_newConn pooled : preserves steady (newConn pooled).
Proof.
  intros w. unfold post. rewrite newConn_eq.
  pose proof (steady_dialConn pooled w) as Hd. unfold post in Hd.
  destruct (dialConn pooled w) as [[cn [e|]] w1| | |]; try exact I; try assumption.
  destruct (closed (pool w1)).
  { pose proof (steady_closeConn cn w1) as Hc. unfold post in Hc.
    destruct (closeConn cn w1); try exact I; eapply steady_trans; eassumption. }
  destruct (conns (pool w1)) as [xs|]; [| exact I].
  assert (Hpush : steady w (push_conn cn xs w1)).
  { eapply steady_trans; [exact Hd |]. unfold push_conn. steady_leaf. }
  destruct pooled; [| exact Hpush].
  destruct (Z.leb_spec (PoolSize (cfg (pool w1))) (poolSize (pool w1))).
  - destruct (heap w1 !! cn); [| exact I].
    eapply steady_trans; [exact Hpush |]. steady_leaf.
  - eapply steady_trans; [exact Hd |]. unfold push_conn, steady. simpl_world.
    repeat split; lia.
Qed.

#[local] Hint Resolve steady_newConn steady_closeConn : pres.

Ltac steady_auto :=
  pose proof steady_refl as Hrefl; pose proof steady_trans as Htrans;
  preserves_auto steady_leaf.

Lemma steady_Get fuel ctx wk : preserves steady (Get fuel ctx wk).
Proof. steady_auto. Qed.

Lemma steady_Remove ctx cn reason : preserves steady (Remove ctx cn reason).
Proof. steady_auto. Qed.

Lemma steady_AsyncRemove ctx cn reason : preserves steady (AsyncRemove ctx cn reason).
Proof. steady_auto. Qed.

Lemma steady_removeConn cn : preserves steady (removeConn cn).
Proof. steady_auto. Qed.

Lemma steady_CloseConn cn : preserves steady (CloseConn cn).
Proof. steady_auto. Qed.

Lemma steady_NewConn ctx : preserves steady (NewConn ctx).
Proof. steady_auto. Qed.

Lemma steady_Len : preserves steady Len.
Proof. steady_auto. Qed.

Lemma steady_IdleLen : preserves steady IdleLen.
Proof. steady_auto. Qed.

Lemma steady_Stats : preserves steady ConnPool_Stats.
Proof. steady_auto. Qed.

Lemma steady_Filter_loop fn xs firstErr : preserves steady (Filter_loop fn xs firstErr).
Proof.
  revert firstErr. induction xs as [|cn xs IH]; intros firstErr; simpl.
  - apply preserves_ret. apply steady_refl.
  - destruct (fn cn); [| apply IH].
    apply preserves_bind; [apply steady_trans | | intros; apply IH].
    apply steady_closeConn.
Qed.

#[local] Hint Resolve steady_Filter_loop : pres.

Lemma steady_Filter fn : preserves steady (Filter fn).
Proof. steady_auto. Qed.

Lemma steady_ReapStaleConns fuel : preserves steady (ReapStaleConns fuel).
Proof. steady_auto. Qed.

Lemma steady_reaper_tick fuel : preserves steady (reaper_tick fuel).
Proof. steady_auto. Qed.

Lemma steady_tryDial_iter : preserves steady tryDial_iter.
Proof. steady_auto. Qed.

Lemma steady_addIdleConn_attach cn : preserves steady (addIdleConn_attach cn).
Proof. steady_auto. Qed.

Lemma steady_filler_done err : preserves steady (filler_done err).
Proof. steady_auto. Qed.

(** ** C9: a connection dialled for a full pool *)

(** C9.  When [newConn] is called with [pooled = true] on an open pool, the
    dial succeeds and [poolSize >= PoolSize] at the time the connection is
    attached, the connection is appended to [conns] with [pooled] set to
    false and [poolSize] is left as it was.  Hence no [Get], whatever its
    outcome, raises [poolSize] above [PoolSize]; and [Put] does not re-idle
    a connection that is not pooled: it unlinks it from [conns], starts the
    goroutine that closes it and leaves [idleConns] and [poolSize] alone. *)
Theorem newConn_full_pool_not_pooled :
  (forall w xs,
      closed (pool w) = false -> circuit_open w = false ->
      Dialer (cfg (pool w)) (dials w) = None ->
      conns (pool w) = Some xs ->
      PoolSize_of w <= poolSize (pool w) ->
      exists w' c,
        newConn true w = Returns (nextPtr w, None) w'
        /\ conns (pool w') = Some (xs ++ [nextPtr w])
        /\ heap w' !! nextPtr w = Some c /\ pooled c = false
        /\ poolSize (pool w') = poolSize (pool w))
  /\ (forall fuel ctx wk w w',
         world_after (Get fuel ctx wk w) = Some w' ->
         poolSize (pool w') <= Z.max (poolSize (pool w)) (PoolSize_of w))
  /\ (forall ctx cn w c xs ids,
         heap w !! cn = Some c -> pooled c = false ->
         conns (pool w) = Some xs -> idleConns (pool w) = Some ids ->
         0 < queue_of w ->
         exists w',
           Put ctx cn w = Returns tt w'
           /\ conns (pool w') = Some (remove_one cn xs)
           /\ idleConns (pool w') = Some ids
           /\ idleConnsLen (pool w') = idleConnsLen (pool w)
           /\ goroutines w' = goroutines w ++ [GoCloseConn cn]
           /\ poolSize (pool w') = poolSize (pool w)).
Proof.
  split; [| split].
  - intros w xs Hopen Hcirc Hdial Hxs Hfull.
    rewrite newConn_eq, dialConn_eq, Hopen, Hcirc, Hdial.
    change (closed (pool (dial_ok true w))) with (closed (pool w)). rewrite Hopen.
    change (conns (pool (dial_ok true w))) with (conns (pool w)). rewrite Hxs.
    change (PoolSize (cfg (pool (dial_ok true w)))) with (PoolSize_of w).
    change (poolSize (pool (dial_ok true w))) with (poolSize (pool w)).
    rewrite (proj2 (Z.leb_le _ _) Hfull).
    unfold dial_ok at 1. simpl_world. rewrite lookup_insert_eq.
    eexists. eexists. split; [reflexivity |].
    unfold push_conn, dial_ok. simpl_world. rewrite lookup_insert_eq.
    repeat split.
  - intros fuel ctx wk w w' Hafter.
    pose proof (steady_Get fuel ctx wk w) as H. unfold post in H.
    unfold world_after in Hafter.
    destruct (Get fuel ctx wk w); try discriminate; inversion Hafter; subst;
      apply H.
  - intros ctx cn w c xs ids Hc Hp Hxs Hids Hq.
    destruct (AsyncRemove_open ctx cn None w c xs ids Hc Hxs Hids Hq)
      as (w' & Hrun & _ & Hcs & Hi & k & Hg & Hil & Hps).
    rewrite Hp in Hps. cbn [andb] in Hps. destruct Hps as [Hps ->].
    assert (Hany : forall reason, AsyncRemove ctx cn reason w = Returns tt w').
    { intros reason. rewrite AsyncRemove_eq in *. exact Hrun. }
    exists w'. rewrite Put_eq, Hc, Hp. cbn [negb].
    destruct (0 <? rdBuffered c);
      (split; [apply Hany |]); rewrite Hg, Hil; cbn [replicate app];
      rewrite Z.add_0_r; repeat split; assumption.
Qed.

(** ** C6: the dial-error circuit *)

Lemma tryDial_iter_eq w :
  tryDial_iter w =
  if closed (pool w) then Returns true w
  else match Dialer (cfg (pool w)) (dials w) with
       | Some err => Returns false (probe_failed err w)
       | None => Returns true (probe_ok w)
       end.
Proof.
  unfold tryDial_iter, call_Dialer, setLastDialError, net_Close, probe_failed, probe_ok.
  unfold_monad.
  destruct (closed (pool w)); [reflexivity |].
  destruct (Dialer (cfg (pool w)) (dials w)); reflexivity.
Qed.

(** C6, counterexample.  A failed dial of the prober leaves [dialErrorsNum]
    at 1; and on the closed pool, whose counter has reached [PoolSize],
    [dialConn] returns [ErrClosed], not the last dial error. *)
Lemma circuit_not_as_claimed :
  ~ counts_every_dial_failure w_tripped
  /\ ~ short_circuits_whenever_open w_tripped_shut.
Proof.
  split.
  - intros H.
    specialize (H (DialError 7) false (probe_failed (DialError 7) w_tripped)
                  eq_refl eq_refl eq_refl).
    vm_compute in H. discriminate H.
  - intros H. destruct (H eq_refl false) as (w' & Hrun & _).
    vm_compute in Hrun. discriminate Hrun.
Qed.

Lemma tryDial_recovers k :
  forall w fuel,
    closed (pool w) = false ->
    (forall j, (j < k)%nat -> Dialer (cfg (pool w)) (dials w + j)%nat <> None) ->
    Dialer (cfg (pool w)) (dials w + k)%nat = None ->
    (k < fuel)%nat ->
    exists w', tryDial fuel w = Returns tt w'
               /\ dialErrorsNum (pool w') = 0
               /\ netClosed w' = netClosed w ++ [(dials w + k)%nat]
               /\ dials w' = S (dials w + k)
               /\ registry w' = registry w
               /\ goroutines w' = goroutines w.
Proof.
  induction k as [|k IH]; intros w fuel Hopen Hfail Hok Hfuel.
  - destruct fuel as [|fuel]; [lia |].
    unfold tryDial. simpl. unfold_monad. rewrite tryDial_iter_eq, Hopen.
    rewrite Nat.add_0_r in *. rewrite Hok.
    eexists. split; [reflexivity |]. unfold probe_ok, registry. simpl_world.
    repeat split.
  - destruct fuel as [|fuel]; [lia |].
    unfold tryDial. simpl. unfold_monad. rewrite tryDial_iter_eq, Hopen.
    destruct (Dialer (cfg (pool w)) (dials w)) as [err|] eqn:Hd.
    2: { exfalso. apply (Hfail 0%nat); [lia |]. rewrite Nat.add_0_r. exact Hd. }
    destruct (IH (probe_failed err w) fuel) as (w' & Hrun & H0 & Hcl & Hdl & Hreg & Hgo).
    + exact Hopen.
    + intros j Hj. unfold probe_failed. simpl_world.
      replace (S (dials w) + j)%nat with (dials w + S j)%nat by lia.
      apply Hfail. lia.
    + unfold probe_failed. simpl_world.
      replace (S (dials w) + k)%nat with (dials w + S k)%nat by lia. exact Hok.
    + lia.
    + exists w'. unfold tryDial in Hrun. split; [exact Hrun |].
      unfold probe_failed, registry in *. simpl_world.
      replace (dials w + S k)%nat with (S (dials w) + k)%nat by lia.
      repeat split; assumption.
Qed.

(** C6 (as amended).  On an open pool whose circuit is not open, a failed
    dial in [dialConn] records the error, adds exactly one to
    [dialErrorsNum] (a uint32) and starts the prober exactly when the new
    value equals [PoolSize]; a successful dial leaves the counter alone.  On
    an open pool whose counter has reached [PoolSize], [dialConn] returns the
    last recorded dial error and changes nothing: the dialer is not called.
    A failed dial of the prober records the error and leaves the counter
    alone; at its first successful dial the prober closes the probe socket,
    which never enters the registry, resets [dialErrorsNum] to zero and
    returns. *)
Theorem dial_error_circuit :
  (forall pooled w err,
      closed (pool w) = false -> circuit_open w = false ->
      Dialer (cfg (pool w)) (dials w) = Some err ->
      exists w',
        dialConn pooled w = Returns (nil_ptr, Some err) w'
        /\ dialErrorsNum (pool w') = uint32 (dialErrorsNum (pool w) + 1)
        /\ lastDialError (pool w') = Some err
        /\ dials w' = S (dials w)
        /\ goroutines w' =
           goroutines w ++
             (if dialErrorsNum (pool w') =? uint32 (PoolSize_of w) then [GoTryDial] else []))
  /\ (forall pooled w,
         closed (pool w) = false -> circuit_open w = false ->
         Dialer (cfg (pool w)) (dials w) = None ->
         exists w',
           dialConn pooled w = Returns (nextPtr w, None) w'
           /\ dialErrorsNum (pool w') = dialErrorsNum (pool w)
           /\ goroutines w' = goroutines w)
  /\ (forall pooled w,
         closed (pool w) = false -> circuit_open w = true ->
         dialConn pooled w = Returns (nil_ptr, lastDialError (pool w)) w)
  /\ (forall w err,
         closed (pool w) = false ->
         Dialer (cfg (pool w)) (dials w) = Some err ->
         exists w',
           tryDial_iter w = Returns false w'
           /\ dialErrorsNum (pool w') = dialErrorsNum (pool w)
           /\ lastDialError (pool w') = Some err
           /\ dials w' = S (dials w))
  /\ (forall k w fuel,
         closed (pool w) = false ->
         (forall j, (j < k)%nat -> Dialer (cfg (pool w)) (dials w + j)%nat <> None) ->
         Dialer (cfg (pool w)) (dials w + k)%nat = None ->
         (k < fuel)%nat ->
         exists w',
           tryDial fuel w = Returns tt w'
           /\ dialErrorsNum (pool w') = 0
           /\ netClosed w' = netClosed w ++ [(dials w + k)%nat]
           /\ dials w' = S (dials w + k)
           /\ registry w' = registry w
           /\ goroutines w' = goroutines w).
Proof.
  split; [| split; [| split; [| split]]].
  - intros pooled w err Hopen Hcirc Hdial.
    rewrite dialConn_eq, Hopen, Hcirc, Hdial.
    eexists. split; [reflexivity |]. unfold dial_failed, PoolSize_of, AddUint32.
    destruct (uint32 (dialErrorsNum (pool w) + 1) =? uint32 (PoolSize (cfg (pool w))))
      eqn:Heq; simpl_world; rewrite Heq; rewrite ?app_nil_r; repeat split.
  - intros pooled w Hopen Hcirc Hdial.
    rewrite dialConn_eq, Hopen, Hcirc, Hdial.
    eexists. split; [reflexivity |]. unfold dial_ok. simpl_world. split; reflexivity.
  - intros pooled w Hopen Hcirc. rewrite dialConn_eq, Hopen, Hcirc. reflexivity.
  - intros w err Hopen Hdial. rewrite tryDial_iter_eq, Hopen, Hdial.
    eexists. split; [reflexivity |]. unfold probe_failed. simpl_world. repeat split.
  - intros k. apply tryDial_recovers.
Qed.

(** ** C2: the loop of Get *)

Lemma int32_small z : - 2 ^ 31 <= z < 2 ^ 31 -> int32 z = z.
Proof.
  intros H. unfold int32. rewrite Z.mod_small; lia.
Qed.

(** C2, counterexample.  With four unhealthy idle connections [Get] pops
    seven times (four evictions, then three empty pops); on a pool without
    idle connections it pops three times, not once. *)
Lemma Get_pops_not_as_claimed :
  ~ at_most_three_pops w_four_idle /\ ~ leaves_at_first_empty_pop w_plain.
Proof.
  split.
  - intros H.
    specialize (H 7%nat None WakeTimer (5%nat, None, AtNewConn)
                  (world_or (Get 7 None WakeTimer w_four_idle) w_four_idle)).
    assert (Hrun : Get 7 None WakeTimer w_four_idle =
                   Returns (5%nat, None, AtNewConn)
                     (world_or (Get 7 None WakeTimer w_four_idle) w_four_idle)).
    { vm_compute. reflexivity. }
    specialize (H Hrun). vm_compute in H. lia.
  - intros H.
    specialize (H eq_refl 3%nat None WakeTimer (1%nat, None, AtNewConn)
                  (world_or (Get 3 None WakeTimer w_plain) w_plain)).
    assert (Hrun : Get 3 None WakeTimer w_plain =
                   Returns (1%nat, None, AtNewConn)
                     (world_or (Get 3 None WakeTimer w_plain) w_plain)).
    { vm_compute. reflexivity. }
    specialize (H Hrun). vm_compute in H. lia.
Qed.

Lemma Get_body_inv w0 ids0 i0 i w :
  Get_loop_inv w0 ids0 i0 i w ->
  post (Get_body i) w
    (fun r w' => match r with
                 | inl i' => Get_loop_inv w0 ids0 i0 i' w'
                 | inr a => Get_loop_exit w0 ids0 i0 a w'
                 end)
    (fun _ => False).
Proof.
  intros (ids & Hids & Hnil & Hi0 & Hi & Hlen & Hempty & Hpops & Hclosers).
  unfold post. rewrite Get_body_eq, popIdle_eq.
  destruct (closed (pool w)).
  { exists ids. simpl_steps. repeat split; assumption. }
  rewrite Hids.
  destruct ids as [|x ids'].
  - (* an empty pop *)
    change (Z.of_nat (length (@nil ptr)) =? 0) with true. cbv iota.
    destruct (decide (nil_ptr = nil_ptr)) as [_|]; [| contradiction].
    unfold AddInt32. rewrite int32_small by lia.
    destruct (Z.leb_spec 3 (i + 1)).
    + exists []. unfold closers in *. simpl_steps. simpl in *.
      repeat split; try assumption; lia.
    + exists []. unfold closers in *. simpl_steps. simpl in *.
      repeat split; try assumption; lia.
  - (* a candidate *)
    replace (Z.of_nat (length (x :: ids')) =? 0) with false
      by (symmetry; apply Z.eqb_neq; simpl; lia).
    assert (Hii : i = i0).
    { destruct (Z.eq_dec i i0); [assumption |].
      assert (Hc : x :: ids' = []) by (apply Hempty; lia). discriminate. }
    destruct (pop_choice_nonempty (PoolFIFO (cfg (pool w))) (x :: ids'))
      as (cn & rest & -> & Hl & Hin & Hsub); [discriminate |].
    assert (Hcn : cn <> nil_ptr) by (intros ->; contradiction).
    destruct (decide (cn = nil_ptr)); [contradiction |].
    set (w1 := reserve_n _ (unlink_idle rest w)).
    assert (Hrest : idleConns (pool w1) = Some rest) by reflexivity.
    assert (Hpop1 : popCalls w1 = S (popCalls w)) by reflexivity.
    assert (Hcl1 : closers w1 = closers w).
    { unfold w1. rewrite closers_reserve_n. reflexivity. }
    assert (Hnil' : nil_ptr ∉ rest) by (intros Hx; apply Hnil, Hsub, Hx).
    destruct (heap w1 !! cn) as [c|]; [| exact I].
    destruct (healthy c w1).
    + exists rest. unfold closers in *. simpl_steps.
      change (idleConns (pool w1)) with (Some rest).
      split; [reflexivity |]. split; [lia |].
      split; [assumption |]. split; [lia |].
      split; [lia |]. simpl in *. lia.
    + pose proof (removeConn_frame cn w1) as Hr. unfold post in Hr.
      destruct (removeConn cn w1) as [[] w2| | |]; try exact I; try contradiction.
      destruct Hr as (_ & _ & Hc2 & _ & Hi2 & _ & _ & _ & _ & Hp2).
      exists rest. rewrite closers_go_close.
      unfold closers in *. simpl_steps.
      rewrite Hi2, Hc2, Hp2, Hcl1, Hpop1, Hrest.
      split; [reflexivity |]. split; [assumption |].
      split; [lia |]. split; [lia |].
      split; [lia |]. simpl in *. lia.
Qed.

Lemma Get_loop_inv_init w ids i :
  idleConns (pool w) = Some ids -> nil_ptr ∉ ids -> 0 <= i < 3 ->
  Get_loop_inv w ids i i w.
Proof.
  intros Hids Hnil Hi. exists ids. repeat split; try assumption; try lia.
Qed.

Lemma removeConn_fuel cn w : removeConn cn w <> OutOfFuel.
Proof.
  rewrite removeConn_eq.
  destruct (conns (pool w)) as [xs|]; [| discriminate].
  destruct (remove_first cn xs); [| discriminate].
  destruct (heap w !! cn) as [c|]; [| discriminate].
  destruct (pooled c); discriminate.
Qed.

(** With [length ids + 3 - i] units of fuel the loop does not run dry. *)
Lemma Get_loop_fuel fuel :
  forall w0 ids0 i0 i w ids,
    Get_loop_inv w0 ids0 i0 i w ->
    idleConns (pool w) = Some ids ->
    (length ids + Z.to_nat (3 - i) <= fuel)%nat ->
    Get_loop fuel i w <> OutOfFuel.
Proof.
  induction fuel as [|fuel IH]; intros w0 ids0 i0 i w ids Hinv Hids Hfuel.
  - destruct Hinv as (? & _ & _ & _ & Hi & _). lia.
  - unfold Get_loop. simpl. unfold_monad.
    pose proof (Get_body_inv w0 ids0 i0 i w Hinv) as Hb. unfold post in Hb.
    pose proof Hinv as (ids1 & Hids1 & Hnil & Hi0 & Hi & Hlen & Hempty & _).
    rewrite Hids in Hids1. inversion Hids1; subst ids1.
    rewrite Get_body_eq, popIdle_eq in *.
    destruct (closed (pool w)); [cbv beta iota; discriminate |].
    rewrite Hids in *.
    destruct ids as [|x ids'].
    + change (Z.of_nat (length (@nil ptr)) =? 0) with true in *. cbv iota in *.
      destruct (decide (nil_ptr = nil_ptr)) as [_|]; [| contradiction].
      destruct (3 <=? AddInt32 i 1) eqn:Hbr; [cbv beta iota; discriminate |].
      apply (IH w0 ids0 i0 _ _ []); [exact Hb | simpl_steps; assumption |].
      unfold AddInt32 in *. rewrite int32_small in * by lia.
      apply Z.leb_gt in Hbr. simpl in *. lia.
    + replace (Z.of_nat (length (x :: ids')) =? 0) with false in *
        by (symmetry; apply Z.eqb_neq; simpl; lia).
      destruct (pop_choice_nonempty (PoolFIFO (cfg (pool w))) (x :: ids'))
        as (cn & rest & Hpc & Hl & Hin & Hsub); [cbv beta iota; discriminate |].
      rewrite Hpc in *.
      destruct (decide (cn = nil_ptr)).
      { subst cn. contradiction. }
      set (w1 := reserve_n _ (unlink_idle rest w)) in *.
      destruct (heap w1 !! cn) as [c|]; [| cbv beta iota; discriminate].
      destruct (healthy c w1); [cbv beta iota; discriminate |].
      pose proof (removeConn_frame cn w1) as Hr. unfold post in Hr.
      pose proof (removeConn_fuel cn w1) as Hnf.
      destruct (removeConn cn w1) as [[] w2| | |]; try (cbv beta iota; discriminate);
        try contradiction.
      destruct Hr as (_ & _ & _ & _ & Hi2 & _).
      apply (IH w0 ids0 i0 _ _ rest); [exact Hb | |].
      * simpl_steps. rewrite Hi2. reflexivity.
      * simpl in *. lia.
Qed.

(** ** C1: the closed pool *)

(** The claim as it is worded fails on the closed pool [w_shut]: after
    [Close], [conns] is a nil list and [Len] panics instead of returning 0. *)
Lemma closed_pool_not_as_claimed : ~ refuses_everything w_shut.
Proof.
  intros (_ & _ & _ & _ & HLen & _).
  vm_compute in HLen. discriminate HLen.
Qed.

Lemma Filter_loop_all xs :
  forall w firstErr,
    (forall cn, cn ∈ xs -> is_Some (heap w !! cn)) ->
    exists r, Filter_loop (fun _ => true) xs firstErr w =
              Returns r (set_netClosed (netClosed w ++ sockets_of (heap w) xs) w).
Proof.
  induction xs as [|cn xs IH]; intros w firstErr Hin.
  - exists firstErr. simpl. unfold sockets_of. simpl.
    rewrite app_nil_r. destruct w; reflexivity.
  - cbn [Filter_loop]. unfold mbind, M_bind, bind. rewrite closeConn_eq.
    destruct (Hin cn) as [c Hc]; [left |]. rewrite Hc.
    edestruct (IH (set_netClosed (netClosed w ++ [netConn c]) w)) as [r Hr].
    { simpl_world. intros. apply Hin. right. assumption. }
    rewrite Hr. exists r. f_equal. unfold sockets_of. simpl_world.
    cbn [omap list_omap]. rewrite Hc. cbn [fmap option_fmap option_map].
    rewrite <- app_assoc. destruct w; reflexivity.
Qed.

(** ** C5: the bound on idle connections *)

(** C5, counterexample.  With MinIdleConns 3 and MaxIdleConns 1 the
    constructor reserves three idle slots; once the fillers have attached
    their connections, three connections idle. *)
Lemma idle_bound_not_as_claimed : ~ idle_bound_as_claimed opt_greedy sound_env.
Proof.
  intros H.
  assert (Hs : exists s0 s,
             start opt_greedy sound_env = Some s0
             /\ run fillers_finish s0 = Some s
             /\ idleConns (pool (world s)) = Some [1%nat; 2%nat; 3%nat]
             /\ idleConnsLen (pool (world s)) = 3).
  { eexists. eexists.
    split; [vm_compute; reflexivity |].
    split; [vm_compute; reflexivity |].
    split; vm_compute; reflexivity. }
  destruct Hs as (s0 & s & Hstart & Hrun & _ & Hlen).
  specialize (H ltac:(reflexivity) _ _ _ Hstart Hrun).
  rewrite Hlen in H. vm_compute in H. apply H. reflexivity.
Qed.

Lemma steady_bounded opt w w' :
  MinIdleConns opt <= MaxIdleConns opt ->
  idle_bounded opt w -> steady w w' -> idle_bounded opt w'.
Proof.
  unfold idle_bounded, steady. intros Hmin [Hcfg Hb] (Hc & _ & Hi).
  rewrite Hc, Hcfg in *. split; [reflexivity | lia].
Qed.

Lemma steady_run_goroutine g : preserves steady (run_goroutine g).
Proof. destruct g; steady_auto. Qed.

Lemma bounded_Put opt ctx cn w :
  0 < MaxIdleConns opt ->
  MinIdleConns opt <= MaxIdleConns opt ->
  idle_bounded opt w ->
  post (Put ctx cn) w (fun _ w' => idle_bounded opt w') (idle_bounded opt).
Proof.
  intros Hmax Hmin Hb. unfold post. rewrite Put_eq.
  destruct (heap w !! cn) as [c|]; [| exact I].
  assert (Hrem : forall reason,
    match AsyncRemove ctx cn reason w with
    | Returns _ w' => idle_bounded opt w'
    | Blocks w' => idle_bounded opt w'
    | _ => True
    end).
  { intros reason. pose proof (steady_AsyncRemove ctx cn reason w) as H.
    unfold post in H.
    destruct (AsyncRemove ctx cn reason w); try exact I;
      eapply steady_bounded; eassumption. }
  destruct (0 <? rdBuffered c); [apply Hrem |].
  destruct (negb (pooled c)); [apply Hrem |].
  destruct (idle_room w) eqn:Hroom.
  - destruct (idleConns (pool w)); [| exact I].
    destruct Hb as [Hcfg Hb]. unfold idle_room in Hroom. rewrite Hcfg in Hroom.
    assert (Hpush : idleConnsLen (pool w) + 1 <= MaxIdleConns opt).
    { apply orb_true_iff in Hroom as [H0|Hlt]; lia. }
    destruct (0 <? queue (pool w)); unfold idle_bounded, take_turn_back, push_idle;
      simpl_world; (split; assumption).
  - specialize (Hrem None). rewrite AsyncRemove_eq in Hrem. exact Hrem.
Qed.

(** ** The theorems at work on the scenarios *)

Lemma waitTurn_errors_witness :
  waitTurn None WakeTimer w_overflow =
  Returns (Some ErrPoolTimeout) (charge_timeout w_overflow).
Proof.
  assert (Hctx : context_errors None WakeTimer).
  { split; intros e He; discriminate He. }
  destruct (waitTurn_errors None WakeTimer w_overflow Hctx) as (_ & _ & H & _).
  apply H; [reflexivity | vm_compute; discriminate | reflexivity].
Defined.

Lemma StaleConns_counts_health_evictions_witness :
  exists w', AsyncCloseConn 1%nat w_one_out = Returns tt w'
             /\ StaleConns_of w' = uint32 (StaleConns_of w_one_out + 1).
Proof.
  destruct StaleConns_counts_health_evictions as (H & _).
  destruct (H 1%nat w_one_out [1%nat] (mkConn 0 true 0 0 0))
    as (w' & Hrun & Hst & _); [vm_compute; reflexivity .. |].
  exists w'. split; assumption.
Defined.

Lemma newConn_full_pool_not_pooled_witness :
  exists w' c,
    newConn true w_reserved = Returns (1%nat, None) w'
    /\ heap w' !! 1%nat = Some c /\ pooled c = false
    /\ poolSize (pool w') = 1.
Proof.
  destruct newConn_full_pool_not_pooled as (H & _).
  destruct (H w_reserved []) as (w' & c & Hrun & _ & Hc & Hp & Hps);
    [vm_compute; reflexivity .. | vm_compute; discriminate |].
  exists w', c. repeat split; assumption.
Defined.

Lemma dial_error_circuit_witness :
  exists w',
    dialConn false w_outage = Returns (nil_ptr, Some (DialError 7)) w'
    /\ dialErrorsNum (pool w') = 1
    /\ goroutines w' = [GoTryDial].
Proof.
  destruct dial_error_circuit as (H & _).
  destruct (H false w_outage (DialError 7)) as (w' & Hrun & Hn & _ & _ & Hg);
    [vm_compute; reflexivity .. |].
  exists w'. split; [exact Hrun |]. split; [exact Hn |].
  rewrite Hg, Hn. reflexivity.
Defined.

(** ** C5 over schedules *)

Lemma bounded_settle {A} opt (m : M A) s (k : A -> World -> Sys) s' :
  MinIdleConns opt <= MaxIdleConns opt ->
  preserves steady m ->
  (forall a w', world (k a w') = w') ->
  idle_bounded opt (world s) ->
  settle (m (world s)) s k = Some s' ->
  idle_bounded opt (world s').
Proof.
  intros Hmin Hm Hk Hb Hs. specialize (Hm (world s)). unfold post in Hm.
  unfold settle in Hs. destruct (m (world s)) as [a w'| |w'|]; try discriminate;
    inversion Hs; subst; [rewrite Hk |]; eapply steady_bounded; eassumption.
Qed.

Lemma bounded_Close opt w :
  0 < MaxIdleConns opt ->
  MinIdleConns opt <= MaxIdleConns opt ->
  idle_bounded opt w ->
  post Close w (fun _ w' => idle_bounded opt w') (idle_bounded opt).
Proof.
  intros Hmax Hmin [Hcfg Hb]. unfold post, Close, List_elements. unfold_monad.
  destruct (_closed (pool w) =? 0); [| split; assumption].
  simpl_world. destruct (conns (pool w)) as [xs|]; [| exact I].
  pose proof (steady_Filter_loop (fun _ => true) xs None (with_pool (set_closed 1) w)) as Hf.
  unfold post in Hf.
  destruct (Filter_loop (fun _ => true) xs None (with_pool (set_closed 1) w))
    as [r w'| |w'|]; try exact I.
  - destruct Hf as (Hc & _). unfold idle_bounded. simpl_world.
    rewrite Hc. split; [assumption | lia].
  - destruct Hf as (Hc & _ & Hi). unfold idle_bounded. simpl_world.
    simpl_world. rewrite Hc. split; [assumption |]. rewrite Hcfg in Hi. lia.
Qed.

Lemma bounded_exec opt e s s' :
  0 < MaxIdleConns opt ->
  MinIdleConns opt <= MaxIdleConns opt ->
  idle_bounded opt (world s) ->
  exec e s = Some s' ->
  idle_bounded opt (world s').
Proof.
  intros Hmax Hmin Hb He. destruct e; cbn [exec] in He.
  - eapply bounded_settle; [exact Hmin | apply steady_Get | | exact Hb | exact He].
    intros [[cn err] site] w'. reflexivity.
  - pose proof (bounded_Put opt ctx cn (world s) Hmax Hmin Hb) as Hp. unfold post in Hp.
    unfold settle in He.
    destruct (Put ctx cn (world s)); try discriminate; inversion He; subst; exact Hp.
  - eapply bounded_settle; [exact Hmin | apply steady_Remove | | exact Hb | exact He].
    reflexivity.
  - eapply bounded_settle; [exact Hmin | apply steady_CloseConn | | exact Hb | exact He].
    reflexivity.
  - eapply bounded_settle; [exact Hmin | apply steady_NewConn | | exact Hb | exact He].
    intros [cn err] w'. reflexivity.
  - eapply bounded_settle; [exact Hmin | apply steady_Len | | exact Hb | exact He].
    reflexivity.
  - eapply bounded_settle; [exact Hmin | apply steady_IdleLen | | exact Hb | exact He].
    reflexivity.
  - eapply bounded_settle; [exact Hmin | apply steady_Stats | | exact Hb | exact He].
    reflexivity.
  - eapply bounded_settle; [exact Hmin | apply steady_Filter | | exact Hb | exact He].
    reflexivity.
  - pose proof (bounded_Close opt (world s) Hmax Hmin Hb) as Hp. unfold post in Hp.
    unfold settle in He.
    destruct (Close (world s)); try discriminate; inversion He; subst; exact Hp.
  - eapply bounded_settle;
      [exact Hmin | apply steady_ReapStaleConns | | exact Hb | exact He].
    reflexivity.
  - eapply bounded_settle; [exact Hmin | apply steady_reaper_tick | | exact Hb | exact He].
    reflexivity.
  - destruct (goroutines (world s) !! k) as [g|]; [| inversion He; subst; exact Hb].
    pose proof (steady_run_goroutine g
                  (set_goroutines (delete k (goroutines (world s))) (world s))) as Hg.
    unfold post in Hg. unfold settle in He.
    destruct (run_goroutine g _); try discriminate; inversion He; subst;
      cbn [world set_world]; eapply steady_bounded; try eassumption; exact Hb.
  - inversion He; subst. exact Hb.
  - inversion He; subst. cbn [world set_world]. unfold use_conn.
    destruct (heap (world s) !! cn); exact Hb.
Qed.

Lemma bounded_run opt es :
  forall s s',
    0 < MaxIdleConns opt ->
    MinIdleConns opt <= MaxIdleConns opt ->
    idle_bounded opt (world s) ->
    run es s = Some s' ->
    idle_bounded opt (world s').
Proof.
  induction es as [|e es IH]; intros s s' Hmax Hmin Hb Hrun; simpl in Hrun.
  - inversion Hrun; subst. exact Hb.
  - destruct (exec e s) as [s1|] eqn:He; [| discriminate].
    eapply IH; [exact Hmax | exact Hmin | | exact Hrun].
    eapply bounded_exec; eassumption.
Qed.

Lemma bounded_start opt e s0 :
  0 < MaxIdleConns opt ->
  MinIdleConns opt <= MaxIdleConns opt ->
  start opt e = Some s0 ->
  idle_bounded opt (world s0).
Proof.
  intros Hmax Hmin Hs. unfold start, NewConnPool in Hs.
  destruct (PoolSize opt <? 0); [discriminate |].
  rewrite checkMinIdleConns_eq in Hs. inversion Hs; subst. cbn [world].
  eapply steady_bounded; [exact Hmin | | apply steady_reserve].
  unfold idle_bounded, new_world, new_pool. simpl_world. split; [reflexivity | lia].
Qed.

(** X1.  For every pool configured with
    [0 < MaxIdleConns] and [MinIdleConns <= MaxIdleConns], after the
    constructor and after every event of every schedule (the calls of the
    callers, the turns of the fillers and of the other goroutines),
    [idleConnsLen <= MaxIdleConns]. *)
Theorem idle_bound (opt : Options) (e : Env) (es : list event) (s0 s : Sys)
    (Hmax : 0 < MaxIdleConns opt)
    (Hmin : MinIdleConns opt <= MaxIdleConns opt)
    (Hstart : start opt e = Some s0)
    (Hrun : run es s0 = Some s) :
  idleConnsLen (pool (world s)) <= MaxIdleConns opt.
Proof.
  apply (bounded_run opt es s0 s Hmax Hmin); [| exact Hrun].
  exact (bounded_start opt e s0 Hmax Hmin Hstart).
Qed.

(** ** C4: hits and misses *)

(** C4, counterexample.  The dialer fails: [Get] counts a miss (line 277)
    and then returns the dial error. *)
Lemma hits_misses_not_as_claimed : ~ hits_misses_as_claimed opt_outage sound_env.
Proof.
  intros H.
  assert (Hs : exists s0 s,
             start opt_outage sound_env = Some s0
             /\ run [EGet None WakeTimer] s0 = Some s
             /\ getLog s = [(Some (DialError 7), AtNewConnErr)]
             /\ Hits_of (world s) + Misses_of (world s) = 1).
  { eexists. eexists.
    split; [vm_compute; reflexivity |].
    split; [vm_compute; reflexivity |].
    split; vm_compute; reflexivity. }
  destruct Hs as (s0 & s & Hstart & Hrun & Hlog & Hsum).
  specialize (H _ _ _ Hstart Hrun). rewrite Hsum, Hlog in H.
  vm_compute in H. discriminate H.
Qed.

Lemma waitTurn_granted ctx wk w w1 :
  waitTurn ctx wk w = Returns None w1 ->
  0 <= queue_of w ->
  0 < queue_of w1 /\ stats (pool w1) = stats (pool w).
Proof.
  unfold waitTurn, waitTurn_select, getTurn, add_Timeouts, queue_of. unfold_monad.
  intros Hrun Hq. destruct ctx as [e|]; [discriminate |].
  destruct (queue (pool w) <? PoolSize (cfg (pool w))) eqn:Hfree.
  - rewrite Hfree in Hrun. inversion Hrun; subst. simpl_world. split; [lia | reflexivity].
  - destruct wk; try discriminate. rewrite Hfree in Hrun. discriminate.
Qed.

Lemma Get_loop_accounts fuel i w :
  post (Get_loop fuel i) w
    (fun r w' => queue_of w' = queue_of w
                 /\ Misses_of w' = Misses_of w
                 /\ match r with
                    | Some (_, None) => Hits_of w' = uint32 (Hits_of w + 1)
                    | _ => Hits_of w' = Hits_of w
                    end)
    (fun _ => False).
Proof.
  unfold Get_loop.
  apply loop_post with
    (Inv := fun (_ : Z) w' => queue_of w' = queue_of w
                              /\ Misses_of w' = Misses_of w
                              /\ Hits_of w' = Hits_of w).
  2: { repeat split. }
  intros j w1 (Hq & Hm & Hh). unfold post. rewrite Get_body_eq.
  pose proof (popIdle_frame w1) as Hf. unfold post in Hf.
  destruct (popIdle w1) as [[cn [e|]] w2| | |]; try exact I; try contradiction.
  { destruct Hf as (Hs2 & Hq2 & _). unfold Misses_of, Hits_of in *.
    rewrite Hs2, Hq2. auto. }
  destruct Hf as (Hs2 & Hq2 & _).
  assert (Hkeep : queue_of w2 = queue_of w /\ Misses_of w2 = Misses_of w
                  /\ Hits_of w2 = Hits_of w).
  { unfold Misses_of, Hits_of in *. rewrite Hs2, Hq2. auto. }
  destruct (decide (cn = nil_ptr)).
  { destruct (3 <=? AddInt32 j 1); exact Hkeep. }
  destruct (heap w2 !! cn) as [c|]; [| exact I].
  destruct Hkeep as (Hk1 & Hk2 & Hk3).
  destruct (healthy c w2).
  { unfold Misses_of, Hits_of, queue_of, AddUint32 in *. simpl_steps.
    unfold AddUint32. rewrite Hk3. auto. }
  pose proof (removeConn_frame cn w2) as Hr. unfold post in Hr.
  destruct (removeConn cn w2) as [[] w3| | |]; try exact I; try contradiction.
  destruct Hr as (Hs3 & Hq3 & _).
  unfold Misses_of, Hits_of, queue_of in *. simpl_steps.
  rewrite Hs3. repeat split; congruence.
Qed.

Lemma newConn_frame pooled w :
  post (newConn pooled) w
    (fun _ w' => queue_of w' = queue_of w /\ stats (pool w') = stats (pool w))
    (fun _ => False).
Proof.
  unfold post, queue_of. rewrite newConn_eq, dialConn_eq.
  assert (Hfail : forall err, queue (pool (dial_failed err w)) = queue (pool w)
                              /\ stats (pool (dial_failed err w)) = stats (pool w)).
  { intros err. unfold dial_failed.
    destruct (_ =? _); simpl_world; split; reflexivity. }
  destruct (closed (pool w)) eqn:Hcl; [split; reflexivity |].
  destruct (circuit_open w).
  { destruct (lastDialError (pool w)); [split; reflexivity |].
    rewrite Hcl. destruct (conns (pool w)) as [xs|]; [| exact I].
    destruct pooled; [| unfold push_conn; simpl_world; split; reflexivity].
    destruct (PoolSize (cfg (pool w)) <=? poolSize (pool w)).
    - destruct (heap w !! nil_ptr); [| exact I].
      unfold push_conn. simpl_world. split; reflexivity.
    - unfold push_conn. simpl_world. split; reflexivity. }
  destruct (Dialer (cfg (pool w)) (dials w)) as [err|]; [apply Hfail |].
  change (closed (pool (dial_ok pooled w))) with (closed (pool w)). rewrite Hcl.
  change (conns (pool (dial_ok pooled w))) with (conns (pool w)).
  destruct (conns (pool w)) as [xs|]; [| exact I].
  destruct pooled; [| unfold push_conn, dial_ok; simpl_world; split; reflexivity].
  destruct (PoolSize (cfg (pool (dial_ok true w))) <=? poolSize (pool (dial_ok true w))).
  - destruct (heap (dial_ok true w) !! nextPtr w); [| exact I].
    unfold push_conn, dial_ok. simpl_world. split; reflexivity.
  - unfold push_conn, dial_ok. simpl_world. split; reflexivity.
Qed.

(** What a call of [Get] does to [stats.Hits] and [stats.Misses]. *)
Lemma Get_accounts fuel ctx wk w :
  0 <= queue_of w ->
  match Get fuel ctx wk w with
  | Returns (cn, err, site) w' =>
      0 <= queue_of w'
      /\ (err = None <-> succeeded site = true)
      /\ Get_effect w site w'
  | Blocks w' => quiet w w'
  | Panics | OutOfFuel => True
  end.
Proof.
  intros Hq. unfold Get. unfold mbind at 1. unfold M_bind, bind, gets.
  destruct (closed (pool w)).
  { cbn. repeat split; try discriminate; assumption. }
  unfold mbind at 1. unfold M_bind, bind.
  pose proof (quiet_waitTurn ctx wk w) as Hw. unfold post in Hw.
  pose proof (waitTurn_granted ctx wk w) as Hg.
  destruct (waitTurn ctx wk w) as [[e|] w1| |w1|]; try exact I; try exact Hw.
  { destruct Hw as (Hh & Hm & Hq1). cbn. repeat split; try discriminate; auto. }
  destruct (Hg w1 eq_refl Hq) as [Hq1 Hs1]. clear Hg Hw.
  unfold mbind at 1. unfold M_bind, bind.
  pose proof (Get_loop_accounts fuel 0 w1) as Hl. unfold post in Hl.
  destruct (Get_loop fuel 0 w1) as [[[cn [e|]]|] w2| | |]; try exact I; try contradiction.
  - destruct Hl as (Hq2 & Hm2 & Hh2). unfold ret. cbv beta iota.
    unfold Get_effect, Hits_of, Misses_of in *.
    rewrite Hh2, Hm2, Hs1. repeat split; try discriminate; lia.
  - destruct Hl as (Hq2 & Hm2 & Hh2). unfold ret. cbv beta iota.
    unfold Get_effect, Hits_of, Misses_of in *.
    rewrite Hh2, Hm2, Hs1. repeat split; lia.
  - destruct Hl as (Hq2 & Hm2 & Hh2).
    unfold add_Misses, modify. unfold mbind at 1. unfold M_bind, bind.
    unfold mbind at 1. unfold M_bind, bind.
    match goal with |- context [newConn true ?w3] =>
      pose proof (newConn_frame true w3) as Hn; unfold post in Hn;
      destruct (newConn true w3) as [[newcn [e|]] w4| | |] end;
      try exact I; try contradiction.
    + destruct Hn as (Hq4 & Hs4). unfold freeTurn. unfold mbind, M_bind, bind, ret.
      unfold queue_of in *. simpl_world.
      destruct (Z.ltb_spec 0 (queue (pool w4))); [| lia].
      cbv beta iota.
      unfold Get_effect, Hits_of, Misses_of, AddUint32 in *. simpl_world.
      rewrite Hs4. simpl_world. rewrite Hh2, Hm2, Hs1.
      repeat split; try discriminate; lia.
    + destruct Hn as (Hq4 & Hs4). unfold ret. cbv beta iota.
      unfold Get_effect, Hits_of, Misses_of, queue_of, AddUint32 in *. simpl_world.
      rewrite Hs4. simpl_world. rewrite Hh2, Hm2, Hs1. repeat split; lia.
Qed.

Lemma quiet_run_goroutine g : preserves quiet (run_goroutine g).
Proof. destruct g; quiet_auto. Qed.

Lemma accounted_settle {A} (m : M A) s (k : A -> World -> Sys) s' :
  preserves quiet m ->
  (forall a w', world (k a w') = w' /\ getLog (k a w') = getLog s) ->
  accounted s ->
  settle (m (world s)) s k = Some s' ->
  accounted s'.
Proof.
  intros Hm Hk (Hq & Hsum & Hlog) Hs. specialize (Hm (world s)). unfold post in Hm.
  unfold settle in Hs. unfold accounted.
  destruct (m (world s)) as [a w'| |w'|]; try discriminate; inversion Hs; subst.
  - destruct (Hk a w') as [-> ->]. destruct Hm as (Hh & Hmi & Hq').
    rewrite Hh, Hmi. auto.
  - cbn [world getLog set_world]. destruct Hm as (Hh & Hmi & Hq').
    rewrite Hh, Hmi. auto.
Qed.

Lemma count_gets_cons f r log :
  count_gets f (r :: log) = count_gets f log + (if f r then 1 else 0).
Proof.
  unfold count_gets. cbn [List.filter]. destruct (f r); cbn [length]; lia.
Qed.

Lemma accounted_exec e s s' :
  accounted s -> exec e s = Some s' -> accounted s'.
Proof.
  intros Ha He. destruct e; cbn [exec] in He;
    try (eapply accounted_settle; [| | exact Ha | exact He];
         [first [ apply quiet_Put | apply quiet_Remove | apply quiet_CloseConn
                | apply quiet_NewConn | apply quiet_Len | apply quiet_IdleLen
                | apply quiet_Stats | apply quiet_Filter | apply quiet_Close
                | apply quiet_ReapStaleConns | apply quiet_reaper_tick ]
         | try (intros [? ?] ?); split; reflexivity ]).
  - destruct Ha as (Hq & Hsum & Hlog).
    pose proof (Get_accounts (idle_fuel (world s)) ctx wk (world s) Hq) as Hg.
    unfold settle in He.
    destruct (Get (idle_fuel (world s)) ctx wk (world s)) as [[[cn err] site] w'| |w'|];
      try discriminate; inversion He; subst; unfold accounted; cbn [world getLog set_world].
    + destruct Hg as (Hq' & Hok & Heff). split; [exact Hq' |]. split.
      * rewrite count_gets_cons. cbn [snd].
        transitivity (uint32 (Hits_of (world s) + Misses_of (world s)
                              + (if counted site then 1 else 0))).
        2: { rewrite <- (uint32_add_l (Hits_of (world s) + Misses_of (world s))), Hsum,
               uint32_add_l. reflexivity. }
        unfold Get_effect in Heff.
        destruct site; cbn [counted]; destruct Heff as [-> ->];
          rewrite ?uint32_add_l, ?uint32_add_r; f_equal; lia.
      * constructor; [exact Hok | exact Hlog].
    + destruct Hg as (Hh & Hm & Hq'). rewrite Hh, Hm. auto.
  - destruct (goroutines (world s) !! k) as [g|]; [| inversion He; subst; exact Ha].
    destruct Ha as (Hq & Hsum & Hlog).
    pose proof (quiet_run_goroutine g
                  (set_goroutines (delete k (goroutines (world s))) (world s))) as Hg.
    unfold post in Hg. unfold settle in He. unfold accounted.
    destruct (run_goroutine g _); try discriminate; inversion He; subst;
      cbn [world getLog set_world]; destruct Hg as (Hh & Hm & Hq');
      rewrite Hh, Hm; auto.
  - inversion He; subst. exact Ha.
  - inversion He; subst. unfold accounted, use_conn in *. cbn [world getLog set_world].
    destruct (heap (world s) !! cn); exact Ha.
Qed.

Lemma accounted_run es :
  forall s s', accounted s -> run es s = Some s' -> accounted s'.
Proof.
  induction es as [|e es IH]; intros s s' Ha Hrun; simpl in Hrun.
  - inversion Hrun; subst. exact Ha.
  - destruct (exec e s) as [s1|] eqn:He; [| discriminate].
    eapply IH; [| exact Hrun]. eapply accounted_exec; eassumption.
Qed.

Lemma accounted_start opt e s0 : start opt e = Some s0 -> accounted s0.
Proof.
  intros Hs. unfold start, NewConnPool in Hs.
  destruct (PoolSize opt <? 0); [discriminate |].
  rewrite checkMinIdleConns_eq in Hs. inversion Hs; subst.
  unfold accounted, queue_of, Hits_of, Misses_of. cbn [world getLog].
  simpl_steps. unfold new_world, new_pool. simpl_world.
  split; [lia |]. split; [reflexivity | constructor].
Qed.

Lemma count_gets_split log :
  Forall (fun r => fst r = None <-> succeeded (snd r) = true) log ->
  count_gets (fun r => counted (snd r)) log =
  count_gets returned_ok log + count_gets (fun r => failed_dial (snd r)) log.
Proof.
  induction 1 as [|[err site] log Hr _ IH].
  - reflexivity.
  - rewrite !count_gets_cons, IH. cbn [fst snd] in *. unfold returned_ok. cbn [fst].
    destruct err as [e|].
    + destruct site; cbn in *; try lia;
        destruct Hr as [_ Hr]; specialize (Hr eq_refl); discriminate.
    + destruct site; cbn in *; try lia;
        destruct Hr as [Hr _]; specialize (Hr eq_refl); discriminate.
Qed.

(** X2.  After every schedule, [stats.Hits + stats.Misses]
    equals, modulo 2^32 (the counters are uint32), the number of [Get] calls
    that returned successfully plus the number of [Get] calls that counted
    a miss and then failed in [newConn]. *)
Theorem hits_misses (opt : Options) (e : Env) (es : list event) (s0 s : Sys)
    (Hstart : start opt e = Some s0)
    (Hrun : run es s0 = Some s) :
  uint32 (Hits_of (world s) + Misses_of (world s)) =
  uint32 (count_gets returned_ok (getLog s)
          + count_gets (fun r => failed_dial (snd r)) (getLog s)).
Proof.
  destruct (accounted_run es s0 s (accounted_start opt e s0 Hstart) Hrun)
    as (_ & Hsum & Hlog).
  rewrite Hsum, (count_gets_split _ Hlog). reflexivity.
Qed.

(** ** C3: every socket is closed at most once *)

Lemma remove_first_perm cn xs xs' :
  remove_first cn xs = Some xs' -> xs ≡ₚ cn :: xs'.
Proof.
  revert xs'. induction xs as [|x xs IH]; intros xs' H; [discriminate |].
  simpl in H. destruct (decide (x = cn)) as [->|Hne].
  - inversion H; subst. reflexivity.
  - destruct (remove_first cn xs) as [r|]; [| discriminate].
    inversion H; subst. rewrite (IH r eq_refl). apply Permutation_swap.
Qed.

Lemma pop_choice_perm fifo xs cn rest :
  pop_choice fifo xs = (Some cn, rest) -> xs ≡ₚ cn :: rest.
Proof.
  unfold pop_choice. destruct fifo; intros H.
  - destruct xs as [|x xs]; inversion H; subst. reflexivity.
  - destruct (decide (xs = [])) as [->|Hne]; [discriminate |].
    destruct (exists_last Hne) as (ys & y & ->).
    rewrite last_snoc, removelast_last in H. inversion H; subst.
    rewrite Permutation_app_comm. reflexivity.
Qed.

Lemma filter_ne_not_in (cn : ptr) (l : list ptr) :
  cn ∉ l -> filter (fun x => x <> cn) l = l.
Proof.
  induction l as [|x l IH]; intros Hn; [reflexivity |].
  apply not_elem_of_cons in Hn as [Hne Hn].
  rewrite filter_cons_True by congruence. rewrite IH by assumption. reflexivity.
Qed.

Lemma filter_ne_perm (cn : ptr) (l : list ptr) :
  NoDup l -> cn ∈ l -> l ≡ₚ cn :: filter (fun x => x <> cn) l.
Proof.
  induction l as [|x l IH]; intros Hnd Hin; [inversion Hin |].
  apply NoDup_cons in Hnd as [Hx Hnd].
  destruct (decide (x = cn)) as [->|Hne].
  - rewrite filter_cons_False by (intros H; apply H; reflexivity).
    rewrite filter_ne_not_in by assumption. reflexivity.
  - rewrite filter_cons_True by assumption.
    apply elem_of_cons in Hin as [->|Hin]; [contradiction |].
    rewrite (IH Hnd Hin) at 1. apply Permutation_swap.
Qed.

Lemma filter_ne_elem (cn x : ptr) (l : list ptr) :
  x ∈ filter (fun y => y <> cn) l <-> x ∈ l /\ x <> cn.
Proof. rewrite list_elem_of_filter. tauto. Qed.

Lemma filter_ne_length (cn : ptr) (l : list ptr) :
  NoDup l -> cn ∈ l -> length l = S (length (filter (fun x => x <> cn) l)).
Proof.
  intros Hnd Hin. rewrite (filter_ne_perm cn l Hnd Hin) at 1. reflexivity.
Qed.

Lemma filter_ne_NoDup (cn : ptr) (l : list ptr) :
  NoDup l -> NoDup (filter (fun x => x <> cn) l).
Proof. apply NoDup_filter. Qed.

Lemma filter_ne_length_le (cn : ptr) (l : list ptr) :
  (length (filter (fun x => x <> cn) l) <= length l)%nat.
Proof. apply length_filter. Qed.

Lemma SafeK_ext sk sk' np d cl lv idl cg att q hg hn :
  (forall cn, sk' cn = sk cn) ->
  SafeK sk np d cl lv idl cg att q hg hn ->
  SafeK sk' np d cl lv idl cg att q hg hn.
Proof.
  intros He [].
  constructor; try assumption; intros *; rewrite ?He; eauto.
Qed.

Lemma SafeK_frame sk np np' d d' cl lv idl cg att q q' hg hn :
  (np <= np')%nat -> (d <= d')%nat -> Z.of_nat (length hg) <= q' ->
  SafeK sk np d cl lv idl cg att q hg hn ->
  SafeK sk np' d' cl lv idl cg att q' hg hn.
Proof.
  intros Hnp Hd Hq [].
  constructor; try assumption; try (intros Hnone'; discriminate Hnone').
  - lia.
  - intros cn s Hs. destruct (sk_range0 _ _ Hs) as (? & ? & ?). repeat split; [assumption | lia | lia].
  - intros s Hs. specialize (cl_range0 _ Hs). lia.
  - split; [apply tickets0 | assumption].
Qed.

(** [popIdle] takes [cn] off the idle list. *)
Lemma SafeK_pop sk np d cl xs ids cn rest cg att q hg hn :
  ids ≡ₚ cn :: rest ->
  SafeK sk np d cl (Some xs) (Some ids) cg att q hg hn ->
  SafeK sk np d cl (Some xs) (Some rest) cg att q hg hn
  /\ (cn ∈ xs) /\ (cn ∉ rest) /\ (cn ∉ hg) /\ (cn ∉ hn).
Proof.
  intros Hp [].
  destruct (idle_ok0 xs eq_refl) as (ids' & Hids & Hnd & Hin). inversion Hids; subst ids'.
  rewrite Hp in Hnd. apply NoDup_cons in Hnd as [Hcn Hnd].
  assert (Hc : cn ∈ ids) by (rewrite Hp; left).
  destruct (Hin cn Hc) as (? & ? & ?).
  split; [| auto].
  constructor; try assumption; try (intros Hnone'; discriminate Hnone').
  intros xs' Hx. inversion Hx; subst xs'. exists rest. split; [reflexivity |].
  split; [assumption |]. intros x Hxr. apply Hin. rewrite Hp. right. assumption.
Qed.

(** A connection of [conns] that is not idle is unlinked and handed to a
    goroutine that will close it. *)
Lemma SafeK_evict sk np d cl xs xs' idl cn cg att q q' hg hn :
  xs ≡ₚ cn :: xs' ->
  (forall ids, idl = Some ids -> cn ∉ ids) ->
  Z.of_nat (length (filter (fun x => x <> cn) hg)) <= q' ->
  SafeK sk np d cl (Some xs) idl cg att q hg hn ->
  SafeK sk np d cl (Some xs') idl (cg ++ [cn]) att q'
        (filter (fun x => x <> cn) hg) (filter (fun x => x <> cn) hn).
Proof.
  intros Hp Hidle Hq []. cbn [live_of] in *.
  assert (Hown : xs' ++ (cg ++ [cn]) ++ att ≡ₚ xs ++ cg ++ att).
  { rewrite Hp. cbn [app]. rewrite <- !app_assoc. cbn [app].
    rewrite <- Permutation_middle. rewrite <- Permutation_middle. reflexivity. }
  assert (Hnd : NoDup (cn :: xs')).
  { rewrite <- Hp. apply NoDup_app in own_nodup0. apply own_nodup0. }
  apply NoDup_cons in Hnd as [Hcn Hnd].
  constructor; try assumption; try (intros Hnone'; discriminate Hnone').
  - rewrite Hown. assumption.
  - intros x Hx. apply own_open0. rewrite <- Hown. assumption.
  - intros x s Hs. destruct (all_done0 x s Hs) as [Hin|Hin]; [left | right; assumption].
    rewrite Hown. assumption.
  - intros ys Hy. inversion Hy; subst ys.
    destruct (idle_ok0 xs eq_refl) as (ids & Hids & Hndi & Hin).
    exists ids. split; [assumption |]. split; [assumption |].
    intros x Hx. destruct (Hin x Hx) as (Hxx & Hg & Hn).
    assert (x <> cn) by (intros ->; apply (Hidle ids Hids); assumption).
    rewrite Hp in Hxx. apply elem_of_cons in Hxx as [->|Hxx]; [contradiction |].
    rewrite !filter_ne_elem. tauto.
  - intros ys Hy. inversion Hy; subst ys. intros x Hx.
    rewrite !filter_ne_elem in Hx.
    assert (Hxx : x ∈ xs) by (apply (held_ok0 xs eq_refl); tauto).
    rewrite Hp in Hxx. apply elem_of_cons in Hxx as [->|Hxx]; [tauto | assumption].
  - split; [apply filter_ne_NoDup, tickets0 | assumption].
Qed.

(** The same, the connection being closed on the spot. *)
Lemma SafeK_close sk np d cl xs xs' idl cn s cg att q q' hg hn :
  xs ≡ₚ cn :: xs' ->
  sk cn = Some s ->
  (forall ids, idl = Some ids -> cn ∉ ids) ->
  Z.of_nat (length (filter (fun x => x <> cn) hg)) <= q' ->
  SafeK sk np d cl (Some xs) idl cg att q hg hn ->
  SafeK sk np d (cl ++ [s]) (Some xs') idl cg att q'
        (filter (fun x => x <> cn) hg) (filter (fun x => x <> cn) hn).
Proof.
  intros Hp Hs Hidle Hq []. cbn [live_of] in *.
  assert (Hown : xs ++ cg ++ att ≡ₚ cn :: xs' ++ cg ++ att).
  { rewrite Hp. reflexivity. }
  pose proof own_nodup0 as Hnd. rewrite Hown in Hnd.
  apply NoDup_cons in Hnd as [Hcn Hnd].
  assert (Hopen : s ∉ cl).
  { destruct (own_open0 cn) as (s' & Hs' & Hc).
    - rewrite Hown. left.
    - congruence. }
  constructor; try assumption; try (intros Hnone'; discriminate Hnone').
  - apply NoDup_app. split; [assumption |]. split; [| apply NoDup_singleton].
    intros x Hx Hx'. apply list_elem_of_singleton in Hx'. subst x. contradiction.
  - intros x Hx. apply elem_of_app in Hx as [Hx|Hx]; [auto |].
    apply list_elem_of_singleton in Hx. subst x. eapply sk_range0; eassumption.
  - intros x Hx. destruct (own_open0 x) as (s' & Hs' & Hc).
    { rewrite Hown. right. assumption. }
    exists s'. split; [assumption |]. intros Hin.
    apply elem_of_app in Hin as [Hin|Hin]; [contradiction |].
    apply list_elem_of_singleton in Hin. subst s'.
    assert (x = cn) by (eapply sk_inj0; eassumption). subst x. contradiction.
  - intros x s' Hs'. destruct (all_done0 x s' Hs') as [Hin|Hin].
    + rewrite Hown in Hin. apply elem_of_cons in Hin as [->|Hin]; [| left; assumption].
      right. apply elem_of_app. right. apply list_elem_of_singleton. congruence.
    + right. apply elem_of_app. left. assumption.
  - intros ys Hy. inversion Hy; subst ys.
    destruct (idle_ok0 xs eq_refl) as (ids & Hids & Hndi & Hin).
    exists ids. split; [assumption |]. split; [assumption |].
    intros x Hx. destruct (Hin x Hx) as (Hxx & Hg & Hn).
    assert (x <> cn) by (intros ->; apply (Hidle ids Hids); assumption).
    rewrite Hp in Hxx. apply elem_of_cons in Hxx as [->|Hxx]; [contradiction |].
    rewrite !filter_ne_elem. tauto.
  - intros ys Hy. inversion Hy; subst ys. intros x Hx.
    rewrite !filter_ne_elem in Hx.
    assert (Hxx : x ∈ xs) by (apply (held_ok0 xs eq_refl); tauto).
    rewrite Hp in Hxx. apply elem_of_cons in Hxx as [->|Hxx]; [tauto | assumption].
  - split; [apply filter_ne_NoDup, tickets0 | assumption].
Qed.

(** [Get] hands out a connection of [conns] that is neither idle nor held. *)
Lemma SafeK_take sk np d cl xs ids cn cg att q hg hn :
  cn ∈ xs -> cn ∉ ids -> cn ∉ hg -> cn ∉ hn ->
  Z.of_nat (length hg) + 1 <= q ->
  SafeK sk np d cl (Some xs) (Some ids) cg att q hg hn ->
  SafeK sk np d cl (Some xs) (Some ids) cg att q (cn :: hg) hn.
Proof.
  intros Hx Hi Hg Hn Hq [].
  constructor; try assumption; try (intros Hnone'; discriminate Hnone').
  - intros ys Hy. inversion Hy; subst ys.
    destruct (idle_ok0 xs eq_refl) as (ids' & Hids & Hnd & Hin).
    inversion Hids; subst ids'. exists ids. split; [reflexivity |]. split; [assumption |].
    intros x Hxi. destruct (Hin x Hxi) as (? & ? & ?).
    split; [assumption |]. split; [| assumption].
    intros Hc. apply elem_of_cons in Hc as [->|Hc]; contradiction.
  - intros ys Hy. inversion Hy; subst ys. intros x [Hc|Hc].
    + apply elem_of_cons in Hc as [->|Hc]; [assumption |].
      apply (held_ok0 xs eq_refl). left. assumption.
    + apply (held_ok0 xs eq_refl). right. assumption.
  - split; [apply NoDup_cons; split; [assumption | apply tickets0] |].
    cbn [length]. lia.
Qed.

(** [NewConn] hands out a connection of [conns] that is neither idle nor held. *)
Lemma SafeK_take_new sk np d cl xs ids cn cg att q hg hn :
  cn ∈ xs -> cn ∉ ids ->
  SafeK sk np d cl (Some xs) (Some ids) cg att q hg hn ->
  SafeK sk np d cl (Some xs) (Some ids) cg att q hg (cn :: hn).
Proof.
  intros Hx Hi [].
  constructor; try assumption; try (intros Hnone'; discriminate Hnone').
  - intros ys Hy. inversion Hy; subst ys.
    destruct (idle_ok0 xs eq_refl) as (ids' & Hids & Hnd & Hin).
    inversion Hids; subst ids'. exists ids. split; [reflexivity |]. split; [assumption |].
    intros x Hxi. destruct (Hin x Hxi) as (? & ? & ?).
    split; [assumption |]. split; [assumption |].
    intros Hc. apply elem_of_cons in Hc as [->|Hc]; contradiction.
  - intros ys Hy. inversion Hy; subst ys. intros x [Hc|Hc].
    + apply (held_ok0 xs eq_refl). left. assumption.
    + apply elem_of_cons in Hc as [->|Hc]; [assumption |].
      apply (held_ok0 xs eq_refl). right. assumption.
Qed.

(** [Put] re-idles a connection that its caller holds from [Get]. *)
Lemma SafeK_push_idle sk np d cl xs ids cn cg att q hg hn :
  cn ∈ hg ->
  SafeK sk np d cl (Some xs) (Some ids) cg att q hg hn ->
  SafeK sk np d cl (Some xs) (Some (ids ++ [cn])) cg att (q - 1)
        (filter (fun x => x <> cn) hg) (filter (fun x => x <> cn) hn).
Proof.
  intros Hg [].
  destruct (idle_ok0 xs eq_refl) as (ids' & Hids & Hnd & Hin). inversion Hids; subst ids'.
  assert (Hcx : cn ∈ xs) by (apply (held_ok0 xs eq_refl); left; assumption).
  assert (Hci : cn ∉ ids) by (intros Hc; destruct (Hin cn Hc) as (_ & ? & _); contradiction).
  constructor; try assumption; try (intros Hnone'; discriminate Hnone').
  - intros ys Hy. inversion Hy; subst ys. exists (ids ++ [cn]).
    split; [reflexivity |]. split.
    + apply NoDup_app. split; [assumption |]. split; [| apply NoDup_singleton].
      intros x Hx Hx'. apply list_elem_of_singleton in Hx'. subst x. contradiction.
    + intros x Hx. rewrite !filter_ne_elem.
      apply elem_of_app in Hx as [Hx|Hx].
      * destruct (Hin x Hx) as (? & ? & ?). tauto.
      * apply list_elem_of_singleton in Hx. subst x. tauto.
  - intros ys Hy. inversion Hy; subst ys. intros x Hx.
    rewrite !filter_ne_elem in Hx. apply (held_ok0 xs eq_refl). tauto.
  - destruct tickets0 as [Hndg Hq]. split; [apply filter_ne_NoDup, Hndg |].
    rewrite (filter_ne_length cn hg Hndg Hg) in Hq. lia.
Qed.

Lemma SafeK_fresh sk np d cl lv idl cg att q hg hn :
  SafeK sk np d cl lv idl cg att q hg hn ->
  sk np = None /\ (np ∉ live_of lv ++ cg ++ att) /\ (d ∉ cl)
  /\ (forall cn, sk cn <> Some d).
Proof.
  intros [].
  assert (Hnone : sk np = None).
  { destruct (sk np) as [s|] eqn:Hs; [| reflexivity].
    destruct (sk_range0 _ _ Hs) as (_ & ? & _). lia. }
  split; [assumption |]. split; [| split].
  - intros Hin. destruct (own_open0 _ Hin) as (s & Hs & _). congruence.
  - intros Hin. specialize (cl_range0 _ Hin). lia.
  - intros cn Hs. destruct (sk_range0 _ _ Hs) as (_ & _ & ?). lia.
Qed.

(** [newConn] attaches the connection it dialled. *)
Lemma SafeK_alloc_live sk np d cl xs ids cg att q hg hn :
  SafeK sk np d cl (Some xs) (Some ids) cg att q hg hn ->
  SafeK (sk_alloc sk np d) (S np) (S d) cl (Some (xs ++ [np])) (Some ids) cg att q hg hn
  /\ (np ∉ ids) /\ (np ∉ hg) /\ (np ∉ hn).
Proof.
  intros HS. destruct (SafeK_fresh _ _ _ _ _ _ _ _ _ _ _ HS) as (Hnone & Hown & Hd & Hsd).
  destruct HS. cbn [live_of] in *.
  destruct (idle_ok0 xs eq_refl) as (ids' & Hids & Hnd & Hin). inversion Hids; subst ids'.
  assert (Hnx : np ∉ xs) by (intros Hc; apply Hown, elem_of_app; left; assumption).
  assert (Hperm : (xs ++ [np]) ++ cg ++ att ≡ₚ np :: xs ++ cg ++ att).
  { rewrite <- app_assoc. cbn [app]. rewrite <- Permutation_middle. reflexivity. }
  split; [| split; [| split]].
  - constructor; try assumption; try (intros Hnone'; discriminate Hnone').
    + lia.
    + intros cn s. unfold sk_alloc. destruct (decide (cn = np)) as [->|Hne].
      * intros [= <-]. unfold nil_ptr. repeat split; lia.
      * intros Hs. destruct (sk_range0 _ _ Hs) as (? & ? & ?). repeat split; [assumption | lia | lia].
    + intros cn1 cn2 s. unfold sk_alloc.
      destruct (decide (cn1 = np)) as [->|H1]; destruct (decide (cn2 = np)) as [->|H2];
        intros E1 E2; try reflexivity.
      * inversion E1; subst. exfalso. eapply Hsd; eassumption.
      * inversion E2; subst. exfalso. eapply Hsd; eassumption.
      * eapply sk_inj0; eassumption.
    + intros s Hs. specialize (cl_range0 _ Hs). lia.
    + rewrite Hperm. apply NoDup_cons. split; assumption.
    + intros cn Hc. rewrite Hperm in Hc. unfold sk_alloc.
      destruct (decide (cn = np)) as [->|Hne]; [exists d; split; [reflexivity | assumption] |].
      apply elem_of_cons in Hc as [->|Hc]; [contradiction |]. apply own_open0. assumption.
    + intros cn s. unfold sk_alloc. destruct (decide (cn = np)) as [->|Hne].
      * intros _. left. rewrite Hperm. left.
      * intros Hs. destruct (all_done0 _ _ Hs) as [Hc|Hc]; [left | right; assumption].
        rewrite Hperm. right. assumption.
    + intros ys Hy. inversion Hy; subst ys. exists ids. split; [reflexivity |].
      split; [assumption |]. intros x Hx. destruct (Hin x Hx) as (? & ? & ?).
      split; [apply elem_of_app; left; assumption | tauto].
    + intros ys Hy. inversion Hy; subst ys. intros x Hx.
      apply elem_of_app. left. apply (held_ok0 xs eq_refl). assumption.
  - intros Hc. destruct (Hin _ Hc) as (? & _). contradiction.
  - intros Hc. apply Hnx. apply (held_ok0 xs eq_refl). left. assumption.
  - intros Hc. apply Hnx. apply (held_ok0 xs eq_refl). right. assumption.
Qed.

(** A filler allocates the connection it dialled and goes on to attach it. *)
Lemma SafeK_alloc_attach sk np d cl lv idl cg att q hg hn :
  SafeK sk np d cl lv idl cg att q hg hn ->
  SafeK (sk_alloc sk np d) (S np) (S d) cl lv idl cg (att ++ [np]) q hg hn.
Proof.
  intros HS. destruct (SafeK_fresh _ _ _ _ _ _ _ _ _ _ _ HS) as (Hnone & Hown & Hd & Hsd).
  destruct HS.
  assert (Hperm : live_of lv ++ cg ++ att ++ [np] ≡ₚ np :: live_of lv ++ cg ++ att).
  { rewrite !app_assoc. rewrite <- Permutation_cons_append. reflexivity. }
  constructor; try assumption; try (intros Hnone'; discriminate Hnone').
  - lia.
  - intros cn s. unfold sk_alloc. destruct (decide (cn = np)) as [->|Hne].
    + intros [= <-]. unfold nil_ptr. repeat split; lia.
    + intros Hs. destruct (sk_range0 _ _ Hs) as (? & ? & ?).
      repeat split; [assumption | lia | lia].
  - intros cn1 cn2 s. unfold sk_alloc.
    destruct (decide (cn1 = np)) as [->|H1]; destruct (decide (cn2 = np)) as [->|H2];
      intros E1 E2; try reflexivity.
    + inversion E1; subst. exfalso. eapply Hsd; eassumption.
    + inversion E2; subst. exfalso. eapply Hsd; eassumption.
    + eapply sk_inj0; eassumption.
  - intros s Hs. specialize (cl_range0 _ Hs). lia.
  - rewrite Hperm. apply NoDup_cons. split; assumption.
  - intros cn Hc. rewrite Hperm in Hc. unfold sk_alloc.
    destruct (decide (cn = np)) as [->|Hne]; [exists d; split; [reflexivity | assumption] |].
    apply elem_of_cons in Hc as [->|Hc]; [contradiction |]. apply own_open0. assumption.
  - intros cn s. unfold sk_alloc. destruct (decide (cn = np)) as [->|Hne].
    + intros _. left. rewrite Hperm. left.
    + intros Hs. destruct (all_done0 _ _ Hs) as [Hc|Hc]; [left | right; assumption].
      rewrite Hperm. right. assumption.
Qed.

(** A filler attaches its connection to [conns] and [idleConns]. *)
Lemma SafeK_attach sk np d cl xs ids cn cg att att' q hg hn :
  att ≡ₚ cn :: att' ->
  SafeK sk np d cl (Some xs) (Some ids) cg att q hg hn ->
  SafeK sk np d cl (Some (xs ++ [cn])) (Some (ids ++ [cn])) cg att' q hg hn.
Proof.
  intros Hp []. cbn [live_of] in *.
  assert (Hperm : xs ++ cg ++ att ≡ₚ cn :: xs ++ cg ++ att').
  { rewrite Hp. rewrite !app_assoc. rewrite <- Permutation_middle. reflexivity. }
  assert (Hperm' : (xs ++ [cn]) ++ cg ++ att' ≡ₚ xs ++ cg ++ att).
  { rewrite Hperm. rewrite <- app_assoc. cbn [app]. rewrite <- Permutation_middle.
    reflexivity. }
  pose proof own_nodup0 as Hnd. rewrite Hperm in Hnd. apply NoDup_cons in Hnd as [Hcn Hnd].
  assert (Hnx : cn ∉ xs) by (intros Hc; apply Hcn, elem_of_app; left; assumption).
  destruct (idle_ok0 xs eq_refl) as (ids' & Hids & Hndi & Hin). inversion Hids; subst ids'.
  constructor; try assumption; try (intros Hnone'; discriminate Hnone').
  - rewrite Hperm'. assumption.
  - intros x Hx. apply own_open0. rewrite <- Hperm'. assumption.
  - intros x s Hs. destruct (all_done0 _ _ Hs) as [Hc|Hc]; [left | right; assumption].
    rewrite Hperm'. assumption.
  - intros ys Hy. inversion Hy; subst ys. exists (ids ++ [cn]). split; [reflexivity |].
    split.
    + apply NoDup_app. split; [assumption |]. split; [| apply NoDup_singleton].
      intros x Hx Hx'. apply list_elem_of_singleton in Hx'. subst x.
      destruct (Hin _ Hx) as (? & _). contradiction.
    + intros x Hx. apply elem_of_app in Hx as [Hx|Hx].
      * destruct (Hin x Hx) as (? & ? & ?).
        split; [apply elem_of_app; left; assumption | tauto].
      * apply list_elem_of_singleton in Hx. subst x.
        split; [apply elem_of_app; right; left |].
        split; intros Hc; apply Hnx; apply (held_ok0 xs eq_refl); tauto.
  - intros ys Hy. inversion Hy; subst ys. intros x Hx.
    apply elem_of_app. left. apply (held_ok0 xs eq_refl). assumption.
Qed.

(** A connection that was pending (about to be closed or attached) is closed. *)
Lemma SafeK_pending_closed sk np d cl lv idl cn s cg cg' att att' q hg hn :
  cg ++ att ≡ₚ cn :: cg' ++ att' ->
  sk cn = Some s ->
  SafeK sk np d cl lv idl cg att q hg hn ->
  SafeK sk np d (cl ++ [s]) lv idl cg' att' q hg hn.
Proof.
  intros Hp Hs [].
  assert (Hperm : live_of lv ++ cg ++ att ≡ₚ cn :: live_of lv ++ cg' ++ att').
  { rewrite Hp. rewrite <- Permutation_middle. reflexivity. }
  pose proof own_nodup0 as Hnd. rewrite Hperm in Hnd. apply NoDup_cons in Hnd as [Hcn Hnd].
  assert (Hopen : s ∉ cl).
  { destruct (own_open0 cn) as (s' & Hs' & Hc); [rewrite Hperm; left | congruence]. }
  constructor; try assumption; try (intros Hnone'; discriminate Hnone').
  - apply NoDup_app. split; [assumption |]. split; [| apply NoDup_singleton].
    intros x Hx Hx'. apply list_elem_of_singleton in Hx'. subst x. contradiction.
  - intros x Hx. apply elem_of_app in Hx as [Hx|Hx]; [auto |].
    apply list_elem_of_singleton in Hx. subst x. eapply sk_range0; eassumption.
  - intros x Hx. destruct (own_open0 x) as (s' & Hs' & Hc).
    { rewrite Hperm. right. assumption. }
    exists s'. split; [assumption |]. intros Hin.
    apply elem_of_app in Hin as [Hin|Hin]; [contradiction |].
    apply list_elem_of_singleton in Hin. subst s'.
    assert (x = cn) by (eapply sk_inj0; eassumption). subst x. contradiction.
  - intros x s' Hs'. destruct (all_done0 x s' Hs') as [Hin|Hin].
    + rewrite Hperm in Hin. apply elem_of_cons in Hin as [->|Hin]; [| left; assumption].
      right. apply elem_of_app. right. apply list_elem_of_singleton. congruence.
    + right. apply elem_of_app. left. assumption.
Qed.

(** The prober closes the socket it has just dialled. *)
Lemma SafeK_probe sk np d cl lv idl cg att q hg hn :
  SafeK sk np d cl lv idl cg att q hg hn ->
  SafeK sk np (S d) (cl ++ [d]) lv idl cg att q hg hn.
Proof.
  intros HS. destruct (SafeK_fresh _ _ _ _ _ _ _ _ _ _ _ HS) as (Hnone & Hown & Hd & Hsd).
  destruct HS.
  constructor; try assumption; try (intros Hnone'; discriminate Hnone').
  - intros cn s Hs. destruct (sk_range0 _ _ Hs) as (? & ? & ?).
    repeat split; [assumption | lia | lia].
  - apply NoDup_app. split; [assumption |]. split; [| apply NoDup_singleton].
    intros x Hx Hx'. apply list_elem_of_singleton in Hx'. subst x. contradiction.
  - intros s Hs. apply elem_of_app in Hs as [Hs|Hs].
    + specialize (cl_range0 _ Hs). lia.
    + apply list_elem_of_singleton in Hs. lia.
  - intros x Hx. destruct (own_open0 x Hx) as (s' & Hs' & Hc).
    exists s'. split; [assumption |]. intros Hin.
    apply elem_of_app in Hin as [Hin|Hin]; [contradiction |].
    apply list_elem_of_singleton in Hin. subst s'. eapply Hsd; eassumption.
  - intros x s Hs. destruct (all_done0 x s Hs) as [Hin|Hin]; [left; assumption |].
    right. apply elem_of_app. left. assumption.
Qed.

(** [Close] closes every connection of [conns]. *)
Lemma SafeK_shut sk np d cl xs idl cg att q hg hn :
  SafeK sk np d cl (Some xs) idl cg att q hg hn ->
  SafeK sk np d (cl ++ omap sk xs) None None cg att q hg hn.
Proof.
  intros []. cbn [live_of] in *.
  assert (Hsocks : forall s, s ∈ omap sk xs <-> exists x, x ∈ xs /\ sk x = Some s).
  { intros s. apply list_elem_of_omap. }
  assert (Hndx : NoDup xs) by (apply NoDup_app in own_nodup0; apply own_nodup0).
  assert (Hnds : NoDup (omap sk xs)).
  { clear -Hndx sk_inj0. induction xs as [|x xs IH]; [constructor |].
    apply NoDup_cons in Hndx as [Hx Hndx]. cbn [omap list_omap].
    destruct (sk x) as [s|] eqn:Hs; [| apply IH; assumption].
    apply NoDup_cons. split; [| apply IH; assumption].
    intros Hin. apply list_elem_of_omap in Hin as (y & Hy & Hsy).
    assert (y = x) by (eapply sk_inj0; eassumption). subst y. contradiction. }
  constructor; try assumption; try (intros Hnone'; discriminate Hnone').
  - apply NoDup_app. split; [assumption |]. split; [| assumption].
    intros s Hs Hs'. apply Hsocks in Hs' as (x & Hx & Hsx).
    destruct (own_open0 x) as (s' & Hs'' & Hc); [apply elem_of_app; left; assumption |].
    congruence.
  - intros s Hs. apply elem_of_app in Hs as [Hs|Hs]; [auto |].
    apply Hsocks in Hs as (x & Hx & Hsx). eapply sk_range0; eassumption.
  - cbn [live_of app]. apply NoDup_app in own_nodup0. apply own_nodup0.
  - cbn [live_of app]. intros x Hx.
    destruct (own_open0 x) as (s' & Hs' & Hc); [apply elem_of_app; right; assumption |].
    exists s'. split; [assumption |]. intros Hin.
    apply elem_of_app in Hin as [Hin|Hin]; [contradiction |].
    apply Hsocks in Hin as (y & Hy & Hsy).
    assert (y = x) by (eapply sk_inj0; eassumption). subst y.
    apply NoDup_app in own_nodup0 as (_ & Hdisj & _). exact (Hdisj x Hy Hx).
  - cbn [live_of app]. intros x s Hs. destruct (all_done0 x s Hs) as [Hin|Hin].
    + apply elem_of_app in Hin as [Hin|Hin]; [| left; assumption].
      right. apply elem_of_app. right. apply Hsocks. eauto.
    + right. apply elem_of_app. left. assumption.
  - intros ys Hy. discriminate Hy.
  - intros ys Hy. discriminate Hy.
  - reflexivity.
Qed.

(** *** The components of the invariant in the worlds that the methods leave *)

Lemma closing_of_app gs gs' : closing_of (gs ++ gs') = closing_of gs ++ closing_of gs'.
Proof. apply omap_app. Qed.

Lemma attaching_of_app gs gs' :
  attaching_of (gs ++ gs') = attaching_of gs ++ attaching_of gs'.
Proof. apply omap_app. Qed.

Lemma closing_of_fillers k : closing_of (replicate k GoFiller) = [].
Proof. induction k as [|k IH]; [reflexivity | exact IH]. Qed.

Lemma attaching_of_fillers k : attaching_of (replicate k GoFiller) = [].
Proof. induction k as [|k IH]; [reflexivity | exact IH]. Qed.

Ltac targets :=
  rewrite ?closing_of_app, ?attaching_of_app, ?closing_of_fillers, ?attaching_of_fillers,
    ?app_nil_r;
  cbn [closing_of attaching_of omap list_omap app].

Lemma same_base_refl w : same_base w w.
Proof. repeat split. Qed.

Lemma same_base_trans w1 w2 w3 : same_base w1 w2 -> same_base w2 w3 -> same_base w1 w3.
Proof.
  unfold same_base.
  intros (? & ? & ? & ? & ? & ? & ? & ? & ? & ?) (? & ? & ? & ? & ? & ? & ? & ? & ? & ?).
  repeat split; congruence.
Qed.

Lemma same_base_reserve k w : same_base w (reserve_n k w).
Proof.
  unfold same_base. simpl_steps. targets. repeat split.
Qed.

Lemma Safe_of_components hg hn w sk np d cl lv idl cg att q :
  SafeK sk np d cl lv idl cg att q hg hn ->
  (forall x, sock w x = sk x) ->
  nextPtr w = np -> dials w = d -> netClosed w = cl ->
  conns (pool w) = lv -> idleConns (pool w) = idl ->
  closing_of (goroutines w) = cg -> attaching_of (goroutines w) = att ->
  queue (pool w) = q ->
  dial_sane w ->
  Safe hg hn w.
Proof.
  intros HS Hsk <- <- <- <- <- <- <- <- Hd. split; [| exact Hd].
  eapply SafeK_ext; [exact Hsk | exact HS].
Qed.


(** A step that leaves the registry and the goroutines' targets alone. *)
Lemma Safe_base hg hn w w' :
  Safe hg hn w ->
  same_base w w' ->
  conns (pool w') = conns (pool w) ->
  idleConns (pool w') = idleConns (pool w) ->
  Z.of_nat (length hg) <= queue (pool w') ->
  Safe hg hn w'.
Proof.
  intros [HS Hd] (Hh & Hn & Hdl & Hcl & Hcfg & Hde & Hle & _ & Hcg & Hat) Hc Hi Hq.
  eapply Safe_of_components;
    [eapply SafeK_frame; [| | exact Hq | exact HS]; reflexivity | ..];
    try assumption; try reflexivity.
  - intros x. unfold sock. rewrite Hh. reflexivity.
  - unfold dial_sane in *. rewrite Hcfg, Hde, Hle. exact Hd.
Qed.


Lemma removeConn_view cn w xs xs' c :
  conns (pool w) = Some xs -> remove_first cn xs = Some xs' -> heap w !! cn = Some c ->
  exists w1, removeConn cn w = Returns tt w1
             /\ same_base w w1
             /\ conns (pool w1) = Some xs'
             /\ idleConns (pool w1) = idleConns (pool w)
             /\ queue (pool w1) = queue (pool w).
Proof.
  intros Hxs Hrem Hc. rewrite removeConn_eq, Hxs, Hrem, Hc.
  destruct (pooled c); eexists; (split; [reflexivity |]).
  - split; [| simpl_steps; repeat split].
    eapply same_base_trans; [| apply same_base_reserve].
    unfold same_base. simpl_steps. repeat split.
  - unfold same_base. simpl_world. repeat split.
Qed.

Lemma Safe_conn hg hn w cn :
  Safe hg hn w ->
  cn ∈ live_of (conns (pool w)) ++ closing_of (goroutines w) ++ attaching_of (goroutines w) ->
  exists c, heap w !! cn = Some c /\ sock w cn = Some (netConn c).
Proof.
  intros [HS _] Hin. destruct (own_open _ _ _ _ _ _ _ _ _ _ _ HS cn Hin) as (s & Hs & _).
  unfold sock in *. destruct (heap w !! cn) as [c|]; [| discriminate].
  exists c. split; reflexivity.
Qed.

Lemma Safe_conns_heap hg hn w xs cn :
  Safe hg hn w -> conns (pool w) = Some xs -> cn ∈ xs ->
  exists c, heap w !! cn = Some c.
Proof.
  intros HS Hxs Hin. destruct (Safe_conn hg hn w cn HS) as (c & Hc & _).
  - rewrite Hxs. cbn [live_of]. apply elem_of_app. left. exact Hin.
  - exists c. exact Hc.
Qed.

Lemma Safe_idle_conns hg hn w ids :
  Safe hg hn w -> idleConns (pool w) = Some ids ->
  exists xs, conns (pool w) = Some xs /\ NoDup ids
             /\ forall cn, cn ∈ ids -> (cn ∈ xs) /\ (cn ∉ hg) /\ (cn ∉ hn).
Proof.
  intros [HS _] Hids. destruct (conns (pool w)) as [xs|] eqn:Hxs.
  - destruct (idle_ok _ _ _ _ _ _ _ _ _ _ _ HS xs eq_refl) as (ids' & Hi & Hnd & Hall).
    rewrite Hids in Hi. inversion Hi; subst ids'. exists xs. auto.
  - rewrite (idle_none _ _ _ _ _ _ _ _ _ _ _ HS eq_refl) in Hids. discriminate Hids.
Qed.

Lemma Safe_held hg hn w xs cn :
  Safe hg hn w -> conns (pool w) = Some xs -> cn ∈ hg \/ cn ∈ hn ->
  (cn ∈ xs) /\ forall ids, idleConns (pool w) = Some ids -> cn ∉ ids.
Proof.
  intros HS Hxs Hin. pose proof HS as [HK _]. split.
  - exact (held_ok _ _ _ _ _ _ _ _ _ _ _ HK xs Hxs cn Hin).
  - intros ids Hids Hcn.
    destruct (Safe_idle_conns hg hn w ids HS Hids) as (xs' & _ & _ & Hall).
    destruct (Hall cn Hcn) as (_ & Hg & Hn). destruct Hin; contradiction.
Qed.

Lemma Safe_queue hg hn w : Safe hg hn w -> Z.of_nat (length hg) <= queue (pool w).
Proof. intros [HS _]. exact (proj2 (tickets _ _ _ _ _ _ _ _ _ _ _ HS)). Qed.

(** [popIdle] under the invariant: the connection it returns is registered,
    is no longer idle and is held by nobody. *)
Lemma Safe_popIdle hg hn w :
  Safe hg hn w ->
  post popIdle w
    (fun r w' => Safe hg hn w' /\ queue (pool w') = queue (pool w)
                 /\ (snd r = None -> fst r <> nil_ptr ->
                     exists xs, conns (pool w') = Some xs /\ (fst r ∈ xs)
                       /\ (forall ids, idleConns (pool w') = Some ids -> fst r ∉ ids)
                       /\ (fst r ∉ hg) /\ (fst r ∉ hn)))
    (fun _ => False).
Proof.
  intros HS. unfold post. rewrite popIdle_eq.
  assert (Hpop : Safe hg hn (count_pop w)).
  { eapply Safe_base; [exact HS | | reflexivity | reflexivity | apply (Safe_queue _ _ _ HS)].
    unfold same_base. simpl_steps. repeat split. }
  destruct (closed (pool w)).
  { split; [exact Hpop |]. split; [reflexivity |]. intros H; discriminate H. }
  destruct (idleConns (pool w)) as [ids|] eqn:Hids; [| exact I].
  destruct (Z.of_nat (length ids) =? 0).
  { split; [exact Hpop |]. split; [reflexivity |]. intros _ H. contradiction. }
  destruct (pop_choice (PoolFIFO (cfg (pool w))) ids) as [[cn|] rest] eqn:Hch.
  - destruct (Safe_idle_conns hg hn w ids HS Hids) as (xs & Hxs & Hnd & Hall).
    pose proof (pop_choice_perm _ _ _ _ Hch) as Hperm.
    destruct HS as [HK Hd]. rewrite Hxs, Hids in HK.
    destruct (SafeK_pop _ _ _ _ _ _ _ _ _ _ _ _ _ Hperm HK) as (HK' & Hin & Hnr & Hng & Hnn).
    split; [| split].
    + eapply Safe_of_components; [exact HK' | ..];
        try (simpl_steps; targets; reflexivity); try (simpl_steps; assumption).
    + simpl_steps. reflexivity.
    + intros _ _. exists xs. simpl_steps. repeat split; try assumption.
      intros ids' Hids'. inversion Hids'; subst. exact Hnr.
  - split; [| split; [simpl_steps; reflexivity | intros _ H; contradiction]].
    eapply Safe_base; [exact Hpop | apply same_base_reserve | ..];
      try (simpl_steps; reflexivity).
    simpl_steps. apply (Safe_queue _ _ _ HS).
Qed.

Lemma same_base_sane w w' : same_base w w' -> dial_sane w -> dial_sane w'.
Proof.
  intros (_ & _ & _ & _ & Hcfg & Hde & Hle & _) Hd.
  unfold dial_sane in *. rewrite Hcfg, Hde, Hle. exact Hd.
Qed.

Ltac same_base_names H :=
  destruct H as (Hb_heap & Hb_np & Hb_dials & Hb_cl & Hb_cfg & Hb_de & Hb_le
                 & Hb_closed & Hb_cg & Hb_att).

Ltac component :=
  first
    [ assumption
    | intros; unfold sock; simpl_steps; targets;
      repeat match goal with
             | H : _ = _ |- _ => rewrite H
             end;
      reflexivity ].

(** [removeConn] on a registered connection, under the invariant. *)
Lemma Safe_removeConn hg hn w xs cn :
  Safe hg hn w -> conns (pool w) = Some xs -> cn ∈ xs ->
  exists w1 xs',
    removeConn cn w = Returns tt w1
    /\ same_base w w1
    /\ conns (pool w1) = Some xs' /\ xs ≡ₚ cn :: xs'
    /\ idleConns (pool w1) = idleConns (pool w)
    /\ queue (pool w1) = queue (pool w).
Proof.
  intros HS Hxs Hin.
  destruct (remove_first_elem cn xs Hin) as [xs' Hrem].
  destruct (Safe_conns_heap hg hn w xs cn HS Hxs Hin) as [c Hc].
  destruct (removeConn_view cn w xs xs' c Hxs Hrem Hc) as (w1 & Hrun & Hb & Hcs & Hi & Hq).
  exists w1, xs'.
  split; [exact Hrun |]. split; [exact Hb |]. split; [exact Hcs |].
  split; [apply remove_first_perm; exact Hrem |]. split; assumption.
Qed.

(** A registered connection that is not idle has been unlinked from [conns]
    and handed to a closing goroutine. *)
Lemma Safe_evicted hg hn w wX cn xs xs' :
  Safe hg hn w ->
  conns (pool w) = Some xs -> xs ≡ₚ cn :: xs' ->
  (forall ids, idleConns (pool w) = Some ids -> cn ∉ ids) ->
  same_base w wX ->
  conns (pool wX) = Some xs' ->
  idleConns (pool wX) = idleConns (pool w) ->
  Z.of_nat (length (filter (fun x => x <> cn) hg)) <= queue (pool wX) ->
  Safe (filter (fun x => x <> cn) hg) (filter (fun x => x <> cn) hn)
       (go (GoCloseConn cn) wX).
Proof.
  intros [HK Hd] Hxs Hperm Hidle Hb Hcs Hi Hq.
  pose proof (same_base_sane _ _ Hb Hd) as Hd'. same_base_names Hb.
  rewrite Hxs in HK.
  eapply Safe_of_components;
    [eapply SafeK_evict; [exact Hperm | exact Hidle | exact Hq | exact HK] | ..].
  - intros x. unfold sock. simpl_steps. rewrite Hb_heap. reflexivity.
  - simpl_steps. assumption.
  - simpl_steps. assumption.
  - simpl_steps. assumption.
  - simpl_steps. assumption.
  - simpl_steps. assumption.
  - simpl_steps. targets. rewrite Hb_cg. reflexivity.
  - simpl_steps. targets. rewrite Hb_att. reflexivity.
  - simpl_steps. reflexivity.
  - exact Hd'.
Qed.

(** A registered connection that is not idle has been unlinked from [conns]
    and closed. *)
Lemma Safe_closed_now hg hn w wX cn c xs xs' :
  Safe hg hn w ->
  conns (pool w) = Some xs -> xs ≡ₚ cn :: xs' ->
  heap w !! cn = Some c ->
  (forall ids, idleConns (pool w) = Some ids -> cn ∉ ids) ->
  same_base w wX ->
  conns (pool wX) = Some xs' ->
  idleConns (pool wX) = idleConns (pool w) ->
  Z.of_nat (length (filter (fun x => x <> cn) hg)) <= queue (pool wX) ->
  Safe (filter (fun x => x <> cn) hg) (filter (fun x => x <> cn) hn)
       (set_netClosed (netClosed wX ++ [netConn c]) wX).
Proof.
  intros [HK Hd] Hxs Hperm Hc Hidle Hb Hcs Hi Hq.
  pose proof (same_base_sane _ _ Hb Hd) as Hd'. same_base_names Hb.
  rewrite Hxs in HK.
  assert (Hsk : sock w cn = Some (netConn c)) by (unfold sock; rewrite Hc; reflexivity).
  eapply Safe_of_components;
    [eapply SafeK_close; [exact Hperm | exact Hsk | exact Hidle | exact Hq | exact HK] | ..].
  - intros x. unfold sock. simpl_steps. rewrite Hb_heap. reflexivity.
  - simpl_steps. assumption.
  - simpl_steps. assumption.
  - simpl_steps. rewrite Hb_cl. reflexivity.
  - simpl_steps. assumption.
  - simpl_steps. assumption.
  - simpl_steps. assumption.
  - simpl_steps. assumption.
  - simpl_steps. reflexivity.
  - exact Hd'.
Qed.

(** Writing to the fields of a connection other than its socket. *)
Lemma Safe_heap_update hg hn w cn c c' :
  Safe hg hn w -> heap w !! cn = Some c -> netConn c' = netConn c ->
  Safe hg hn (set_heap (<[cn := c']> (heap w)) w).
Proof.
  intros [HK Hd] Hc Hnet. split; [| exact Hd].
  eapply SafeK_ext; [| exact HK].
  intros x. unfold sock. simpl_world.
  destruct (decide (x = cn)) as [->|Hne].
  - rewrite lookup_insert_eq. unfold ptr in *. rewrite Hc. cbn.
    rewrite Hnet. reflexivity.
  - rewrite lookup_insert_ne by congruence. reflexivity.
Qed.

Lemma Safe_take hg hn w cn xs :
  Safe hg hn w -> conns (pool w) = Some xs -> cn ∈ xs ->
  (forall ids, idleConns (pool w) = Some ids -> cn ∉ ids) ->
  cn ∉ hg -> cn ∉ hn ->
  Z.of_nat (length hg) + 1 <= queue (pool w) ->
  Safe (cn :: hg) hn w.
Proof.
  intros HS Hxs Hin Hidle Hg Hn Hq. pose proof HS as [HK Hd].
  split; [| exact Hd]. rewrite Hxs in *.
  destruct (idle_ok _ _ _ _ _ _ _ _ _ _ _ HK xs eq_refl) as (ids & Hi & _).
  rewrite Hi in *.
  eapply SafeK_take; [exact Hin | exact (Hidle ids eq_refl) | exact Hg | exact Hn
                     | exact Hq | exact HK].
Qed.

Lemma Safe_take_new hg hn w cn xs :
  Safe hg hn w -> conns (pool w) = Some xs -> cn ∈ xs ->
  (forall ids, idleConns (pool w) = Some ids -> cn ∉ ids) ->
  Safe hg (cn :: hn) w.
Proof.
  intros HS Hxs Hin Hidle. pose proof HS as [HK Hd].
  split; [| exact Hd]. rewrite Hxs in *.
  destruct (idle_ok _ _ _ _ _ _ _ _ _ _ _ HK xs eq_refl) as (ids & Hi & _).
  rewrite Hi in *.
  eapply SafeK_take_new; [exact Hin | exact (Hidle ids eq_refl) | exact HK].
Qed.

Lemma same_base_stats f w : same_base w (with_pool (fun p => set_stats (f p) p) w).
Proof. unfold same_base. simpl_world. repeat split. Qed.

Lemma same_base_queue q w : same_base w (with_pool (set_queue q) w).
Proof. unfold same_base. simpl_world. repeat split. Qed.

Lemma Safe_AsyncCloseConn hg hn w cn xs :
  Safe hg hn w -> conns (pool w) = Some xs -> cn ∈ xs ->
  (forall ids, idleConns (pool w) = Some ids -> cn ∉ ids) ->
  cn ∉ hg -> cn ∉ hn ->
  exists w', AsyncCloseConn cn w = Returns tt w'
             /\ Safe hg hn w' /\ queue (pool w') = queue (pool w).
Proof.
  intros HS Hxs Hin Hidle Hg Hn. rewrite AsyncCloseConn_eq.
  destruct (Safe_removeConn hg hn w xs cn HS Hxs Hin)
    as (w1 & xs' & Hrun & Hb & Hcs & Hperm & Hi & Hq).
  rewrite Hrun. eexists. split; [reflexivity |]. split.
  - rewrite <- (filter_ne_not_in cn hg Hg) at 1.
    rewrite <- (filter_ne_not_in cn hn Hn) at 1.
    eapply (Safe_evicted hg hn w (count_stale 1 w1) cn xs xs');
      try eassumption.
    rewrite (filter_ne_not_in cn hg Hg). unfold count_stale. simpl_world.
    rewrite Hq. apply (Safe_queue _ _ _ HS).
  - simpl_steps. exact Hq.
Qed.

Lemma Safe_Get_body hg hn i w :
  Safe hg hn w ->
  post (Get_body i) w
    (fun r w' => Safe hg hn w' /\ queue (pool w') = queue (pool w)
                 /\ match r with
                    | inr (Some (cn, None)) => unheld hg hn w' cn
                    | _ => True
                    end)
    (fun _ => False).
Proof.
  intros HS. unfold post. rewrite Get_body_eq.
  pose proof (Safe_popIdle hg hn w HS) as Hp. unfold post in Hp.
  destruct (popIdle w) as [[cn [e|]] w1| | |]; try exact I; try contradiction.
  { destruct Hp as (HS1 & Hq1 & _). auto. }
  destruct Hp as (HS1 & Hq1 & Hcn). cbn [fst snd] in Hcn.
  destruct (decide (cn = nil_ptr)) as [|Hne].
  { destruct (3 <=? AddInt32 i 1); auto. }
  destruct (Hcn eq_refl Hne) as (xs & Hxs & Hin & Hidle & Hg & Hn).
  destruct (heap w1 !! cn) as [c|] eqn:Hc; [| exact I].
  destruct (healthy c w1).
  - assert (HSt : Safe hg hn (touch cn c w1)).
    { apply (Safe_heap_update hg hn w1 cn c); [exact HS1 | exact Hc | reflexivity]. }
    split; [| split].
    + eapply Safe_base; [exact HSt | | reflexivity | reflexivity |].
      * unfold same_base. simpl_steps. repeat split.
      * simpl_steps. apply (Safe_queue _ _ _ HS1).
    + simpl_steps. exact Hq1.
    + exists xs. simpl_steps. repeat split; assumption.
  - destruct (Safe_AsyncCloseConn hg hn w1 cn xs HS1 Hxs Hin Hidle Hg Hn)
      as (w' & Hrun & HS' & Hq').
    rewrite AsyncCloseConn_eq in Hrun.
    destruct (removeConn cn w1) as [[] w2| | |]; try discriminate Hrun.
    inversion Hrun; subst w'. split; [exact HS' |]. split; [congruence | exact I].
Qed.

Lemma Safe_Get_loop hg hn fuel i w :
  Safe hg hn w ->
  post (Get_loop fuel i) w
    (fun r w' => Safe hg hn w' /\ queue (pool w') = queue (pool w)
                 /\ match r with
                    | Some (cn, None) => unheld hg hn w' cn
                    | _ => True
                    end)
    (fun _ => False).
Proof.
  intros HS. unfold Get_loop.
  apply loop_post with
    (Inv := fun (_ : Z) w' => Safe hg hn w' /\ queue (pool w') = queue (pool w)).
  2: { split; [exact HS | reflexivity]. }
  intros j w1 [HS1 Hq1].
  eapply post_mono; [apply (Safe_Get_body hg hn j w1 HS1) | | auto].
  intros [j'|[[cn [e|]]|]] w2 (HS2 & Hq2 & Hr);
    (split; [exact HS2 |]); try (split; [| exact Hr]); congruence.
Qed.

(** *** Dialing under the invariant *)

Lemma circuit_open_error w :
  dial_sane w -> circuit_open w = true -> lastDialError (pool w) <> None.
Proof.
  intros [Hsize Herr] Hopen. unfold circuit_open in Hopen.
  apply Herr. apply Z.leb_le in Hopen. lia.
Qed.

Lemma Safe_dial_failed hg hn err w :
  Safe hg hn w -> Safe hg hn (dial_failed err w).
Proof.
  intros [HK [Hsize Herr]].
  assert (HK' : SafeK (sock w) (nextPtr w) (S (dials w)) (netClosed w)
                      (conns (pool w)) (idleConns (pool w))
                      (closing_of (goroutines w)) (attaching_of (goroutines w))
                      (queue (pool w)) hg hn).
  { eapply SafeK_frame; [| | | exact HK]; [lia | lia |].
    exact (proj2 (tickets _ _ _ _ _ _ _ _ _ _ _ HK)). }
  unfold dial_failed.
  destruct (AddUint32 (dialErrorsNum (pool w)) 1 =? uint32 (PoolSize (cfg (pool w))));
    (split; [| unfold dial_sane; simpl_steps; split; [exact Hsize | intros _; discriminate]]);
    (eapply Safe_of_components; [exact HK' | ..]);
    try (simpl_steps; targets; reflexivity);
    try (intros x; unfold sock; simpl_steps; reflexivity).
  all: unfold dial_sane; simpl_steps; split; [exact Hsize | intros _; discriminate].
Qed.

(** The new connection is registered in [conns]. *)
Lemma Safe_pushed hg hn pooled w xs :
  Safe hg hn w -> conns (pool w) = Some xs ->
  Safe hg hn (push_conn (nextPtr w) xs (dial_ok pooled w))
  /\ unheld hg hn (push_conn (nextPtr w) xs (dial_ok pooled w)) (nextPtr w).
Proof.
  intros HS Hxs. pose proof HS as [HK Hd]. rewrite Hxs in HK.
  destruct (idle_ok _ _ _ _ _ _ _ _ _ _ _ HK xs eq_refl) as (ids & Hi & _).
  rewrite Hi in HK.
  destruct (SafeK_alloc_live _ _ _ _ _ _ _ _ _ _ _ HK) as (HK' & Hni & Hng & Hnn).
  split.
  - eapply Safe_of_components; [exact HK' | ..];
      try (unfold push_conn, dial_ok; simpl_steps; targets; reflexivity).
    + intros x. unfold sock, sk_alloc, push_conn, dial_ok. simpl_world.
      destruct (decide (x = nextPtr w)) as [->|Hne].
      * rewrite lookup_insert_eq. reflexivity.
      * rewrite lookup_insert_ne by congruence. reflexivity.
    + unfold push_conn, dial_ok. simpl_steps. exact Hi.
    + exact Hd.
  - exists (xs ++ [nextPtr w]). unfold push_conn, dial_ok. simpl_world.
    split; [reflexivity |]. split; [apply elem_of_app; right; left |].
    split; [| split; assumption].
    intros ids' Hids'. rewrite Hi in Hids'. inversion Hids'; subst. exact Hni.
Qed.

Lemma Safe_newConn hg hn pooled w :
  Safe hg hn w ->
  post (newConn pooled) w
    (fun r w' => queue (pool w') = queue (pool w)
                 /\ match r with
                    | (cn, None) => Safe hg hn w' /\ unheld hg hn w' cn
                    | (_, Some _) => Safe hg hn w'
                    end)
    (fun _ => False).
Proof.
  intros HS. unfold post. rewrite newConn_eq, dialConn_eq.
  destruct (closed (pool w)) eqn:Hcl; [split; [reflexivity | exact HS] |].
  destruct (circuit_open w) eqn:Hco.
  { pose proof (circuit_open_error w (proj2 HS) Hco) as He.
    destruct (lastDialError (pool w)); [split; [reflexivity | exact HS] | contradiction]. }
  destruct (Dialer (cfg (pool w)) (dials w)) as [err|].
  { split; [| apply Safe_dial_failed; exact HS].
    unfold dial_failed. destruct (_ =? _); reflexivity. }
  change (closed (pool (dial_ok pooled w))) with (closed (pool w)). rewrite Hcl.
  change (conns (pool (dial_ok pooled w))) with (conns (pool w)).
  destruct (conns (pool w)) as [xs|] eqn:Hxs; [| exact I].
  destruct (Safe_pushed hg hn pooled w xs HS Hxs) as [HSp Hun].
  destruct pooled; [| split; [reflexivity | split; assumption]].
  destruct (PoolSize (cfg (pool (dial_ok true w))) <=? poolSize (pool (dial_ok true w))).
  - destruct (heap (dial_ok true w) !! nextPtr w) as [c|] eqn:Hc; [| exact I].
    split; [reflexivity |]. split.
    + apply (Safe_heap_update hg hn (push_conn (nextPtr w) xs (dial_ok true w))
               (nextPtr w) c); [exact HSp | exact Hc | reflexivity].
    + destruct Hun as (xs0 & H1 & H2 & H3 & H4 & H5). exists xs0.
      repeat split; assumption.
  - split; [reflexivity |]. split.
    + eapply Safe_base; [exact HSp | | reflexivity | reflexivity |].
      * unfold same_base. simpl_world. repeat split.
      * simpl_world. apply (Safe_queue _ _ _ HS).
    + destruct Hun as (xs0 & H1 & H2 & H3 & H4 & H5). exists xs0.
      repeat split; assumption.
Qed.

Lemma Safe_waitTurn hg hn ctx wk w :
  Safe hg hn w ->
  post (waitTurn ctx wk) w
    (fun err w' => Safe hg hn w'
                   /\ match err with
                      | None => queue (pool w') = queue (pool w) + 1
                      | Some _ => queue (pool w') = queue (pool w)
                      end)
    (Safe hg hn).
Proof.
  intros HS. pose proof (Safe_queue _ _ _ HS) as Hq.
  assert (Hturn : Safe hg hn (with_pool (set_queue (queue (pool w) + 1)) w)).
  { eapply Safe_base; [exact HS | apply same_base_queue | reflexivity | reflexivity |].
    simpl_world. lia. }
  unfold post, waitTurn, waitTurn_select, getTurn, add_Timeouts. unfold_monad.
  destruct ctx as [e|]; [split; [exact HS | reflexivity] |].
  destruct (queue (pool w) <? PoolSize (cfg (pool w))) eqn:Hfree.
  { rewrite Hfree. split; [exact Hturn | reflexivity]. }
  destruct wk.
  - split; [exact HS | reflexivity].
  - rewrite Hfree. exact HS.
  - split; [| reflexivity].
    eapply Safe_base; [exact HS | | reflexivity | reflexivity | exact Hq].
    unfold same_base. simpl_world. repeat split.
Qed.

(** [Get] under the invariant: the connection it returns becomes held. *)
Lemma Safe_Get hg hn fuel ctx wk w :
  Safe hg hn w ->
  post (Get fuel ctx wk) w
    (fun r w' => Safe (match snd (fst r) with
                       | None => fst (fst r) :: hg
                       | Some _ => hg
                       end) hn w')
    (Safe hg hn).
Proof.
  intros HS. unfold Get. apply post_bind. unfold post at 1, gets.
  destruct (closed (pool w)); [exact HS |].
  apply post_bind.
  eapply post_mono; [apply (Safe_waitTurn hg hn ctx wk w HS) | | auto].
  intros [e|] w1 [HS1 Hq1]; [exact HS1 |].
  apply post_bind.
  eapply post_mono; [apply (Safe_Get_loop hg hn fuel 0 w1 HS1) | | intros ? []].
  pose proof (Safe_queue _ _ _ HS) as Hq.
  intros [[cn [e|]]|] w2 (HS2 & Hq2 & Hr).
  - exact HS2.
  - destruct Hr as (xs & Hxs & Hin & Hidle & Hg & Hn). cbn [fst snd].
    unfold post, ret.
    eapply Safe_take; try eassumption. lia.
  - unfold add_Misses. apply post_bind. unfold post at 1, modify.
    assert (HS3 : Safe hg hn (count_miss w2)).
    { eapply Safe_base; [exact HS2 | | reflexivity | reflexivity |].
      - unfold same_base. simpl_steps. repeat split.
      - simpl_steps. apply (Safe_queue _ _ _ HS2). }
    apply post_bind.
    eapply post_mono; [apply (Safe_newConn hg hn true _ HS3) | | intros ? []].
    intros [newcn [e|]] w4 [Hq4 H4].
    + apply post_bind. unfold post at 1, freeTurn.
      simpl_steps.
      destruct (Z.ltb_spec 0 (queue (pool w4))) as [_|Hle]; [| lia].
      unfold post, ret. cbn [fst snd].
      eapply Safe_base; [exact H4 | apply same_base_queue | reflexivity | reflexivity |].
      simpl_world. lia.
    + destruct H4 as (HS4 & xs & Hxs & Hin & Hidle & Hg & Hn).
      unfold post, ret. cbn [fst snd]. simpl_steps.
      eapply Safe_take; try eassumption. lia.
Qed.

(** *** Giving a connection back *)

Lemma held_queue hg hn w cn :
  Safe hg hn w -> cn ∈ hg ->
  Z.of_nat (length (filter (fun x => x <> cn) hg)) <= queue (pool w) - 1.
Proof.
  intros [HK _] Hin. destruct (tickets _ _ _ _ _ _ _ _ _ _ _ HK) as [Hnd Hq].
  rewrite (filter_ne_length cn hg Hnd Hin) in Hq. lia.
Qed.

Lemma Safe_AsyncRemove hg hn ctx cn reason w :
  Safe hg hn w -> cn ∈ hg ->
  post (AsyncRemove ctx cn reason) w
    (fun _ w' => Safe (filter (fun x => x <> cn) hg) (filter (fun x => x <> cn) hn) w')
    (fun _ => False).
Proof.
  intros HS Hin. unfold post. rewrite AsyncRemove_eq.
  destruct (conns (pool w)) as [xs|] eqn:Hxs.
  2: { rewrite removeConn_eq, Hxs. exact I. }
  destruct (Safe_held hg hn w xs cn HS Hxs (or_introl Hin)) as [Hcn Hidle].
  destruct (Safe_removeConn hg hn w xs cn HS Hxs Hcn)
    as (w1 & xs' & Hrun & Hb & Hcs & Hperm & Hi & Hq).
  rewrite Hrun. pose proof (held_queue hg hn w cn HS Hin) as Hlen.
  destruct (Z.ltb_spec 0 (queue (pool w1))) as [_|Hle]; [| lia].
  eapply (Safe_evicted hg hn w (take_turn_back w1) cn xs xs'); try eassumption.
  unfold take_turn_back. simpl_world. lia.
Qed.

Lemma Safe_Put hg hn ctx cn w :
  Safe hg hn w -> cn ∈ hg ->
  post (Put ctx cn) w
    (fun _ w' => Safe (filter (fun x => x <> cn) hg) (filter (fun x => x <> cn) hn) w')
    (fun _ => False).
Proof.
  intros HS Hin. unfold post. rewrite Put_eq.
  destruct (heap w !! cn) as [c|]; [| exact I].
  destruct (0 <? rdBuffered c);
    [apply (Safe_AsyncRemove hg hn ctx cn (Some BadConnError) w HS Hin) |].
  destruct (negb (pooled c)); [apply (Safe_AsyncRemove hg hn ctx cn None w HS Hin) |].
  pose proof (held_queue hg hn w cn HS Hin) as Hlen.
  destruct (idle_room w).
  - destruct (idleConns (pool w)) as [ids|] eqn:Hids; [| exact I].
    destruct (Safe_idle_conns hg hn w ids HS Hids) as (xs & Hxs & _).
    destruct (Z.ltb_spec 0 (queue (pool w))) as [_|Hle]; [| lia].
    destruct HS as [HK Hd]. rewrite Hxs, Hids in HK.
    eapply Safe_of_components; [exact (SafeK_push_idle _ _ _ _ _ _ _ _ _ _ _ _ Hin HK) | ..];
      try (unfold take_turn_back, push_idle; simpl_steps; targets; reflexivity).
    + unfold take_turn_back, push_idle. simpl_steps. exact Hxs.
    + exact Hd.
  - pose proof (Safe_AsyncRemove hg hn ctx cn None w HS Hin) as H.
    unfold post in H. rewrite AsyncRemove_eq in H. exact H.
Qed.

Lemma Safe_Remove hg hn ctx cn reason w :
  Safe hg hn w -> cn ∈ hg ->
  post (Remove ctx cn reason) w
    (fun _ w' => Safe (filter (fun x => x <> cn) hg) (filter (fun x => x <> cn) hn) w')
    (fun _ => False).
Proof.
  intros HS Hin. unfold post, Remove, removeConnWithLock, freeTurn. unfold_monad.
  destruct (conns (pool w)) as [xs|] eqn:Hxs.
  2: { rewrite removeConn_eq, Hxs. exact I. }
  destruct (Safe_held hg hn w xs cn HS Hxs (or_introl Hin)) as [Hcn Hidle].
  destruct (Safe_conns_heap hg hn w xs cn HS Hxs Hcn) as [c Hc].
  destruct (Safe_removeConn hg hn w xs cn HS Hxs Hcn)
    as (w1 & xs' & Hrun & Hb & Hcs & Hperm & Hi & Hq).
  rewrite Hrun. pose proof (held_queue hg hn w cn HS Hin) as Hlen.
  destruct (Z.ltb_spec 0 (queue (pool w1))) as [_|Hle]; [| lia].
  rewrite closeConn_eq. simpl_world.
  assert (Hc1 : heap w1 !! cn = Some c).
  { destruct Hb as (Hh & _). rewrite Hh. exact Hc. }
  rewrite Hc1.
  apply (Safe_closed_now hg hn w (with_pool (set_queue (queue (pool w1) - 1)) w1)
           cn c xs xs'); try assumption.
  simpl_world. lia.
Qed.

Lemma Safe_CloseConn hg hn cn w :
  Safe hg hn w -> cn ∈ hg \/ cn ∈ hn ->
  post (CloseConn cn) w
    (fun _ w' => Safe (filter (fun x => x <> cn) hg) (filter (fun x => x <> cn) hn) w')
    (fun _ => False).
Proof.
  intros HS Hin. unfold post, CloseConn, removeConnWithLock, add_StaleConns. unfold_monad.
  destruct (conns (pool w)) as [xs|] eqn:Hxs.
  2: { rewrite removeConn_eq, Hxs. exact I. }
  destruct (Safe_held hg hn w xs cn HS Hxs Hin) as [Hcn Hidle].
  destruct (Safe_conns_heap hg hn w xs cn HS Hxs Hcn) as [c Hc].
  destruct (Safe_removeConn hg hn w xs cn HS Hxs Hcn)
    as (w1 & xs' & Hrun & Hb & Hcs & Hperm & Hi & Hq).
  rewrite Hrun. rewrite closeConn_eq. simpl_world.
  assert (Hc1 : heap w1 !! cn = Some c).
  { destruct Hb as (Hh & _). rewrite Hh. exact Hc. }
  rewrite Hc1.
  apply (Safe_closed_now hg hn w (count_stale 1 w1) cn c xs xs'); try assumption.
  simpl_steps. rewrite Hq.
  pose proof (Safe_queue _ _ _ HS). pose proof (filter_ne_length_le cn hg). lia.
Qed.

Lemma Safe_NewConn hg hn ctx w :
  Safe hg hn w ->
  post (NewConn ctx) w
    (fun r w' => Safe hg (match snd r with
                          | None => fst r :: hn
                          | Some _ => hn
                          end) w')
    (fun _ => False).
Proof.
  intros HS. unfold NewConn.
  eapply post_mono; [apply (Safe_newConn hg hn false w HS) | | auto].
  intros [cn [e|]] w' [_ H]; cbn [fst snd]; [exact H |].
  destruct H as (HS' & xs & Hxs & Hin & Hidle & _).
  eapply Safe_take_new; eassumption.
Qed.

Lemma Safe_observers hg hn w :
  Safe hg hn w ->
  post Len w (fun _ w' => Safe hg hn w') (fun _ => False)
  /\ post IdleLen w (fun _ w' => Safe hg hn w') (fun _ => False)
  /\ post ConnPool_Stats w (fun _ w' => Safe hg hn w') (fun _ => False).
Proof.
  intros HS. unfold post, ConnPool_Stats, Len, IdleLen, List_Len. unfold_monad.
  destruct (conns (pool w)); (split; [| split]); first [exact HS | exact I].
Qed.

Lemma addIdleConn_attach_eq cn w :
  addIdleConn_attach cn w =
  if closed (pool w) then
    match closeConn cn w with
    | Returns _ w1 => Returns (Some ErrClosed) w1
    | Panics => Panics
    | Blocks w1 => Blocks w1
    | OutOfFuel => OutOfFuel
    end
  else
    match conns (pool w), idleConns (pool w) with
    | Some xs, Some ids =>
        Returns None (with_pool (fun p => set_idleConns (Some (ids ++ [cn]))
                                            (set_conns (Some (xs ++ [cn])) p)) w)
    | _, _ => Panics
    end.
Proof.
  unfold addIdleConn_attach, List_PushBack, closeConn. unfold_monad.
  destruct (closed (pool w)).
  { destruct (Conn_Close cn w); reflexivity. }
  destruct (conns (pool w)) as [xs|]; [| reflexivity]. simpl_world.
  destruct (idleConns (pool w)) as [ids|]; reflexivity.
Qed.

(** *** Closing the pool and reaping *)

Lemma Safe_Close hg hn w :
  Safe hg hn w -> post Close w (fun _ w' => Safe hg hn w') (fun _ => False).
Proof.
  intros HS. unfold post, Close, List_elements. unfold_monad.
  destruct (_closed (pool w) =? 0); [| exact HS].
  simpl_world. destruct (conns (pool w)) as [xs|] eqn:Hxs; [| exact I].
  destruct (Filter_loop_all xs (with_pool (set_closed 1) w) None) as [r Hr].
  { simpl_world. intros cn Hcn.
    destruct (Safe_conns_heap hg hn w xs cn HS Hxs Hcn) as [c Hc]. exists c. exact Hc. }
  rewrite Hr. simpl_world.
  destruct HS as [HK Hd]. rewrite Hxs in HK.
  eapply Safe_of_components; [exact (SafeK_shut _ _ _ _ _ _ _ _ _ _ _ HK) | ..];
    try (simpl_world; reflexivity).
  exact Hd.
Qed.

Lemma Safe_not_nil hg hn w xs cn :
  Safe hg hn w -> conns (pool w) = Some xs -> cn ∈ xs -> cn <> nil_ptr.
Proof.
  intros HS Hxs Hin. destruct (Safe_conn hg hn w cn HS) as (c & Hc & Hs).
  - rewrite Hxs. cbn [live_of]. apply elem_of_app. left. exact Hin.
  - destruct HS as [HK _].
    exact (proj1 (sk_range _ _ _ _ _ _ _ _ _ _ _ HK cn _ Hs)).
Qed.

Lemma Safe_ReapStaleConns_body hg hn n w :
  Safe hg hn w ->
  post (ReapStaleConns_body n) w (fun _ w' => Safe hg hn w') (Safe hg hn).
Proof.
  intros HS. pose proof (Safe_queue _ _ _ HS) as Hq.
  unfold post, ReapStaleConns_body, getTurn. unfold mbind at 1. unfold M_bind, bind.
  destruct (queue (pool w) <? PoolSize (cfg (pool w))); [| exact HS].
  set (w1 := with_pool (set_queue (queue (pool w) + 1)) w).
  assert (HS1 : Safe hg hn w1).
  { eapply Safe_base; [exact HS | apply same_base_queue | reflexivity | reflexivity |].
    unfold w1. simpl_world. lia. }
  assert (Hq1 : queue (pool w1) = queue (pool w) + 1) by reflexivity.
  clearbody w1.
  assert (Hstop : match (freeTurn;; (if decide (nil_ptr = nil_ptr) then ret (inr n)
                                     else closeConn nil_ptr;; ret (inl (n + 1)))) w1 with
                  | Returns _ w' => Safe hg hn w'
                  | Blocks w' => Safe hg hn w'
                  | _ => True
                  end).
  { unfold freeTurn. unfold mbind at 1. unfold M_bind, bind.
    destruct (0 <? queue (pool w1)); [| exact HS1].
    destruct (decide (nil_ptr = nil_ptr)) as [_|Hn]; [| contradiction]. unfold ret.
    eapply Safe_base; [exact HS1 | apply same_base_queue | reflexivity | reflexivity |].
    simpl_world. lia. }
  unfold mbind at 1. unfold M_bind, bind. rewrite reapStaleConn_eq.
  destruct (idleConns (pool w1)) as [[|cn rest]|] eqn:Hids; [exact Hstop | | exact I].
  destruct (heap w1 !! cn) as [c|] eqn:Hc; [| exact I].
  destruct (healthy c w1); [exact Hstop |].
  destruct (Safe_idle_conns hg hn w1 (cn :: rest) HS1 Hids) as (xs & Hxs & Hnd & Hall).
  set (w2 := with_pool (fun p => set_idleConnsLen (idleConnsLen p - 1)
                                   (set_idleConns (Some rest) p)) w1).
  assert (Hpop : Safe hg hn w2 /\ (cn ∈ xs) /\ (cn ∉ rest) /\ (cn ∉ hg) /\ (cn ∉ hn)).
  { pose proof HS1 as [HK Hd]. rewrite Hxs, Hids in HK.
    destruct (SafeK_pop _ _ _ _ _ _ cn rest _ _ _ _ _ (reflexivity _) HK)
      as (HK' & H1 & H2 & H3 & H4).
    split; [| auto].
    eapply Safe_of_components; [exact HK' | ..];
      try (unfold w2; simpl_world; reflexivity); try exact Hd.
    unfold w2. simpl_world. exact Hxs. }
  destruct Hpop as (HS2 & Hin & Hnr & Hng & Hnn).
  assert (Hxs2 : conns (pool w2) = Some xs) by exact Hxs.
  assert (Hids2 : idleConns (pool w2) = Some rest) by reflexivity.
  assert (Hq2 : queue (pool w2) = queue (pool w1)) by reflexivity.
  assert (Hc2 : heap w2 !! cn = Some c) by exact Hc.
  clearbody w2.
  destruct (Safe_removeConn hg hn w2 xs cn HS2 Hxs2 Hin)
    as (w3 & xs' & Hrun & Hb & Hcs & Hperm & Hi & Hq3).
  rewrite Hrun. unfold freeTurn. unfold mbind at 1. unfold M_bind, bind.
  destruct (Z.ltb_spec 0 (queue (pool w3))) as [_|Hle]; [| lia].
  destruct (decide (cn = nil_ptr)) as [Hnil|_].
  { exfalso. exact (Safe_not_nil hg hn w2 xs cn HS2 Hxs2 Hin Hnil). }
  unfold mbind, M_bind, bind. rewrite closeConn_eq. simpl_world.
  assert (Hc3 : heap w3 !! cn = Some c).
  { destruct Hb as (Hh & _). rewrite Hh. exact Hc2. }
  rewrite Hc3. unfold ret.
  rewrite <- (filter_ne_not_in cn hg Hng) at 1.
  rewrite <- (filter_ne_not_in cn hn Hnn) at 1.
  apply (Safe_closed_now hg hn w2 (with_pool (set_queue (queue (pool w3) - 1)) w3)
           cn c xs xs'); try assumption.
  - intros ids Hids'. rewrite Hids2 in Hids'. inversion Hids'; subst. exact Hnr.
  - rewrite (filter_ne_not_in cn hg Hng). simpl_world. lia.
Qed.

Lemma Safe_ReapStaleConns hg hn fuel w :
  Safe hg hn w ->
  post (ReapStaleConns fuel) w (fun _ w' => Safe hg hn w') (Safe hg hn).
Proof.
  intros HS. unfold ReapStaleConns, ReapStaleConns_loop. apply post_bind.
  eapply post_mono;
    [apply (loop_post ReapStaleConns_body (fun _ w' => Safe hg hn w')
              (fun _ w' => Safe hg hn w') (Safe hg hn)) | | auto].
  - intros n w1 HS1.
    eapply post_mono; [apply (Safe_ReapStaleConns_body hg hn n w1 HS1) | | auto].
    intros [?|?] w2 H; exact H.
  - exact HS.
  - intros n w1 HS1. unfold add_StaleConns. apply post_bind.
    unfold post at 1, modify. unfold post, mret, M_ret, ret.
    eapply Safe_base; [exact HS1 | | reflexivity | reflexivity |].
    + unfold same_base. simpl_world. repeat split.
    + simpl_world. apply (Safe_queue _ _ _ HS1).
Qed.

Lemma Safe_reaper_tick hg hn fuel w :
  Safe hg hn w ->
  post (reaper_tick fuel) w (fun _ w' => Safe hg hn w') (Safe hg hn).
Proof.
  intros HS. unfold reaper_tick. apply post_bind. unfold post at 1, gets.
  destruct (closed (pool w)); [exact HS |].
  apply post_bind.
  eapply post_mono; [apply (Safe_ReapStaleConns hg hn fuel w HS) | | auto].
  intros r w' H. exact H.
Qed.

(** *** The goroutines *)

Lemma goroutines_split (gs : list goroutine) k g :
  gs !! k = Some g ->
  gs = take k gs ++ g :: drop (S k) gs
  /\ delete k gs = take k gs ++ drop (S k) gs.
Proof.
  intros Hk. split; [symmetry; apply take_drop_middle; exact Hk | apply delete_take_drop].
Qed.

Lemma targets_middle (a b : list goroutine) g :
  closing_of (a ++ g :: b) ++ attaching_of (a ++ g :: b)
  ≡ₚ (closing_of [g] ++ attaching_of [g])
     ++ closing_of (a ++ b) ++ attaching_of (a ++ b)
  /\ closing_of (a ++ g :: b) ≡ₚ closing_of [g] ++ closing_of (a ++ b)
  /\ attaching_of (a ++ g :: b) ≡ₚ attaching_of [g] ++ attaching_of (a ++ b).
Proof.
  change (g :: b) with ([g] ++ b).
  rewrite !closing_of_app, !attaching_of_app.
  generalize (closing_of a) (closing_of b) (attaching_of a) (attaching_of b)
             (closing_of [g]) (attaching_of [g]).
  intros ca cb aa ab cg ag. split; [| split]; solve_Permutation.
Qed.

Lemma targets_delete (gs : list goroutine) k g :
  gs !! k = Some g ->
  closing_of gs ++ attaching_of gs
  ≡ₚ (closing_of [g] ++ attaching_of [g])
     ++ closing_of (delete k gs) ++ attaching_of (delete k gs)
  /\ closing_of gs ≡ₚ closing_of [g] ++ closing_of (delete k gs)
  /\ attaching_of gs ≡ₚ attaching_of [g] ++ attaching_of (delete k gs).
Proof.
  intros Hk. destruct (goroutines_split gs k g Hk) as [Hgs Hdel].
  rewrite Hdel. generalize dependent (drop (S k) gs). generalize (take k gs).
  intros a b Hgs _. rewrite Hgs. apply targets_middle.
Qed.

Lemma targets_delete_eq (gs : list goroutine) k g :
  gs !! k = Some g ->
  (closing_of [g] = [] -> closing_of (delete k gs) = closing_of gs)
  /\ (attaching_of [g] = [] -> attaching_of (delete k gs) = attaching_of gs).
Proof.
  intros Hk. destruct (goroutines_split gs k g Hk) as [Hgs Hdel].
  rewrite Hdel. generalize dependent (drop (S k) gs). generalize (take k gs).
  intros a b Hgs _. rewrite Hgs. change (g :: b) with ([g] ++ b).
  rewrite !closing_of_app, !attaching_of_app.
  split; intros ->; reflexivity.
Qed.

Lemma Safe_filler_done hg hn err w :
  Safe hg hn w ->
  post (filler_done err) w (fun _ w' => Safe hg hn w') (fun _ => False).
Proof.
  intros HS. unfold post, filler_done.
  destruct err as [e|]; [| exact HS].
  destruct (decide (e = ErrClosed)); [exact HS |]. unfold modify.
  eapply Safe_base; [exact HS | | reflexivity | reflexivity |].
  - unfold same_base. simpl_steps. repeat split.
  - simpl_steps. apply (Safe_queue _ _ _ HS).
Qed.

Lemma Safe_GoFiller hg hn w :
  Safe hg hn w ->
  post (run_goroutine GoFiller) w (fun _ w' => Safe hg hn w') (fun _ => False).
Proof.
  intros HS. unfold run_goroutine. apply post_bind. unfold post at 1.
  rewrite dialConn_eq.
  destruct (closed (pool w)); [apply (Safe_filler_done hg hn _ w HS) |].
  destruct (circuit_open w) eqn:Hco.
  { pose proof (circuit_open_error w (proj2 HS) Hco) as He.
    destruct (lastDialError (pool w)); [| contradiction].
    apply (Safe_filler_done hg hn _ w HS). }
  destruct (Dialer (cfg (pool w)) (dials w)) as [err|].
  { apply Safe_filler_done. apply Safe_dial_failed. exact HS. }
  unfold post, modify. destruct HS as [HK Hd].
  eapply Safe_of_components; [exact (SafeK_alloc_attach _ _ _ _ _ _ _ _ _ _ _ HK) | ..];
    try (unfold dial_ok; simpl_steps; targets; reflexivity).
  - intros x. unfold sock, sk_alloc, dial_ok. simpl_steps.
    destruct (decide (x = nextPtr w)) as [->|Hne].
    + rewrite lookup_insert_eq. reflexivity.
    + rewrite lookup_insert_ne by congruence. reflexivity.
  - exact Hd.
Qed.

Lemma Safe_GoTryDial hg hn w :
  Safe hg hn w ->
  post (run_goroutine GoTryDial) w (fun _ w' => Safe hg hn w') (fun _ => False).
Proof.
  intros HS. unfold run_goroutine. apply post_bind. unfold post at 1.
  rewrite tryDial_iter_eq.
  destruct (closed (pool w)); [exact HS |].
  pose proof HS as [HK [Hsize Herr]].
  destruct (Dialer (cfg (pool w)) (dials w)) as [err|].
  - unfold post, modify, probe_failed.
    eapply Safe_of_components;
      [eapply (SafeK_frame _ (nextPtr w) (nextPtr w) (dials w) (S (dials w)));
         [| | | exact HK]; [lia | lia | apply (Safe_queue _ _ _ HS)] | ..];
      try (simpl_steps; targets; reflexivity);
      try (intros x; unfold sock; simpl_steps; reflexivity).
    unfold dial_sane. simpl_steps. split; [exact Hsize | intros _; discriminate].
  - unfold post, mret, M_ret, ret, probe_ok.
    eapply Safe_of_components; [exact (SafeK_probe _ _ _ _ _ _ _ _ _ _ _ HK) | ..];
      try (simpl_steps; targets; reflexivity);
      try (intros x; unfold sock; simpl_steps; reflexivity).
    unfold dial_sane. simpl_steps. split; [exact Hsize | intros H; lia].
Qed.

Lemma Safe_run_goroutine hg hn g k w :
  Safe hg hn w -> goroutines w !! k = Some g ->
  post (run_goroutine g) (set_goroutines (delete k (goroutines w)) w)
    (fun _ w' => Safe hg hn w') (fun _ => False).
Proof.
  intros HS Hk.
  destruct (targets_delete (goroutines w) k g Hk) as (Hall & Hcg & Hatt).
  destruct (targets_delete_eq (goroutines w) k g Hk) as (Hcg_eq & Hatt_eq).
  set (w0 := set_goroutines (delete k (goroutines w)) w).
  assert (Hidle0 : closing_of [g] = [] -> attaching_of [g] = [] -> Safe hg hn w0).
  { intros Hc Ha.
    eapply Safe_base; [exact HS | | reflexivity | reflexivity | apply (Safe_queue _ _ _ HS)].
    unfold same_base, w0. simpl_world.
    repeat split; [exact (Hcg_eq Hc) | exact (Hatt_eq Ha)]. }
  destruct g as [|cn|cn|].
  - apply Safe_GoFiller. apply Hidle0; reflexivity.
  - (* the filler attaches its connection *)
    cbn [closing_of attaching_of omap list_omap app] in Hall, Hcg, Hatt.
    destruct (Safe_conn hg hn w cn HS) as (c & Hc & Hs).
    { apply elem_of_app. right. apply elem_of_app. right.
      rewrite Hatt. left. }
    pose proof HS as [HK Hd].
    unfold run_goroutine. apply post_bind. unfold post at 1.
    rewrite addIdleConn_attach_eq.
    change (closed (pool w0)) with (closed (pool w)).
    destruct (closed (pool w)).
    + rewrite closeConn_eq. change (heap w0) with (heap w). rewrite Hc.
      unfold post, filler_done. destruct (decide (ErrClosed = ErrClosed)); [| contradiction].
      unfold ret.
      eapply Safe_of_components;
        [eapply (SafeK_pending_closed _ _ _ _ _ _ cn (netConn c) _
                   (closing_of (goroutines w0)) _ (attaching_of (goroutines w0)));
           [| exact Hs | exact HK] | ..];
        try (unfold w0; simpl_world; reflexivity); try exact Hd.
      rewrite Hcg, Hatt. unfold w0. simpl_world. solve_Permutation.
    + change (conns (pool w0)) with (conns (pool w)).
      change (idleConns (pool w0)) with (idleConns (pool w)).
      destruct (conns (pool w)) as [xs|] eqn:Hxs; [| exact I].
      destruct (idleConns (pool w)) as [ids|] eqn:Hids; [| exact I].
      unfold post, filler_done, ret.
      eapply Safe_of_components;
        [eapply (SafeK_attach _ _ _ _ xs ids cn _ _ (attaching_of (goroutines w0)));
           [exact Hatt | exact HK] | ..];
        try (unfold w0; simpl_world; reflexivity); try exact Hd.
      exact (Hcg_eq eq_refl).
  - (* a closing goroutine *)
    cbn [closing_of attaching_of omap list_omap app] in Hall, Hcg, Hatt.
    destruct (Safe_conn hg hn w cn HS) as (c & Hc & Hs).
    { apply elem_of_app. right. apply elem_of_app. left.
      rewrite Hcg. left. }
    pose proof HS as [HK Hd].
    unfold run_goroutine. apply post_bind. unfold post at 1.
    rewrite closeConn_eq. change (heap w0) with (heap w). rewrite Hc.
    unfold post, mret, M_ret, ret.
    eapply Safe_of_components;
      [eapply (SafeK_pending_closed _ _ _ _ _ _ cn (netConn c) _
                 (closing_of (goroutines w0)) _ (attaching_of (goroutines w0)));
         [| exact Hs | exact HK] | ..];
      try (unfold w0; simpl_world; reflexivity); try exact Hd.
    rewrite Hcg, Hatt. unfold w0. simpl_world. solve_Permutation.
  - apply Safe_GoTryDial. apply Hidle0; reflexivity.
Qed.

Lemma Safe_clock hg hn t w : Safe hg hn w -> Safe hg hn (set_clock t w).
Proof.
  intros HS.
  eapply Safe_base; [exact HS | | reflexivity | reflexivity | apply (Safe_queue _ _ _ HS)].
  unfold same_base. simpl_world. repeat split.
Qed.

Lemma Safe_use hg hn cn unread w : Safe hg hn w -> Safe hg hn (use_conn cn unread w).
Proof.
  intros HS. unfold use_conn. destruct (heap w !! cn) as [c|] eqn:Hc; [| exact HS].
  apply (Safe_heap_update hg hn w cn c); [exact HS | exact Hc | reflexivity].
Qed.

(** *** The invariant along a schedule *)

Lemma Safe_exec e s s' :
  Safe_sys s -> client_ok e s -> exec e s = Some s' -> Safe_sys s'.
Proof.
  unfold Safe_sys. intros HS Hok He. destruct e; cbn [exec client_ok] in *.
  - pose proof (Safe_Get _ _ (idle_fuel (world s)) ctx wk _ HS) as H. unfold post in H.
    unfold settle in He.
    destruct (Get _ ctx wk (world s)) as [[[cn err] site] w'| |w'|]; try discriminate;
      inversion He; subst; cbn [world heldGet heldNew set_world fst snd] in *; exact H.
  - pose proof (Safe_Put _ _ ctx cn _ HS Hok) as H. unfold post in H.
    unfold settle in He.
    destruct (Put ctx cn (world s)) as [[] w'| |w'|]; try discriminate;
      inversion He; subst; [exact H | contradiction].
  - pose proof (Safe_Remove _ _ ctx cn reason _ HS Hok) as H. unfold post in H.
    unfold settle in He.
    destruct (Remove ctx cn reason (world s)) as [[] w'| |w'|]; try discriminate;
      inversion He; subst; [exact H | contradiction].
  - pose proof (Safe_CloseConn _ _ cn _ HS Hok) as H. unfold post in H.
    unfold settle in He.
    destruct (CloseConn cn (world s)) as [r w'| |w'|]; try discriminate;
      inversion He; subst; [exact H | contradiction].
  - pose proof (Safe_NewConn _ _ ctx _ HS) as H. unfold post in H.
    unfold settle in He.
    destruct (NewConn ctx (world s)) as [[cn err] w'| |w'|]; try discriminate;
      inversion He; subst; [exact H | contradiction].
  - destruct (Safe_observers _ _ _ HS) as (H & _ & _). unfold post in H.
    unfold settle in He.
    destruct (Len (world s)) as [r w'| |w'|]; try discriminate;
      inversion He; subst; [exact H | contradiction].
  - destruct (Safe_observers _ _ _ HS) as (_ & H & _). unfold post in H.
    unfold settle in He.
    destruct (IdleLen (world s)) as [r w'| |w'|]; try discriminate;
      inversion He; subst; [exact H | contradiction].
  - destruct (Safe_observers _ _ _ HS) as (_ & _ & H). unfold post in H.
    unfold settle in He.
    destruct (ConnPool_Stats (world s)) as [r w'| |w'|]; try discriminate;
      inversion He; subst; [exact H | contradiction].
  - contradiction.
  - pose proof (Safe_Close _ _ _ HS) as H. unfold post in H.
    unfold settle in He.
    destruct (Close (world s)) as [r w'| |w'|]; try discriminate;
      inversion He; subst; [exact H | contradiction].
  - pose proof (Safe_ReapStaleConns _ _ (idle_fuel (world s)) _ HS) as H. unfold post in H.
    unfold settle in He.
    destruct (ReapStaleConns _ (world s)) as [r w'| |w'|]; try discriminate;
      inversion He; subst; exact H.
  - pose proof (Safe_reaper_tick _ _ (idle_fuel (world s)) _ HS) as H. unfold post in H.
    unfold settle in He.
    destruct (reaper_tick _ (world s)) as [r w'| |w'|]; try discriminate;
      inversion He; subst; exact H.
  - destruct (goroutines (world s) !! k) as [g|] eqn:Hg; [| inversion He; subst; exact HS].
    pose proof (Safe_run_goroutine _ _ g k _ HS Hg) as H. unfold post in H.
    unfold settle in He.
    destruct (run_goroutine g _) as [r w'| |w'|]; try discriminate;
      inversion He; subst; [exact H | contradiction].
  - inversion He; subst. apply Safe_clock. exact HS.
  - inversion He; subst. apply Safe_use. exact HS.
Qed.

Lemma Safe_run es :
  forall s s', Safe_sys s -> disciplined es s -> run es s = Some s' -> Safe_sys s'.
Proof.
  induction es as [|e es IH]; intros s s' HS Hd Hrun; cbn [run disciplined] in *.
  - inversion Hrun; subst. exact HS.
  - destruct Hd as [Hok Hrest].
    destruct (exec e s) as [s1|] eqn:He; [| discriminate].
    apply (IH s1 s'); [| apply Hrest; reflexivity | exact Hrun].
    apply (Safe_exec e s s1 HS Hok He).
Qed.

Lemma Safe_new opt e :
  0 < uint32 (PoolSize opt) -> Safe [] [] (new_world opt e).
Proof.
  intros Hsize. split.
  - unfold new_world, new_pool, sock. simpl_world. constructor.
    + lia.
    + intros cn s. rewrite lookup_empty. discriminate.
    + intros cn1 cn2 s. rewrite lookup_empty. discriminate.
    + constructor.
    + intros s Hs. inversion Hs.
    + cbn. constructor.
    + intros cn Hcn. cbn in Hcn. inversion Hcn.
    + intros cn s. rewrite lookup_empty. discriminate.
    + intros xs Hxs. exists []. split; [reflexivity |]. split; [constructor |].
      intros cn Hcn. inversion Hcn.
    + intros xs _ cn [H|H]; inversion H.
    + discriminate.
    + split; [constructor | cbn; lia].
  - unfold dial_sane, new_world, new_pool. simpl_world.
    split; [exact Hsize | lia].
Qed.

Lemma Safe_start opt e s0 :
  0 < uint32 (PoolSize opt) -> start opt e = Some s0 -> Safe_sys s0.
Proof.
  intros Hsize Hs. unfold start, NewConnPool in Hs.
  destruct (PoolSize opt <? 0); [discriminate |].
  rewrite checkMinIdleConns_eq in Hs. inversion Hs; subst. unfold Safe_sys.
  cbn [world heldGet heldNew].
  eapply Safe_base; [apply (Safe_new opt e Hsize) | apply same_base_reserve | ..];
    try (simpl_steps; reflexivity).
Qed.

Lemma client_okb_sound e s : client_okb e s = true -> client_ok e s.
Proof.
  destruct e; cbn [client_okb client_ok]; try (intros; exact I).
  - apply bool_decide_eq_true_1.
  - apply bool_decide_eq_true_1.
  - intros H. apply orb_true_iff in H as [H|H]; [left | right];
      exact (bool_decide_eq_true_1 _ H).
  - discriminate.
Qed.

Lemma disciplinedb_sound es :
  forall s, disciplinedb es s = true -> disciplined es s.
Proof.
  induction es as [|e es IH]; intros s H; cbn [disciplinedb disciplined] in *.
  - exact I.
  - apply andb_true_iff in H as [Hok Hrest]. split.
    + apply client_okb_sound. exact Hok.
    + intros s' He. rewrite He in Hrest. apply IH. exact Hrest.
Qed.

(** * The pool along a schedule *)

Lemma keeps_settle {A} Inv (m : M A) s (k : A -> World -> Sys) s' :
  keeps Inv m ->
  (forall a w', world (k a w') = w') ->
  Inv (world s) ->
  settle (m (world s)) s k = Some s' ->
  Inv (world s').
Proof.
  intros Hm Hk Hi Hs. specialize (Hm (world s) Hi). unfold post in Hm.
  unfold settle in Hs.
  destruct (m (world s)) as [a w'| |w'|]; try discriminate;
    inversion Hs; subst; [rewrite Hk |]; assumption.
Qed.

Lemma exec_keeps Inv e s s' :
  pool_invariant Inv -> Inv (world s) -> exec e s = Some s' -> Inv (world s').
Proof.
  intros HI Hi He. destruct e; cbn [exec] in He.
  - eapply keeps_settle; [apply (inv_Get _ HI) | | exact Hi | exact He].
    intros [[cn err] site] w'. reflexivity.
  - eapply keeps_settle; [apply (inv_Put _ HI) | | exact Hi | exact He]. reflexivity.
  - eapply keeps_settle; [apply (inv_Remove _ HI) | | exact Hi | exact He]. reflexivity.
  - eapply keeps_settle; [apply (inv_CloseConn _ HI) | | exact Hi | exact He]. reflexivity.
  - eapply keeps_settle; [apply (inv_NewConn _ HI) | | exact Hi | exact He].
    intros [cn err] w'. reflexivity.
  - eapply keeps_settle; [apply (inv_Len _ HI) | | exact Hi | exact He]. reflexivity.
  - eapply keeps_settle; [apply (inv_IdleLen _ HI) | | exact Hi | exact He]. reflexivity.
  - eapply keeps_settle; [apply (inv_Stats _ HI) | | exact Hi | exact He]. reflexivity.
  - eapply keeps_settle; [apply (inv_Filter _ HI) | | exact Hi | exact He]. reflexivity.
  - eapply keeps_settle; [apply (inv_Close _ HI) | | exact Hi | exact He]. reflexivity.
  - eapply keeps_settle; [apply (inv_ReapStaleConns _ HI) | | exact Hi | exact He].
    reflexivity.
  - eapply keeps_settle; [apply (inv_reaper_tick _ HI) | | exact Hi | exact He].
    reflexivity.
  - destruct (goroutines (world s) !! k) as [g|] eqn:Hg; [| inversion He; subst; exact Hi].
    pose proof (inv_go _ HI g k (world s) Hi Hg) as Hr. unfold post in Hr.
    unfold settle in He.
    destruct (run_goroutine g _); try discriminate; inversion He; subst; exact Hr.
  - inversion He; subst. apply (inv_clock _ HI). exact Hi.
  - inversion He; subst. apply (inv_use _ HI). exact Hi.
Qed.

Lemma run_keeps Inv es :
  pool_invariant Inv ->
  forall s s', Inv (world s) -> run es s = Some s' -> Inv (world s').
Proof.
  intros HI. induction es as [|e es IH]; intros s s' Hi Hrun; simpl in Hrun.
  - inversion Hrun; subst. exact Hi.
  - destruct (exec e s) as [s1|] eqn:He; [| discriminate].
    eapply IH; [| exact Hrun]. eapply exec_keeps; eassumption.
Qed.

(** ** After [Close] *)

(** What each entry point does on a pool whose lists are nil. *)
Lemma closed_nil_calls w :
  closed_nil w ->
  Len w = Panics
  /\ ConnPool_Stats w = Panics
  /\ (forall fn, Filter fn w = Panics)
  /\ (forall ctx cn reason, Remove ctx cn reason w = Panics)
  /\ (forall cn, CloseConn cn w = Panics)
  /\ (forall ctx cn, Put ctx cn w = Panics)
  /\ IdleLen w = Returns (idleConnsLen (pool w)) w
  /\ (forall fuel ctx wk,
        Get fuel ctx wk w = Returns (nil_ptr, Some ErrClosed, AtClosed) w)
  /\ (forall ctx, NewConn ctx w = Returns (nil_ptr, Some ErrClosed) w)
  /\ Close w = Returns (Some ErrClosed) w.
Proof.
  intros (Hc & Hxs & Hids).
  assert (Hrm : forall cn, removeConn cn w = Panics).
  { intros cn. rewrite removeConn_eq, Hxs. reflexivity. }
  split; [unfold Len, List_Len; unfold_monad; rewrite Hxs; reflexivity |].
  split; [unfold ConnPool_Stats, Len, List_Len; unfold_monad; rewrite Hxs; reflexivity |].
  split; [intros fn; unfold Filter, List_elements; unfold_monad; rewrite Hxs; reflexivity |].
  split.
  { intros ctx cn reason. unfold Remove, removeConnWithLock.
    unfold mbind at 1. unfold M_bind, bind. rewrite Hrm. reflexivity. }
  split.
  { intros cn. unfold CloseConn, removeConnWithLock.
    unfold mbind at 1. unfold M_bind, bind. rewrite Hrm. reflexivity. }
  split.
  { intros ctx cn. rewrite Put_eq. destruct (heap w !! cn) as [c|]; [| reflexivity].
    rewrite !AsyncRemove_eq, Hrm, Hids.
    destruct (0 <? rdBuffered c); [reflexivity |].
    destruct (negb (pooled c)); [reflexivity |].
    destruct (idle_room w); reflexivity. }
  split; [reflexivity |].
  split; [intros fuel ctx wk; unfold Get; unfold_monad; rewrite Hc; reflexivity |].
  split; [intros ctx; unfold NewConn; rewrite newConn_eq, dialConn_eq, Hc; reflexivity |].
  unfold Close. unfold_monad. unfold closed in Hc. apply Z.eqb_eq in Hc. rewrite Hc.
  reflexivity.
Qed.

(** Nothing brings the lists back: no call that returns or blocks and no
    goroutine turn. *)
Lemma closed_nil_invariant : pool_invariant closed_nil.
Proof.
  constructor.
  - intros fuel ctx wk w Hi. unfold post.
    destruct (closed_nil_calls w Hi) as (_ & _ & _ & _ & _ & _ & _ & H & _).
    rewrite H. exact Hi.
  - intros ctx cn w Hi. unfold post.
    destruct (closed_nil_calls w Hi) as (_ & _ & _ & _ & _ & H & _).
    rewrite H. exact I.
  - intros ctx cn reason w Hi. unfold post.
    destruct (closed_nil_calls w Hi) as (_ & _ & _ & H & _).
    rewrite H. exact I.
  - intros cn w Hi. unfold post.
    destruct (closed_nil_calls w Hi) as (_ & _ & _ & _ & H & _).
    rewrite H. exact I.
  - intros ctx w Hi. unfold post.
    destruct (closed_nil_calls w Hi) as (_ & _ & _ & _ & _ & _ & _ & _ & H & _).
    rewrite H. exact Hi.
  - intros w Hi. unfold post.
    destruct (closed_nil_calls w Hi) as (H & _). rewrite H. exact I.
  - intros w Hi. exact Hi.
  - intros w Hi. unfold post.
    destruct (closed_nil_calls w Hi) as (_ & H & _). rewrite H. exact I.
  - intros fn w Hi. unfold post.
    destruct (closed_nil_calls w Hi) as (_ & _ & H & _). rewrite H. exact I.
  - intros w Hi. unfold post.
    destruct (closed_nil_calls w Hi) as (_ & _ & _ & _ & _ & _ & _ & _ & _ & H).
    rewrite H. exact Hi.
  - intros fuel w Hi. pose proof Hi as (Hc & Hxs & Hids).
    unfold post, ReapStaleConns, ReapStaleConns_loop.
    unfold mbind at 1. unfold M_bind, bind.
    destruct fuel as [|fuel]; [exact I |]. cbn [loop].
    unfold mbind at 1. unfold M_bind, bind.
    unfold ReapStaleConns_body. unfold mbind at 1. unfold M_bind, bind.
    unfold getTurn. destruct (queue (pool w) <? PoolSize (cfg (pool w))); [| exact Hi].
    unfold mbind at 1. unfold M_bind, bind.
    rewrite reapStaleConn_eq. simpl_world. rewrite Hids. exact I.
  - intros fuel w Hi. pose proof Hi as (Hc & _).
    unfold post, reaper_tick. unfold_monad. rewrite Hc. exact Hi.
  - intros g k w Hi Hk. pose proof Hi as (Hc & Hxs & Hids).
    set (w0 := set_goroutines (delete k (goroutines w)) w).
    assert (H0 : closed_nil w0) by exact Hi.
    assert (Hc0 : closed (pool w0) = true) by exact Hc.
    clearbody w0. unfold post.
    destruct g as [|cn|cn|]; unfold run_goroutine.
    + unfold mbind at 1. unfold M_bind, bind. rewrite dialConn_eq, Hc0.
      unfold filler_done. destruct (decide (ErrClosed = ErrClosed)); [| contradiction].
      exact H0.
    + unfold mbind at 1. unfold M_bind, bind. rewrite addIdleConn_attach_eq, Hc0.
      rewrite closeConn_eq. destruct (heap w0 !! cn) as [c|]; [| exact I].
      unfold filler_done. destruct (decide (ErrClosed = ErrClosed)); [| contradiction].
      exact H0.
    + unfold mbind at 1. unfold M_bind, bind.
      rewrite closeConn_eq. destruct (heap w0 !! cn) as [c|]; [| exact I]. exact H0.
    + unfold mbind at 1. unfold M_bind, bind. rewrite tryDial_iter_eq, Hc0. exact H0.
  - intros t w Hi. exact Hi.
  - intros cn unread w Hi. unfold use_conn.
    destruct (heap w !! cn); exact Hi.
Qed.

(** C1 (the defect).  The first [Close] of a pool whose connections are all
    allocated returns and leaves the pool marked closed with [poolSize] and
    [idleConnsLen] at 0, but with [conns] and [idleConns] set to nil instead
    of emptied.  The lists stay nil along every schedule of later calls and
    goroutine turns, and on such a pool [Len], [Stats], [Filter], [Remove],
    [CloseConn] and [Put] dereference a nil list and panic, where [Len] was
    to return 0; [IdleLen], which reads the counter, still returns, and
    [Get], [NewConn] and a second [Close] return [ErrClosed] without
    changing anything. *)
Theorem closed_pool_nil_lists (w : World) (xs : list ptr)
    (Hopen : _closed (pool w) = 0)
    (Hxs : conns (pool w) = Some xs)
    (Hheap : forall cn, cn ∈ xs -> is_Some (heap w !! cn)) :
  (exists r, Close w = Returns r (shut w xs))
  /\ closed_nil (shut w xs)
  /\ poolSize (pool (shut w xs)) = 0
  /\ idleConnsLen (pool (shut w xs)) = 0
  /\ IdleLen (shut w xs) = Returns 0 (shut w xs)
  /\ (forall es s s',
        closed_nil (world s) -> run es s = Some s' ->
        closed_nil (world s')
        /\ Len (world s') = Panics
        /\ ConnPool_Stats (world s') = Panics
        /\ (forall fn, Filter fn (world s') = Panics)
        /\ (forall ctx cn reason, Remove ctx cn reason (world s') = Panics)
        /\ (forall cn, CloseConn cn (world s') = Panics)
        /\ (forall ctx cn, Put ctx cn (world s') = Panics)
        /\ IdleLen (world s') = Returns (idleConnsLen (pool (world s'))) (world s')
        /\ (forall fuel ctx wk,
              Get fuel ctx wk (world s') =
              Returns (nil_ptr, Some ErrClosed, AtClosed) (world s'))
        /\ (forall ctx,
              NewConn ctx (world s') = Returns (nil_ptr, Some ErrClosed) (world s'))
        /\ Close (world s') = Returns (Some ErrClosed) (world s')).
Proof.
  split.
  { destruct (Filter_loop_all xs (with_pool (set_closed 1) w) None) as [r Hr].
    { exact Hheap. }
    exists r. unfold Close, List_elements. unfold_monad. rewrite Hopen.
    change (0 =? 0) with true. cbv beta iota. simpl_world.
    rewrite Hxs. cbv beta iota. rewrite Hr. reflexivity. }
  split; [repeat split |]. split; [reflexivity |]. split; [reflexivity |].
  split; [reflexivity |].
  intros es s s' Hi Hrun.
  pose proof (run_keeps closed_nil es closed_nil_invariant s s' Hi Hrun) as Hi'.
  split; [exact Hi' |]. exact (closed_nil_calls (world s') Hi').
Qed.

Lemma closed_pool_nil_lists_witness :
  (exists r, Close w_one_out = Returns r (shut w_one_out [1%nat]))
  /\ Len (shut w_one_out [1%nat]) = Panics
  /\ IdleLen (shut w_one_out [1%nat]) = Returns 0 (shut w_one_out [1%nat]).
Proof.
  destruct (closed_pool_nil_lists w_one_out [1%nat])
    as (Hrun & Hnil & _ & _ & Hidle & Hlater).
  - vm_compute. reflexivity.
  - vm_compute. reflexivity.
  - intros cn Hcn. apply list_elem_of_singleton in Hcn. subst cn.
    exists (mkConn 0 true 0 0 0). vm_compute. reflexivity.
  - set (w1 := shut w_one_out [1%nat]) in *. clearbody w1.
    destruct (Hlater [] (mkSys w1 [] [] []) (mkSys w1 [] [] []) Hnil eq_refl)
      as (_ & HLen & _).
    cbn [world] in HLen.
    split; [exact Hrun |]. split; [exact HLen | exact Hidle].
Defined.

(** ** [poolSize] stays within [PoolSize] *)

Lemma steady_sized opt {A} (m : M A) : preserves steady m -> keeps (sized opt) m.
Proof.
  intros Hm w (Hcfg & H0 & Hb). specialize (Hm w). unfold post in *.
  destruct (m w) as [a w'| |w'|]; try exact I;
    destruct Hm as (Hc & Hp & _); unfold sized; rewrite Hc, Hcfg in *;
    (split; [reflexivity | split; [assumption | lia]]).
Qed.

Lemma sized_Put opt ctx cn : keeps (sized opt) (Put ctx cn).
Proof.
  intros w Hs. unfold post. rewrite Put_eq.
  destruct (heap w !! cn) as [c|]; [| exact I].
  assert (Hrem : forall reason,
    match AsyncRemove ctx cn reason w with
    | Returns _ w' => sized opt w'
    | Blocks w' => sized opt w'
    | _ => True
    end).
  { intros reason. exact (steady_sized opt _ (steady_AsyncRemove ctx cn reason) w Hs). }
  destruct (0 <? rdBuffered c); [apply Hrem |].
  destruct (negb (pooled c)); [apply Hrem |].
  destruct (idle_room w).
  - destruct (idleConns (pool w)); [| exact I].
    destruct (0 <? queue (pool w)); unfold sized, take_turn_back, push_idle in *;
      simpl_world; exact Hs.
  - specialize (Hrem None). rewrite AsyncRemove_eq in Hrem. exact Hrem.
Qed.

Lemma sized_Close opt : keeps (sized opt) Close.
Proof.
  intros w (Hcfg & H0 & Hb). unfold post, Close, List_elements. unfold_monad.
  destruct (_closed (pool w) =? 0); [| repeat split; assumption].
  simpl_world. destruct (conns (pool w)) as [xs|]; [| exact I].
  pose proof (steady_Filter_loop (fun _ => true) xs None (with_pool (set_closed 1) w)) as Hf.
  unfold post in Hf.
  destruct (Filter_loop (fun _ => true) xs None (with_pool (set_closed 1) w))
    as [r w'| |w'|]; try exact I.
  - destruct Hf as (Hc & _). unfold sized. simpl_world. simpl_world.
    rewrite Hc. repeat split; assumption.
  - destruct Hf as (Hc & Hp & _). unfold sized. simpl_world. simpl_world.
    rewrite Hc. rewrite Hcfg in Hp. repeat split; [assumption .. | lia].
Qed.

Lemma sized_invariant opt : pool_invariant (sized opt).
Proof.
  constructor; intros.
  - apply steady_sized, steady_Get.
  - apply sized_Put.
  - apply steady_sized, steady_Remove.
  - apply steady_sized, steady_CloseConn.
  - apply steady_sized, steady_NewConn.
  - apply steady_sized, steady_Len.
  - apply steady_sized, steady_IdleLen.
  - apply steady_sized, steady_Stats.
  - apply steady_sized, steady_Filter.
  - apply sized_Close.
  - apply steady_sized, steady_ReapStaleConns.
  - apply steady_sized, steady_reaper_tick.
  - apply (steady_sized opt _ (steady_run_goroutine g)). exact H.
  - exact H.
  - unfold use_conn. destruct (heap w !! cn); exact H.
Qed.

Lemma sized_start opt e s0 : start opt e = Some s0 -> sized opt (world s0).
Proof.
  intros Hs. unfold start, NewConnPool in Hs.
  destruct (Z.ltb_spec (PoolSize opt) 0) as [|H0]; [discriminate |].
  pose proof (steady_sized opt _ steady_checkMinIdleConns (new_world opt e)) as Hk.
  unfold post in Hk.
  destruct (checkMinIdleConns (new_world opt e)) as [a w'| | |]; try discriminate.
  inversion Hs; subst. cbn [world]. apply Hk.
  unfold sized, new_world, new_pool. simpl_world. repeat split; lia.
Qed.

(** X3.  Along every schedule of calls and goroutine turns that starts at
    the constructor, [poolSize] never exceeds [PoolSize]: the fillers, [Get]
    and the refill after an eviction all check the bound before they
    reserve a slot. *)
Theorem poolSize_bound (opt : Options) (e : Env) (es : list event) (s0 s : Sys)
    (Hstart : start opt e = Some s0)
    (Hrun : run es s0 = Some s) :
  poolSize (pool (world s)) <= PoolSize opt.
Proof.
  apply (run_keeps (sized opt) es (sized_invariant opt) s0 s); [| exact Hrun].
  exact (sized_start opt e s0 Hstart).
Qed.

Lemma poolSize_bound_witness :
  poolSize (pool (world (sys_or (run busy_day s_small) s_small))) <= 3.
Proof.
  apply (poolSize_bound opt_small sound_env busy_day s_small);
    vm_compute; reflexivity.
Defined.

Lemma idle_bound_witness :
  idleConnsLen (pool (world (sys_or (run busy_day s_small) s_small))) <= 2.
Proof.
  apply (idle_bound opt_small sound_env busy_day s_small);
    [reflexivity | vm_compute; discriminate | vm_compute; reflexivity ..].
Defined.

Lemma hits_misses_witness :
  uint32 (Hits_of (world (sys_or (run busy_day s_small) s_small))
          + Misses_of (world (sys_or (run busy_day s_small) s_small))) =
  uint32 (count_gets returned_ok (getLog (sys_or (run busy_day s_small) s_small))
          + count_gets (fun r => failed_dial (snd r))
              (getLog (sys_or (run busy_day s_small) s_small))).
Proof.
  apply (hits_misses opt_small sound_env busy_day s_small); vm_compute; reflexivity.
Defined.

(** * The methods one by one *)

(** X4.  [checkMinIdleConns] reserves exactly the deficit: it adds [k] to
    [poolSize] and to [idleConnsLen] and starts [k] fillers, where [k] is 0
    when [MinIdleConns] is 0 and otherwise the smaller of
    [PoolSize - poolSize] and [MinIdleConns - idleConnsLen] (0 when that is
    negative).  It does nothing else: it does not dial and it does not look at
    [MaxIdleConns]. *)
Theorem checkMinIdleConns_reserves (w : World) :
  exists k : nat,
    checkMinIdleConns w = Returns tt (reserve_n k w)
    /\ Z.of_nat k =
       (if MinIdleConns (cfg (pool w)) =? 0 then 0
        else Z.max 0 (Z.min (PoolSize (cfg (pool w)) - poolSize (pool w))
                            (MinIdleConns (cfg (pool w)) - idleConnsLen (pool w))))
    /\ poolSize (pool (reserve_n k w)) = poolSize (pool w) + Z.of_nat k
    /\ idleConnsLen (pool (reserve_n k w)) = idleConnsLen (pool w) + Z.of_nat k
    /\ goroutines (reserve_n k w) = goroutines w ++ replicate k GoFiller
    /\ dials (reserve_n k w) = dials w.
Proof.
  exists (refill_count w). split; [apply checkMinIdleConns_eq |].
  split; [| simpl_steps; repeat split].
  unfold refill_count, refill_room.
  destruct (MinIdleConns (cfg (pool w)) =? 0); [reflexivity |].
  generalize (Z.min (PoolSize (cfg (pool w)) - poolSize (pool w))
                    (MinIdleConns (cfg (pool w)) - idleConnsLen (pool w))).
  intros z. lia.
Qed.

(** X5.  [isStaleConn] is the read-only negation of [isHealthyConn]: on
    the same connection and at the same time the two agree on the verdict,
    [isHealthyConn] stamps [usedAt] when the verdict is healthy, and
    [isStaleConn] never changes anything. *)
Theorem isStaleConn_agrees (cn : ptr) (w : World) (c : Conn)
    (Hc : heap w !! cn = Some c) :
  exists b : bool,
    isHealthyConn cn w = Returns b (if b then touch cn c w else w)
    /\ isStaleConn cn w = Returns (negb b) w.
Proof.
  exists (healthy c w). rewrite isHealthyConn_eq, isStaleConn_eq, Hc.
  destruct (healthy c w); split; reflexivity.
Qed.

Lemma isStaleConn_agrees_witness :
  exists b : bool,
    isHealthyConn 1%nat w_warm = Returns b (if b then touch 1%nat (mkConn 0 true 0 0 0) w_warm
                                            else w_warm)
    /\ isStaleConn 1%nat w_warm = Returns (negb b) w_warm.
Proof.
  apply (isStaleConn_agrees 1%nat w_warm (mkConn 0 true 0 0 0)).
  vm_compute. reflexivity.
Defined.

(** X6.  [Put] appends at the tail of the idle list and [popIdle] takes
    from the tail, or from the head when [PoolFIFO] is set.  So on an open
    pool, after [Put] has parked a clean pooled connection, [popIdle] returns
    that same connection and leaves the idle list as it was before the [Put]
    (last in, first out); with [PoolFIFO] it returns the connection that has
    been idle the longest and the one just put stays at the tail. *)
Theorem Put_popIdle_order (ctx : Context) (cn : ptr) (w : World) (c : Conn)
    (ids : list ptr)
    (Hopen : closed (pool w) = false)
    (Hc : heap w !! cn = Some c)
    (Hclean : rdBuffered c <= 0)
    (Hpooled : pooled c = true)
    (Hroom : idle_room w = true)
    (Hids : idleConns (pool w) = Some ids)
    (Hq : 0 < queue_of w) :
  exists w1,
    Put ctx cn w = Returns tt w1
    /\ idleConns (pool w1) = Some (ids ++ [cn])
    /\ idleConnsLen (pool w1) = idleConnsLen (pool w) + 1
    /\ queue_of w1 = queue_of w - 1
    /\ exists w2 k,
         popIdle w1 =
         Returns (if PoolFIFO (cfg (pool w)) then hd cn ids else cn, None) w2
         /\ idleConns (pool w2) =
            Some (if PoolFIFO (cfg (pool w)) then tl (ids ++ [cn]) else ids)
         /\ idleConnsLen (pool w2) = idleConnsLen (pool w) + Z.of_nat k
         /\ goroutines w2 = goroutines w ++ replicate k GoFiller.
Proof.
  rewrite Put_eq, Hc.
  rewrite (proj2 (Z.ltb_ge 0 (rdBuffered c))) by lia.
  rewrite Hpooled, Hroom, Hids. cbn [negb]. unfold queue_of in *.
  rewrite (proj2 (Z.ltb_lt 0 (queue (pool w)))) by lia.
  eexists. split; [reflexivity |].
  unfold take_turn_back, push_idle. simpl_world.
  repeat (split; [reflexivity |]).
  rewrite popIdle_eq. unfold closed in *. simpl_world. rewrite Hopen.
  rewrite length_app, Nat.add_comm. cbn [length Nat.add].
  destruct (Z.eqb_spec (Z.of_nat (S (length ids))) 0) as [H0|_]; [lia |].
  unfold pop_choice. destruct (PoolFIFO (cfg (pool w))).
  - destruct ids as [|x rest]; cbn [app head tail hd tl];
      match goal with |- context [reserve_n ?k _] => eexists; exists k end;
      (split; [reflexivity |]); simpl_steps;
      (split; [reflexivity |]); (split; [lia | reflexivity]).
  - rewrite last_snoc, removelast_last.
    match goal with |- context [reserve_n ?k _] => eexists; exists k end.
    split; [reflexivity |]. simpl_steps.
    split; [reflexivity |]. split; [lia | reflexivity].
Qed.

Lemma Put_popIdle_order_witness :
  exists w1 w2,
    Put None 1%nat w_lent = Returns tt w1
    /\ popIdle w1 = Returns (1%nat, None) w2.
Proof.
  destruct (Put_popIdle_order None 1%nat w_lent (mkConn 0 true 0 0 0) [])
    as (w1 & Hput & _ & _ & _ & w2 & k & Hpop & _);
    [vm_compute; reflexivity | vm_compute; reflexivity | vm_compute; discriminate
    | vm_compute; reflexivity .. | ].
  exists w1, w2. split; [exact Hput | exact Hpop].
Defined.

Lemma filtered_cons fn h cn xs :
  filtered fn h (cn :: xs) =
  (if fn cn then match h !! cn with
                 | Some c => [netConn c]
                 | None => []
                 end
   else []) ++ filtered fn h xs.
Proof.
  unfold filtered, sockets_of. cbn [List.filter].
  destruct (fn cn); [| reflexivity].
  cbn [omap list_omap]. destruct (h !! cn); reflexivity.
Qed.

Lemma Filter_loop_closes fn xs :
  forall w firstErr,
    (forall cn, cn ∈ xs -> is_Some (heap w !! cn)) ->
    exists r, Filter_loop fn xs firstErr w =
              Returns r (set_netClosed (netClosed w ++ filtered fn (heap w) xs) w)
              /\ ((forall s k, netClose (env w) s k = None) -> r = firstErr).
Proof.
  induction xs as [|cn xs IH]; intros w firstErr Hin.
  - exists firstErr. cbn [Filter_loop]. unfold filtered, sockets_of. cbn [List.filter omap list_omap].
    rewrite app_nil_r. destruct w; split; reflexivity.
  - cbn [Filter_loop]. rewrite filtered_cons.
    assert (Hin' : forall x, x ∈ xs -> is_Some (heap w !! x)).
    { intros x Hx. apply Hin. right. exact Hx. }
    destruct (fn cn).
    + unfold mbind, M_bind, bind. rewrite closeConn_eq.
      destruct (Hin cn) as [c Hc]; [left |]. rewrite Hc.
      edestruct (IH (set_netClosed (netClosed w ++ [netConn c]) w)) as (r & Hr & Hsound).
      { simpl_world. exact Hin'. }
      rewrite Hr. exists r. split.
      * f_equal. simpl_world. rewrite <- app_assoc. destruct w; reflexivity.
      * intros Hs. simpl_world. rewrite (Hsound Hs), Hs. destruct firstErr; reflexivity.
    + destruct (IH w firstErr Hin') as (r & Hr & Hsound).
      exists r. split; assumption.
Qed.

(** X7.  [Filter] closes the socket of every connection that [fn] selects,
    in the order of [conns], and changes nothing else: the closed connections
    stay in [conns] and in the idle list, and [poolSize], [idleConnsLen] and
    the turns are as before.  A [Close] of the pool that follows therefore
    closes the selected sockets a second time. *)
Theorem Filter_closes_in_place (fn : ptr -> bool) (w : World) (xs : list ptr)
    (Hxs : conns (pool w) = Some xs)
    (Hheap : forall cn, cn ∈ xs -> is_Some (heap w !! cn)) :
  exists r,
    Filter fn w =
    Returns r (set_netClosed (netClosed w ++ filtered fn (heap w) xs) w)
    /\ (_closed (pool w) = 0 ->
        exists r2 w2,
          Close (set_netClosed (netClosed w ++ filtered fn (heap w) xs) w)
          = Returns r2 w2
          /\ netClosed w2 =
             netClosed w ++ filtered fn (heap w) xs ++ sockets_of (heap w) xs).
Proof.
  destruct (Filter_loop_closes fn xs w None Hheap) as (r & Hr & _).
  exists r. split.
  - unfold Filter, List_elements. unfold_monad. rewrite Hxs. exact Hr.
  - intros Hopen.
    destruct (Filter_loop_all xs
                (with_pool (set_closed 1)
                   (set_netClosed (netClosed w ++ filtered fn (heap w) xs) w)) None)
      as [r2 Hr2].
    { simpl_world. exact Hheap. }
    eexists. eexists. split.
    + unfold Close, List_elements. unfold_monad. simpl_world. rewrite Hopen.
      change (0 =? 0) with true. cbv beta iota. simpl_world.
      rewrite Hxs. cbv beta iota. rewrite Hr2. reflexivity.
    + simpl_world. rewrite app_assoc. reflexivity.
Qed.

Lemma Filter_closes_in_place_witness :
  exists r,
    Filter (fun _ => true) w_one_out =
    Returns r (set_netClosed (netClosed w_one_out
                              ++ filtered (fun _ => true) (heap w_one_out) [1%nat])
                 w_one_out).
Proof.
  destruct (Filter_closes_in_place (fun _ => true) w_one_out [1%nat]) as (r & Hr & _).
  - vm_compute. reflexivity.
  - intros cn Hcn. apply list_elem_of_singleton in Hcn. subst cn.
    exists (mkConn 0 true 0 0 0). vm_compute. reflexivity.
  - exists r. exact Hr.
Defined.

Lemma removeConn_env cn w :
  post (removeConn cn) w (fun _ w' => env w' = env w) (fun _ => False).
Proof.
  unfold post. rewrite removeConn_eq.
  destruct (conns (pool w)) as [xs|]; [| exact I].
  destruct (remove_first cn xs) as [xs'|]; [| reflexivity].
  destruct (heap w !! cn) as [c|]; [| exact I].
  destruct (pooled c); reflexivity.
Qed.

(** X8.  [Remove] and [CloseConn] both unlink the connection from [conns]
    and close its socket before they return, without a goroutine.  [Remove]
    gives one turn back and leaves [stats.StaleConns] alone; [CloseConn]
    keeps the turns as they are and adds one to [stats.StaleConns].  Neither
    looks whether the connection was still registered: the socket is closed
    either way. *)
Theorem Remove_and_CloseConn (ctx : Context) (cn : ptr) (reason : option error)
    (w : World) (c : Conn) (xs : list ptr)
    (Hc : heap w !! cn = Some c)
    (Hxs : conns (pool w) = Some xs) :
  (0 < queue_of w ->
   exists w',
     Remove ctx cn reason w = Returns tt w'
     /\ queue_of w' = queue_of w - 1
     /\ conns (pool w') = Some (remove_one cn xs)
     /\ netClosed w' = netClosed w ++ [netConn c]
     /\ closers w' = closers w
     /\ StaleConns_of w' = StaleConns_of w)
  /\ exists w',
       CloseConn cn w =
       Returns (netClose (env w) (netConn c) (count_occ Nat.eq_dec (netClosed w) (netConn c))) w'
       /\ queue_of w' = queue_of w
       /\ conns (pool w') = Some (remove_one cn xs)
       /\ netClosed w' = netClosed w ++ [netConn c]
       /\ closers w' = closers w
       /\ StaleConns_of w' = uint32 (StaleConns_of w + 1).
Proof.
  destruct (removeConn_open cn w xs c Hxs Hc)
    as (w1 & k & Hrun & Hcs & _ & Hq1 & Hh & _).
  pose proof (removeConn_frame cn w) as Hf. unfold post in Hf. rewrite Hrun in Hf.
  destruct Hf as (Hst & _ & Hcl & Hnc & _ & _ & _ & _ & _ & _).
  assert (Hc1 : heap w1 !! cn = Some c) by (rewrite Hh; exact Hc).
  split.
  - intros Hq. unfold Remove, removeConnWithLock, freeTurn. unfold_monad.
    rewrite Hrun. unfold queue_of in *.
    rewrite (proj2 (Z.ltb_lt 0 (queue (pool w1)))) by lia.
    rewrite closeConn_eq. simpl_world. rewrite Hc1.
    eexists. split; [reflexivity |]. unfold closers, StaleConns_of in *. simpl_world.
    rewrite Hq1, Hcs, Hnc, Hcl, Hst. repeat split.
  - unfold CloseConn, removeConnWithLock, add_StaleConns. unfold_monad.
    rewrite Hrun. rewrite closeConn_eq. simpl_world. rewrite Hc1.
    eexists. split.
    + rewrite Hnc. f_equal.
      pose proof (removeConn_env cn w) as He. unfold post in He. rewrite Hrun in He.
      rewrite He. reflexivity.
    + unfold closers, StaleConns_of, queue_of, AddUint32 in *. simpl_world.
      rewrite ?Hq1, ?Hcs, ?Hnc, ?Hcl, ?Hst. repeat split.
Qed.

Lemma Remove_and_CloseConn_witness :
  exists w',
    Remove None 1%nat None w_one_out = Returns tt w'
    /\ queue_of w' = queue_of w_one_out - 1
    /\ netClosed w' = netClosed w_one_out ++ [0%nat].
Proof.
  destruct (Remove_and_CloseConn None 1%nat None w_one_out (mkConn 0 true 0 0 0) [1%nat])
    as (H & _); [vm_compute; reflexivity .. |].
  destruct H as (w' & Hrun & Hq & _ & Hn & _); [vm_compute; reflexivity |].
  exists w'. repeat split; assumption.
Defined.













(** ** The loop of [Get], candidate by candidate *)

Lemma healthy_same c w w' : same_times w w' -> healthy c w' = healthy c w.
Proof. intros (_ & Hc & Ht & He). unfold healthy. rewrite Hc, Ht, He. reflexivity. Qed.

Lemma same_times_refl w : same_times w w.
Proof. repeat split. Qed.

Lemma same_times_trans w1 w2 w3 :
  same_times w1 w2 -> same_times w2 w3 -> same_times w1 w3.
Proof.
  unfold same_times. intros (? & ? & ? & ?) (? & ? & ? & ?). repeat split; congruence.
Qed.

Lemma pop_order_nil fifo : pop_order fifo [] = [].
Proof. destruct fifo; reflexivity. Qed.

Lemma pop_order_length fifo xs : length (pop_order fifo xs) = length xs.
Proof. destruct fifo; [reflexivity | apply length_rev]. Qed.

Lemma pop_order_choice fifo xs cn rest :
  pop_choice fifo xs = (Some cn, rest) ->
  pop_order fifo xs = cn :: pop_order fifo rest.
Proof.
  unfold pop_choice, pop_order. destruct fifo.
  - destruct xs as [|x xs]; intros H; inversion H; subst. reflexivity.
  - destruct (decide (xs = [])) as [->|Hne]; [intros H; inversion H |].
    destruct (exists_last Hne) as (ys & y & ->).
    rewrite last_snoc, removelast_last. intros H. inversion H; subst.
    rewrite rev_app_distr. reflexivity.
Qed.

Lemma unlink_all_snoc gone cn xs :
  unlink_all (gone ++ [cn]) xs = remove_one cn (unlink_all gone xs).
Proof.
  revert xs. induction gone as [|g gone IH]; intros xs; [reflexivity |].
  cbn [app unlink_all]. apply IH.
Qed.

Lemma closers_closing_of w :
  closers w = Z.of_nat (length (closing_of (goroutines w))).
Proof.
  unfold closers, closing_of. f_equal.
  induction (goroutines w) as [|g gs IH]; [reflexivity |].
  rewrite filter_cons.
  destruct g; cbn; case_decide; cbn in *; try tauto; rewrite ?IH; reflexivity.
Qed.

(** An eviction: what [removeConn] changes for a connection that is
    allocated, registered or not. *)
Lemma removeConn_unlinks cn c xs w :
  heap w !! cn = Some c -> conns (pool w) = Some xs ->
  exists w', removeConn cn w = Returns tt w'
             /\ same_times w w'
             /\ conns (pool w') = Some (remove_one cn xs)
             /\ idleConns (pool w') = idleConns (pool w)
             /\ closing_of (goroutines w') = closing_of (goroutines w)
             /\ popCalls w' = popCalls w.
Proof.
  intros Hc Hxs. rewrite removeConn_eq, Hxs. unfold remove_one.
  destruct (remove_first cn xs) as [xs'|].
  - rewrite Hc. destruct (pooled c); eexists; (split; [reflexivity |]);
      unfold same_times; simpl_steps; targets; repeat split.
  - exists w. unfold same_times. repeat split. exact Hxs.
Qed.

Lemma Get_body_trace w0 ids0 i w :
  Get_loop_trace w0 ids0 w ->
  post (Get_body i) w
    (fun r w' => match r with
                 | inl _ => Get_loop_trace w0 ids0 w'
                 | inr a => Get_loop_outcome w0 ids0 a w'
                 end)
    (fun _ => False).
Proof.
  intros (gone & ids & Hids & Hnil & Hord & Ht & Hfa & Hcl & Hcs).
  pose proof Ht as (Hheap0 & Hcfg0 & _).
  unfold post. rewrite Get_body_eq, popIdle_eq.
  destruct (closed (pool w)); [reflexivity |].
  rewrite Hids.
  destruct ids as [|x ids'].
  - (* an empty pop *)
    change (Z.of_nat (length (@nil ptr)) =? 0) with true. cbv iota.
    destruct (decide (nil_ptr = nil_ptr)) as [_|]; [| contradiction].
    rewrite pop_order_nil, app_nil_r in Hord.
    destruct (3 <=? AddInt32 i 1).
    + split; [exact Hids |]. rewrite Hord. repeat split; assumption.
    + exists gone, []. rewrite pop_order_nil, app_nil_r.
      repeat split; try assumption; apply Ht.
  - (* a candidate *)
    replace (Z.of_nat (length (x :: ids')) =? 0) with false
      by (symmetry; apply Z.eqb_neq; simpl; lia).
    destruct (pop_choice_nonempty (PoolFIFO (cfg (pool w))) (x :: ids'))
      as (cn & rest & Hpc & Hl & Hin & Hsub); [discriminate |].
    rewrite Hpc.
    pose proof (pop_order_choice _ _ _ _ Hpc) as Hpo. rewrite Hcfg0 in Hpo.
    rewrite Hpo in Hord.
    assert (Hcn : cn <> nil_ptr) by (intros ->; contradiction).
    destruct (decide (cn = nil_ptr)); [contradiction |].
    assert (Hnil' : nil_ptr ∉ rest) by (intros Hx; apply Hnil, Hsub, Hx).
    set (w1 := reserve_n _ (unlink_idle rest w)).
    assert (Ht1 : same_times w0 w1).
    { apply (same_times_trans _ w); [exact Ht |].
      unfold same_times, w1. simpl_steps. repeat split. }
    assert (Hcl1 : closing_of (goroutines w1) = closing_of (goroutines w0) ++ gone).
    { rewrite <- Hcl. unfold w1. simpl_steps. targets. reflexivity. }
    assert (Hcs1 : conns (pool w1) = conns (pool w)) by reflexivity.
    assert (Hrest : idleConns (pool w1) = Some rest) by reflexivity.
    clearbody w1. pose proof Ht1 as (Hheap1 & _).
    destruct (heap w1 !! cn) as [c|] eqn:Hc; [| exact I].
    assert (Hc0 : heap w0 !! cn = Some c) by (rewrite <- Hheap1; exact Hc).
    pose proof (healthy_same c w0 w1 Ht1) as Hsame.
    destruct (healthy c w1) eqn:Hh.
    + (* the first healthy candidate *)
      exists gone, rest. simpl_steps.
      split; [exact Hrest |]. split; [exact Hord |].
      split; [unfold healthy_at; rewrite Hc0; symmetry; exact Hsame |].
      split; [exact Hfa |]. split; [exact Hcl1 |].
      intros xs Hxs. simpl_steps. rewrite Hcs1. exact (Hcs xs Hxs).
    + (* an unhealthy candidate *)
      destruct (conns (pool w1)) as [xs1|] eqn:Hxs1;
        [| rewrite removeConn_eq, Hxs1; exact I].
      destruct (removeConn_unlinks cn c xs1 w1 Hc Hxs1)
        as (w2 & -> & Ht2 & Hcs2 & Hids2 & Hcl2 & _).
      exists (gone ++ [cn]), rest. simpl_steps. targets.
      split; [rewrite Hids2; exact Hrest |]. split; [exact Hnil' |].
      split; [rewrite <- app_assoc; exact Hord |].
      split.
      { apply (same_times_trans _ w1); [exact Ht1 |].
        destruct Ht2 as (? & ? & ? & ?). unfold same_times. simpl_steps.
        repeat split; assumption. }
      split.
      { apply Forall_app. split; [exact Hfa |]. constructor; [| constructor].
        unfold stale_at. rewrite Hc0, <- Hsame. reflexivity. }
      split; [simpl_steps; targets; cbn; rewrite Hcl2, Hcl1, app_assoc; reflexivity |].
      intros xs Hxs. simpl_steps. rewrite Hcs2, unlink_all_snoc.
      specialize (Hcs xs Hxs). congruence.
Qed.

(** One round of the loop that finds the idle list empty. *)
Lemma Get_body_empty i w :
  0 <= i < 3 -> closed (pool w) = false -> idleConns (pool w) = Some [] ->
  Get_body i w =
  Returns (if 3 <=? i + 1 then inr None else inl (i + 1)) (count_pop w).
Proof.
  intros Hi Hc Hids. rewrite Get_body_eq, popIdle_eq, Hc, Hids.
  change (Z.of_nat (length (@nil ptr)) =? 0) with true. cbv iota.
  destruct (decide (nil_ptr = nil_ptr)) as [_|]; [| contradiction].
  unfold AddInt32. rewrite int32_small by lia.
  destruct (3 <=? i + 1); reflexivity.
Qed.

(** One round of the loop that finds a candidate. *)
Lemma Get_body_candidate i w ids cn rest c xs :
  closed (pool w) = false ->
  idleConns (pool w) = Some ids ->
  pop_choice (PoolFIFO (cfg (pool w))) ids = (Some cn, rest) ->
  cn <> nil_ptr ->
  heap w !! cn = Some c ->
  conns (pool w) = Some xs ->
  exists w',
    Get_body i w = Returns (if healthy c w then inr (Some (cn, None)) else inl i) w'
    /\ idleConns (pool w') = Some rest
    /\ popCalls w' = S (popCalls w)
    /\ (if healthy c w
        then conns (pool w') = Some xs
             /\ closing_of (goroutines w') = closing_of (goroutines w)
             /\ Hits_of w' = uint32 (Hits_of w + 1)
        else conns (pool w') = Some (remove_one cn xs)
             /\ closing_of (goroutines w') = closing_of (goroutines w) ++ [cn]
             /\ Hits_of w' = Hits_of w).
Proof.
  intros Hcl Hids Hpc Hcn Hc Hxs. rewrite Get_body_eq, popIdle_eq, Hcl, Hids.
  assert (Hne : ids <> []).
  { intros ->. unfold pop_choice in Hpc. destruct (PoolFIFO (cfg (pool w))); discriminate. }
  replace (Z.of_nat (length ids) =? 0) with false
    by (symmetry; apply Z.eqb_neq; destruct ids; [contradiction | simpl; lia]).
  rewrite Hpc. destruct (decide (cn = nil_ptr)); [contradiction |].
  set (w1 := reserve_n _ (unlink_idle rest w)).
  assert (Ht1 : same_times w w1) by (unfold same_times, w1; simpl_steps; repeat split).
  assert (Hcl1 : closing_of (goroutines w1) = closing_of (goroutines w)).
  { unfold w1. simpl_steps. targets. reflexivity. }
  assert (Hxs1 : conns (pool w1) = Some xs) by exact Hxs.
  assert (Hrest : idleConns (pool w1) = Some rest) by reflexivity.
  assert (Hpop1 : popCalls w1 = S (popCalls w)) by reflexivity.
  assert (Hhit1 : Hits_of w1 = Hits_of w) by reflexivity.
  assert (Hc1 : heap w1 !! cn = Some c) by exact Hc.
  clearbody w1. rewrite Hc1, (healthy_same c w w1 Ht1).
  destruct (healthy c w).
  - eexists. split; [reflexivity |]. unfold Hits_of, AddUint32 in *. simpl_steps.
    rewrite Hhit1. repeat split; assumption.
  - destruct (removeConn_unlinks cn c xs w1 Hc1 Hxs1)
      as (w2 & Hr2 & Ht2 & Hcs2 & Hids2 & Hcl2 & Hpop2).
    assert (Hhit2 : Hits_of w2 = Hits_of w1).
    { pose proof (removeConn_frame cn w1) as Hf. unfold post in Hf.
      rewrite Hr2 in Hf. destruct Hf as (Hst & _).
      unfold Hits_of. rewrite Hst. reflexivity. }
    rewrite Hr2. eexists. split; [reflexivity |]. unfold Hits_of in *. simpl_steps. targets. cbn.
    rewrite Hids2, Hpop2, Hcl2, Hcl1, Hhit2, Hhit1. repeat split; assumption.
Qed.

Lemma Get_loop_trace_init w ids :
  idleConns (pool w) = Some ids -> nil_ptr ∉ ids -> Get_loop_trace w ids w.
Proof.
  intros Hids Hnil. exists [], ids.
  split; [exact Hids |]. split; [exact Hnil |]. split; [reflexivity |].
  split; [apply same_times_refl |].
  split; [constructor |]. split; [rewrite app_nil_r; reflexivity |].
  intros xs Hxs. exact Hxs.
Qed.

(** C2 (as amended).  The counter of the loop of [Get] counts the pops
    that find no candidate, and only those: a round that finds the idle
    list empty adds one to the counter and leaves the loop at the third such
    round; a round that finds an unhealthy candidate unlinks it from
    [conns], starts a goroutine that closes it and goes round again with the
    counter as it was; a round that finds a healthy candidate returns it.
    On a pool that no other goroutine touches meanwhile, with [n] idle
    connections, the loop ends within [n + 3] rounds.  It returns the first
    candidate, in the order of [popIdle], that passes the health check, the
    candidates before it having been evicted, one pop each; when no candidate
    is healthy it breaks out towards the dial after all [n] were evicted and
    three more pops found the list empty, that is [n + 3] pops. *)
Theorem Get_loop_pops (w : World) (ids : list ptr)
    (Hids : idleConns (pool w) = Some ids) (Hnil : nil_ptr ∉ ids) :
  (forall fuel, (length ids + 3 <= fuel)%nat -> Get_loop fuel 0 w <> OutOfFuel)
  /\ (forall fuel r w',
         Get_loop fuel 0 w = Returns r w' ->
         match r with
         | Some (_, Some e) => e = ErrClosed
         | Some (cn, None) =>
             exists gone ids',
               pop_order (PoolFIFO (cfg (pool w))) ids =
               gone ++ cn :: pop_order (PoolFIFO (cfg (pool w))) ids'
               /\ cn <> nil_ptr
               /\ healthy_at w cn = true
               /\ Get_evicted gone w w'
               /\ idleConns (pool w') = Some ids'
               /\ popCalls w' = (popCalls w + length gone + 1)%nat
               /\ closers w' = closers w + Z.of_nat (length gone)
         | None =>
             Get_evicted (pop_order (PoolFIFO (cfg (pool w))) ids) w w'
             /\ idleConns (pool w') = Some []
             /\ popCalls w' = (popCalls w + length ids + 3)%nat
             /\ closers w' = closers w + Z.of_nat (length ids)
         end)
  /\ (forall i w1,
         0 <= i < 3 -> closed (pool w1) = false -> idleConns (pool w1) = Some [] ->
         Get_body i w1 =
         Returns (if 3 <=? i + 1 then inr None else inl (i + 1)) (count_pop w1))
  /\ (forall i w1 ids1 cn rest c xs,
         closed (pool w1) = false ->
         idleConns (pool w1) = Some ids1 ->
         pop_choice (PoolFIFO (cfg (pool w1))) ids1 = (Some cn, rest) ->
         cn <> nil_ptr ->
         heap w1 !! cn = Some c ->
         conns (pool w1) = Some xs ->
         exists w2,
           Get_body i w1 =
           Returns (if healthy c w1 then inr (Some (cn, None)) else inl i) w2
           /\ idleConns (pool w2) = Some rest
           /\ popCalls w2 = S (popCalls w1)
           /\ (if healthy c w1
               then conns (pool w2) = Some xs
                    /\ closing_of (goroutines w2) = closing_of (goroutines w1)
                    /\ Hits_of w2 = uint32 (Hits_of w1 + 1)
               else conns (pool w2) = Some (remove_one cn xs)
                    /\ closing_of (goroutines w2) = closing_of (goroutines w1) ++ [cn]
                    /\ Hits_of w2 = Hits_of w1)).
Proof.
  pose proof (Get_loop_inv_init w ids 0 Hids Hnil ltac:(lia)) as Hinit.
  split.
  { intros fuel Hfuel.
    apply (Get_loop_fuel fuel w ids 0 0 w ids Hinit Hids). simpl. lia. }
  split; [| split; [exact Get_body_empty | exact Get_body_candidate]].
  intros fuel r w' Hrun.
  assert (Hold : Get_loop_exit w ids 0 r w').
  { assert (Hp : post (Get_loop fuel 0) w (Get_loop_exit w ids 0) (fun _ => False)).
    { unfold Get_loop. apply loop_post with (Inv := Get_loop_inv w ids 0); [| exact Hinit].
      intros i w1 Hinv. apply Get_body_inv, Hinv. }
    exact (post_returns _ _ _ _ _ _ Hp Hrun). }
  assert (Hnew : Get_loop_outcome w ids r w').
  { assert (Hp : post (Get_loop fuel 0) w (Get_loop_outcome w ids) (fun _ => False)).
    { unfold Get_loop.
      apply loop_post with (Inv := fun (_ : Z) w1 => Get_loop_trace w ids w1);
        [| exact (Get_loop_trace_init w ids Hids Hnil)].
      intros i w1 Hinv. apply Get_body_trace, Hinv. }
    exact (post_returns _ _ _ _ _ _ Hp Hrun). }
  destruct Hold as (ids1 & Hids1 & Hlen1 & Hold).
  destruct r as [[cn [e|]]|]; cbn [Get_loop_outcome] in Hnew.
  - exact Hnew.
  - destruct Hnew as (gone & ids2 & Hids2 & Hord & Hh & Hev).
    destruct Hold as (Hcn & _ & Hpops & Hclosers).
    rewrite Hids1 in Hids2. inversion Hids2; subst ids2.
    assert (Hl : length ids = (length gone + S (length ids1))%nat).
    { apply (f_equal (@length ptr)) in Hord.
      rewrite length_app in Hord. cbn [length] in Hord.
      rewrite !pop_order_length in Hord. exact Hord. }
    exists gone, ids1. repeat split; try assumption; try apply Hev; lia.
  - destruct Hnew as (Hids2 & Hev). destruct Hold as (-> & Hpops & Hclosers).
    repeat split; try assumption; try apply Hev; lia.
Qed.

Lemma Get_loop_pops_witness : Get_loop 7 0 w_four_idle <> OutOfFuel.
Proof.
  assert (Hnil : nil_ptr ∉ [1%nat; 2%nat; 3%nat; 4%nat]).
  { intros H. repeat (apply elem_of_cons in H as [H|H]; [discriminate H |]).
    inversion H. }
  destruct (Get_loop_pops w_four_idle [1%nat; 2%nat; 3%nat; 4%nat]) as (H & _);
    [vm_compute; reflexivity | exact Hnil |].
  apply H. simpl. lia.
Defined.

(** ** The reaper *)

Lemma reaped_same w w' ids : same_times w w' -> reaped w' ids = reaped w ids.
Proof.
  intros Hs. induction ids as [|cn rest IH]; [reflexivity |].
  cbn [reaped]. unfold stale_at. destruct Hs as (Hh & Hrest). rewrite Hh.
  destruct (heap w !! cn) as [c|]; [| reflexivity].
  rewrite (healthy_same c w w') by (split; assumption).
  rewrite IH. reflexivity.
Qed.

Lemma ReapStaleConns_body_stop n w ids :
  idleConns (pool w) = Some ids ->
  (forall cn, cn ∈ ids -> is_Some (heap w !! cn)) ->
  reaped w ids = [] ->
  0 <= queue_of w < PoolSize_of w ->
  exists w', ReapStaleConns_body n w = Returns (inr n) w' /\ reaped_to [] w w'.
Proof.
  intros Hids Hheap Hr [Hq0 Hq1]. unfold queue_of, PoolSize_of in *.
  unfold ReapStaleConns_body, getTurn. unfold mbind at 1. unfold M_bind, bind.
  rewrite (proj2 (Z.ltb_lt _ _) Hq1).
  unfold mbind at 1. unfold M_bind, bind.
  rewrite reapStaleConn_eq. simpl_world. rewrite Hids.
  assert (Hdone : exists w',
             (freeTurn;; (if decide (nil_ptr = nil_ptr) then ret (inr n)
                          else closeConn nil_ptr;; ret (inl (n + 1))))
               (with_pool (set_queue (queue (pool w) + 1)) w)
             = Returns (inr n) w' /\ reaped_to [] w w').
  { unfold freeTurn. unfold mbind at 1. unfold M_bind, bind. simpl_world.
    rewrite (proj2 (Z.ltb_lt 0 (queue (pool w) + 1))) by lia.
    destruct (decide (nil_ptr = nil_ptr)) as [_|Hn]; [| contradiction].
    eexists. split; [reflexivity |].
    unfold reaped_to, same_times, queue_of, sockets_of. simpl_world.
    cbn [length omap list_omap drop unlink_all]. rewrite app_nil_r.
    repeat split; try lia; try (intros; assumption).
    exists 0%nat. cbn [replicate]. rewrite app_nil_r. split; [reflexivity | lia]. }
  destruct ids as [|cn rest]; [exact Hdone |].
  destruct (Hheap cn) as [c Hc]; [left |]. rewrite Hc.
  cbn [reaped] in Hr. unfold stale_at in Hr. rewrite Hc in Hr.
  change (healthy c (with_pool (set_queue (queue (pool w) + 1)) w)) with (healthy c w).
  destruct (healthy c w); [exact Hdone | discriminate Hr].
Qed.

Lemma ReapStaleConns_body_reap n w cn rest c xs :
  idleConns (pool w) = Some (cn :: rest) ->
  conns (pool w) = Some xs ->
  heap w !! cn = Some c ->
  healthy c w = false ->
  cn <> nil_ptr ->
  0 <= queue_of w < PoolSize_of w ->
  exists w', ReapStaleConns_body n w = Returns (inl (n + 1)) w' /\ reaped_to [cn] w w'.
Proof.
  intros Hids Hxs Hc Hst Hnil [Hq0 Hq1]. unfold queue_of, PoolSize_of in *.
  unfold ReapStaleConns_body, getTurn. unfold mbind at 1. unfold M_bind, bind.
  rewrite (proj2 (Z.ltb_lt _ _) Hq1).
  unfold mbind at 1. unfold M_bind, bind.
  rewrite reapStaleConn_eq. simpl_world. rewrite Hids, Hc.
  change (healthy c (with_pool (set_queue (queue (pool w) + 1)) w)) with (healthy c w).
  rewrite Hst.
  match goal with |- context [removeConn cn ?w1] =>
    destruct (removeConn_open cn w1 xs c) as (w2 & k & Hrun & Hcs & Hi & Hq2 & Hh & Hg & Hil & _);
    [simpl_world; assumption .. |];
    pose proof (removeConn_frame cn w1) as Hf; unfold post in Hf;
    pose proof (removeConn_env cn w1) as He; unfold post in He;
    rewrite Hrun in Hf, He |- *
  end.
  destruct Hf as (Hs2 & _ & _ & Hn2 & _ & _ & Hcfg2 & _).
  unfold queue_of in *. simpl_world.
  assert (Hclock : clock w2 = clock w).
  { revert Hrun. rewrite removeConn_eq. simpl_world. rewrite Hxs.
    destruct (remove_first cn xs); [| intros H; inversion H; reflexivity].
    simpl_world. rewrite Hc.
    destruct (pooled c); intros H; inversion H; reflexivity. }
  unfold freeTurn. unfold mbind at 1. unfold M_bind, bind.
  rewrite (proj2 (Z.ltb_lt 0 (queue (pool w2)))) by lia.
  destruct (decide (cn = nil_ptr)) as [|_]; [contradiction |].
  unfold mbind, M_bind, bind. rewrite closeConn_eq. simpl_world.
  rewrite Hh, Hc. eexists. split; [reflexivity |].
  unfold reaped_to, same_times, queue_of, sockets_of. simpl_world.
  cbn [length omap list_omap drop unlink_all]. rewrite Hc.
  cbn [fmap option_fmap option_map].
  repeat split; try assumption; try lia; try congruence.
  - intros ids Hids'. rewrite Hids in Hids'. inversion Hids'; subst.
    rewrite Hi. reflexivity.
  - exists k. split; [exact Hg | lia].
Qed.

Lemma reaped_to_cons cn cns w w1 w' :
  reaped_to [cn] w w1 -> reaped_to cns w1 w' ->
  is_Some (idleConns (pool w)) -> is_Some (conns (pool w)) ->
  reaped_to (cn :: cns) w w'.
Proof.
  intros ((Hh1 & Hc1 & Ht1 & He1) & Hs1 & Hq1 & Hn1 & Hi1 & Hx1 & k1 & Hg1 & Hl1)
         ((Hh2 & Hc2 & Ht2 & He2) & Hs2 & Hq2 & Hn2 & Hi2 & Hx2 & k2 & Hg2 & Hl2)
         [ids Hids] [xs Hxs].
  unfold reaped_to, same_times.
  repeat split; try congruence.
  - rewrite Hn2, Hn1, Hh1, <- app_assoc.
    change (cn :: cns) with ([cn] ++ cns). unfold sockets_of.
    rewrite omap_app. reflexivity.
  - intros ids0 Hids0. rewrite (Hi2 _ (Hi1 _ Hids0)).
    rewrite drop_drop. reflexivity.
  - intros xs0 Hxs0. rewrite (Hx2 _ (Hx1 _ Hxs0)). reflexivity.
  - exists (k1 + k2)%nat. rewrite Hg2, Hg1, <- app_assoc, replicate_add.
    split; [reflexivity |]. cbn [length] in *. lia.
Qed.

Lemma ReapStaleConns_loop_prefix ids :
  forall fuel n w xs,
    idleConns (pool w) = Some ids ->
    conns (pool w) = Some xs ->
    (forall cn, cn ∈ ids -> is_Some (heap w !! cn)) ->
    nil_ptr ∉ ids ->
    0 <= queue_of w < PoolSize_of w ->
    (length (reaped w ids) < fuel)%nat ->
    exists w',
      ReapStaleConns_loop fuel n w =
      Returns (n + Z.of_nat (length (reaped w ids))) w'
      /\ reaped_to (reaped w ids) w w'.
Proof.
  induction ids as [|cn rest IH]; intros fuel n w xs Hids Hxs Hheap Hnil Hq Hfuel.
  - destruct fuel as [|fuel]; [cbn in Hfuel; lia |].
    destruct (ReapStaleConns_body_stop n w [] Hids Hheap eq_refl Hq) as (w' & Hb & Hr).
    exists w'. unfold ReapStaleConns_loop. cbn [loop reaped length].
    unfold mbind, M_bind, bind. rewrite Hb. rewrite Z.add_0_r. split; [reflexivity | exact Hr].
  - destruct (reaped w (cn :: rest)) as [|x cns] eqn:Hre.
    + destruct fuel as [|fuel]; [cbn in Hfuel; lia |].
      destruct (ReapStaleConns_body_stop n w (cn :: rest) Hids Hheap Hre Hq)
        as (w' & Hb & Hr).
      exists w'. unfold ReapStaleConns_loop. cbn [loop length].
      unfold mbind, M_bind, bind. rewrite Hb. rewrite Z.add_0_r.
      split; [reflexivity | exact Hr].
    + cbn [reaped] in Hre. unfold stale_at in Hre.
      destruct (Hheap cn) as [c Hc]; [left |]. rewrite Hc in Hre.
      destruct (healthy c w) eqn:Hst; [discriminate Hre |].
      cbn [negb] in Hre. inversion Hre; subst x cns. clear Hre.
      apply not_elem_of_cons in Hnil as [Hne Hnil].
      destruct fuel as [|fuel]; [cbn in Hfuel; lia |].
      destruct (ReapStaleConns_body_reap n w cn rest c xs Hids Hxs Hc Hst
                  (fun H => Hne (eq_sym H)) Hq) as (w1 & Hb & Hr1).
      pose proof Hr1 as (Hsame & Hs1 & Hq1 & Hn1 & Hi1 & Hx1 & k1 & Hg1 & Hl1).
      assert (Hsame' := Hsame). destruct Hsame' as (Hh1 & Hc1 & _).
      destruct (IH fuel (n + 1) w1 (unlink_all [cn] xs)) as (w' & Hl & Hr).
      * rewrite (Hi1 _ Hids). reflexivity.
      * apply Hx1. exact Hxs.
      * intros y Hy. rewrite Hh1. apply Hheap. right. exact Hy.
      * exact Hnil.
      * unfold queue_of, PoolSize_of in *. rewrite Hq1, Hc1. exact Hq.
      * rewrite (reaped_same w w1 rest Hsame). cbn [length] in Hfuel. lia.
      * rewrite (reaped_same w w1 rest Hsame) in Hl, Hr.
        exists w'. unfold ReapStaleConns_loop in *. cbn [loop].
        unfold mbind at 1. unfold M_bind, bind. rewrite Hb. split.
        -- rewrite Hl. f_equal. cbn [length]. lia.
        -- eapply reaped_to_cons; [exact Hr1 | exact Hr | eauto | eauto].
Qed.

(** X10.  [ReapStaleConns] takes connections off the head of the idle list
    for as long as the head is stale, and stops at the first connection that
    is not.  Each one it takes is unlinked from the idle list and from
    [conns] and its socket is closed before the call returns.  The call
    returns their number, adds it to [stats.StaleConns] and leaves the turns
    as they were; the goroutines it starts are the fillers of
    [checkMinIdleConns]. *)
Theorem ReapStaleConns_prefix (fuel : nat) (w : World) (ids xs : list ptr)
    (Hids : idleConns (pool w) = Some ids)
    (Hxs : conns (pool w) = Some xs)
    (Hheap : forall cn, cn ∈ ids -> is_Some (heap w !! cn))
    (Hnil : nil_ptr ∉ ids)
    (Hturn : 0 <= queue_of w < PoolSize_of w)
    (Hfuel : (length (reaped w ids) < fuel)%nat) :
  exists w' (k : nat),
    ReapStaleConns fuel w = Returns (Z.of_nat (length (reaped w ids)), None) w'
    /\ idleConns (pool w') = Some (drop (length (reaped w ids)) ids)
    /\ conns (pool w') = Some (unlink_all (reaped w ids) xs)
    /\ netClosed w' = netClosed w ++ sockets_of (heap w) (reaped w ids)
    /\ StaleConns_of w' = uint32 (StaleConns_of w + Z.of_nat (length (reaped w ids)))
    /\ queue_of w' = queue_of w
    /\ goroutines w' = goroutines w ++ replicate k GoFiller
    /\ idleConnsLen (pool w') =
       idleConnsLen (pool w) - Z.of_nat (length (reaped w ids)) + Z.of_nat k.
Proof.
  destruct (ReapStaleConns_loop_prefix ids fuel 0 w xs Hids Hxs Hheap Hnil Hturn Hfuel)
    as (w1 & Hl & (Hsame & Hs & Hq & Hn & Hi & Hx & k & Hg & Hlen)).
  unfold ReapStaleConns, add_StaleConns. unfold_monad. rewrite Hl.
  eexists. exists k. split; [reflexivity |].
  unfold StaleConns_of, queue_of, AddUint32 in *. simpl_world.
  rewrite (Hi _ Hids), (Hx _ Hxs), Hs, Z.add_0_l, uint32_add_r.
  repeat split; assumption.
Qed.

Lemma ReapStaleConns_prefix_witness :
  exists w',
    ReapStaleConns 3 w_aged = Returns (2, None) w'
    /\ idleConns (pool w') = Some []
    /\ netClosed w' = [0%nat; 1%nat].
Proof.
  destruct (ReapStaleConns_prefix 3 w_aged [1%nat; 2%nat] [1%nat; 2%nat])
    as (w' & k & Hrun & Hi & _ & Hn & _).
  - vm_compute. reflexivity.
  - vm_compute. reflexivity.
  - intros cn Hcn. apply elem_of_cons in Hcn as [->|Hcn];
      [exists (mkConn 0 true 0 0 0); vm_compute; reflexivity |].
    apply list_elem_of_singleton in Hcn. subst cn.
    exists (mkConn 1 true 0 0 0). vm_compute. reflexivity.
  - intros H. apply elem_of_cons in H as [H|H]; [discriminate H |].
    apply list_elem_of_singleton in H. discriminate H.
  - vm_compute. split; [discriminate | reflexivity].
  - vm_compute. lia.
  - exists w'. split; [exact Hrun |]. split; [exact Hi | exact Hn].
Defined.

(** ** The fillers and [NewConn] *)

(** X11.  What the goroutine started by [checkMinIdleConns] does with the
    slot that was reserved for it, on an open pool whose circuit is closed.
    If its dial succeeds, the new connection is marked pooled and appended at
    the tail of both [conns] and the idle list, and the counters stay as
    reserved.  If its dial fails, the reservation is undone: [poolSize] and
    [idleConnsLen] go down by one, the error is recorded and
    [dialErrorsNum] goes up by one, unless the dialer's error is
    [ErrClosed] itself, in which case the slot stays reserved. *)
Theorem filler_outcomes (w : World) (xs ids : list ptr)
    (Hopen : closed (pool w) = false)
    (Hcircuit : circuit_open w = false)
    (Hxs : conns (pool w) = Some xs)
    (Hids : idleConns (pool w) = Some ids) :
  exists w',
    filler w = Returns tt w'
    /\ dials w' = S (dials w)
    /\ match Dialer (cfg (pool w)) (dials w) with
       | None =>
           heap w' !! nextPtr w = Some (mkConn (dials w) true (clock w) (clock w) 0)
           /\ conns (pool w') = Some (xs ++ [nextPtr w])
           /\ idleConns (pool w') = Some (ids ++ [nextPtr w])
           /\ poolSize (pool w') = poolSize (pool w)
           /\ idleConnsLen (pool w') = idleConnsLen (pool w)
           /\ dialErrorsNum (pool w') = dialErrorsNum (pool w)
       | Some err =>
           conns (pool w') = Some xs
           /\ idleConns (pool w') = Some ids
           /\ lastDialError (pool w') = Some err
           /\ dialErrorsNum (pool w') = uint32 (dialErrorsNum (pool w) + 1)
           /\ poolSize (pool w') =
              poolSize (pool w) - (if decide (err = ErrClosed) then 0 else 1)
           /\ idleConnsLen (pool w') =
              idleConnsLen (pool w) - (if decide (err = ErrClosed) then 0 else 1)
       end.
Proof.
  unfold filler, addIdleConn. unfold mbind at 1. unfold M_bind, bind.
  unfold mbind at 1. unfold M_bind, bind.
  rewrite dialConn_eq, Hopen, Hcircuit.
  destruct (Dialer (cfg (pool w)) (dials w)) as [err|].
  - unfold ret, filler_done, modify, dial_failed.
    destruct (decide (err = ErrClosed));
      destruct (AddUint32 (dialErrorsNum (pool w)) 1 =? uint32 (PoolSize (cfg (pool w))));
      eexists; (split; [reflexivity |]); unfold AddUint32; simpl_steps;
      rewrite ?Z.sub_0_r; repeat split; assumption.
  - rewrite addIdleConn_attach_eq.
    change (closed (pool (dial_ok true w))) with (closed (pool w)). rewrite Hopen.
    change (conns (pool (dial_ok true w))) with (conns (pool w)).
    change (idleConns (pool (dial_ok true w))) with (idleConns (pool w)).
    rewrite Hxs, Hids. eexists. split; [reflexivity |].
    unfold dial_ok. simpl_world. rewrite lookup_insert_eq. repeat split.
Qed.

Lemma filler_outcomes_witness :
  exists w',
    filler w_reserved = Returns tt w'
    /\ conns (pool w') = Some [1%nat]
    /\ idleConns (pool w') = Some [1%nat].
Proof.
  destruct (filler_outcomes w_reserved [] []) as (w' & Hrun & _ & H);
    [vm_compute; reflexivity .. |].
  exists w'. split; [exact Hrun |].
  destruct H as (_ & Hc & Hi & _). split; [exact Hc | exact Hi].
Defined.

Lemma remove_first_snoc cn xs :
  cn ∉ xs -> remove_first cn (xs ++ [cn]) = Some xs.
Proof.
  induction xs as [|x xs IH]; intros Hin; cbn [app remove_first].
  - destruct (decide (cn = cn)); [reflexivity | contradiction].
  - apply not_elem_of_cons in Hin as [Hne Hin].
    destruct (decide (x = cn)); [congruence |].
    rewrite IH by assumption. reflexivity.
Qed.

(** X12.  [NewConn] dials outside the pool's accounting: on an open pool
    whose dial succeeds it registers the new connection in [conns] with
    [pooled = false] and takes no turn; [poolSize] does not move.  A [Put] of
    that connection does not park it: the connection is unlinked from
    [conns] again and handed to a closing goroutine, the idle list and the
    counters stay as they were, and one turn is released although
    [NewConn] had taken none. *)
Theorem NewConn_then_Put (ctx : Context) (w : World) (xs ids : list ptr)
    (Hopen : closed (pool w) = false)
    (Hcircuit : circuit_open w = false)
    (Hdial : Dialer (cfg (pool w)) (dials w) = None)
    (Hxs : conns (pool w) = Some xs)
    (Hids : idleConns (pool w) = Some ids)
    (Hfresh : nextPtr w ∉ xs)
    (Hq : 0 < queue_of w) :
  exists w1 w2,
    NewConn ctx w = Returns (nextPtr w, None) w1
    /\ heap w1 !! nextPtr w = Some (mkConn (dials w) false (clock w) (clock w) 0)
    /\ conns (pool w1) = Some (xs ++ [nextPtr w])
    /\ poolSize (pool w1) = poolSize (pool w)
    /\ queue_of w1 = queue_of w
    /\ Put ctx (nextPtr w) w1 = Returns tt w2
    /\ conns (pool w2) = Some xs
    /\ idleConns (pool w2) = Some ids
    /\ poolSize (pool w2) = poolSize (pool w)
    /\ idleConnsLen (pool w2) = idleConnsLen (pool w)
    /\ queue_of w2 = queue_of w - 1
    /\ goroutines w2 = goroutines w ++ [GoCloseConn (nextPtr w)].
Proof.
  unfold NewConn. rewrite newConn_eq, dialConn_eq, Hopen, Hcircuit, Hdial.
  change (closed (pool (dial_ok false w))) with (closed (pool w)). rewrite Hopen.
  change (conns (pool (dial_ok false w))) with (conns (pool w)). rewrite Hxs.
  eexists. eexists. split; [reflexivity |].
  unfold push_conn, dial_ok, queue_of in *. simpl_world. rewrite lookup_insert_eq.
  do 4 (split; [reflexivity |]).
  rewrite Put_eq. simpl_world. rewrite lookup_insert_eq. simpl_world.
  change (0 <? 0) with false. cbn [negb]. cbv beta iota.
  rewrite AsyncRemove_eq, removeConn_eq. simpl_world.
  rewrite (remove_first_snoc _ _ Hfresh). rewrite lookup_insert_eq. simpl_world.
  rewrite (proj2 (Z.ltb_lt 0 (queue (pool w)))) by lia.
  split; [reflexivity |]. unfold take_turn_back. simpl_steps.
  repeat split. exact Hids.
Qed.

Lemma NewConn_then_Put_witness :
  exists w1 w2,
    NewConn None w_one_out = Returns (2%nat, None) w1
    /\ Put None 2%nat w1 = Returns tt w2
    /\ queue_of w2 = 0.
Proof.
  destruct (NewConn_then_Put None w_one_out [1%nat] [])
    as (w1 & w2 & Hn & _ & _ & _ & _ & Hp & _ & _ & _ & _ & Hq & _).
  - vm_compute. reflexivity.
  - vm_compute. reflexivity.
  - vm_compute. reflexivity.
  - vm_compute. reflexivity.
  - vm_compute. reflexivity.
  - intros H. apply list_elem_of_singleton in H. discriminate H.
  - vm_compute. reflexivity.
  - exists w1, w2. split; [exact Hn |]. split; [exact Hp | exact Hq].
Defined.

(** * Ownership of connections along a schedule *)

(** X13.  Take a pool whose [PoolSize] is positive as a uint32, and callers
    that keep to the protocol: [Put] and [Remove] are called with a
    connection that the caller holds from [Get], [CloseConn] with a
    connection it holds from [Get] or [NewConn], each connection is given
    back once, and [Filter] is not used.  Then along every schedule of calls
    and goroutine turns no socket is closed twice, and every connection that
    was ever dialled is accounted for: it is registered in [conns], or
    waits for its closing goroutine or for its filler to attach it (its
    socket is open in all three cases), or its socket has been closed. *)
Theorem sockets_closed_once (opt : Options) (e : Env) (es : list event) (s0 s : Sys)
    (Hsize : 0 < uint32 (PoolSize opt))
    (Hstart : start opt e = Some s0)
    (Hdisc : disciplined es s0)
    (Hrun : run es s0 = Some s) :
  NoDup (netClosed (world s))
  /\ all_accounted (world s)
  /\ owned_open (world s).
Proof.
  pose proof (Safe_run es s0 s (Safe_start opt e s0 Hsize Hstart) Hdisc Hrun) as [HK _].
  split; [exact (cl_nodup _ _ _ _ _ _ _ _ _ _ _ HK) |]. split.
  - intros cn c Hc.
    apply (all_done _ _ _ _ _ _ _ _ _ _ _ HK cn (netConn c)).
    unfold sock. unfold ptr in *. rewrite Hc. reflexivity.
  - intros cn c Hc Hin.
    destruct (own_open _ _ _ _ _ _ _ _ _ _ _ HK cn Hin) as (sk & Hs & Hopen).
    unfold sock in Hs. unfold ptr in *. rewrite Hc in Hs.
    inversion Hs; subst. exact Hopen.
Qed.

Lemma sockets_closed_once_witness :
  NoDup (netClosed (world (sys_or (run two_callers s_small) s_small))).
Proof.
  destruct (sockets_closed_once opt_small sound_env two_callers s_small
              (sys_or (run two_callers s_small) s_small)) as (H & _).
  - vm_compute. reflexivity.
  - vm_compute. reflexivity.
  - apply disciplinedb_sound. vm_compute. reflexivity.
  - vm_compute. reflexivity.
  - exact H.
Defined.

(** X14.  Under the same protocol a connection that [Get] has handed out
    is exclusive: no connection is held from [Get] twice at the same time,
    and there are at least as many turns taken as connections held from
    [Get].  While the pool is open, a connection held from [Get] or
    [NewConn] is registered in [conns], is not in the idle list (so no other
    [Get] can return it), and its socket has not been closed. *)
Theorem held_exclusive (opt : Options) (e : Env) (es : list event) (s0 s : Sys)
    (Hsize : 0 < uint32 (PoolSize opt))
    (Hstart : start opt e = Some s0)
    (Hdisc : disciplined es s0)
    (Hrun : run es s0 = Some s) :
  NoDup (heldGet s)
  /\ Z.of_nat (length (heldGet s)) <= queue (pool (world s))
  /\ forall xs cn,
       conns (pool (world s)) = Some xs ->
       cn ∈ heldGet s \/ cn ∈ heldNew s ->
       (cn ∈ xs)
       /\ (forall ids, idleConns (pool (world s)) = Some ids -> cn ∉ ids)
       /\ exists c, heap (world s) !! cn = Some c /\ netConn c ∉ netClosed (world s).
Proof.
  pose proof (Safe_run es s0 s (Safe_start opt e s0 Hsize Hstart) Hdisc Hrun) as HS.
  unfold Safe_sys in HS. pose proof HS as [HK _].
  destruct (tickets _ _ _ _ _ _ _ _ _ _ _ HK) as [Hnd Hq].
  split; [exact Hnd |]. split; [exact Hq |].
  intros xs cn Hxs Hheld.
  destruct (Safe_held _ _ _ xs cn HS Hxs Hheld) as [Hin Hidle].
  split; [exact Hin |]. split; [exact Hidle |].
  destruct (Safe_conns_heap _ _ _ xs cn HS Hxs Hin) as [c Hc].
  exists c. split; [exact Hc |].
  destruct (own_open _ _ _ _ _ _ _ _ _ _ _ HK cn) as (sk & Hs & Hopen).
  { rewrite Hxs. cbn [live_of]. apply elem_of_app. left. exact Hin. }
  unfold sock in Hs. unfold ptr in *. rewrite Hc in Hs.
  inversion Hs; subst. exact Hopen.
Qed.

Lemma held_exclusive_witness :
  NoDup (heldGet (sys_or (run (take 4 two_callers) s_small) s_small)).
Proof.
  destruct (held_exclusive opt_small sound_env (take 4 two_callers) s_small
              (sys_or (run (take 4 two_callers) s_small) s_small)) as (H & _).
  - vm_compute. reflexivity.
  - vm_compute. reflexivity.
  - apply disciplinedb_sound. vm_compute. reflexivity.
  - vm_compute. reflexivity.
  - exact H.
Defined.

(** * What [idleConnsLen] counts *)

Lemma keepR_refl Inv w : keepR Inv w w.
Proof. intros H. exact H. Qed.

Lemma keepR_trans Inv w1 w2 w3 : keepR Inv w1 w2 -> keepR Inv w2 w3 -> keepR Inv w1 w3.
Proof. unfold keepR. auto. Qed.

Lemma keepR_keeps {A} Inv (m : M A) : preserves (keepR Inv) m -> keeps Inv m.
Proof.
  intros Hm w Hi. specialize (Hm w). unfold post, keepR in *.
  destruct (m w); auto.
Qed.

Lemma keeps_keepR {A} Inv (m : M A) : keeps Inv m -> preserves (keepR Inv) m.
Proof.
  intros Hm w. unfold post, keepR. specialize (Hm w). unfold post in Hm.
  destruct (m w); auto.
Qed.

Lemma pending_fillers k :
  length (List.filter is_pending (replicate k GoFiller)) = k.
Proof. induction k as [|k IH]; [reflexivity |]. cbn. rewrite IH. reflexivity. Qed.

Ltac idle_leaf :=
  intros; unfold keepR, counted_idle, idle_len, pending, closed in *; simpl_steps;
  rewrite ?List.filter_app, ?length_app, ?pending_fillers;
  cbn [List.filter is_pending length];
  repeat match goal with
         | H : _ /\ _ |- _ => destruct H
         | |- _ -> _ => intro
         | |- _ /\ _ => split
         end;
  try assumption; try discriminate;
  try match goal with
      | H : ?c = false -> _, H' : ?c = false |- _ => specialize (H H')
      end;
  try lia.

Lemma counted_checkMinIdleConns opt :
  preserves (keepR (counted_idle opt)) checkMinIdleConns.
Proof. apply preserves_checkMinIdleConns. idle_leaf. Qed.

Lemma counted_popIdle opt : preserves (keepR (counted_idle opt)) popIdle.
Proof.
  intros w. unfold post. rewrite popIdle_eq.
  destruct (closed (pool w)) eqn:Hcl; [idle_leaf |].
  destruct (idleConns (pool w)) as [ids|] eqn:Hids; [| exact I].
  destruct (Z.eqb_spec (Z.of_nat (length ids)) 0) as [H0|Hne]; [idle_leaf |].
  assert (Hne' : ids <> []) by (intros ->; apply Hne; reflexivity).
  destruct (pop_choice_nonempty (PoolFIFO (cfg (pool w))) ids Hne')
    as (cn & rest & Hch & Hlen & _).
  rewrite Hch. intros (Hcfg & Herr & Hgap).
  unfold counted_idle, idle_len, pending, closed in *. simpl_steps.
  rewrite List.filter_app, length_app, pending_fillers.
  split; [exact Hcfg |]. split; [exact Herr |].
  intros Hopen. specialize (Hgap Hopen). rewrite Hids in Hgap. lia.
Qed.

Lemma counted_dialConn opt pooled :
  (forall k, Dialer opt k <> Some ErrClosed) ->
  preserves (keepR (counted_idle opt)) (dialConn pooled).
Proof.
  intros Hdial w. unfold post. rewrite dialConn_eq.
  destruct (closed (pool w)); [apply keepR_refl |].
  destruct (circuit_open w); [apply keepR_refl |].
  destruct (Dialer (cfg (pool w)) (dials w)) as [err|] eqn:Hd.
  - intros (Hcfg & Herr & Hgap). rewrite Hcfg in Hd.
    assert (Hne : Some err <> Some ErrClosed) by (rewrite <- Hd; apply Hdial).
    unfold dial_failed.
    destruct (AddUint32 (dialErrorsNum (pool w)) 1 =? uint32 (PoolSize (cfg (pool w))));
      unfold counted_idle, idle_len, pending, closed in *; simpl_steps;
      rewrite ?List.filter_app, ?length_app; cbn [List.filter is_pending length];
      (split; [exact Hcfg |]); (split; [exact Hne |]);
      intros Hopen; specialize (Hgap Hopen); lia.
  - unfold dial_ok. idle_leaf.
Qed.

Lemma counted_tryDial_iter opt :
  (forall k, Dialer opt k <> Some ErrClosed) ->
  preserves (keepR (counted_idle opt)) tryDial_iter.
Proof.
  intros Hdial w. unfold post. rewrite tryDial_iter_eq.
  destruct (closed (pool w)); [apply keepR_refl |].
  destruct (Dialer (cfg (pool w)) (dials w)) as [err|] eqn:Hd.
  - intros (Hcfg & Herr & Hgap). rewrite Hcfg in Hd.
    assert (Hne : Some err <> Some ErrClosed) by (rewrite <- Hd; apply Hdial).
    unfold probe_failed, counted_idle, idle_len, pending, closed in *. simpl_steps.
    split; [exact Hcfg |]. split; [exact Hne | exact Hgap].
  - unfold probe_ok. idle_leaf.
Qed.

Lemma counted_reapStaleConn opt : preserves (keepR (counted_idle opt)) reapStaleConn.
Proof.
  intros w. unfold post. rewrite reapStaleConn_eq.
  destruct (idleConns (pool w)) as [[|cn rest]|] eqn:Hids;
    [apply keepR_refl | | exact I].
  destruct (heap w !! cn) as [c|]; [| exact I].
  destruct (healthy c w); [apply keepR_refl |].
  match goal with |- context [removeConn cn ?w1] =>
    assert (Hstep : keepR (counted_idle opt) w w1);
    [| assert (Hrem : preserves (keepR (counted_idle opt)) (removeConn cn));
       [| specialize (Hrem w1); unfold post in Hrem;
          destruct (removeConn cn w1); try exact I;
          eapply keepR_trans; eassumption ] ]
  end.
  - intros (Hcfg & Herr & Hgap).
    unfold counted_idle, idle_len, pending, closed in *. simpl_steps.
    split; [exact Hcfg |]. split; [exact Herr |].
    intros Hopen. specialize (Hgap Hopen). rewrite Hids in Hgap.
    cbn [length] in Hgap. lia.
  - pose proof (keepR_refl (counted_idle opt)) as Hrefl.
    pose proof (keepR_trans (counted_idle opt)) as Htrans.
    pose proof (counted_checkMinIdleConns opt) as Hchk.
    unfold removeConn.
    repeat first [ assumption | preserves_step ]; idle_leaf.
Qed.

Ltac counted_auto opt :=
  pose proof (keepR_refl (counted_idle opt)) as Hrefl;
  pose proof (keepR_trans (counted_idle opt)) as Htrans;
  pose proof (counted_checkMinIdleConns opt) as Hchk;
  pose proof (counted_popIdle opt) as Hpop;
  pose proof (counted_reapStaleConn opt) as Hreap;
  repeat first [ assumption | preserves_step | unfold_head ];
  try idle_leaf.

Lemma counted_removeConn opt cn : preserves (keepR (counted_idle opt)) (removeConn cn).
Proof. counted_auto opt. Qed.

Lemma counted_AsyncRemove opt ctx cn reason :
  preserves (keepR (counted_idle opt)) (AsyncRemove ctx cn reason).
Proof. counted_auto opt. Qed.

Lemma counted_Put opt ctx cn : preserves (keepR (counted_idle opt)) (Put ctx cn).
Proof.
  intros w. unfold post. rewrite Put_eq.
  destruct (heap w !! cn) as [c|]; [| exact I].
  destruct (0 <? rdBuffered c);
    [apply (counted_AsyncRemove opt ctx cn (Some BadConnError) w) |].
  destruct (negb (pooled c)); [apply (counted_AsyncRemove opt ctx cn None w) |].
  destruct (idle_room w).
  - destruct (idleConns (pool w)) as [ids|] eqn:Hids; [| exact I].
    assert (Hpush : keepR (counted_idle opt) w (push_idle cn ids w)).
    { intros (Hcfg & Herr & Hgap).
      unfold counted_idle, idle_len, pending, closed, push_idle in *. simpl_steps.
      split; [exact Hcfg |]. split; [exact Herr |].
      intros Hopen. specialize (Hgap Hopen). rewrite Hids in Hgap.
      rewrite length_app. cbn [length]. lia. }
    destruct (0 <? queue (pool w)); [| exact Hpush].
    eapply keepR_trans; [exact Hpush |]. unfold take_turn_back. idle_leaf.
  - pose proof (counted_AsyncRemove opt ctx cn None w) as H. unfold post in H.
    rewrite AsyncRemove_eq in H. exact H.
Qed.

Lemma counted_closeConn opt cn : preserves (keepR (counted_idle opt)) (closeConn cn).
Proof. counted_auto opt. Qed.

Lemma counted_Filter_loop opt fn xs firstErr :
  preserves (keepR (counted_idle opt)) (Filter_loop fn xs firstErr).
Proof.
  revert firstErr. induction xs as [|cn xs IH]; intros firstErr; simpl.
  - apply preserves_ret. apply keepR_refl.
  - destruct (fn cn); [| apply IH].
    apply preserves_bind; [apply keepR_trans | | intros; apply IH].
    apply counted_closeConn.
Qed.

Lemma closed_Filter_loop fn xs firstErr w :
  post (Filter_loop fn xs firstErr) w
    (fun _ w' => _closed (pool w') = _closed (pool w)) (fun _ => False).
Proof.
  revert firstErr w. induction xs as [|cn xs IH]; intros firstErr w; cbn [Filter_loop].
  - reflexivity.
  - destruct (fn cn); [| apply IH].
    apply post_bind. unfold post at 1. rewrite closeConn_eq.
    destruct (heap w !! cn); [| exact I].
    eapply post_mono; [apply IH | | auto].
    intros r w' H. exact H.
Qed.

Lemma counted_Close opt : preserves (keepR (counted_idle opt)) Close.
Proof.
  intros w. unfold post, Close, List_elements. unfold_monad.
  destruct (_closed (pool w) =? 0); [| apply keepR_refl].
  simpl_world. destruct (conns (pool w)) as [xs|]; [| exact I].
  pose proof (counted_Filter_loop opt (fun _ => true) xs None
                (with_pool (set_closed 1) w)) as Hf.
  pose proof (closed_Filter_loop (fun _ => true) xs None (with_pool (set_closed 1) w))
    as Hc.
  unfold post in Hf, Hc.
  destruct (Filter_loop (fun _ => true) xs None (with_pool (set_closed 1) w))
    as [r w'| |w'|]; try exact I; [| contradiction].
  intros Hi.
  assert (H1 : counted_idle opt (with_pool (set_closed 1) w)).
  { destruct Hi as (Hcfg & Herr & _). unfold counted_idle, closed. simpl_world.
    split; [exact Hcfg |]. split; [exact Herr | discriminate]. }
  destruct (Hf H1) as (Hcfg & Herr & _).
  unfold counted_idle, closed. simpl_world.
  split; [exact Hcfg |]. split; [exact Herr |].
  rewrite Hc. discriminate.
Qed.

Lemma counted_newConn opt pooled :
  (forall k, Dialer opt k <> Some ErrClosed) ->
  preserves (keepR (counted_idle opt)) (newConn pooled).
Proof.
  intros Hdial. pose proof (counted_dialConn opt pooled Hdial) as Hd.
  counted_auto opt.
Qed.

Lemma counted_Get opt fuel ctx wk :
  (forall k, Dialer opt k <> Some ErrClosed) ->
  preserves (keepR (counted_idle opt)) (Get fuel ctx wk).
Proof.
  intros Hdial. pose proof (counted_newConn opt true Hdial) as Hn.
  counted_auto opt.
Qed.

Lemma pending_delete (gs : list goroutine) k g :
  gs !! k = Some g ->
  length (List.filter is_pending gs) =
  (length (List.filter is_pending (delete k gs)) + (if is_pending g then 1 else 0))%nat.
Proof.
  intros Hk. destruct (goroutines_split gs k g Hk) as [Hgs Hdel].
  rewrite Hdel. generalize dependent (drop (S k) gs). generalize (take k gs).
  intros a b Hgs _. rewrite Hgs. change (g :: b) with ([g] ++ b).
  rewrite !List.filter_app, !length_app. cbn [List.filter].
  destruct (is_pending g); cbn [length]; lia.
Qed.

Ltac counted_goal :=
  split; [assumption |];
  split; [first [assumption | discriminate | congruence] |];
  intros; first [lia | congruence].

Lemma counted_run_goroutine opt g k w :
  (forall j, Dialer opt j <> Some ErrClosed) ->
  counted_idle opt w -> goroutines w !! k = Some g ->
  post (run_goroutine g) (set_goroutines (delete k (goroutines w)) w)
    (fun _ w' => counted_idle opt w') (counted_idle opt).
Proof.
  intros Hdial (Hcfg & Herr & Hgap) Hk.
  pose proof (pending_delete (goroutines w) k g Hk) as Hdel.
  set (w0 := set_goroutines (delete k (goroutines w)) w).
  assert (Hgap0 : closed (pool w0) = false ->
                  idleConnsLen (pool w0) =
                  idle_len w0 + pending w0 + (if is_pending g then 1 else 0)).
  { intros Hopen. unfold w0, idle_len, pending, closed in *. simpl_world.
    specialize (Hgap Hopen). destruct (is_pending g); lia. }
  assert (Hcfg0 : cfg (pool w0) = opt) by exact Hcfg.
  assert (Herr0 : lastDialError (pool w0) <> Some ErrClosed) by exact Herr.
  clearbody w0. clear Hgap Hdel Hk Hcfg Herr.
  destruct g as [|cn|cn|]; cbn [is_pending] in Hgap0; unfold run_goroutine.
  - apply post_bind. unfold post at 1. rewrite dialConn_eq.
    destruct (closed (pool w0)) eqn:Hcl.
    { unfold post, filler_done. destruct (decide (ErrClosed = ErrClosed)); [| contradiction].
      unfold ret, counted_idle. counted_goal. }
    specialize (Hgap0 eq_refl).
    destruct (circuit_open w0).
    { destruct (lastDialError (pool w0)) as [e|] eqn:He.
      - unfold post, filler_done. destruct (decide (e = ErrClosed)) as [->|_];
          [contradiction |]. unfold modify, counted_idle, idle_len, pending, closed in *.
        simpl_steps. counted_goal.
      - unfold post, modify, counted_idle, idle_len, pending, closed in *. simpl_steps.
        rewrite List.filter_app, length_app. cbn [List.filter is_pending length].
        counted_goal. }
    destruct (Dialer (cfg (pool w0)) (dials w0)) as [err|] eqn:Hd.
    + rewrite Hcfg0 in Hd.
      assert (Hne : Some err <> Some ErrClosed) by (rewrite <- Hd; apply Hdial).
      unfold post, filler_done.
      destruct (decide (err = ErrClosed)) as [->|_]; [contradiction |].
      unfold modify, dial_failed.
      destruct (AddUint32 (dialErrorsNum (pool w0)) 1 =? uint32 (PoolSize (cfg (pool w0))));
        unfold counted_idle, idle_len, pending, closed in *; simpl_steps;
        rewrite ?List.filter_app, ?length_app; cbn [List.filter is_pending length];
        counted_goal.
    + unfold post, modify, dial_ok, counted_idle, idle_len, pending, closed in *.
      simpl_steps. rewrite List.filter_app, length_app.
      cbn [List.filter is_pending length]. counted_goal.
  - apply post_bind. unfold post at 1. rewrite addIdleConn_attach_eq.
    destruct (closed (pool w0)) eqn:Hcl.
    { rewrite closeConn_eq. destruct (heap w0 !! cn); [| exact I].
      unfold post, filler_done. destruct (decide (ErrClosed = ErrClosed)); [| contradiction].
      unfold ret, counted_idle, closed in *. simpl_world. counted_goal. }
    specialize (Hgap0 eq_refl).
    destruct (conns (pool w0)) as [xs|]; [| exact I].
    destruct (idleConns (pool w0)) as [ids|] eqn:Hids; [| exact I].
    unfold post, filler_done, ret, counted_idle, idle_len, pending, closed in *.
    simpl_world. rewrite Hids in Hgap0. rewrite length_app. cbn [length].
    counted_goal.
  - apply post_bind. unfold post at 1. rewrite closeConn_eq.
    destruct (heap w0 !! cn); [| exact I].
    unfold post, mret, M_ret, ret, counted_idle, idle_len, pending, closed in *.
    simpl_world. split; [assumption |]. split; [assumption |].
    intros Hopen. specialize (Hgap0 Hopen). lia.
  - assert (H0 : counted_idle opt w0).
    { split; [assumption |]. split; [assumption |].
      intros Hopen. specialize (Hgap0 Hopen). lia. }
    apply post_bind.
    eapply post_mono;
      [apply (keepR_keeps _ _ (counted_tryDial_iter opt Hdial) w0 H0) | | auto].
    intros [|] w1 H1; [exact H1 |].
    unfold post, modify. revert H1. idle_leaf.
Qed.

Lemma counted_invariant opt :
  (forall k, Dialer opt k <> Some ErrClosed) -> pool_invariant (counted_idle opt).
Proof.
  intros Hdial.
  pose proof (counted_newConn opt false Hdial) as Hnew.
  constructor; intros.
  - apply keepR_keeps, counted_Get. exact Hdial.
  - apply keepR_keeps, counted_Put.
  - apply keepR_keeps. counted_auto opt.
  - apply keepR_keeps. counted_auto opt.
  - apply keepR_keeps. counted_auto opt.
  - apply keepR_keeps. counted_auto opt.
  - apply keepR_keeps. counted_auto opt.
  - apply keepR_keeps. counted_auto opt.
  - apply keepR_keeps.
    pose proof (keepR_refl (counted_idle opt)) as Hrefl.
    pose proof (keepR_trans (counted_idle opt)) as Htrans.
    unfold Filter. repeat preserves_step. apply counted_Filter_loop.
  - apply keepR_keeps, counted_Close.
  - apply keepR_keeps. counted_auto opt.
  - apply keepR_keeps. counted_auto opt.
  - apply (counted_run_goroutine opt g k w Hdial); assumption.
  - revert H. idle_leaf.
  - unfold use_conn. destruct (heap w !! cn); [| exact H]. revert H. idle_leaf.
Qed.

Lemma counted_start opt e s0 :
  start opt e = Some s0 -> counted_idle opt (world s0).
Proof.
  intros Hs. unfold start, NewConnPool in Hs.
  destruct (PoolSize opt <? 0); [discriminate |].
  pose proof (counted_checkMinIdleConns opt (new_world opt e)) as Hk.
  unfold post in Hk.
  destruct (checkMinIdleConns (new_world opt e)) as [a w'| | |]; try discriminate.
  inversion Hs; subst. cbn [world]. apply Hk.
  unfold counted_idle, idle_len, pending, closed, new_world, new_pool. simpl_world.
  split; [reflexivity |]. split; [discriminate |]. intros _. reflexivity.
Qed.

(** X15.  With a dialer that never fails with [ErrClosed] itself, the
    counter behind [IdleLen] is exact on an open pool, along every schedule
    of calls and goroutine turns: [idleConnsLen] is the length of the idle
    list plus the number of fillers started by [checkMinIdleConns] that have
    not finished yet.  So [IdleLen] can exceed the number of idle
    connections only by the fillers in flight. *)
Theorem idleConnsLen_exact (opt : Options) (e : Env) (es : list event) (s0 s : Sys)
    (Hdial : forall k, Dialer opt k <> Some ErrClosed)
    (Hstart : start opt e = Some s0)
    (Hrun : run es s0 = Some s)
    (Hopen : closed (pool (world s)) = false) :
  idleConnsLen (pool (world s)) = idle_len (world s) + pending (world s).
Proof.
  pose proof (run_keeps (counted_idle opt) es (counted_invariant opt Hdial) s0 s
                (counted_start opt e s0 Hstart) Hrun) as (_ & _ & H).
  exact (H Hopen).
Qed.

Lemma idleConnsLen_exact_witness :
  idleConnsLen (pool (world (sys_or (run flaky_day s_flaky) s_flaky))) =
  idle_len (world (sys_or (run flaky_day s_flaky) s_flaky))
  + pending (world (sys_or (run flaky_day s_flaky) s_flaky)).
Proof.
  apply (idleConnsLen_exact opt_flaky sound_env flaky_day s_flaky).
  - intros k. unfold opt_flaky, flaky_dialer. cbn [Dialer].
    destruct (Nat.even k); discriminate.
  - vm_compute. reflexivity.
  - vm_compute. reflexivity.
  - vm_compute. reflexivity.
Defined.

(** * Reuse *)

(** X16.  A healthy pooled connection that is put back is what the next
    [Get] returns (with the default last-in-first-out order): the [Get] takes
    it from the idle list, counts a hit and does not dial.  After the two
    calls the idle list and the number of turns taken are as they were
    before the [Put]. *)
Theorem Put_then_Get_reuses (ctx : Context) (wk : wake) (fuel : nat) (cn : ptr)
    (w : World) (c : Conn) (ids : list ptr)
    (Hopen : closed (pool w) = false)
    (Hc : heap w !! cn = Some c)
    (Hnil : cn <> nil_ptr)
    (Hclean : rdBuffered c <= 0)
    (Hpooled : pooled c = true)
    (Hhealthy : healthy c w = true)
    (Hroom : idle_room w = true)
    (Hids : idleConns (pool w) = Some ids)
    (Hlifo : PoolFIFO (cfg (pool w)) = false)
    (Hq : 0 < queue_of w <= PoolSize_of w)
    (Hfuel : (0 < fuel)%nat) :
  exists w1 w2,
    Put ctx cn w = Returns tt w1
    /\ Get fuel None wk w1 = Returns (cn, None, AtHit) w2
    /\ dials w2 = dials w
    /\ Hits_of w2 = uint32 (Hits_of w + 1)
    /\ Misses_of w2 = Misses_of w
    /\ queue_of w2 = queue_of w
    /\ idleConns (pool w2) = Some ids.
Proof.
  unfold queue_of, PoolSize_of in *. destruct Hq as [Hq0 Hq1].
  rewrite Put_eq, Hc.
  rewrite (proj2 (Z.ltb_ge 0 (rdBuffered c))) by lia.
  rewrite Hpooled, Hroom, Hids. cbn [negb].
  rewrite (proj2 (Z.ltb_lt 0 (queue (pool w)))) by lia.
  eexists. eexists. split; [reflexivity |].
  destruct fuel as [|fuel]; [lia |].
  unfold Get. unfold mbind at 1. unfold M_bind, bind, gets.
  unfold take_turn_back, push_idle, closed in *. simpl_world. rewrite Hopen.
  unfold waitTurn, getTurn. unfold mbind at 1. unfold M_bind, bind.
  unfold mbind at 1. unfold M_bind, bind, gets. simpl_world.
  rewrite (proj2 (Z.ltb_lt (queue (pool w) - 1) (PoolSize (cfg (pool w))))) by lia.
  unfold mbind at 1. unfold M_bind, bind. simpl_world.
  rewrite (proj2 (Z.ltb_lt (queue (pool w) - 1) (PoolSize (cfg (pool w))))) by lia.
  unfold ret at 1. cbv beta iota.
  unfold mbind at 1. unfold M_bind, bind.
  unfold Get_loop. cbn [loop]. unfold mbind at 1. unfold M_bind, bind.
  rewrite Get_body_eq, popIdle_eq. unfold closed. simpl_steps. rewrite Hopen.
  rewrite length_app, Nat.add_comm. cbn [length Nat.add].
  destruct (Z.eqb_spec (Z.of_nat (S (length ids))) 0) as [H0|_]; [lia |].
  unfold pop_choice. rewrite Hlifo, last_snoc, removelast_last.
  destruct (decide (cn = nil_ptr)) as [|_]; [contradiction |].
  simpl_steps. rewrite Hc.
  change (healthy c _) with (healthy c w). rewrite Hhealthy.
  unfold ret. split; [reflexivity |].
  unfold Hits_of, Misses_of, AddUint32. simpl_steps.
  repeat split. lia.
Qed.

Lemma Put_then_Get_reuses_witness :
  exists w1 w2,
    Put None 1%nat w_lent = Returns tt w1
    /\ Get 1 None WakeTimer w1 = Returns (1%nat, None, AtHit) w2
    /\ dials w2 = dials w_lent.
Proof.
  destruct (Put_then_Get_reuses None WakeTimer 1 1%nat w_lent (mkConn 0 true 0 0 0) [])
    as (w1 & w2 & Hput & Hget & Hd & _).
  - vm_compute. reflexivity.
  - vm_compute. reflexivity.
  - discriminate.
  - vm_compute. discriminate.
  - vm_compute. reflexivity.
  - vm_compute. reflexivity.
  - vm_compute. reflexivity.
  - vm_compute. reflexivity.
  - vm_compute. reflexivity.
  - vm_compute. split; [reflexivity | discriminate].
  - lia.
  - exists w1, w2. split; [exact Hput |]. split; [exact Hget | exact Hd].
Defined.

(** * The constructor and its fillers *)

Lemma run_app es1 es2 s :
  run (es1 ++ es2) s = match run es1 s with
                       | Some s1 => run es2 s1
                       | None => None
                       end.
Proof.
  revert s. induction es1 as [|e es1 IH]; intros s; cbn [app run]; [reflexivity |].
  destruct (exec e s); [apply IH | reflexivity].
Qed.

Lemma run_fillers j :
  forall s atts,
    goroutines (world s) = replicate j GoFiller ++ atts ->
    closed (pool (world s)) = false ->
    circuit_open (world s) = false ->
    (forall i, Dialer (cfg (pool (world s))) i = None) ->
    exists s',
      run (replicate j (EGo 0)) s = Some s'
      /\ goroutines (world s') =
         atts ++ map GoFillerAttach (seq (nextPtr (world s)) j)
      /\ pool (world s') = pool (world s)
      /\ dials (world s') = (dials (world s) + j)%nat
      /\ netClosed (world s') = netClosed (world s).
Proof.
  induction j as [|j IH]; intros s atts Hg Hopen Hco Hdial.
  - exists s. cbn [replicate run seq map]. rewrite app_nil_r, Nat.add_0_r.
    repeat split. exact Hg.
  - cbn [replicate run]. cbn [exec]. rewrite Hg. cbn [replicate app lookup list_lookup].
    cbn [delete list_delete]. unfold run_goroutine.
    unfold mbind at 1. unfold M_bind, bind. rewrite dialConn_eq.
    unfold closed, circuit_open in *. simpl_world. rewrite Hopen, Hco, Hdial.
    unfold modify, settle.
    match goal with |- context [run _ (set_world ?w1 s)] =>
      destruct (IH (set_world w1 s) (atts ++ [GoFillerAttach (nextPtr (world s))]))
        as (s' & Hrun & Hg' & Hp' & Hd' & Hn')
    end.
    + cbn [world set_world]. unfold dial_ok. simpl_world.
      rewrite <- app_assoc. reflexivity.
    + cbn [world set_world]. unfold dial_ok. simpl_world. exact Hopen.
    + cbn [world set_world]. unfold dial_ok. simpl_world. exact Hco.
    + cbn [world set_world]. unfold dial_ok. simpl_world. exact Hdial.
    + exists s'. split; [exact Hrun |].
      cbn [world set_world] in Hg', Hp', Hd', Hn'. unfold dial_ok in *. simpl_world.
      rewrite Hg', Hp', Hd', Hn'. cbn [seq map]. rewrite <- app_assoc.
      repeat split. lia.
Qed.

Lemma run_attaches l :
  forall s xs ids,
    goroutines (world s) = map GoFillerAttach l ->
    closed (pool (world s)) = false ->
    conns (pool (world s)) = Some xs ->
    idleConns (pool (world s)) = Some ids ->
    exists s',
      run (replicate (length l) (EGo 0)) s = Some s'
      /\ goroutines (world s') = []
      /\ conns (pool (world s')) = Some (xs ++ l)
      /\ idleConns (pool (world s')) = Some (ids ++ l)
      /\ poolSize (pool (world s')) = poolSize (pool (world s))
      /\ idleConnsLen (pool (world s')) = idleConnsLen (pool (world s))
      /\ dials (world s') = dials (world s)
      /\ netClosed (world s') = netClosed (world s).
Proof.
  induction l as [|cn l IH]; intros s xs ids Hg Hopen Hxs Hids.
  - exists s. cbn [length replicate run]. rewrite !app_nil_r.
    repeat split; assumption.
  - cbn [length replicate run]. cbn [exec]. rewrite Hg. cbn [map lookup list_lookup].
    cbn [delete list_delete]. unfold run_goroutine.
    unfold mbind at 1. unfold M_bind, bind. rewrite addIdleConn_attach_eq.
    unfold closed in *. simpl_world. rewrite Hopen, Hxs, Hids.
    unfold filler_done, ret, settle.
    match goal with |- context [run _ (set_world ?w1 s)] =>
      destruct (IH (set_world w1 s) (xs ++ [cn]) (ids ++ [cn]))
        as (s' & Hrun & Hg' & Hx' & Hi' & Hp' & Hl' & Hd' & Hn')
    end; try (cbn [world set_world]; simpl_world; first [reflexivity | assumption]).
    exists s'. split; [exact Hrun |].
    cbn [world set_world] in *. simpl_world.
    rewrite Hg', Hx', Hi', Hp', Hl', Hd', Hn', <- !app_assoc. repeat split.
Qed.

(** X17.  The constructor warms the pool up.  With a dialer that succeeds,
    [0 <= PoolSize < 2^32] and [MinIdleConns >= 0], [NewConnPool] reserves
    [n = min(PoolSize, MinIdleConns)] slots and starts [n] fillers without
    dialling itself; once these have taken their turns, the pool holds
    exactly [n] connections, all of them idle, dialled by [n] calls of the
    dialer, [poolSize] and [idleConnsLen] are [n], and no goroutine is
    left. *)
Theorem NewConnPool_warms_up (opt : Options) (e : Env)
    (Hsize : 0 < PoolSize opt < 2 ^ 32)
    (Hmin : 0 <= MinIdleConns opt)
    (Hdial : forall i, Dialer opt i = None) :
  exists s0 s,
    start opt e = Some s0
    /\ dials (world s0) = 0%nat
    /\ run (warm_up (warm_count opt)) s0 = Some s
    /\ goroutines (world s) = []
    /\ conns (pool (world s)) = Some (seq 1 (warm_count opt))
    /\ idleConns (pool (world s)) = Some (seq 1 (warm_count opt))
    /\ poolSize (pool (world s)) = Z.of_nat (warm_count opt)
    /\ idleConnsLen (pool (world s)) = Z.of_nat (warm_count opt)
    /\ dials (world s) = warm_count opt
    /\ netClosed (world s) = [].
Proof.
  assert (Hstart : start opt e =
                   Some (mkSys (reserve_n (warm_count opt) (new_world opt e)) [] [] [])).
  { unfold start, NewConnPool.
    rewrite (proj2 (Z.ltb_ge (PoolSize opt) 0)) by lia.
    rewrite checkMinIdleConns_eq. do 3 f_equal.
    unfold refill_count, warm_count, refill_room, new_world, new_pool. simpl_world.
    destruct (MinIdleConns opt =? 0); [reflexivity |]. f_equal. lia. }
  set (s0 := mkSys (reserve_n (warm_count opt) (new_world opt e)) [] [] []) in *.
  destruct (run_fillers (warm_count opt) s0 []) as (s1 & Hrun1 & Hg1 & Hp1 & Hd1 & Hn1).
  { unfold s0, new_world. cbn [world]. simpl_steps. rewrite app_nil_r. reflexivity. }
  { reflexivity. }
  { unfold s0, circuit_open, new_world, new_pool, uint32. cbn [world]. simpl_steps.
    apply Z.leb_gt. rewrite Z.mod_small by lia. lia. }
  { intros i. unfold s0, new_world, new_pool. cbn [world]. simpl_steps. apply Hdial. }
  destruct (run_attaches (seq (nextPtr (world s0)) (warm_count opt)) s1 [] [])
    as (s2 & Hrun2 & Hg2 & Hx2 & Hi2 & Hp2 & Hl2 & Hd2 & Hn2).
  { rewrite Hg1. reflexivity. }
  { rewrite Hp1. reflexivity. }
  { rewrite Hp1. reflexivity. }
  { rewrite Hp1. reflexivity. }
  exists s0, s2. split; [exact Hstart |]. split; [reflexivity |].
  split.
  { unfold warm_up. rewrite replicate_add, run_app, Hrun1.
    rewrite length_seq in Hrun2. exact Hrun2. }
  rewrite Hg2, Hx2, Hi2, Hp2, Hl2, Hd2, Hn2, Hp1, Hd1, Hn1.
  unfold s0, new_world, new_pool. cbn [world]. simpl_steps.
  repeat split; lia.
Qed.

Lemma NewConnPool_warms_up_witness :
  exists s0 s,
    start opt_aging sound_env = Some s0
    /\ run (warm_up 2) s0 = Some s
    /\ idleConns (pool (world s)) = Some [1%nat; 2%nat].
Proof.
  destruct (NewConnPool_warms_up opt_aging sound_env)
    as (s0 & s & Hs & _ & Hrun & _ & _ & Hi & _).
  - vm_compute. split; reflexivity.
  - vm_compute. discriminate.
  - intros i. reflexivity.
  - exists s0, s. split; [exact Hs |]. split; [exact Hrun | exact Hi].
Defined.

(** * The admission channel bounds what [Get] lends *)

Lemma bounded_getTurn opt : preserves (keepR (turns_bounded opt)) getTurn.
Proof.
  intros w. unfold post, getTurn.
  destruct (Z.ltb_spec (queue (pool w)) (PoolSize (cfg (pool w)))) as [Hlt|_];
    [| apply keepR_refl].
  intros [Hcfg Hq]. unfold turns_bounded. simpl_world. rewrite Hcfg in Hlt.
  split; [exact Hcfg | lia].
Qed.

Ltac turns_leaf :=
  intros; unfold keepR, turns_bounded in *; simpl_steps;
  repeat match goal with
         | H : _ /\ _ |- _ => destruct H
         | |- _ -> _ => intro
         | |- _ /\ _ => split
         end;
  try assumption; try lia.

Ltac turns_auto opt :=
  pose proof (keepR_refl (turns_bounded opt)) as Hrefl;
  pose proof (keepR_trans (turns_bounded opt)) as Htrans;
  pose proof (bounded_getTurn opt) as Hturn;
  repeat first [ assumption | preserves_step | unfold_head ];
  try turns_leaf.

Lemma turns_Filter_loop opt fn xs firstErr :
  preserves (keepR (turns_bounded opt)) (Filter_loop fn xs firstErr).
Proof.
  revert firstErr. induction xs as [|cn xs IH]; intros firstErr; simpl.
  - apply preserves_ret. apply keepR_refl.
  - destruct (fn cn); [| apply IH].
    apply preserves_bind; [apply keepR_trans | | intros; apply IH].
    turns_auto opt.
Qed.

Lemma turns_invariant opt : pool_invariant (turns_bounded opt).
Proof.
  constructor; intros.
  - apply keepR_keeps. turns_auto opt.
  - apply keepR_keeps. turns_auto opt.
  - apply keepR_keeps. turns_auto opt.
  - apply keepR_keeps. turns_auto opt.
  - apply keepR_keeps. turns_auto opt.
  - apply keepR_keeps. turns_auto opt.
  - apply keepR_keeps. turns_auto opt.
  - apply keepR_keeps. turns_auto opt.
  - apply keepR_keeps.
    pose proof (keepR_refl (turns_bounded opt)) as Hrefl.
    pose proof (keepR_trans (turns_bounded opt)) as Htrans.
    unfold Filter. repeat preserves_step. apply turns_Filter_loop.
  - apply keepR_keeps.
    pose proof (keepR_refl (turns_bounded opt)) as Hrefl.
    pose proof (keepR_trans (turns_bounded opt)) as Htrans.
    unfold Close. repeat preserves_step; try apply turns_Filter_loop; turns_leaf.
  - apply keepR_keeps. turns_auto opt.
  - apply keepR_keeps. turns_auto opt.
  - assert (H1 : turns_bounded opt (set_goroutines (delete k (goroutines w)) w)) by exact H.
    assert (Hg : preserves (keepR (turns_bounded opt)) (run_goroutine g)).
    { destruct g; turns_auto opt. }
    exact (keepR_keeps _ _ Hg _ H1).
  - exact H.
  - unfold use_conn. destruct (heap w !! cn); exact H.
Qed.

Lemma turns_start opt e s0 : start opt e = Some s0 -> turns_bounded opt (world s0).
Proof.
  intros Hs. unfold start, NewConnPool in Hs.
  destruct (Z.ltb_spec (PoolSize opt) 0) as [|H0]; [discriminate |].
  rewrite checkMinIdleConns_eq in Hs. inversion Hs; subst. cbn [world].
  unfold turns_bounded, new_world, new_pool. simpl_steps. split; [reflexivity | exact H0].
Qed.

(** X18.  The pool never lends more than [PoolSize] connections through
    [Get] at the same time: under the callers' protocol (see X13), along
    every schedule, the connections currently held from [Get] are pairwise
    distinct and there are at most [PoolSize] of them.  ([NewConn] is outside
    this bound: it takes no turn.) *)
Theorem Get_lends_at_most_PoolSize (opt : Options) (e : Env) (es : list event)
    (s0 s : Sys)
    (Hsize : 0 < uint32 (PoolSize opt))
    (Hstart : start opt e = Some s0)
    (Hdisc : disciplined es s0)
    (Hrun : run es s0 = Some s) :
  NoDup (heldGet s) /\ Z.of_nat (length (heldGet s)) <= PoolSize opt.
Proof.
  pose proof (Safe_run es s0 s (Safe_start opt e s0 Hsize Hstart) Hdisc Hrun) as [HK _].
  destruct (tickets _ _ _ _ _ _ _ _ _ _ _ HK) as [Hnd Hq].
  pose proof (run_keeps (turns_bounded opt) es (turns_invariant opt) s0 s
                (turns_start opt e s0 Hstart) Hrun) as [_ Hb].
  split; [exact Hnd | lia].
Qed.

Lemma Get_lends_at_most_PoolSize_witness :
  Z.of_nat (length (heldGet (sys_or (run (take 4 two_callers) s_small) s_small))) <= 3.
Proof.
  destruct (Get_lends_at_most_PoolSize opt_small sound_env (take 4 two_callers) s_small
              (sys_or (run (take 4 two_callers) s_small) s_small)) as (_ & H).
  - vm_compute. reflexivity.
  - vm_compute. reflexivity.
  - apply disciplinedb_sound. vm_compute. reflexivity.
  - vm_compute. reflexivity.
  - exact H.
Defined.

(** * The registry *)

(** X19.  Under the callers' protocol (see X13) the registry stays
    well-formed along every schedule.  While the pool is open, [conns] holds
    no connection twice and no nil pointer, every registered connection is
    allocated, and the idle list holds no connection twice and only
    registered connections, so that it is never longer than [Len()]. *)
Theorem registry_consistent (opt : Options) (e : Env) (es : list event) (s0 s : Sys)
    (xs : list ptr)
    (Hsize : 0 < uint32 (PoolSize opt))
    (Hstart : start opt e = Some s0)
    (Hdisc : disciplined es s0)
    (Hrun : run es s0 = Some s)
    (Hxs : conns (pool (world s)) = Some xs) :
  NoDup xs
  /\ (forall cn, cn ∈ xs -> cn <> nil_ptr /\ is_Some (heap (world s) !! cn))
  /\ exists ids,
       idleConns (pool (world s)) = Some ids
       /\ NoDup ids
       /\ (forall cn, cn ∈ ids -> cn ∈ xs)
       /\ (length ids <= length xs)%nat.
Proof.
  pose proof (Safe_run es s0 s (Safe_start opt e s0 Hsize Hstart) Hdisc Hrun) as HS.
  unfold Safe_sys in HS. pose proof HS as [HK _].
  split; [| split].
  - pose proof (own_nodup _ _ _ _ _ _ _ _ _ _ _ HK) as Hnd.
    rewrite Hxs in Hnd. cbn [live_of] in Hnd.
    apply NoDup_app in Hnd as [Hnd _]. exact Hnd.
  - intros cn Hin. split.
    + exact (Safe_not_nil _ _ _ xs cn HS Hxs Hin).
    + destruct (Safe_conns_heap _ _ _ xs cn HS Hxs Hin) as [c Hc]. exists c. exact Hc.
  - destruct (idle_ok _ _ _ _ _ _ _ _ _ _ _ HK xs Hxs) as (ids & Hids & Hnd & Hall).
    exists ids. split; [exact Hids |]. split; [exact Hnd |].
    assert (Hsub : forall cn, cn ∈ ids -> cn ∈ xs) by (intros cn H; apply (Hall cn H)).
    split; [exact Hsub |].
    apply submseteq_length. apply NoDup_submseteq; assumption.
Qed.

Lemma registry_consistent_witness :
  exists ids,
    idleConns (pool (world (sys_or (run (take 9 two_callers) s_small) s_small))) = Some ids
    /\ (length ids <= 2)%nat.
Proof.
  destruct (registry_consistent opt_small sound_env (take 9 two_callers) s_small
              (sys_or (run (take 9 two_callers) s_small) s_small) [1%nat; 3%nat])
    as (_ & _ & ids & Hids & _ & _ & Hlen).
  - vm_compute. reflexivity.
  - vm_compute. reflexivity.
  - apply disciplinedb_sound. vm_compute. reflexivity.
  - vm_compute. reflexivity.
  - vm_compute. reflexivity.
  - exists ids. split; [exact Hids | exact Hlen].
Defined.

(** * What giving back, closing and reaping never do *)

Lemma no_dial_refl w : no_dial w w.
Proof. repeat split. Qed.

Lemma no_dial_trans w1 w2 w3 : no_dial w1 w2 -> no_dial w2 w3 -> no_dial w1 w3.
Proof.
  unfold no_dial. intros (? & ? & ? & ? & ? & ?) (? & ? & ? & ? & ? & ?).
  repeat split; congruence.
Qed.

Ltac no_dial_leaf :=
  intros; unfold no_dial, Hits_of, Misses_of; simpl_steps; repeat split.

Ltac no_dial_auto :=
  pose proof no_dial_refl as Hrefl; pose proof no_dial_trans as Htrans;
  repeat first [ assumption | preserves_step | unfold_head ];
  try no_dial_leaf.

Lemma no_dial_Filter_loop fn xs firstErr : preserves no_dial (Filter_loop fn xs firstErr).
Proof.
  revert firstErr. induction xs as [|cn xs IH]; intros firstErr; simpl.
  - apply preserves_ret. apply no_dial_refl.
  - destruct (fn cn); [| apply IH].
    apply preserves_bind; [apply no_dial_trans | | intros; apply IH].
    no_dial_auto.
Qed.

(** X20.  Giving a connection back, closing and reaping never dial and
    never touch the circuit breaker: [Put], [Remove], [CloseConn], [Filter],
    [Close], [ReapStaleConns], [Len], [IdleLen] and [Stats] leave the number
    of dialer calls, the set of allocated connections, [stats.Hits],
    [stats.Misses], [dialErrorsNum] and the last dial error as they were,
    whether they return or block.  (The refill that an eviction triggers is
    only reserved here; its dial happens in the filler goroutine.) *)
Theorem givers_never_dial :
  (forall ctx cn, preserves no_dial (Put ctx cn))
  /\ (forall ctx cn reason, preserves no_dial (Remove ctx cn reason))
  /\ (forall cn, preserves no_dial (CloseConn cn))
  /\ (forall fn, preserves no_dial (Filter fn))
  /\ preserves no_dial Close
  /\ (forall fuel, preserves no_dial (ReapStaleConns fuel))
  /\ preserves no_dial Len
  /\ preserves no_dial IdleLen
  /\ preserves no_dial ConnPool_Stats.
Proof.
  repeat apply conj; intros.
  - no_dial_auto.
  - no_dial_auto.
  - no_dial_auto.
  - pose proof no_dial_refl as Hrefl. pose proof no_dial_trans as Htrans.
    unfold Filter. repeat preserves_step. apply no_dial_Filter_loop.
  - pose proof no_dial_refl as Hrefl. pose proof no_dial_trans as Htrans.
    unfold Close. repeat preserves_step; try apply no_dial_Filter_loop; no_dial_leaf.
  - no_dial_auto.
  - no_dial_auto.
  - no_dial_auto.
  - no_dial_auto.
Qed.

(** * What [stats.Timeouts] counts *)

Lemma same_Timeouts_refl w : same_Timeouts w w.
Proof. reflexivity. Qed.

Lemma same_Timeouts_trans w1 w2 w3 :
  same_Timeouts w1 w2 -> same_Timeouts w2 w3 -> same_Timeouts w1 w3.
Proof. unfold same_Timeouts. congruence. Qed.

Ltac timeouts_auto :=
  pose proof same_Timeouts_refl as Hrefl; pose proof same_Timeouts_trans as Htrans;
  repeat first [ assumption | preserves_step | unfold_head ];
  try (intros; unfold same_Timeouts, Timeouts_of; simpl_steps; reflexivity).

Lemma same_Timeouts_Filter_loop fn xs firstErr :
  preserves same_Timeouts (Filter_loop fn xs firstErr).
Proof.
  revert firstErr. induction xs as [|cn xs IH]; intros firstErr; simpl.
  - apply preserves_ret. apply same_Timeouts_refl.
  - destruct (fn cn); [| apply IH].
    apply preserves_bind; [apply same_Timeouts_trans | | intros; apply IH].
    timeouts_auto.
Qed.

Lemma same_Timeouts_Get_loop fuel i : preserves same_Timeouts (Get_loop fuel i).
Proof. timeouts_auto. Qed.

Lemma same_Timeouts_newConn pooled : preserves same_Timeouts (newConn pooled).
Proof. timeouts_auto. Qed.

(** What a call of [Get] does to [stats.Timeouts]. *)
Lemma Get_timeouts fuel ctx wk w :
  context_errors ctx wk ->
  match Get fuel ctx wk w with
  | Returns (cn, err, site) w' =>
      Timeouts_of w' = if timed_out (err, site) then AddUint32 (Timeouts_of w) 1
                       else Timeouts_of w
  | Blocks w' => Timeouts_of w' = Timeouts_of w
  | Panics | OutOfFuel => True
  end.
Proof.
  intros [Hctx Hwk]. unfold Get. unfold mbind at 1. unfold M_bind, bind, gets.
  destruct (closed (pool w)); [reflexivity |].
  unfold mbind at 1. unfold M_bind, bind.
  assert (Hw : match waitTurn ctx wk w with
               | Returns err w1 =>
                   Timeouts_of w1 = (if timed_out (err, AtWaitTurn)
                                     then AddUint32 (Timeouts_of w) 1 else Timeouts_of w)
                   /\ (err = None -> Timeouts_of w1 = Timeouts_of w)
               | Blocks w1 => Timeouts_of w1 = Timeouts_of w
               | _ => True
               end).
  { unfold waitTurn, waitTurn_select, getTurn, add_Timeouts. unfold_monad.
    destruct ctx as [e|].
    - destruct (Hctx e eq_refl) as [->| ->]; split; try reflexivity; discriminate.
    - destruct (queue (pool w) <? PoolSize (cfg (pool w))) eqn:Hfree.
      + rewrite Hfree. split; reflexivity.
      + destruct wk as [e| |].
        * destruct (Hwk e eq_refl) as [->| ->]; split; try reflexivity; discriminate.
        * rewrite Hfree. reflexivity.
        * unfold Timeouts_of. simpl_world. split; [reflexivity | discriminate]. }
  destruct (waitTurn ctx wk w) as [[e|] w1| |w1|]; try exact I; try exact Hw.
  { destruct Hw as [Hw _]. exact Hw. }
  destruct Hw as [_ Hw]. specialize (Hw eq_refl).
  unfold mbind at 1. unfold M_bind, bind.
  pose proof (same_Timeouts_Get_loop fuel 0 w1) as Hl. unfold post, same_Timeouts in Hl.
  destruct (Get_loop fuel 0 w1) as [[[cn [e|]]|] w2| | |]; try exact I.
  - unfold ret. destruct e; cbn [timed_out]; congruence.
  - unfold ret. cbn [timed_out]. congruence.
  - unfold add_Misses, modify. unfold mbind at 1. unfold M_bind, bind.
    unfold mbind at 1. unfold M_bind, bind.
    match goal with |- context [newConn true ?w3] =>
      pose proof (same_Timeouts_newConn true w3) as Hn;
      unfold post, same_Timeouts in Hn;
      destruct (newConn true w3) as [[newcn [e|]] w4| | |] end;
      try exact I; unfold Timeouts_of in *; simpl_steps.
    + unfold freeTurn. unfold mbind, M_bind, bind, ret.
      destruct (0 <? queue (pool w4)); destruct e; cbn [timed_out]; simpl_world;
        congruence.
    + unfold ret. cbn [timed_out]. congruence.
    + congruence.
  - congruence.
Qed.

Lemma timeouts_settle {A} (m : M A) s (k : A -> World -> Sys) s' :
  preserves same_Timeouts m ->
  (forall a w', world (k a w') = w' /\ getLog (k a w') = getLog s) ->
  timeouts_logged s ->
  settle (m (world s)) s k = Some s' ->
  timeouts_logged s'.
Proof.
  intros Hm Hk Hl Hs. specialize (Hm (world s)). unfold post, same_Timeouts in Hm.
  unfold settle in Hs. unfold timeouts_logged in *.
  destruct (m (world s)) as [a w'| |w'|]; try discriminate; inversion Hs; subst.
  - destruct (Hk a w') as [-> ->]. rewrite Hm. exact Hl.
  - cbn [world getLog set_world]. rewrite Hm. exact Hl.
Qed.

Lemma same_Timeouts_run_goroutine g : preserves same_Timeouts (run_goroutine g).
Proof. destruct g; timeouts_auto. Qed.

Lemma timeouts_exec e s s' :
  match e with
  | EGet ctx wk => context_errors ctx wk
  | _ => True
  end ->
  timeouts_logged s -> exec e s = Some s' -> timeouts_logged s'.
Proof.
  intros Hctx Hl He.
  destruct e; cbn [exec] in He.
  - pose proof (Get_timeouts (idle_fuel (world s)) ctx wk (world s) Hctx) as Hg.
    unfold settle in He. unfold timeouts_logged in *.
    destruct (Get (idle_fuel (world s)) ctx wk (world s)) as [[[cn err] site] w'| |w'|];
      try discriminate; inversion He; subst; cbn [world getLog set_world].
    + rewrite count_gets_cons, Hg.
      destruct (timed_out (err, site)); unfold AddUint32.
      * rewrite uint32_idem, <- uint32_add_l, Hl, uint32_add_l. reflexivity.
      * rewrite Z.add_0_r. exact Hl.
    + rewrite Hg. exact Hl.
  - eapply timeouts_settle; [| | exact Hl | exact He]; [timeouts_auto | split; reflexivity].
  - eapply timeouts_settle; [| | exact Hl | exact He]; [timeouts_auto | split; reflexivity].
  - eapply timeouts_settle; [| | exact Hl | exact He]; [timeouts_auto | split; reflexivity].
  - eapply timeouts_settle; [| | exact Hl | exact He];
      [timeouts_auto | intros [? ?] ?; split; reflexivity].
  - eapply timeouts_settle; [| | exact Hl | exact He]; [timeouts_auto | split; reflexivity].
  - eapply timeouts_settle; [| | exact Hl | exact He]; [timeouts_auto | split; reflexivity].
  - eapply timeouts_settle; [| | exact Hl | exact He]; [timeouts_auto | split; reflexivity].
  - eapply timeouts_settle; [| | exact Hl | exact He]; [| split; reflexivity].
    pose proof same_Timeouts_refl as Hrefl. pose proof same_Timeouts_trans as Htrans.
    unfold Filter. repeat preserves_step. apply same_Timeouts_Filter_loop.
  - eapply timeouts_settle; [| | exact Hl | exact He]; [| split; reflexivity].
    pose proof same_Timeouts_refl as Hrefl. pose proof same_Timeouts_trans as Htrans.
    unfold Close. repeat preserves_step; try apply same_Timeouts_Filter_loop;
      intros; unfold same_Timeouts, Timeouts_of; simpl_steps; reflexivity.
  - eapply timeouts_settle; [| | exact Hl | exact He]; [timeouts_auto | split; reflexivity].
  - eapply timeouts_settle; [| | exact Hl | exact He]; [timeouts_auto | split; reflexivity].
  - destruct (goroutines (world s) !! k) as [g|]; [| inversion He; subst; exact Hl].
    pose proof (same_Timeouts_run_goroutine g
                  (set_goroutines (delete k (goroutines (world s))) (world s))) as Hg.
    unfold post, same_Timeouts in Hg. unfold settle in He. unfold timeouts_logged in *.
    destruct (run_goroutine g _); try discriminate; inversion He; subst;
      cbn [world getLog set_world]; rewrite Hg; exact Hl.
  - inversion He; subst. exact Hl.
  - inversion He; subst. unfold timeouts_logged, use_conn in *.
    cbn [world getLog set_world]. destruct (heap (world s) !! cn); exact Hl.
Qed.

Lemma timeouts_run es :
  forall s s', patient es -> timeouts_logged s -> run es s = Some s' -> timeouts_logged s'.
Proof.
  induction es as [|e es IH]; intros s s' Hp Hl Hrun; cbn [run] in Hrun.
  - inversion Hrun; subst. exact Hl.
  - apply Forall_cons in Hp as [He Hp].
    destruct (exec e s) as [s1|] eqn:Hex; [| discriminate].
    apply (IH s1 s' Hp); [| exact Hrun].
    exact (timeouts_exec e s s1 He Hl Hex).
Qed.

(** X21.  [stats.Timeouts] counts the calls of [Get] that gave up waiting
    for a turn and returned [ErrPoolTimeout], and nothing else.  Along every
    schedule whose callers' contexts report context errors only, the counter
    equals (modulo 2^32, it is a uint32) the number of such calls: a [Get]
    that fails for any other reason, a cancelled context included, and every
    other method leave it alone. *)
Theorem Timeouts_counts_expired_waits (opt : Options) (e : Env) (es : list event)
    (s0 s : Sys)
    (Hctx : patient es)
    (Hstart : start opt e = Some s0)
    (Hrun : run es s0 = Some s) :
  uint32 (Timeouts_of (world s)) = uint32 (count_gets timed_out (getLog s)).
Proof.
  apply (timeouts_run es s0 s Hctx); [| exact Hrun].
  unfold start, NewConnPool in Hstart.
  destruct (PoolSize opt <? 0); [discriminate |].
  rewrite checkMinIdleConns_eq in Hstart. inversion Hstart; subst.
  unfold timeouts_logged, Timeouts_of. cbn [world getLog]. simpl_steps.
  reflexivity.
Qed.

Lemma Timeouts_counts_expired_waits_witness :
  uint32 (Timeouts_of (world (sys_or (run crowded (mkSys w_reserved [] [] []))
                                     (mkSys w_reserved [] [] [])))) = 2.
Proof.
  rewrite (Timeouts_counts_expired_waits opt_reserved sound_env crowded
             (mkSys w_reserved [] [] [])
             (sys_or (run crowded (mkSys w_reserved [] [] [])) (mkSys w_reserved [] [] []))).
  - vm_compute. reflexivity.
  - unfold crowded, patient.
    repeat (apply Forall_cons; split;
            [split; intros x Hx; first [discriminate Hx | inversion Hx; subst; left; reflexivity] |]).
    apply Forall_nil. exact I.
  - vm_compute. reflexivity.
  - vm_compute. reflexivity.
Defined.

(** * What [poolSize] counts *)

Lemma is_pooled_fresh (h : gmap nat Conn) (np : ptr) c (xs : list ptr) :
  (forall cn, cn ∈ xs -> (cn < np)%nat) ->
  List.filter (is_pooled (<[np := c]> h)) xs = List.filter (is_pooled h) xs.
Proof.
  induction xs as [|x xs IH]; intros Hlt; [reflexivity |]. cbn [List.filter].
  assert (Hx : is_pooled (<[np := c]> h) x = is_pooled h x).
  { unfold is_pooled. rewrite lookup_insert_ne; [reflexivity |].
    pose proof (Hlt x ltac:(left)). lia. }
  rewrite Hx, IH; [reflexivity |]. intros cn Hcn. apply Hlt. right. exact Hcn.
Qed.

Lemma is_pooled_update (h : gmap nat Conn) (cn : ptr) c c' x :
  h !! cn = Some c -> pooled c' = pooled c ->
  is_pooled (<[cn := c']> h) x = is_pooled h x.
Proof.
  intros Hc Hp. unfold is_pooled. destruct (decide (x = cn)) as [->|Hne].
  - rewrite lookup_insert_eq. unfold ptr in *. rewrite Hc. exact Hp.
  - rewrite lookup_insert_ne by congruence. reflexivity.
Qed.

Lemma filter_is_pooled_update (h : gmap nat Conn) (cn : ptr) c c' xs :
  h !! cn = Some c -> pooled c' = pooled c ->
  List.filter (is_pooled (<[cn := c']> h)) xs = List.filter (is_pooled h) xs.
Proof.
  intros Hc Hp. induction xs as [|x xs IH]; [reflexivity |]. cbn [List.filter].
  rewrite (is_pooled_update h cn c c' x Hc Hp), IH. reflexivity.
Qed.

Lemma filter_remove_first (P : ptr -> bool) cn xs xs' :
  remove_first cn xs = Some xs' ->
  length (List.filter P xs) =
  (length (List.filter P xs') + (if P cn then 1 else 0))%nat.
Proof.
  revert xs'. induction xs as [|x xs IH]; intros xs' H; [discriminate |].
  cbn [remove_first] in H. destruct (decide (x = cn)) as [->|Hne].
  - inversion H; subst. cbn [List.filter]. destruct (P cn); cbn [length]; lia.
  - destruct (remove_first cn xs) as [r|]; [| discriminate].
    inversion H; subst. cbn [List.filter]. specialize (IH r eq_refl).
    destruct (P x); cbn [length]; lia.
Qed.

Lemma remove_first_subset cn xs xs' x :
  remove_first cn xs = Some xs' -> x ∈ xs' -> x ∈ xs.
Proof.
  intros H Hx. rewrite (remove_first_perm cn xs xs' H). right. exact Hx.
Qed.

Ltac pool_open :=
  unfold counted_pool, counted_pool_off, attaching_pooled, dial_sane, pooled_count,
    pending, closed in *.

Ltac pool_leaf :=
  intros; unfold keepR; pool_open; simpl_steps;
  rewrite ?List.filter_app, ?length_app, ?pending_fillers; targets;
  cbn [List.filter is_pending length];
  repeat match goal with
         | H : _ /\ _ |- _ => destruct H
         | |- _ -> _ => intro
         | |- _ /\ _ => split
         end;
  try assumption; try discriminate;
  try match goal with
      | H : ?c = false -> _, H' : ?c = false |- _ => specialize (H H')
      end;
  try lia; auto;
  try match goal with
      | H : forall cn, cn ∈ _ -> _ /\ _, H' : _ ∈ _ |- _ =>
          first [exact (proj1 (H _ H')) | exact (proj2 (H _ H'))]
      end.

Lemma pool_checkMinIdleConns opt :
  preserves (keepR (counted_pool opt)) checkMinIdleConns.
Proof. apply preserves_checkMinIdleConns. pool_leaf. Qed.

Lemma pool_removeConn opt cn : preserves (keepR (counted_pool opt)) (removeConn cn).
Proof.
  intros w. unfold post. rewrite removeConn_eq.
  destruct (conns (pool w)) as [xs|] eqn:Hxs; [| exact I].
  destruct (remove_first cn xs) as [xs'|] eqn:Hrem; [| apply keepR_refl].
  destruct (heap w !! cn) as [c|] eqn:Hc; [| exact I].
  pose proof (filter_remove_first (is_pooled (heap w)) cn xs xs' Hrem) as Hcount.
  assert (Hcn : is_pooled (heap w) cn = pooled c).
  { unfold is_pooled, ptr in *. rewrite Hc. reflexivity. }
  rewrite Hcn in Hcount.
  destruct (pooled c).
  - eapply keepR_trans.
    2: { pose proof (pool_checkMinIdleConns opt (unlink_pooled xs' w)) as Hk.
         unfold post in Hk. rewrite checkMinIdleConns_eq in Hk. exact Hk. }
    intros (Hcfg & Herr & Hsane & Hfresh & Hatt & Hsize).
    pool_open. unfold unlink_pooled. simpl_world. rewrite Hxs in *. cbn [live_of] in *.
    split; [exact Hcfg |]. split; [exact Herr |]. split; [exact Hsane |].
    split; [| split; [exact Hatt |]].
    + intros x Hx. apply Hfresh. exact (remove_first_subset cn xs xs' x Hrem Hx).
    + intros Hopen. specialize (Hsize Hopen). lia.
  - intros (Hcfg & Herr & Hsane & Hfresh & Hatt & Hsize).
    pool_open. simpl_world. rewrite Hxs in *. cbn [live_of] in *.
    split; [exact Hcfg |]. split; [exact Herr |]. split; [exact Hsane |].
    split; [| split; [exact Hatt |]].
    + intros x Hx. apply Hfresh. exact (remove_first_subset cn xs xs' x Hrem Hx).
    + intros Hopen. specialize (Hsize Hopen). lia.
Qed.

Lemma pool_dial_failed d opt err w :
  Some err <> Some ErrClosed ->
  counted_pool_off d opt w -> counted_pool_off d opt (dial_failed err w).
Proof.
  intros Hne (Hcfg & Herr & [Hs1 Hs2] & Hfresh & Hatt & Hsize).
  unfold dial_failed.
  destruct (AddUint32 (dialErrorsNum (pool w)) 1 =? uint32 (PoolSize (cfg (pool w))));
    pool_open; simpl_steps; rewrite ?List.filter_app, ?length_app; targets;
    cbn [List.filter is_pending length];
    (split; [exact Hcfg |]); (split; [exact Hne |]);
    (split; [split; [exact Hs1 | intros _; discriminate] |]);
    (split; [exact Hfresh |]); (split; [exact Hatt |]);
    intros Hopen; specialize (Hsize Hopen); lia.
Qed.

Lemma pool_dial_ok d opt pooled w :
  counted_pool_off d opt w -> counted_pool_off d opt (dial_ok pooled w).
Proof.
  intros (Hcfg & Herr & Hsane & Hfresh & Hatt & Hsize).
  pool_open. unfold dial_ok. simpl_world.
  split; [exact Hcfg |]. split; [exact Herr |]. split; [exact Hsane |].
  split; [| split].
  - intros cn Hcn. specialize (Hfresh cn Hcn). lia.
  - intros cn Hcn. destruct (Hatt cn Hcn) as [Hp Hlt]. split; [| lia].
    unfold is_pooled in *. rewrite lookup_insert_ne by lia. exact Hp.
  - intros Hopen. specialize (Hsize Hopen).
    rewrite is_pooled_fresh by exact Hfresh. exact Hsize.
Qed.

Lemma pool_dialConn opt pooled :
  (forall k, Dialer opt k <> Some ErrClosed) ->
  preserves (keepR (counted_pool opt)) (dialConn pooled).
Proof.
  intros Hdial w. unfold post. rewrite dialConn_eq.
  destruct (closed (pool w)); [apply keepR_refl |].
  destruct (circuit_open w); [apply keepR_refl |].
  destruct (Dialer (cfg (pool w)) (dials w)) as [err|] eqn:Hd.
  - intros Hi. apply pool_dial_failed; [| exact Hi].
    destruct Hi as (Hcfg & _). rewrite Hcfg in Hd. rewrite <- Hd. apply Hdial.
  - intros Hi. apply pool_dial_ok. exact Hi.
Qed.

Ltac rewrite_ptr E :=
  let H := fresh in pose proof E as H; unfold ptr in *; rewrite H; clear H.

Lemma pool_heap_update opt w cn c c' :
  heap w !! cn = Some c -> pooled c' = pooled c ->
  counted_pool opt w -> counted_pool opt (set_heap (<[cn := c']> (heap w)) w).
Proof.
  intros Hc Hp (Hcfg & Herr & Hsane & Hfresh & Hatt & Hsize).
  pool_open. simpl_world.
  split; [exact Hcfg |]. split; [exact Herr |]. split; [exact Hsane |].
  split; [exact Hfresh |]. split.
  - intros x Hx. destruct (Hatt x Hx) as [Hpx Hlt]. split; [| exact Hlt].
    rewrite_ptr (is_pooled_update (heap w) cn c c' x Hc Hp). exact Hpx.
  - intros Hopen. specialize (Hsize Hopen).
    rewrite_ptr (filter_is_pooled_update (heap w) cn c c'
                   (live_of (conns (pool w))) Hc Hp).
    exact Hsize.
Qed.

Lemma pool_isHealthyConn opt cn : preserves (keepR (counted_pool opt)) (isHealthyConn cn).
Proof.
  intros w. unfold post. rewrite isHealthyConn_eq.
  destruct (heap w !! cn) as [c|] eqn:Hc; [| exact I].
  destruct (healthy c w); [| apply keepR_refl].
  intros Hi. unfold touch. apply (pool_heap_update opt w cn c); [exact Hc | reflexivity | exact Hi].
Qed.

Lemma pool_tryDial_iter opt :
  (forall k, Dialer opt k <> Some ErrClosed) ->
  preserves (keepR (counted_pool opt)) tryDial_iter.
Proof.
  intros Hdial w. unfold post. rewrite tryDial_iter_eq.
  destruct (closed (pool w)); [apply keepR_refl |].
  destruct (Dialer (cfg (pool w)) (dials w)) as [err|] eqn:Hd.
  - intros (Hcfg & Herr & [Hs1 Hs2] & Hfresh & Hatt & Hsize). rewrite Hcfg in Hd.
    assert (Hne : Some err <> Some ErrClosed) by (rewrite <- Hd; apply Hdial).
    pool_open. unfold probe_failed. simpl_steps.
    split; [exact Hcfg |]. split; [exact Hne |].
    split; [split; [exact Hs1 | intros _; discriminate] |].
    split; [exact Hfresh |]. split; [exact Hatt | exact Hsize].
  - intros (Hcfg & Herr & [Hs1 Hs2] & Hfresh & Hatt & Hsize).
    pool_open. unfold probe_ok. simpl_steps.
    split; [exact Hcfg |]. split; [exact Herr |].
    split; [split; [exact Hs1 | intros H; lia] |].
    split; [exact Hfresh |]. split; [exact Hatt | exact Hsize].
Qed.

Lemma filter_is_pooled_ext (h h' : gmap nat Conn) (np : ptr) (xs : list ptr) :
  (forall x : ptr, x <> np -> h' !! x = h !! x) ->
  (forall x, x ∈ xs -> (x < np)%nat) ->
  List.filter (is_pooled h') xs = List.filter (is_pooled h) xs.
Proof.
  intros Hext. induction xs as [|x xs IH]; intros Hlt; [reflexivity |].
  cbn [List.filter].
  assert (Hx : is_pooled h' x = is_pooled h x).
  { unfold is_pooled. rewrite Hext; [reflexivity |].
    pose proof (Hlt x ltac:(left)). lia. }
  rewrite Hx, IH; [reflexivity |]. intros y Hy. apply Hlt. right. exact Hy.
Qed.

(** A freshly allocated connection has been registered in [conns]. *)
Lemma pool_registered opt w w' (b : bool) xs :
  counted_pool opt w ->
  conns (pool w) = Some xs ->
  (forall x : ptr, x <> nextPtr w -> heap w' !! x = heap w !! x) ->
  is_pooled (heap w') (nextPtr w) = b ->
  nextPtr w' = S (nextPtr w) ->
  conns (pool w') = Some (xs ++ [nextPtr w]) ->
  poolSize (pool w') = poolSize (pool w) + (if b then 1 else 0) ->
  cfg (pool w') = cfg (pool w) ->
  lastDialError (pool w') = lastDialError (pool w) ->
  dialErrorsNum (pool w') = dialErrorsNum (pool w) ->
  goroutines w' = goroutines w ->
  _closed (pool w') = _closed (pool w) ->
  counted_pool opt w'.
Proof.
  intros (Hcfg & Herr & Hsane & Hfresh & Hatt & Hsize)
         Hxs Hext Hnp Hnext Hconns Hps Hc Hle Hde Hg Hcl.
  pool_open. rewrite Hnext, Hconns, Hps, Hc, Hle, Hde, Hg, Hcl.
  rewrite Hxs in *. cbn [live_of] in *.
  split; [exact Hcfg |]. split; [exact Herr |]. split; [exact Hsane |].
  split; [| split].
  - intros cn Hcn. apply elem_of_app in Hcn as [Hcn|Hcn].
    + specialize (Hfresh cn Hcn). lia.
    + apply list_elem_of_singleton in Hcn. subst cn. lia.
  - intros cn Hcn. destruct (Hatt cn Hcn) as [Hp Hlt]. split; [| lia].
    unfold is_pooled in *. rewrite Hext by lia. exact Hp.
  - intros Hopen. specialize (Hsize Hopen).
    rewrite List.filter_app, length_app.
    rewrite (filter_is_pooled_ext (heap w) (heap w') (nextPtr w) xs Hext Hfresh).
    cbn [List.filter]. rewrite Hnp. destruct b; cbn [length]; lia.
Qed.

Lemma pool_newConn opt pooled :
  (forall k, Dialer opt k <> Some ErrClosed) ->
  preserves (keepR (counted_pool opt)) (newConn pooled).
Proof.
  intros Hdial w. unfold post. rewrite newConn_eq, dialConn_eq.
  destruct (closed (pool w)) eqn:Hcl; [apply keepR_refl |].
  destruct (circuit_open w) eqn:Hco.
  { destruct (lastDialError (pool w)) eqn:Hle; [apply keepR_refl |].
    assert (Hnone : counted_pool opt w -> False).
    { intros (_ & _ & Hsane & _).
      apply (circuit_open_error w Hsane Hco). exact Hle. }
    rewrite Hcl. destruct (conns (pool w)) as [xs|]; [| exact I].
    destruct pooled; [| intros Hi; destruct (Hnone Hi)].
    destruct (PoolSize (cfg (pool w)) <=? poolSize (pool w)).
    - destruct (heap w !! nil_ptr); [| exact I]. intros Hi. destruct (Hnone Hi).
    - intros Hi. destruct (Hnone Hi). }
  destruct (Dialer (cfg (pool w)) (dials w)) as [err|] eqn:Hd.
  { intros Hi. apply pool_dial_failed; [| exact Hi].
    destruct Hi as (Hcfg & _). rewrite Hcfg in Hd. rewrite <- Hd. apply Hdial. }
  change (closed (pool (dial_ok pooled w))) with (closed (pool w)). rewrite Hcl.
  change (conns (pool (dial_ok pooled w))) with (conns (pool w)).
  destruct (conns (pool w)) as [xs|] eqn:Hxs; [| exact I].
  destruct pooled.
  - destruct (PoolSize (cfg (pool (dial_ok true w))) <=? poolSize (pool (dial_ok true w))).
    + destruct (heap (dial_ok true w) !! nextPtr w) as [c|] eqn:Hc; [| exact I].
      intros Hi.
      apply (pool_registered opt w _ false xs Hi Hxs);
        try (unfold push_conn, dial_ok; simpl_world; first [reflexivity | lia]).
      * intros x Hx. unfold push_conn, dial_ok. simpl_world.
        rewrite !lookup_insert_ne by congruence. reflexivity.
      * unfold is_pooled, push_conn, dial_ok. simpl_world.
        rewrite lookup_insert_eq. reflexivity.
    + intros Hi.
      apply (pool_registered opt w _ true xs Hi Hxs);
        try (unfold push_conn, dial_ok; simpl_world; first [reflexivity | lia]).
      * intros x Hx. unfold push_conn, dial_ok. simpl_world.
        rewrite !lookup_insert_ne by congruence. reflexivity.
      * unfold is_pooled, push_conn, dial_ok. simpl_world.
        rewrite lookup_insert_eq. reflexivity.
  - intros Hi.
    apply (pool_registered opt w _ false xs Hi Hxs);
      try (unfold push_conn, dial_ok; simpl_world; first [reflexivity | lia]).
    + intros x Hx. unfold push_conn, dial_ok. simpl_world.
      rewrite !lookup_insert_ne by congruence. reflexivity.
    + unfold is_pooled, push_conn, dial_ok. simpl_world.
      rewrite lookup_insert_eq. reflexivity.
Qed.

Lemma pool_closeConn opt cn : preserves (keepR (counted_pool opt)) (closeConn cn).
Proof.
  intros w. unfold post. rewrite closeConn_eq.
  destruct (heap w !! cn); [| exact I]. pool_leaf.
Qed.

Lemma pool_Filter_loop opt fn xs firstErr :
  preserves (keepR (counted_pool opt)) (Filter_loop fn xs firstErr).
Proof.
  revert firstErr. induction xs as [|cn xs IH]; intros firstErr; simpl.
  - apply preserves_ret. apply keepR_refl.
  - destruct (fn cn); [| apply IH].
    apply preserves_bind; [apply keepR_trans | | intros; apply IH].
    apply pool_closeConn.
Qed.

Ltac pool_known :=
  match goal with
  | |- preserves _ checkMinIdleConns => apply pool_checkMinIdleConns
  | |- preserves _ (removeConn _) => apply pool_removeConn
  | |- preserves _ (dialConn _) => apply pool_dialConn; assumption
  | |- preserves _ (newConn _) => apply pool_newConn; assumption
  | |- preserves _ (isHealthyConn _) => apply pool_isHealthyConn
  | |- preserves _ (closeConn _) => apply pool_closeConn
  | |- preserves _ tryDial_iter => apply pool_tryDial_iter; assumption
  | |- preserves _ (Filter_loop _ _ _) => apply pool_Filter_loop
  end.

Ltac pool_auto opt :=
  pose proof (keepR_refl (counted_pool opt)) as Hrefl;
  pose proof (keepR_trans (counted_pool opt)) as Htrans;
  repeat first [ assumption | pool_known | preserves_step | unfold_head ];
  try pool_leaf.

Lemma pool_Close opt : preserves (keepR (counted_pool opt)) Close.
Proof.
  intros w. unfold post, Close, List_elements. unfold_monad.
  destruct (_closed (pool w) =? 0); [| apply keepR_refl].
  simpl_world. destruct (conns (pool w)) as [xs|]; [| exact I].
  pose proof (pool_Filter_loop opt (fun _ => true) xs None
                (with_pool (set_closed 1) w)) as Hf.
  pose proof (closed_Filter_loop (fun _ => true) xs None (with_pool (set_closed 1) w))
    as Hc.
  unfold post in Hf, Hc.
  destruct (Filter_loop (fun _ => true) xs None (with_pool (set_closed 1) w))
    as [r w'| |w'|]; try exact I; [| contradiction].
  intros Hi.
  assert (H1 : counted_pool opt (with_pool (set_closed 1) w)).
  { destruct Hi as (Hcfg & Herr & Hsane & Hfresh & Hatt & _). pool_open. simpl_world.
    split; [exact Hcfg |]. split; [exact Herr |]. split; [exact Hsane |].
    split; [exact Hfresh |]. split; [exact Hatt | discriminate]. }
  destruct (Hf H1) as (Hcfg & Herr & Hsane & Hfresh & Hatt & _).
  pool_open. simpl_world.
  split; [exact Hcfg |]. split; [exact Herr |]. split; [exact Hsane |].
  split; [intros cn Hcn; inversion Hcn |]. split; [exact Hatt |].
  rewrite Hc. discriminate.
Qed.

Lemma attaching_delete_sub (gs : list goroutine) k g cn :
  gs !! k = Some g -> cn ∈ attaching_of (delete k gs) -> cn ∈ attaching_of gs.
Proof.
  intros Hk Hcn. destruct (targets_delete gs k g Hk) as (_ & _ & Hatt).
  rewrite Hatt. apply elem_of_app. right. exact Hcn.
Qed.

Lemma pool_run_goroutine opt g k w :
  (forall j, Dialer opt j <> Some ErrClosed) ->
  counted_pool opt w -> goroutines w !! k = Some g ->
  post (run_goroutine g) (set_goroutines (delete k (goroutines w)) w)
    (fun _ w' => counted_pool opt w') (counted_pool opt).
Proof.
  intros Hdial Hi Hk.
  pose proof (pending_delete (goroutines w) k g Hk) as Hdel.
  pose proof (attaching_delete_sub (goroutines w) k g) as Hsub.
  destruct (targets_delete (goroutines w) k g Hk) as (_ & _ & Hperm).
  set (w0 := set_goroutines (delete k (goroutines w)) w).
  assert (H0 : counted_pool_off (if is_pending g then 1 else 0) opt w0).
  { destruct Hi as (Hcfg & Herr & Hsane & Hfresh & Hatt & Hsize).
    pool_open. unfold w0. simpl_world.
    split; [exact Hcfg |]. split; [exact Herr |]. split; [exact Hsane |].
    split; [exact Hfresh |]. split.
    - intros cn Hcn. apply Hatt. exact (Hsub cn Hk Hcn).
    - intros Hopen. specialize (Hsize Hopen). destruct (is_pending g); lia. }
  assert (Hmine : forall cn, g = GoFillerAttach cn ->
                             is_pooled (heap w0) cn = true /\ (cn < nextPtr w0)%nat).
  { intros cn ->. destruct Hi as (_ & _ & _ & _ & Hatt & _). apply Hatt.
    rewrite Hperm. left. }
  clearbody w0. clear Hi Hdel Hsub Hperm Hk.
  destruct g as [|cn|cn|]; cbn [is_pending] in H0; unfold run_goroutine.
  - (* a filler dials *)
    clear Hmine. apply post_bind. unfold post at 1. rewrite dialConn_eq.
    assert (Hrelease : forall w1, counted_pool_off 1 opt w1 ->
                                  counted_pool opt (with_pool release_idle w1)).
    { intros w1 (Hcfg & Herr & Hsane & Hfresh & Hatt & Hsize).
      pool_open. simpl_world.
      split; [exact Hcfg |]. split; [exact Herr |]. split; [exact Hsane |].
      split; [exact Hfresh |]. split; [exact Hatt |].
      intros Hopen. specialize (Hsize Hopen). lia. }
    destruct (closed (pool w0)) eqn:Hcl.
    { unfold post, filler_done. destruct (decide (ErrClosed = ErrClosed)); [| contradiction].
      unfold ret. destruct H0 as (Hcfg & Herr & Hsane & Hfresh & Hatt & _).
      pool_open. rewrite Hcl.
      split; [exact Hcfg |]. split; [exact Herr |]. split; [exact Hsane |].
      split; [exact Hfresh |]. split; [exact Hatt | discriminate]. }
    destruct (circuit_open w0) eqn:Hco.
    { pose proof H0 as (_ & Herr & Hsane & _).
      pose proof (circuit_open_error w0 Hsane Hco) as Hne.
      destruct (lastDialError (pool w0)) as [e|]; [| contradiction].
      unfold post, filler_done. destruct (decide (e = ErrClosed)) as [->|_];
        [contradiction |]. unfold modify. apply Hrelease. exact H0. }
    destruct (Dialer (cfg (pool w0)) (dials w0)) as [err|] eqn:Hd.
    + pose proof H0 as (Hcfg & _). rewrite Hcfg in Hd.
      assert (Hne : Some err <> Some ErrClosed) by (rewrite <- Hd; apply Hdial).
      unfold post, filler_done.
      destruct (decide (err = ErrClosed)) as [->|_]; [contradiction |].
      unfold modify. apply Hrelease. apply pool_dial_failed; assumption.
    + unfold post, modify.
      pose proof (pool_dial_ok 1 opt true w0 H0)
        as (Hcfg & Herr & Hsane & Hfresh & Hatt & Hsize).
      pool_open. unfold dial_ok in *. simpl_world. targets.
      rewrite List.filter_app, length_app. cbn [List.filter is_pending length].
      split; [exact Hcfg |]. split; [exact Herr |]. split; [exact Hsane |].
      split; [exact Hfresh |]. split.
      * intros cn Hcn. apply elem_of_app in Hcn as [Hcn|Hcn]; [exact (Hatt cn Hcn) |].
        apply list_elem_of_singleton in Hcn. subst cn. split; [| lia].
        unfold is_pooled. rewrite lookup_insert_eq. reflexivity.
      * intros Hopen. specialize (Hsize Hopen). lia.
  - (* a filler attaches its connection *)
    destruct (Hmine cn eq_refl) as [Hpooled Hlt]. clear Hmine.
    destruct H0 as (Hcfg & Herr & Hsane & Hfresh & Hatt & Hsize).
    apply post_bind. unfold post at 1. rewrite addIdleConn_attach_eq.
    destruct (closed (pool w0)) eqn:Hcl.
    { rewrite closeConn_eq. destruct (heap w0 !! cn); [| exact I].
      unfold post, filler_done. destruct (decide (ErrClosed = ErrClosed)); [| contradiction].
      unfold ret. pool_open. simpl_world. rewrite Hcl.
      split; [exact Hcfg |]. split; [exact Herr |]. split; [exact Hsane |].
      split; [exact Hfresh |]. split; [exact Hatt | discriminate]. }
    destruct (conns (pool w0)) as [xs|] eqn:Hxs; [| exact I].
    destruct (idleConns (pool w0)) as [ids|]; [| exact I].
    unfold post, filler_done, ret. pool_open. simpl_world.
    rewrite Hxs in *. cbn [live_of] in *. rewrite Hcl in *.
    split; [exact Hcfg |]. split; [exact Herr |]. split; [exact Hsane |].
    split; [| split; [exact Hatt |]].
    + intros x Hx. apply elem_of_app in Hx as [Hx|Hx]; [exact (Hfresh x Hx) |].
      apply list_elem_of_singleton in Hx. subst x. exact Hlt.
    + intros _. specialize (Hsize eq_refl).
      rewrite List.filter_app, length_app. cbn [List.filter].
      rewrite Hpooled. cbn [length]. lia.
  - (* a closing goroutine *)
    clear Hmine. apply post_bind.
    eapply post_mono; [apply (keepR_keeps _ _ (pool_closeConn opt cn) w0) | | auto].
    + destruct H0 as (Hcfg & Herr & Hsane & Hfresh & Hatt & Hsize).
      pool_open. repeat (split; [assumption |]).
      intros Hopen. specialize (Hsize Hopen). lia.
    + intros r w1 H1. exact H1.
  - clear Hmine.
    assert (H0' : counted_pool opt w0).
    { destruct H0 as (Hcfg & Herr & Hsane & Hfresh & Hatt & Hsize).
      pool_open. repeat (split; [assumption |]).
      intros Hopen. specialize (Hsize Hopen). lia. }
    apply post_bind.
    eapply post_mono;
      [apply (keepR_keeps _ _ (pool_tryDial_iter opt Hdial) w0 H0') | | auto].
    intros [|] w1 H1; [exact H1 |].
    unfold post, modify. revert H1. pool_leaf.
Qed.

Lemma pool_invariant_counted opt :
  (forall k, Dialer opt k <> Some ErrClosed) -> pool_invariant (counted_pool opt).
Proof.
  intros Hdial. constructor; intros.
  - apply keepR_keeps. pool_auto opt.
  - apply keepR_keeps. pool_auto opt.
  - apply keepR_keeps. pool_auto opt.
  - apply keepR_keeps. pool_auto opt.
  - apply keepR_keeps. pool_auto opt.
  - apply keepR_keeps. pool_auto opt.
  - apply keepR_keeps. pool_auto opt.
  - apply keepR_keeps. pool_auto opt.
  - apply keepR_keeps. pool_auto opt.
  - apply keepR_keeps, pool_Close.
  - apply keepR_keeps. pool_auto opt.
  - apply keepR_keeps. pool_auto opt.
  - apply (pool_run_goroutine opt g k w Hdial); assumption.
  - revert H. pool_leaf.
  - unfold use_conn. destruct (heap w !! cn) as [c|] eqn:Hc; [| exact H].
    apply (pool_heap_update opt w cn c); [exact Hc | reflexivity | exact H].
Qed.

Lemma pool_start opt e s0 :
  0 < uint32 (PoolSize opt) -> start opt e = Some s0 -> counted_pool opt (world s0).
Proof.
  intros Hsize Hs. unfold start, NewConnPool in Hs.
  destruct (PoolSize opt <? 0); [discriminate |].
  pose proof (pool_checkMinIdleConns opt (new_world opt e)) as Hk.
  unfold post in Hk.
  destruct (checkMinIdleConns (new_world opt e)) as [a w'| | |]; try discriminate.
  inversion Hs; subst. cbn [world]. apply Hk.
  pool_open. unfold new_world, new_pool. simpl_world. cbn [live_of].
  split; [reflexivity |]. split; [discriminate |].
  split; [split; [exact Hsize | lia] |].
  split; [intros cn Hcn; inversion Hcn |].
  split; [intros cn Hcn; inversion Hcn |]. intros _. reflexivity.
Qed.

(** X22.  With [uint32(PoolSize) > 0] and a dialer that never fails with
    [ErrClosed] itself, [poolSize] is exact on an open pool, along every
    schedule of calls and goroutine turns: it is the number of registered
    connections that are marked pooled plus the number of fillers that have
    not finished.  With X3 this bounds the pooled connections: the pool never
    holds more than [PoolSize] of them. *)
Theorem poolSize_exact (opt : Options) (e : Env) (es : list event) (s0 s : Sys)
    (Hsize : 0 < uint32 (PoolSize opt))
    (Hdial : forall k, Dialer opt k <> Some ErrClosed)
    (Hstart : start opt e = Some s0)
    (Hrun : run es s0 = Some s)
    (Hopen : closed (pool (world s)) = false) :
  poolSize (pool (world s)) = pooled_count (world s) + pending (world s)
  /\ pooled_count (world s) <= PoolSize opt.
Proof.
  pose proof (run_keeps (counted_pool opt) es (pool_invariant_counted opt Hdial) s0 s
                (pool_start opt e s0 Hsize Hstart) Hrun) as (_ & _ & _ & _ & _ & H).
  specialize (H Hopen). rewrite Z.add_0_r in H.
  pose proof (run_keeps (sized opt) es (sized_invariant opt) s0 s
                (sized_start opt e s0 Hstart) Hrun) as (_ & _ & Hb).
  split; [exact H |]. unfold pending in *. lia.
Qed.

Lemma poolSize_exact_witness :
  pooled_count (world (sys_or (run flaky_day s_flaky) s_flaky)) <= 4.
Proof.
  destruct (poolSize_exact opt_flaky sound_env flaky_day s_flaky
              (sys_or (run flaky_day s_flaky) s_flaky)) as (_ & H).
  - vm_compute. reflexivity.
  - intros k. unfold opt_flaky, flaky_dialer. cbn [Dialer].
    destruct (Nat.even k); discriminate.
  - vm_compute. reflexivity.
  - vm_compute. reflexivity.
  - vm_compute. reflexivity.
  - exact H.
Defined.
